(** * agentGroup: local persistence, session forking and chat orchestration

    A shallow embedding of the browser-side core of the multi-agent group
    chat client: the IndexedDB access layer ([lib/local-db.ts]), the backup
    codec ([lib/backup.ts]), the OpenAI message builder ([lib/llm.ts]) and the
    chat hook ([hooks/use-chat.ts]), followed by the properties the design
    document states about them.

    Conventions of the embedding
    - A JS string is its sequence of UTF-16 code units, [list N].
    - A JS number used as a timestamp is an integer [Z]: the reading of
      [Date.now()].  The source divides every reading by 1000; on readings of
      the clock that scaling is strictly monotone, so all comparisons between
      timestamps are those of the readings.
    - An object store with a [keyPath] is a finite map from the key to the
      record; [getAll] lists the records in ascending key order.
    - [Date.now()], [crypto.randomUUID()] and the network are oracles: a
      function of the number of earlier reads, with the counters kept in the
      state. *)

From Stdlib Require Import ZArith NArith String Ascii List Lia.
From Stdlib Require Import Sorting.Sorted Sorting.Permutation.
From Stdlib Require Import Decimal DecimalNat DecimalPos DecimalN DecimalFacts.
From stdpp Require Import base option list gmap sorting lexico.

Local Open Scope Z_scope.

(* ================================================================== *)
(** ** JavaScript values *)
(* ================================================================== *)

Abbreviation jsstring := (list N).

Module Js.

(** Reads the bytes of a literal of this file (UTF-8, one to three bytes per
    character) as the UTF-16 code units of the same text. *)
Fixpoint utf16_of_bytes (bs : list N) : jsstring :=
  match bs with
  | [] => []
  | b :: rest =>
      if (b <? 128)%N then b :: utf16_of_bytes rest
      else if (b <? 224)%N then
        match rest with
        | b2 :: rest' => ((b - 192) * 64 + (b2 - 128))%N :: utf16_of_bytes rest'
        | [] => []
        end
      else
        match rest with
        | b2 :: b3 :: rest' =>
            ((b - 224) * 4096 + (b2 - 128) * 64 + (b3 - 128))%N
              :: utf16_of_bytes rest'
        | _ => []
        end
  end.

Definition lit (s : string) : jsstring :=
  utf16_of_bytes (List.map (fun a => N_of_ascii a) (list_ascii_of_string s)).
Arguments lit s%_string.

(** [a || b] on strings: the empty string is falsy. *)
Definition or_else (a b : jsstring) : jsstring :=
  match a with [] => b | _ => a end.

(** [a ?? b]. *)
Definition nullish {A} (a : option A) (b : A) : A :=
  match a with Some x => x | None => b end.

(** ECMAScript WhiteSpace and LineTerminator code units, the set removed by
    [String.prototype.trim]. *)
Definition is_space (c : N) : bool :=
  ((9 <=? c) && (c <=? 13) || (c =? 32) || (c =? 160) || (c =? 5760)
   || (8192 <=? c) && (c <=? 8202) || (c =? 8232) || (c =? 8233)
   || (c =? 8239) || (c =? 8287) || (c =? 12288) || (c =? 65279))%N.

Fixpoint trim_start (s : jsstring) : jsstring :=
  match s with
  | c :: s' => if is_space c then trim_start s' else s
  | [] => []
  end.

Definition trim (s : jsstring) : jsstring :=
  rev (trim_start (rev (trim_start s))).

Definition starts_with (s p : jsstring) : bool :=
  bool_decide (take (length p) s = p).

Definition ends_with (s p : jsstring) : bool :=
  bool_decide (drop (length s - length p) s = p).

(** [toLowerCase] on the code units the file names of this program use:
    the ASCII capitals; every other unit is kept. *)
Definition to_lower (s : jsstring) : jsstring :=
  List.map (fun c => if ((65 <=? c) && (c <=? 90))%N then (c + 32)%N else c) s.

(** [Array.prototype.findIndex]: [None] stands for -1. *)
Definition findIndex {A} (P : A → Prop) `{∀ x, Decision (P x)}
    (l : list A) : option nat :=
  fst <$> list_find P l.

(** [Array.prototype.sort] with a comparator.  The sort is stable, so for a
    comparator that is a total preorder the result is determined; it is
    computed here by insertion from the right. *)
Fixpoint sort_insert {A} (cmp : A → A → Z) (x : A) (l : list A) : list A :=
  match l with
  | [] => [x]
  | y :: l' => if cmp x y <=? 0 then x :: y :: l' else y :: sort_insert cmp x l'
  end.

Definition sort {A} (cmp : A → A → Z) (l : list A) : list A :=
  foldr (sort_insert cmp) [] l.

(** What [catch (e)] can observe of a thrown value: [e.name] when it is a
    string, and the text of [e instanceof Error ? e.message : String(e)]. *)
Record Thrown := { err_name : option jsstring; err_text : jsstring }.

Definition Error (msg : jsstring) : Thrown :=
  {| err_name := Some (lit "Error"); err_text := msg |}.

End Js.

Notation "'js' s" := (Js.lit s) (at level 1, s at level 0, only parsing).
#[global] Arguments Js.lit : simpl never.

(* ================================================================== *)
(** ** JSON ([JSON.stringify], [JSON.parse]) *)
(** ECMA-262, sections 25.5.1 and 25.5.2; the grammar is that of ECMA-404. *)
(* ================================================================== *)

Module Json.

(** A value of the JSON data model.  A number is kept as a literal that
    denotes it; an object is kept as the list of its members, in the order
    of its keys. *)
#[local] Unset Elimination Schemes.
Inductive value :=
| Null
| Bool (b : bool)
| Num (literal : jsstring)
| Str (s : jsstring)
| Arr (items : list value)
| Obj (members : list (jsstring * value)).
#[local] Set Elimination Schemes.

(** *** Printing *)

Definition hex_digit (n : N) : N :=
  if (n <? 10)%N then (48 + n)%N else (87 + n)%N.

(** [\uXXXX], in lower case as [JSON.stringify] writes it. *)
Definition unicode_escape (c : N) : jsstring :=
  [92; 117; hex_digit (c / 4096); hex_digit (c / 256 mod 16);
   hex_digit (c / 16 mod 16); hex_digit (c mod 16)]%N.

Definition is_high_surrogate (c : N) : bool := ((55296 <=? c) && (c <=? 56319))%N.
Definition is_low_surrogate (c : N) : bool := ((56320 <=? c) && (c <=? 57343))%N.

(** The two-character escapes: backspace, tab, line feed, form feed,
    carriage return, the quote and the backslash. *)
Definition short_escape (c : N) : option N :=
  if (c =? 8)%N then Some 98%N
  else if (c =? 9)%N then Some 116%N
  else if (c =? 10)%N then Some 110%N
  else if (c =? 12)%N then Some 102%N
  else if (c =? 13)%N then Some 114%N
  else if (c =? 34)%N then Some 34%N
  else if (c =? 92)%N then Some 92%N
  else None.

(** The characters of [QuoteJSONString] between the quotes.  A surrogate is
    kept when it is half of a pair and escaped when it stands alone. *)
Fixpoint quote_chars (s : jsstring) : jsstring :=
  match s with
  | [] => []
  | c :: s' =>
      match short_escape c with
      | Some e => 92%N :: e :: quote_chars s'
      | None =>
          if (c <? 32)%N then unicode_escape c ++ quote_chars s'
          else if is_high_surrogate c then
            match s' with
            | d :: s'' =>
                if is_low_surrogate d then c :: d :: quote_chars s''
                else unicode_escape c ++ quote_chars s'
            | [] => unicode_escape c
            end
          else if is_low_surrogate c then unicode_escape c ++ quote_chars s'
          else c :: quote_chars s'
      end
  end.

Definition quote (s : jsstring) : jsstring := 34%N :: quote_chars s ++ [34%N].

(** [SerializeJSONProperty] with a gap of two spaces, at the indentation
    [indent]: an array or an object that is not empty puts each element on a
    line of its own, one step further in. *)
Fixpoint print (indent : jsstring) (v : value) : jsstring :=
  let inner := indent ++ [32; 32]%N in
  match v with
  | Null => [110; 117; 108; 108]%N
  | Bool true => [116; 114; 117; 101]%N
  | Bool false => [102; 97; 108; 115; 101]%N
  | Num literal => literal
  | Str s => quote s
  | Arr [] => [91; 93]%N
  | Arr (x :: items) =>
      91%N :: 10%N :: inner ++ print inner x
      ++ concat (List.map (λ y, 44%N :: 10%N :: inner ++ print inner y) items)
      ++ 10%N :: indent ++ [93%N]
  | Obj [] => [123; 125]%N
  | Obj (m :: members) =>
      123%N :: 10%N :: inner ++ quote m.1 ++ [58; 32]%N ++ print inner m.2
      ++ concat (List.map (λ m, 44%N :: 10%N :: inner ++ quote m.1 ++ [58; 32]%N
                                ++ print inner m.2) members)
      ++ 10%N :: indent ++ [125%N]
  end.

(** [JSON.stringify(value, null, 2)] *)
Definition stringify (v : value) : jsstring := print [] v.

(** *** Parsing *)

(** The white space of the grammar: space, tab, line feed, carriage return. *)
Definition is_ws (c : N) : bool :=
  ((c =? 32) || (c =? 9) || (c =? 10) || (c =? 13))%N.

Fixpoint skip_ws (s : jsstring) : jsstring :=
  match s with
  | c :: s' => if is_ws c then skip_ws s' else s
  | [] => []
  end.

Definition is_digit (c : N) : bool := ((48 <=? c) && (c <=? 57))%N.

Definition hex_value (c : N) : option N :=
  if is_digit c then Some (c - 48)%N
  else if ((97 <=? c) && (c <=? 102))%N then Some (c - 87)%N
  else if ((65 <=? c) && (c <=? 70))%N then Some (c - 55)%N
  else None.

(** The character an escape letter stands for. *)
Definition unescape (e : N) : option N :=
  if (e =? 98)%N then Some 8%N
  else if (e =? 116)%N then Some 9%N
  else if (e =? 110)%N then Some 10%N
  else if (e =? 102)%N then Some 12%N
  else if (e =? 114)%N then Some 13%N
  else if (e =? 34)%N then Some 34%N
  else if (e =? 92)%N then Some 92%N
  else if (e =? 47)%N then Some 47%N
  else None.

(** The characters of a string up to its closing quote, and what follows
    the quote. *)
Fixpoint parse_chars (s : jsstring) : option (jsstring * jsstring) :=
  match s with
  | [] => None
  | c :: r =>
      if (c =? 34)%N then Some ([], r)
      else if (c =? 92)%N then
        match r with
        | e :: r1 =>
            if (e =? 117)%N then
              match r1 with
              | h1 :: h2 :: h3 :: h4 :: r2 =>
                  match hex_value h1, hex_value h2, hex_value h3, hex_value h4,
                        parse_chars r2 with
                  | Some a, Some b, Some c, Some d, Some (t, rest) =>
                      Some ((a * 4096 + b * 256 + c * 16 + d)%N :: t, rest)
                  | _, _, _, _, _ => None
                  end
              | _ => None
              end
            else
              match unescape e, parse_chars r1 with
              | Some x, Some (t, rest) => Some (x :: t, rest)
              | _, _ => None
              end
        | [] => None
        end
      else if (c <? 32)%N then None
      else
        match parse_chars r with
        | Some (t, rest) => Some (c :: t, rest)
        | None => None
        end
  end.

(** The longest run of digits a text starts with, and the rest. *)
Fixpoint span_digits (s : jsstring) : jsstring * jsstring :=
  match s with
  | c :: r =>
      if is_digit c then let '(ds, r') := span_digits r in (c :: ds, r')
      else ([], s)
  | [] => ([], [])
  end.

Definition scan_sign (s : jsstring) : jsstring * jsstring :=
  match s with
  | c :: r => if (c =? 45)%N then ([c], r) else ([], s)
  | [] => ([], [])
  end.

(** [0], or a digit that is not [0] followed by digits. *)
Definition scan_int (s : jsstring) : option (jsstring * jsstring) :=
  match s with
  | c :: r =>
      if (c =? 48)%N then Some ([c], r)
      else if is_digit c then let '(ds, r') := span_digits r in Some (c :: ds, r')
      else None
  | [] => None
  end.

(** A point followed by at least one digit, or nothing. *)
Definition scan_frac (s : jsstring) : option (jsstring * jsstring) :=
  match s with
  | c :: r =>
      if (c =? 46)%N then
        match span_digits r with
        | ([], _) => None
        | (ds, r') => Some (c :: ds, r')
        end
      else Some ([], s)
  | [] => Some ([], [])
  end.

(** [e] or [E], a sign or none, and at least one digit; or nothing. *)
Definition scan_exp (s : jsstring) : option (jsstring * jsstring) :=
  match s with
  | c :: r =>
      if ((c =? 101) || (c =? 69))%N then
        let '(sg, r1) :=
          match r with
          | d :: r1 => if ((d =? 43) || (d =? 45))%N then ([d], r1) else ([], r)
          | [] => ([], [])
          end in
        match span_digits r1 with
        | ([], _) => None
        | (ds, r2) => Some (c :: sg ++ ds, r2)
        end
      else Some ([], s)
  | [] => Some ([], [])
  end.

(** The number literal a text starts with, and the rest. *)
Definition parse_number (s : jsstring) : option (jsstring * jsstring) :=
  let '(a, s1) := scan_sign s in
  match scan_int s1 with
  | Some (b, s2) =>
      match scan_frac s2 with
      | Some (c, s3) =>
          match scan_exp s3 with
          | Some (d, s4) => Some (a ++ b ++ c ++ d, s4)
          | None => None
          end
      | None => None
      end
  | None => None
  end.

Fixpoint strip_prefix (p s : jsstring) : option jsstring :=
  match p, s with
  | [], _ => Some s
  | a :: p', b :: s' => if (a =? b)%N then strip_prefix p' s' else None
  | _ :: _, [] => None
  end.

Section Items.
Context (parse_value : jsstring → option (value * jsstring)).

(** After an element: the end of the array, or a comma and an element. *)
Fixpoint parse_elements (fuel : nat) (s : jsstring)
    : option (list value * jsstring) :=
  match fuel with
  | O => None
  | S fuel' =>
      match skip_ws s with
      | c :: r =>
          if (c =? 93)%N then Some ([], r)
          else if (c =? 44)%N then
            match parse_value r with
            | Some (v, r1) =>
                match parse_elements fuel' r1 with
                | Some (vs, r2) => Some (v :: vs, r2)
                | None => None
                end
            | None => None
            end
          else None
      | [] => None
      end
  end.

(** A key, a colon and a value. *)
Definition parse_member (s : jsstring) : option ((jsstring * value) * jsstring) :=
  match skip_ws s with
  | c :: r =>
      if (c =? 34)%N then
        match parse_chars r with
        | Some (k, r1) =>
            match skip_ws r1 with
            | c1 :: r2 =>
                if (c1 =? 58)%N then
                  match parse_value r2 with
                  | Some (v, r3) => Some ((k, v), r3)
                  | None => None
                  end
                else None
            | [] => None
            end
        | None => None
        end
      else None
  | [] => None
  end.

(** After a member: the end of the object, or a comma and a member. *)
Fixpoint parse_members (fuel : nat) (s : jsstring)
    : option (list (jsstring * value) * jsstring) :=
  match fuel with
  | O => None
  | S fuel' =>
      match skip_ws s with
      | c :: r =>
          if (c =? 125)%N then Some ([], r)
          else if (c =? 44)%N then
            match parse_member r with
            | Some (m, r1) =>
                match parse_members fuel' r1 with
                | Some (ms, r2) => Some (m :: ms, r2)
                | None => None
                end
            | None => None
            end
          else None
      | [] => None
      end
  end.

End Items.

(** The value a text starts with, and the rest.  The fuel bounds the depth
    of the value and the length of its arrays and objects. *)
Fixpoint parse_value (fuel : nat) (s : jsstring) : option (value * jsstring) :=
  match fuel with
  | O => None
  | S fuel' =>
      match skip_ws s with
      | [] => None
      | c :: r =>
          if (c =? 123)%N then
            match skip_ws r with
            | c1 :: r1 =>
                if (c1 =? 125)%N then Some (Obj [], r1)
                else
                  match parse_member (parse_value fuel') r with
                  | Some (m, r2) =>
                      match parse_members (parse_value fuel') fuel' r2 with
                      | Some (ms, r3) => Some (Obj (m :: ms), r3)
                      | None => None
                      end
                  | None => None
                  end
            | [] => None
            end
          else if (c =? 91)%N then
            match skip_ws r with
            | c1 :: r1 =>
                if (c1 =? 93)%N then Some (Arr [], r1)
                else
                  match parse_value fuel' r with
                  | Some (v, r2) =>
                      match parse_elements (parse_value fuel') fuel' r2 with
                      | Some (vs, r3) => Some (Arr (v :: vs), r3)
                      | None => None
                      end
                  | None => None
                  end
            | [] => None
            end
          else if (c =? 34)%N then
            match parse_chars r with
            | Some (t, r1) => Some (Str t, r1)
            | None => None
            end
          else if (c =? 116)%N then
            match strip_prefix [114; 117; 101]%N r with
            | Some r1 => Some (Bool true, r1)
            | None => None
            end
          else if (c =? 102)%N then
            match strip_prefix [97; 108; 115; 101]%N r with
            | Some r1 => Some (Bool false, r1)
            | None => None
            end
          else if (c =? 110)%N then
            match strip_prefix [117; 108; 108]%N r with
            | Some r1 => Some (Null, r1)
            | None => None
            end
          else
            match parse_number (c :: r) with
            | Some (literal, r1) => Some (Num literal, r1)
            | None => None
            end
      end
  end.

(** [JSON.parse(text)]; [None] when it throws a [SyntaxError].  A text is
    never nested deeper, and holds no more elements, than it has
    characters. *)
Definition parse (text : jsstring) : option value :=
  match parse_value (S (length text)) text with
  | Some (v, rest) =>
      match skip_ws rest with
      | [] => Some v
      | _ :: _ => None
      end
  | None => None
  end.

(** *** Values that are printed and read back *)

Definition code_units (s : jsstring) : bool := forallb (λ c, (c <? 65536)%N) s.

(** Every string is a string of 16-bit code units and every number is a
    literal of the grammar. *)
Fixpoint wf (v : value) : bool :=
  match v with
  | Null | Bool _ => true
  | Num literal => bool_decide (parse_number literal = Some (literal, []))
  | Str s => code_units s
  | Arr items => forallb wf items
  | Obj members => forallb (λ m, code_units m.1 && wf m.2) members
  end.

Fixpoint size (v : value) : nat :=
  match v with
  | Arr items => S (list_sum (List.map size items))
  | Obj members => S (list_sum (List.map (λ m, size m.2) members))
  | _ => 1%nat
  end.

(** [object[key]]: the member written last wins. *)
Fixpoint get (key : jsstring) (members : list (jsstring * value)) : option value :=
  match members with
  | [] => None
  | (k, v) :: members' =>
      match get key members' with
      | Some v' => Some v'
      | None => if bool_decide (k = key) then Some v else None
      end
  end.

End Json.

#[global] Instance Json_value_eq_dec : EqDecision Json.value.
Proof.
  unfold EqDecision. fix go 1. intros x y.
  destruct x as [|b|n|s|l|m], y as [|b'|n'|s'|l'|m'];
    try (right; discriminate); try (left; reflexivity).
  - destruct (decide (b = b')) as [->|]; [by left|right; congruence].
  - destruct (decide (n = n')) as [->|]; [by left|right; congruence].
  - destruct (decide (s = s')) as [->|]; [by left|right; congruence].
  - destruct (list_eq_dec (dec := go) l l') as [->|]; [by left|right; congruence].
  - destruct (list_eq_dec (dec := prod_eq_dec (EqDecision1 := go)) m m') as [->|]; [by left|right; congruence].
Defined.

(** *** Numbers *)

Module Number.

Fixpoint text_of_uint (d : Decimal.uint) : jsstring :=
  match d with
  | Decimal.Nil => []
  | Decimal.D0 d => 48%N :: text_of_uint d
  | Decimal.D1 d => 49%N :: text_of_uint d
  | Decimal.D2 d => 50%N :: text_of_uint d
  | Decimal.D3 d => 51%N :: text_of_uint d
  | Decimal.D4 d => 52%N :: text_of_uint d
  | Decimal.D5 d => 53%N :: text_of_uint d
  | Decimal.D6 d => 54%N :: text_of_uint d
  | Decimal.D7 d => 55%N :: text_of_uint d
  | Decimal.D8 d => 56%N :: text_of_uint d
  | Decimal.D9 d => 57%N :: text_of_uint d
  end.

(** The decimal digits of a natural number. *)
Definition print_nat (n : N) : jsstring := text_of_uint (N.to_uint n).

(** [Number::toString] of an integer below 10^21 in size. *)
Definition print_int (z : Z) : jsstring :=
  (if (z <? 0)%Z then [45%N] else []) ++ print_nat (Z.abs_N z).

(** The digits after the point of [r / 1000], for [r] below 1000: three
    digits without the zeros at their end. *)
Definition frac_digits (r : N) : list N :=
  let a := (r / 100)%N in
  let b := ((r / 10) mod 10)%N in
  let c := (r mod 10)%N in
  if (r =? 0)%N then []
  else if (c =? 0)%N then (if (b =? 0)%N then [a] else [a; b])
  else [a; b; c].

(** [Number::toString] of [t / 1000] for an integer [t], as the source
    computes its timestamps from the readings of the clock: the integer
    part, and the thousandths when there are any. *)
Definition print_millis (t : Z) : jsstring :=
  (if (t <? 0)%Z then [45%N] else [])
  ++ print_nat (Z.abs_N t / 1000)
  ++ match frac_digits (Z.abs_N t mod 1000) with
     | [] => []
     | ds => 46%N :: ((λ d, (48 + d)%N) <$> ds)
     end.

Definition read_digits (s : jsstring) : N :=
  foldl (λ acc c, (10 * acc + (c - 48))%N) 0%N s.

(** The decimal a literal denotes: an integer and a power of ten. *)
Definition decimal_of (literal : jsstring) : option (Z * Z) :=
  let '(sign, s1) := Json.scan_sign literal in
  match Json.scan_int s1 with
  | Some (int, s2) =>
      match Json.scan_frac s2 with
      | Some (frac, s3) =>
          match Json.scan_exp s3 with
          | Some (exp, []) =>
              let m := Z.of_N (read_digits (int ++ drop 1 frac)) in
              let e :=
                match exp with
                | _ :: c :: ds =>
                    if (c =? 45)%N then (- Z.of_N (read_digits ds))%Z
                    else if (c =? 43)%N then Z.of_N (read_digits ds)
                    else Z.of_N (read_digits (c :: ds))
                | _ => 0%Z
                end in
              Some (match sign with [] => m | _ => (- m)%Z end,
                    (e - Z.of_nat (length (drop 1 frac)))%Z)
          | _ => None
          end
      | None => None
      end
  | None => None
  end.

(** [m * 10^(e + shift)], when that is an integer. *)
Definition scaled (shift : Z) (d : Z * Z) : option Z :=
  let k := (d.2 + shift)%Z in
  if (0 <=? k)%Z then Some (d.1 * 10 ^ k)%Z
  else if (d.1 mod 10 ^ (- k) =? 0)%Z then Some (d.1 / 10 ^ (- k))%Z
  else None.

(** The integer a literal denotes, if it denotes one. *)
Definition as_int (literal : jsstring) : option Z :=
  decimal_of literal ≫= scaled 0.

(** The reading of the clock a literal stands for: a thousand times the
    number it denotes, if that is an integer. *)
Definition as_millis (literal : jsstring) : option Z :=
  decimal_of literal ≫= scaled 3.

End Number.

(* ================================================================== *)
(** ** UTF-8 ([TextEncoder], [TextDecoder], [Blob], [File.text]) *)
(** WHATWG Encoding, sections 4.2, 6.1 and 9.1: what [strToU8] and
    [strFromU8] of fflate and the constructor and the readers of a [Blob]
    apply to a string and to bytes. *)
(* ================================================================== *)

Module Utf8.

(** The bytes of a scalar value. *)
Definition encode_scalar (cp : N) : list N :=
  if (cp <? 128)%N then [cp]
  else if (cp <? 2048)%N then [192 + cp / 64; 128 + cp mod 64]%N
  else if (cp <? 65536)%N then
    [224 + cp / 4096; 128 + (cp / 64) mod 64; 128 + cp mod 64]%N
  else
    [240 + cp / 262144; 128 + (cp / 4096) mod 64; 128 + (cp / 64) mod 64;
     128 + cp mod 64]%N.

(** A string is first made a sequence of scalar values: a surrogate pair is
    the scalar above the 16-bit range it encodes, and a surrogate that stands
    alone is replaced by U+FFFD. *)
Fixpoint encode (s : jsstring) : list N :=
  match s with
  | [] => []
  | c :: s' =>
      if Json.is_high_surrogate c then
        match s' with
        | d :: s'' =>
            if Json.is_low_surrogate d
            then encode_scalar (65536 + (c - 55296) * 1024 + (d - 56320))
                 ++ encode s''
            else encode_scalar 65533 ++ encode s'
        | [] => encode_scalar 65533
        end
      else if Json.is_low_surrogate c then encode_scalar 65533 ++ encode s'
      else encode_scalar c ++ encode s'
  end.

(** The code units of a scalar value. *)
Definition units (cp : N) : jsstring :=
  if (cp <? 65536)%N then [cp]
  else [55296 + (cp - 65536) / 1024; 56320 + (cp - 65536) mod 1024]%N.

Definition in_range (lo hi b : N) : bool := ((lo <=? b) && (b <=? hi))%N.

(** The bounds of the byte that follows a lead byte. *)
Definition lower (lead : N) : N :=
  if (lead =? 224)%N then 160%N else if (lead =? 240)%N then 144%N else 128%N.
Definition upper (lead : N) : N :=
  if (lead =? 237)%N then 159%N else if (lead =? 244)%N then 143%N else 191%N.

(** The UTF-8 decoder without the handling of the byte order mark: a byte
    that cannot start or continue a sequence ends the sequence with U+FFFD
    and is read again as the start of the next one. *)
Fixpoint decode_scalars (bytes : list N) : jsstring :=
  match bytes with
  | [] => []
  | b :: r =>
      if (b <? 128)%N then b :: decode_scalars r
      else if in_range 194 223 b then
        match r with
        | b1 :: r1 =>
            if in_range 128 191 b1
            then units ((b - 192) * 64 + (b1 - 128)) ++ decode_scalars r1
            else 65533%N :: decode_scalars r
        | [] => [65533%N]
        end
      else if in_range 224 239 b then
        match r with
        | b1 :: r1 =>
            if in_range (lower b) (upper b) b1 then
              match r1 with
              | b2 :: r2 =>
                  if in_range 128 191 b2
                  then units ((b - 224) * 4096 + (b1 - 128) * 64 + (b2 - 128))
                       ++ decode_scalars r2
                  else 65533%N :: decode_scalars r1
              | [] => [65533%N]
              end
            else 65533%N :: decode_scalars r
        | [] => [65533%N]
        end
      else if in_range 240 244 b then
        match r with
        | b1 :: r1 =>
            if in_range (lower b) (upper b) b1 then
              match r1 with
              | b2 :: r2 =>
                  if in_range 128 191 b2 then
                    match r2 with
                    | b3 :: r3 =>
                        if in_range 128 191 b3
                        then units ((b - 240) * 262144 + (b1 - 128) * 4096
                                    + (b2 - 128) * 64 + (b3 - 128))
                             ++ decode_scalars r3
                        else 65533%N :: decode_scalars r2
                    | [] => [65533%N]
                    end
                  else 65533%N :: decode_scalars r1
              | [] => [65533%N]
              end
            else 65533%N :: decode_scalars r
        | [] => [65533%N]
        end
      else 65533%N :: decode_scalars r
  end.

(** [UTF-8 decode]: a byte order mark at the start is dropped. *)
Definition decode (bytes : list N) : jsstring :=
  match bytes with
  | 239%N :: 187%N :: 191%N :: r => decode_scalars r
  | _ => decode_scalars bytes
  end.

End Utf8.

(* ================================================================== *)
(** ** Data model ([types/index.ts], [lib/local-db.ts]) *)
(** In the sources: [src/unnamed/part_006] and [src/消息/对话记录] (the types),
    [src/frontend/src/lib/local-db.ts] lines 8-47 (the stored records). *)
(* ================================================================== *)

Module Agent.
Record t := mk {
  name : jsstring;
  system_prompt : jsstring;
  avatar_url : option jsstring;
  model : option jsstring;
  (** [Record<string, unknown>]: the members of the object. *)
  custom_params : option (list (jsstring * Json.value));
  base_url : option jsstring;
  api_key : option jsstring;
  stream : option bool;
  order : option Z
}.
End Agent.

Inductive Kind := KUser | KAgent | KSystem.

Module TranscriptItem.
Inductive t :=
| User (id content : jsstring) (images : option (list jsstring))
| Agent (id speaker content : jsstring) (images : option (list jsstring))
        (isStreaming : option bool)
| System (id content : jsstring).

Definition id (i : t) : jsstring :=
  match i with User x _ _ | Agent x _ _ _ _ | System x _ => x end.
Definition kind (i : t) : Kind :=
  match i with User _ _ _ => KUser | Agent _ _ _ _ _ => KAgent | System _ _ => KSystem end.
Definition content (i : t) : jsstring :=
  match i with User _ c _ | Agent _ _ c _ _ | System _ c => c end.
Definition images (i : t) : option (list jsstring) :=
  match i with User _ _ im | Agent _ _ _ im _ => im | System _ _ => None end.
Definition isStreaming (i : t) : option bool :=
  match i with Agent _ _ _ _ s => s | _ => None end.

(** [{ ...item, id }] *)
Definition with_id (i : t) (x : jsstring) : t :=
  match i with
  | User _ c im => User x c im
  | Agent _ s c im st => Agent x s c im st
  | System _ c => System x c
  end.
End TranscriptItem.

Module StoredMessage.
Inductive t :=
| User (id content : jsstring) (images : option (list jsstring)) (created_at : Z)
| Agent (id speaker content : jsstring) (images : option (list jsstring))
        (created_at : Z)
| System (id content : jsstring) (created_at : Z).

Definition id (m : t) : jsstring :=
  match m with User x _ _ _ | Agent x _ _ _ _ | System x _ _ => x end.
Definition kind (m : t) : Kind :=
  match m with User _ _ _ _ => KUser | Agent _ _ _ _ _ => KAgent | System _ _ _ => KSystem end.
Definition content (m : t) : jsstring :=
  match m with User _ c _ _ | Agent _ _ c _ _ | System _ c _ => c end.
Definition created_at (m : t) : Z :=
  match m with User _ _ _ t | Agent _ _ _ _ t | System _ _ t => t end.

(** [{ ...m, id }] *)
Definition with_id (m : t) (x : jsstring) : t :=
  match m with
  | User _ c im t => User x c im t
  | Agent _ s c im t => Agent x s c im t
  | System _ c t => System x c t
  end.

(** [{ ...m, content }] *)
Definition with_content (m : t) (c : jsstring) : t :=
  match m with
  | User x _ im t => User x c im t
  | Agent x s _ im t => Agent x s c im t
  | System x _ t => System x c t
  end.
End StoredMessage.

Module StoredSession.
(** [order] is not declared by [StoredSession] in [local-db.ts]; it is
    declared on [SessionSummary] in [types/index.ts], and a record keeps it
    when it arrives with one ([dbSetSessions] and [dbImportBundle] store the
    objects they are given). *)
Record t := mk {
  id : jsstring;
  name : jsstring;
  global_prompt : jsstring;
  created_at : Z;
  updated_at : Z;
  messages : list StoredMessage.t;
  order : option Z
}.
End StoredSession.

Module SessionSummary.
Record t := mk {
  id : jsstring;
  name : jsstring;
  global_prompt : jsstring;
  created_at : Z;
  message_count : nat;
  order : option Z
}.
End SessionSummary.

Module SessionDetail.
(** [SessionSummary & { history }] *)
Record t := mk {
  summary : SessionSummary.t;
  history : list TranscriptItem.t
}.
End SessionDetail.

Module ExportBundleV1.
(** The declared type fixes [app] and [version]; a parsed file can hold
    anything there, which is what [dbImportBundle] checks. *)
Record t := mk {
  app : jsstring;
  version : Z;
  exported_at : Z;
  agents : list Agent.t;
  sessions : list StoredSession.t;
  active_session_id : option jsstring
}.
End ExportBundleV1.

#[global] Instance Kind_eq_dec : EqDecision Kind.
Proof. solve_decision. Defined.
#[global] Instance Agent_eq_dec : EqDecision Agent.t.
Proof. solve_decision. Defined.
#[global] Instance TranscriptItem_eq_dec : EqDecision TranscriptItem.t.
Proof. solve_decision. Defined.
#[global] Instance StoredMessage_eq_dec : EqDecision StoredMessage.t.
Proof. solve_decision. Defined.
#[global] Instance StoredSession_eq_dec : EqDecision StoredSession.t.
Proof. solve_decision. Defined.
#[global] Instance SessionSummary_eq_dec : EqDecision SessionSummary.t.
Proof. solve_decision. Defined.
#[global] Instance ExportBundleV1_eq_dec : EqDecision ExportBundleV1.t.
Proof. solve_decision. Defined.

(* ================================================================== *)
(** ** Effects: state, exceptions and the oracles *)
(* ================================================================== *)

Inductive Outcome (A : Type) :=
| Returned (a : A)
| Threw (e : Js.Thrown).
Arguments Returned {A} a.
Arguments Threw {A} e.

(** A computation over a state [S] that returns or throws; the state reached
    when it throws is kept, as the writes made before a JS exception are. *)
Definition M (S A : Type) : Type := S → Outcome A * S.

Definition ret {S A} (a : A) : M S A := λ s, (Returned a, s).
Definition throw {S A} (e : Js.Thrown) : M S A := λ s, (Threw e, s).
Definition bind {S A B} (c : M S A) (k : A → M S B) : M S B :=
  λ s, match c s with
       | (Returned a, s') => k a s'
       | (Threw e, s') => (Threw e, s')
       end.
(** [try { c } catch (e) { h e }] *)
Definition try_catch {S A} (c : M S A) (h : Js.Thrown → M S A) : M S A :=
  λ s, match c s with
       | (Returned a, s') => (Returned a, s')
       | (Threw e, s') => h e s'
       end.
(** [try { c } finally { f }] *)
Definition finally {S A} (c : M S A) (f : S → S) : M S A :=
  λ s, let '(r, s') := c s in (r, f s').
Definition gets {S A} (f : S → A) : M S A := λ s, (Returned (f s), s).
Definition modify {S} (f : S → S) : M S unit := λ s, (Returned tt, f s).

Notation "x <- c ;; k" := (bind c (λ x, k))
  (at level 100, c at next level, right associativity).
Notation "c ;;; k" := (bind c (λ _, k))
  (at level 100, right associativity).

Fixpoint mapM {S A B} (f : A → M S B) (l : list A) : M S (list B) :=
  match l with
  | [] => ret []
  | x :: l' => y <- f x ;; ys <- mapM f l' ;; ret (y :: ys)
  end.

(** A computation of which the model covers a part of the inputs only:
    [None] where it says nothing. *)
Definition Partial (S A : Type) : Type := S → option (Outcome A * S).

Definition total {S A} (c : M S A) : Partial S A := λ s, Some (c s).

Definition pbind {S A B} (c : Partial S A) (k : A → Partial S B) : Partial S B :=
  λ s, match c s with
       | Some (Returned a, s') => k a s'
       | Some (Threw e, s') => Some (Threw e, s')
       | None => None
       end.

(** The readings of [Date.now()] and the values of [crypto.randomUUID()], by
    the number of earlier calls. *)
Record Env := {
  Date_now : nat → Z;
  randomUUID : nat → jsstring
}.

(* ================================================================== *)
(** ** The object stores *)
(* ================================================================== *)

Module ObjectStore.

(** IndexedDB orders string keys by code units. *)
Definition key_le (a b : jsstring) : Prop := a = b ∨ lexico a b.

#[global] Instance key_le_dec : RelDecision key_le.
Proof. intros a b. unfold key_le. apply _. Defined.

Definition entry_le {V} (a b : jsstring * V) : Prop := key_le a.1 b.1.

#[global] Instance entry_le_dec {V} : RelDecision (@entry_le V).
Proof. intros a b. unfold entry_le. apply _. Defined.

Definition getAll {V} (m : gmap jsstring V) : list V :=
  (merge_sort entry_le (map_to_list m)).*2.

(** [for (const v of vs) store.put(v)] *)
Definition putAll {V} (key : V → jsstring) (vs : list V)
    (m : gmap jsstring V) : gmap jsstring V :=
  foldl (λ acc v, <[key v := v]> acc) m vs.

End ObjectStore.

Record World := mkWorld {
  agents : gmap jsstring Agent.t;            (* keyPath: "name" *)
  sessions : gmap jsstring StoredSession.t;  (* keyPath: "id" *)
  ticks : nat;                               (* reads of Date.now() so far *)
  draws : nat                                (* calls of randomUUID() so far *)
}.

Definition set_agents (f : gmap jsstring Agent.t → gmap jsstring Agent.t)
    (w : World) : World :=
  mkWorld (f (agents w)) (sessions w) (ticks w) (draws w).
Definition set_sessions
    (f : gmap jsstring StoredSession.t → gmap jsstring StoredSession.t)
    (w : World) : World :=
  mkWorld (agents w) (f (sessions w)) (ticks w) (draws w).

(* ================================================================== *)
(** ** [lib/local-db.ts] *)
(** In the sources: [src/frontend/src/lib/local-db.ts], lines 1-364. *)
(* ================================================================== *)

Module LocalDb.
Section Ops.
Context (env : Env).

(** [Date.now() / 1000] *)
Definition now : M World Z :=
  λ w, (Returned (Date_now env (ticks w)),
        mkWorld (agents w) (sessions w) (S (ticks w)) (draws w)).

Definition _newId : M World jsstring :=
  λ w, (Returned (randomUUID env (draws w)),
        mkWorld (agents w) (sessions w) (ticks w) (S (draws w))).

Definition put_session (s : StoredSession.t) : M World unit :=
  modify (set_sessions (insert (StoredSession.id s) s)).

Definition _toSessionSummary (session : StoredSession.t) : SessionSummary.t :=
  {| SessionSummary.id := StoredSession.id session;
     SessionSummary.name := StoredSession.name session;
     SessionSummary.global_prompt := StoredSession.global_prompt session;
     SessionSummary.created_at := StoredSession.created_at session;
     SessionSummary.message_count := length (StoredSession.messages session);
     SessionSummary.order := None |}.

Definition _toTranscript (items : list StoredMessage.t) : list TranscriptItem.t :=
  (λ m, match m with
        | StoredMessage.User i c im _ => TranscriptItem.User i c im
        | StoredMessage.System i c _ => TranscriptItem.System i c
        | StoredMessage.Agent i s c im _ => TranscriptItem.Agent i s c im None
        end) <$> items.

Definition _toStoredMessage (item : TranscriptItem.t) (created_at : Z)
    : StoredMessage.t :=
  match item with
  | TranscriptItem.User i c im => StoredMessage.User i c im created_at
  | TranscriptItem.System i c => StoredMessage.System i c created_at
  | TranscriptItem.Agent i s c im _ => StoredMessage.Agent i s c im created_at
  end.

Definition dbGetAgents : M World (list Agent.t) :=
  gets (λ w, ObjectStore.getAll (agents w)).

Definition dbSetAgents (l : list Agent.t) : M World unit :=
  modify (set_agents (λ _, ObjectStore.putAll Agent.name l ∅)).

Definition dbUpsertAgent (a : Agent.t) : M World unit :=
  modify (set_agents (insert (Agent.name a) a)).

Definition dbDeleteAgent (name : jsstring) : M World unit :=
  modify (set_agents (delete name)).

Definition dbListSessions : M World (list SessionSummary.t) :=
  all <- gets (λ w, ObjectStore.getAll (sessions w)) ;;
  ret (_toSessionSummary <$>
         Js.sort (λ a b, StoredSession.created_at b - StoredSession.created_at a) all).

Definition dbSetSessions (l : list StoredSession.t) : M World unit :=
  modify (set_sessions (λ _, ObjectStore.putAll StoredSession.id l ∅)).

Definition dbGetSession (sessionId : jsstring) : M World (option StoredSession.t) :=
  gets (λ w, sessions w !! sessionId).

Definition dbGetSessionDetail (sessionId : jsstring)
    : M World (option SessionDetail.t) :=
  found <- dbGetSession sessionId ;;
  match found with
  | None => ret None
  | Some session =>
      ret (Some (SessionDetail.mk (_toSessionSummary session)
                   (_toTranscript (StoredSession.messages session))))
  end.

Definition dbCreateSession (name global_prompt : jsstring)
    : M World SessionSummary.t :=
  t <- now ;;
  i <- _newId ;;
  let session := StoredSession.mk i name global_prompt t t [] None in
  put_session session ;;;
  ret (_toSessionSummary session).

Definition dbUpdateSession (sessionId : jsstring)
    (upd_name upd_global_prompt : option jsstring) : M World unit :=
  found <- dbGetSession sessionId ;;
  match found with
  | None => ret tt
  | Some session =>
      t <- now ;;
      put_session
        (StoredSession.mk (StoredSession.id session)
           (Js.nullish upd_name (StoredSession.name session))
           (Js.nullish upd_global_prompt (StoredSession.global_prompt session))
           (StoredSession.created_at session) t
           (StoredSession.messages session) (StoredSession.order session))
  end.

Definition dbDeleteSession (sessionId : jsstring) : M World unit :=
  modify (set_sessions (delete sessionId)).

(** [{ ...session, updated_at, messages }] *)
Definition touch (session : StoredSession.t) (updated_at : Z)
    (messages : list StoredMessage.t) : StoredSession.t :=
  StoredSession.mk (StoredSession.id session) (StoredSession.name session)
    (StoredSession.global_prompt session) (StoredSession.created_at session)
    updated_at messages (StoredSession.order session).

Definition dbAppendMessage (sessionId : jsstring) (item : TranscriptItem.t)
    : M World jsstring :=
  found <- dbGetSession sessionId ;;
  match found with
  | None => throw (Js.Error (js "Session not found"))
  | Some session =>
      created_at <- now ;;
      messageId <- match TranscriptItem.id item with
                   | [] => _newId
                   | i => ret i
                   end ;;
      let storedItem :=
        _toStoredMessage (TranscriptItem.with_id item messageId) created_at in
      put_session
        (touch session created_at (StoredSession.messages session ++ [storedItem])) ;;;
      ret messageId
  end.

Definition dbUpsertMessage (sessionId : jsstring) (item : TranscriptItem.t)
    : M World unit :=
  found <- dbGetSession sessionId ;;
  match found with
  | None => throw (Js.Error (js "Session not found"))
  | Some session =>
      let msgs := StoredSession.messages session in
      let idx := Js.findIndex (λ m, StoredMessage.id m = TranscriptItem.id item) msgs in
      created_at <- match idx with
                    | Some i => ret (default 0 (StoredMessage.created_at <$> msgs !! i))
                    | None => now
                    end ;;
      let stored := _toStoredMessage item created_at in
      let nextMessages :=
        match idx with
        | Some i => <[i := stored]> msgs
        | None => msgs ++ [stored]
        end in
      t <- now ;;
      put_session (touch session t nextMessages)
  end.

Definition dbUpdateMessageContent (sessionId messageId content : jsstring)
    : M World bool :=
  found <- dbGetSession sessionId ;;
  match found with
  | None => ret false
  | Some session =>
      let msgs := StoredSession.messages session in
      match list_find (λ m, StoredMessage.id m = messageId) msgs with
      | None => ret false
      | Some (idx, msg) =>
          t <- now ;;
          put_session
            (touch session t (<[idx := StoredMessage.with_content msg content]> msgs)) ;;;
          ret true
      end
  end.

Definition dbDeleteMessage (sessionId messageId : jsstring) : M World bool :=
  found <- dbGetSession sessionId ;;
  match found with
  | None => ret false
  | Some session =>
      let msgs := StoredSession.messages session in
      let nextMessages :=
        filter (λ m, StoredMessage.id m ≠ messageId) msgs in
      if bool_decide (length nextMessages = length msgs) then ret false
      else
        t <- now ;;
        put_session (touch session t nextMessages) ;;;
        ret true
  end.

(** [(m) => ({ ...m, id: _newId() })] *)
Definition fresh_copy (m : StoredMessage.t) : M World StoredMessage.t :=
  x <- _newId ;; ret (StoredMessage.with_id m x).

Definition dbForkSessionFromMessage (sourceSessionId messageId : jsstring)
    (newName : option jsstring) : M World (option SessionSummary.t) :=
  found <- dbGetSession sourceSessionId ;;
  match found with
  | None => ret None
  | Some source =>
      let msgs := StoredSession.messages source in
      match Js.findIndex (λ m, StoredMessage.id m = messageId) msgs with
      | None => ret None
      | Some idx =>
          t <- now ;;
          i <- _newId ;;
          copies <- mapM fresh_copy (take (idx + 1) msgs) ;;
          let forked :=
            StoredSession.mk i
              (Js.or_else (Js.nullish newName [])
                 (StoredSession.name source ++ js " (分支)"))
              (StoredSession.global_prompt source) t t copies None in
          put_session forked ;;;
          ret (Some (_toSessionSummary forked))
      end
  end.

Definition dbExportBundle (activeSessionId : option jsstring)
    : M World ExportBundleV1.t :=
  ags <- gets (λ w, ObjectStore.getAll (agents w)) ;;
  ses <- gets (λ w, ObjectStore.getAll (sessions w)) ;;
  t <- now ;;
  ret (ExportBundleV1.mk (js "agent-group") 1 t ags ses activeSessionId).

Definition dbImportBundle (bundle : ExportBundleV1.t) : M World unit :=
  if bool_decide (ExportBundleV1.app bundle ≠ js "agent-group"
                  ∨ ExportBundleV1.version bundle ≠ 1)
  then throw (Js.Error (js "Unsupported import file"))
  else
    modify (λ w,
      mkWorld
        (ObjectStore.putAll Agent.name (ExportBundleV1.agents bundle) ∅)
        (ObjectStore.putAll StoredSession.id (ExportBundleV1.sessions bundle) ∅)
        (ticks w) (draws w)).

End Ops.
End LocalDb.

(* ================================================================== *)
(** ** [lib/backup.ts] *)
(** In the sources: [src/frontend - 副本/src/lib/backup.ts], lines 1-58. *)
(* ================================================================== *)

Module Backup.

(** *** What [JSON.parse] returns, as the import reads it

    [JSON.parse(text) as ExportBundleV1] (lines 42 and 49) checks nothing, so
    [dbImportBundle] is handed whatever the text holds.  A parsed value is
    described by what lines 353-364 of [local-db.ts] and [handleImportFile]
    observe of it. *)

(** A value handed to [put] on a store with a key path. *)
Inductive Elem (T : Type) :=
| typed (x : T)
    (** a record of the declared type: it is stored under its key *)
| rejected
    (** no object, or no valid key at the key path: [put] throws a
        [DataError] *)
| foreign.
    (** an object with a valid key that is no record of the declared type;
        IndexedDB stores it, the typed stores of this model cannot *)
Arguments typed {T} x.
Arguments rejected {T}.
Arguments foreign {T}.

(** What [for (const x of value)] meets. *)
Inductive Listing (T : Type) :=
| not_iterable
    (** [undefined], [null], a number, a boolean, an object: the loop throws
        a [TypeError] *)
| elements (l : list (Elem T)).
    (** an array; or a string, whose characters [put] rejects *)
Arguments not_iterable {T}.
Arguments elements {T} l.

(** An object whose [app] is ["agent-group"] and whose [version] is [1]. *)
Record Tagged := mkTagged {
  agents : Listing Agent.t;
  sessions : Listing StoredSession.t;
  (** [exported_at], when it is a number *)
  exported_at : option Z;
  (** [active_session_id], when it is a string; any other value is no
      session's id and is not kept apart from [null] *)
  active_session_id : option jsstring
}.

Inductive Parsed :=
| null_value
    (** [null]: reading [bundle.app] throws a [TypeError] *)
| untagged
    (** any other value whose [app] or [version] is not the expected one *)
| tagged (t : Tagged).

(** A bundle of the declared type, as a parsed value. *)
Definition of_bundle (bundle : ExportBundleV1.t) : Parsed :=
  if bool_decide (ExportBundleV1.app bundle = js "agent-group"
                  ∧ ExportBundleV1.version bundle = 1%Z)
  then tagged (mkTagged (elements (typed <$> ExportBundleV1.agents bundle))
                 (elements (typed <$> ExportBundleV1.sessions bundle))
                 (Some (ExportBundleV1.exported_at bundle))
                 (ExportBundleV1.active_session_id bundle))
  else untagged.

(** [bundle.active_session_id ?? null], as [handleImportedData] reads it *)
Definition preferred_session (parsed : Parsed) : option jsstring :=
  match parsed with
  | tagged t => active_session_id t
  | _ => None
  end.

(** *** The records as JSON values

    What [JSON.stringify] sees of the bundle: each record is an object with
    the members of its type, in the order the source writes them; a field
    that is [undefined] is left out. *)

Definition optional {A} (key : jsstring) (f : A → Json.value) (x : option A)
    : list (jsstring * Json.value) :=
  match x with
  | Some a => [(key, f a)]
  | None => []
  end.

Definition integer (z : Z) : Json.value := Json.Num (Number.print_int z).

(** A timestamp: the reading of the clock divided by 1000. *)
Definition seconds (t : Z) : Json.value := Json.Num (Number.print_millis t).

Definition strings (l : list jsstring) : Json.value := Json.Arr (Json.Str <$> l).

Definition agent_json (a : Agent.t) : Json.value :=
  Json.Obj
    ([(js "name", Json.Str (Agent.name a));
      (js "system_prompt", Json.Str (Agent.system_prompt a))]
     ++ optional (js "avatar_url") Json.Str (Agent.avatar_url a)
     ++ optional (js "model") Json.Str (Agent.model a)
     ++ optional (js "custom_params") Json.Obj (Agent.custom_params a)
     ++ optional (js "base_url") Json.Str (Agent.base_url a)
     ++ optional (js "api_key") Json.Str (Agent.api_key a)
     ++ optional (js "stream") Json.Bool (Agent.stream a)
     ++ optional (js "order") integer (Agent.order a)).

Definition message_json (m : StoredMessage.t) : Json.value :=
  match m with
  | StoredMessage.User id content images created_at =>
      Json.Obj
        ([(js "id", Json.Str id); (js "kind", Json.Str (js "user"));
          (js "content", Json.Str content)]
         ++ optional (js "images") strings images
         ++ [(js "created_at", seconds created_at)])
  | StoredMessage.Agent id speaker content images created_at =>
      Json.Obj
        ([(js "id", Json.Str id); (js "kind", Json.Str (js "agent"));
          (js "speaker", Json.Str speaker); (js "content", Json.Str content)]
         ++ optional (js "images") strings images
         ++ [(js "created_at", seconds created_at)])
  | StoredMessage.System id content created_at =>
      Json.Obj
        [(js "id", Json.Str id); (js "kind", Json.Str (js "system"));
         (js "content", Json.Str content); (js "created_at", seconds created_at)]
  end.

Definition session_json (s : StoredSession.t) : Json.value :=
  Json.Obj
    ([(js "id", Json.Str (StoredSession.id s));
      (js "name", Json.Str (StoredSession.name s));
      (js "global_prompt", Json.Str (StoredSession.global_prompt s));
      (js "created_at", seconds (StoredSession.created_at s));
      (js "updated_at", seconds (StoredSession.updated_at s));
      (js "messages", Json.Arr (message_json <$> StoredSession.messages s))]
     ++ optional (js "order") integer (StoredSession.order s)).

Definition bundle_json (bundle : ExportBundleV1.t) : Json.value :=
  Json.Obj
    [(js "app", Json.Str (ExportBundleV1.app bundle));
     (js "version", integer (ExportBundleV1.version bundle));
     (js "exported_at", seconds (ExportBundleV1.exported_at bundle));
     (js "agents", Json.Arr (agent_json <$> ExportBundleV1.agents bundle));
     (js "sessions", Json.Arr (session_json <$> ExportBundleV1.sessions bundle));
     (js "active_session_id",
      match ExportBundleV1.active_session_id bundle with
      | Some id => Json.Str id
      | None => Json.Null
      end)].

(** *** A JSON value as the import reads it *)

Fixpoint read_all {A B} (f : A → option B) (l : list A) : option (list B) :=
  match l with
  | [] => Some []
  | x :: l' =>
      match f x, read_all f l' with
      | Some y, Some ys => Some (y :: ys)
      | _, _ => None
      end
  end.

(** The readers of the fields: the outer [None] says that the member is
    not of the declared type. *)
Definition text (v : option Json.value) : option jsstring :=
  match v with
  | Some (Json.Str s) => Some s
  | _ => None
  end.

(** [string | null], or left out *)
Definition text_or_null (v : option Json.value) : option (option jsstring) :=
  match v with
  | None | Some Json.Null => Some None
  | Some (Json.Str s) => Some (Some s)
  | _ => None
  end.

Definition flag_or_absent (v : option Json.value) : option (option bool) :=
  match v with
  | None => Some None
  | Some (Json.Bool b) => Some (Some b)
  | _ => None
  end.

Definition integer_or_absent (v : option Json.value) : option (option Z) :=
  match v with
  | None => Some None
  | Some (Json.Num literal) =>
      match Number.as_int literal with
      | Some z => Some (Some z)
      | None => None
      end
  | _ => None
  end.

Definition timestamp (v : option Json.value) : option Z :=
  match v with
  | Some (Json.Num literal) => Number.as_millis literal
  | _ => None
  end.

Definition params_or_null (v : option Json.value)
    : option (option (list (jsstring * Json.value))) :=
  match v with
  | None | Some Json.Null => Some None
  | Some (Json.Obj members) => Some (Some members)
  | _ => None
  end.

Definition texts_or_absent (v : option Json.value) : option (option (list jsstring)) :=
  match v with
  | None => Some None
  | Some (Json.Arr items) =>
      match read_all (λ x, text (Some x)) items with
      | Some l => Some (Some l)
      | None => None
      end
  | _ => None
  end.

(** No member beyond those of the declared type. *)
Definition only (keys : list jsstring) (members : list (jsstring * Json.value))
    : bool :=
  forallb (λ m, bool_decide (m.1 ∈ keys)) members.

Definition as_agent (members : list (jsstring * Json.value)) : option Agent.t :=
  name ← text (Json.get (js "name") members) ;
  system_prompt ← text (Json.get (js "system_prompt") members) ;
  avatar_url ← text_or_null (Json.get (js "avatar_url") members) ;
  model ← text_or_null (Json.get (js "model") members) ;
  custom_params ← params_or_null (Json.get (js "custom_params") members) ;
  base_url ← text_or_null (Json.get (js "base_url") members) ;
  api_key ← text_or_null (Json.get (js "api_key") members) ;
  stream ← flag_or_absent (Json.get (js "stream") members) ;
  order ← integer_or_absent (Json.get (js "order") members) ;
  if only [js "name"; js "system_prompt"; js "avatar_url"; js "model";
           js "custom_params"; js "base_url"; js "api_key"; js "stream";
           js "order"] members
  then Some (Agent.mk name system_prompt avatar_url model custom_params base_url
               api_key stream order)
  else None.

Definition as_message (v : Json.value) : option StoredMessage.t :=
  match v with
  | Json.Obj members =>
      id ← text (Json.get (js "id") members) ;
      kind ← text (Json.get (js "kind") members) ;
      content ← text (Json.get (js "content") members) ;
      created_at ← timestamp (Json.get (js "created_at") members) ;
      if bool_decide (kind = js "user") then
        images ← texts_or_absent (Json.get (js "images") members) ;
        if only [js "id"; js "kind"; js "content"; js "images"; js "created_at"]
             members
        then Some (StoredMessage.User id content images created_at)
        else None
      else if bool_decide (kind = js "agent") then
        speaker ← text (Json.get (js "speaker") members) ;
        images ← texts_or_absent (Json.get (js "images") members) ;
        if only [js "id"; js "kind"; js "speaker"; js "content"; js "images";
                 js "created_at"] members
        then Some (StoredMessage.Agent id speaker content images created_at)
        else None
      else if bool_decide (kind = js "system") then
        if only [js "id"; js "kind"; js "content"; js "created_at"] members
        then Some (StoredMessage.System id content created_at)
        else None
      else None
  | _ => None
  end.

Definition messages_of (v : option Json.value) : option (list StoredMessage.t) :=
  match v with
  | Some (Json.Arr items) => read_all as_message items
  | _ => None
  end.

Definition as_session (members : list (jsstring * Json.value))
    : option StoredSession.t :=
  id ← text (Json.get (js "id") members) ;
  name ← text (Json.get (js "name") members) ;
  global_prompt ← text (Json.get (js "global_prompt") members) ;
  created_at ← timestamp (Json.get (js "created_at") members) ;
  updated_at ← timestamp (Json.get (js "updated_at") members) ;
  messages ← messages_of (Json.get (js "messages") members) ;
  order ← integer_or_absent (Json.get (js "order") members) ;
  if only [js "id"; js "name"; js "global_prompt"; js "created_at";
           js "updated_at"; js "messages"; js "order"] members
  then Some (StoredSession.mk id name global_prompt created_at updated_at
               messages order)
  else None.

(** A value of the JSON data model is a valid IndexedDB key when it is a
    number, a string, or an array of valid keys. *)
Fixpoint valid_key (v : Json.value) : bool :=
  match v with
  | Json.Num _ | Json.Str _ => true
  | Json.Arr items => forallb valid_key items
  | _ => false
  end.

(** What [put] makes of a value on a store with the key path [keyPath]. *)
Definition element {T} (keyPath : jsstring)
    (read : list (jsstring * Json.value) → option T) (v : Json.value) : Elem T :=
  match v with
  | Json.Obj members =>
      match Json.get keyPath members with
      | Some (Json.Str _) =>
          match read members with
          | Some x => typed x
          | None => foreign
          end
      | Some key => if valid_key key then foreign else rejected
      | None => rejected
      end
  | _ => rejected
  end.

(** What [for..of] meets on a member: the items of an array, the characters
    of a string (none of them an object), and nothing to iterate
    otherwise. *)
Definition listing {T} (elem : Json.value → Elem T) (v : option Json.value)
    : Listing T :=
  match v with
  | Some (Json.Arr items) => elements (elem <$> items)
  | Some (Json.Str s) => elements ((λ _, rejected) <$> s)
  | _ => not_iterable
  end.

(** [version !== 1] on a number read by [JSON.parse]: the literal denotes a
    decimal, which is rounded to the nearest double; the doubles next to 1 are
    [1 - 2^-53] and [1 + 2^-52], and a tie goes to 1. *)
Definition rounds_to_one (d : Z * Z) : bool :=
  if (0 <=? d.2)%Z then (d.1 * 10 ^ d.2 =? 1)%Z
  else
    let p := (10 ^ (- d.2))%Z in
    ((2 ^ 54 - 1) * p <=? d.1 * 2 ^ 54)%Z && (d.1 * 2 ^ 53 <=? (2 ^ 53 + 1) * p)%Z.

Definition is_version_1 (v : option Json.value) : bool :=
  match v with
  | Some (Json.Num literal) =>
      match Number.decimal_of literal with
      | Some d => rounds_to_one d
      | None => false
      end
  | _ => false
  end.

Definition view (v : Json.value) : Parsed :=
  match v with
  | Json.Null => null_value
  | Json.Obj members =>
      if bool_decide (Json.get (js "app") members = Some (Json.Str (js "agent-group")))
         && is_version_1 (Json.get (js "version") members)
      then
        tagged
          (mkTagged
             (listing (element (js "name") as_agent) (Json.get (js "agents") members))
             (listing (element (js "id") as_session)
                (Json.get (js "sessions") members))
             (timestamp (Json.get (js "exported_at") members))
             (text (Json.get (js "active_session_id") members)))
      else untagged
  | _ => untagged
  end.

(** *** The library *)

(** The library functions the codec is built from: [JSON.stringify(_, null, 2)]
    and [JSON.parse] ([None] when it throws), the UTF-8 conversions
    [strToU8]/[strFromU8] of fflate and of [Blob]/[File.text], and
    [zipSync]/[unzipSync] ([None] when the bytes are no archive). *)
Record Codec := {
  JSON_stringify : ExportBundleV1.t → jsstring;
  JSON_parse : jsstring → option Parsed;
  strToU8 : jsstring → list N;
  strFromU8 : list N → jsstring;
  zipSync : gmap jsstring (list N) → list N;
  unzipSync : list N → option (gmap jsstring (list N))
}.

(** *** The codec of the browser

    [JSON.stringify(bundle, null, 2)] and [JSON.parse] of ECMA-262 and the
    UTF-8 conversions of the Encoding standard, over the archive functions of
    fflate, which stay parameters. *)
Definition browser (zipSync : gmap jsstring (list N) → list N)
    (unzipSync : list N → option (gmap jsstring (list N))) : Codec :=
  {| JSON_stringify := λ bundle, Json.stringify (bundle_json bundle);
     JSON_parse := λ text, view <$> Json.parse text;
     strToU8 := Utf8.encode;
     strFromU8 := Utf8.decode;
     zipSync := zipSync;
     unzipSync := unzipSync |}.

Record File := { file_name : jsstring; file_bytes : list N }.

Inductive Ext := zip | json.

Definition ext_text (e : Ext) : jsstring :=
  match e with zip => js "zip" | json => js "json" end.

(** [ts] is the local time printed as [YYYYMMDD-HHMMSS]. *)
Definition makeExportFilename (ts : jsstring) (ext : Ext) : jsstring :=
  js "agent-group-export-" ++ ts ++ js "." ++ ext_text ext.

Definition pickExportJson (files : gmap jsstring (list N)) : option (list N) :=
  match files !! js "export.json" with
  | Some f => Some f
  | None =>
      let jsonKeys :=
        filter (λ k, Js.ends_with (Js.to_lower k) (js ".json") = true)
               (map_to_list files).*1 in
      match jsonKeys with
      | [k] => files !! k
      | _ => None
      end
  end.

(** *** [dbImportBundle] on a parsed value

    Lines 353-364 of [local-db.ts] once more, on a value that need not be of
    the declared type.  The transaction is not aborted when a loop throws:
    what was cleared and put before is committed.  On [of_bundle bundle] this
    is [LocalDb.dbImportBundle bundle]. *)

Definition type_error (message : jsstring) : Js.Thrown :=
  {| Js.err_name := Some (js "TypeError"); Js.err_text := message |}.

Definition data_error : Js.Thrown :=
  {| Js.err_name := Some (js "DataError");
     Js.err_text := js "Evaluating the object store's key path did not yield a value." |}.

(** [for (const x of l) store.put(x)] *)
Fixpoint put_each {T} (put : T → World → World) (l : list (Elem T))
    : Partial World unit :=
  match l with
  | [] => total (ret tt)
  | typed x :: l' => pbind (total (modify (put x))) (λ _, put_each put l')
  | rejected :: _ => total (throw data_error)
  | foreign :: _ => λ _, None
  end.

Definition put_all {T} (put : T → World → World) (l : Listing T)
    : Partial World unit :=
  match l with
  | not_iterable => total (throw (type_error (js "bundle is not iterable")))
  | elements l => put_each put l
  end.

Definition dbImportBundle (parsed : Parsed) : Partial World unit :=
  match parsed with
  | null_value =>
      total (throw (type_error (js "Cannot read properties of null (reading 'app')")))
  | untagged => total (throw (Js.Error (js "Unsupported import file")))
  | tagged t =>
      pbind (total (modify (λ w, mkWorld ∅ ∅ (ticks w) (draws w)))) (λ _,
      pbind (put_all (λ a, set_agents (insert (Agent.name a) a)) (agents t)) (λ _,
      put_all (λ s, set_sessions (insert (StoredSession.id s) s)) (sessions t)))
  end.

Section Ops.
Context (codec : Codec) (env : Env).

Definition syntax_error : Js.Thrown :=
  {| Js.err_name := Some (js "SyntaxError"); Js.err_text := js "Unexpected token" |}.

(** The bytes of the archive form of a bundle. *)
Definition zip_of_bundle (bundle : ExportBundleV1.t) : list N :=
  zipSync codec {[ js "export.json" := strToU8 codec (JSON_stringify codec bundle) ]}.

(** The bytes of the plain form: [new Blob([json])] holds the UTF-8 text. *)
Definition json_of_bundle (bundle : ExportBundleV1.t) : list N :=
  strToU8 codec (JSON_stringify codec bundle).

(** The exports return the [Blob]: its bytes. *)
Definition exportAsZip (activeSessionId : option jsstring) : M World (list N) :=
  bundle <- LocalDb.dbExportBundle env activeSessionId ;;
  ret (zip_of_bundle bundle).

Definition exportAsJson (activeSessionId : option jsstring) : M World (list N) :=
  bundle <- LocalDb.dbExportBundle env activeSessionId ;;
  ret (json_of_bundle bundle).

(** [JSON.parse(text) as ExportBundleV1] *)
Definition parse (text : jsstring) : M World Parsed :=
  match JSON_parse codec text with
  | Some parsed => ret parsed
  | None => throw syntax_error
  end.

Definition import_text (text : jsstring) : Partial World Parsed :=
  pbind (total (parse text)) (λ parsed,
  pbind (dbImportBundle parsed) (λ _, total (ret parsed))).

Definition importFromZip (file : File) : Partial World Parsed :=
  match unzipSync codec (file_bytes file) with
  | None => total (throw (Js.Error (js "invalid zip data")))
  | Some files =>
      match pickExportJson files with
      | None => total (throw (Js.Error (js "未找到 export.json")))
      | Some jsonFile => import_text (strFromU8 codec jsonFile)
      end
  end.

Definition importFromJson (file : File) : Partial World Parsed :=
  import_text (strFromU8 codec (file_bytes file)).

Definition importFromFile (file : File) : Partial World Parsed :=
  if Js.ends_with (Js.to_lower (file_name file)) (js ".json")
  then importFromJson file
  else importFromZip file.

End Ops.
End Backup.

(* ================================================================== *)
(** ** [lib/llm.ts] *)
(** In the sources: [src/frontend - 副本/src/components/agent-modal.tsx], lines
    135-218, and the loops of lines 352-386 and 420-454. *)
(* ================================================================== *)

Module Llm.

Inductive Role := system | user | assistant.

Inductive OpenAiMessageContentPart :=
| text_part (text : jsstring)
| image_url_part (url : jsstring).

Inductive Content :=
| plain (s : jsstring)
| parts (l : list OpenAiMessageContentPart).

Record OpenAiChatMessage := mk { role : Role; content : Content }.

Definition speakerForItem (item : TranscriptItem.t) : jsstring :=
  match item with
  | TranscriptItem.User _ _ _ => js "用户"
  | TranscriptItem.Agent _ speaker _ _ _ => speaker
  | TranscriptItem.System _ _ => js "System"
  end.

Definition global_prompt_header : jsstring :=
  js "

[当前讨论组的全局设定/背景]:
".

Definition systemContent (targetAgent : Agent.t) (globalPrompt : option jsstring)
    : jsstring :=
  match globalPrompt with
  | Some g =>
      match g, Js.trim g with
      | _ :: _, _ :: _ =>
          Agent.system_prompt targetAgent ++ global_prompt_header ++ Js.trim g
      | _, _ => Agent.system_prompt targetAgent
      end
  | None => Agent.system_prompt targetAgent
  end.

Definition isTargetAgent (targetAgent : Agent.t) (item : TranscriptItem.t) : bool :=
  match item with
  | TranscriptItem.Agent _ speaker _ _ _ =>
      bool_decide (speaker = Agent.name targetAgent)
  | _ => false
  end.

Definition image_url (img : jsstring) : jsstring :=
  if Js.starts_with img (js "data:") then img
  else js "data:image/png;base64," ++ img.

(** The message pushed for one item that is not of kind system. *)
Definition entry (targetAgent : Agent.t) (item : TranscriptItem.t)
    : OpenAiChatMessage :=
  let speaker := speakerForItem item in
  let target := isTargetAgent targetAgent item in
  let role := if target then assistant else user in
  let prefix := if target then [] else js "[" ++ speaker ++ js "]: " in
  match TranscriptItem.images item with
  | Some (img :: imgs) =>
      let text := Js.trim (TranscriptItem.content item) in
      mk role
         (parts ((match text with
                  | [] => []
                  | _ => [text_part (prefix ++ text)]
                  end)
                 ++ (image_url_part ∘ image_url <$> (img :: imgs))))
  | _ => mk role (plain (prefix ++ TranscriptItem.content item))
  end.

Definition buildOpenAiMessages (targetAgent : Agent.t)
    (globalPrompt : option jsstring) (history : list TranscriptItem.t)
    : list OpenAiChatMessage :=
  foldl (λ result item,
           match TranscriptItem.kind item with
           | KSystem => result
           | _ => result ++ [entry targetAgent item]
           end)
        [mk system (plain (systemContent targetAgent globalPrompt))]
        history.

(** *** The base URL (lines 146-158) *)

(** [s.replace(/\/+$/, "")]: the string without its trailing slashes. *)
Definition strip_trailing_slashes (s : jsstring) : jsstring :=
  let fix skip (r : jsstring) : jsstring :=
    match r with
    | c :: r' => if (c =? 47)%N then skip r' else r
    | [] => []
    end in
  rev (skip (rev s)).

Definition normalizeBaseUrl (input : option jsstring) : jsstring :=
  let baseUrl := Js.trim (Js.nullish input (js "https://api.openai.com/v1")) in
  let baseUrl :=
    match baseUrl with [] => js "https://api.openai.com/v1" | _ => baseUrl end in
  let baseUrl :=
    if Js.ends_with baseUrl (js "#")
    then take (length baseUrl - 1)%nat baseUrl else baseUrl in
  strip_trailing_slashes baseUrl.

Definition buildChatCompletionsUrl (baseUrl : jsstring) : jsstring :=
  baseUrl ++ js "/chat/completions".

(** *** The reader of the event stream (lines 352-386 and 420-454) *)

(** [s.split("\n")] *)
Fixpoint split_lines (s : jsstring) : list jsstring :=
  match s with
  | [] => [[]]
  | c :: s' =>
      if (c =? 10)%N then [] :: split_lines s'
      else match split_lines s' with
           | line :: lines => (c :: line) :: lines
           | [] => [[c]]
           end
  end.

(** What one line of the stream comes to. *)
Inductive LineResult :=
| skipped
| finished
| delta (text : jsstring).

Section Stream.
(** [JSON.parse(data)?.choices?.[0]?.delta?.content]: [None] when the parse
    throws or the path leads to nothing. *)
Context (parse_delta : jsstring → option jsstring).

(** The body of the [for (const rawLine of lines)] loop. *)
Definition read_line (rawLine : jsstring) : LineResult :=
  let line := Js.trim rawLine in
  match line with
  | [] => skipped
  | _ =>
      if Js.starts_with line (js "data:") then
        let data := Js.trim (drop (length (js "data:")) line) in
        match data with
        | [] => skipped
        | _ =>
            if bool_decide (data = js "[DONE]") then finished
            else match parse_delta data with
                 | Some (c :: d) => delta (c :: d)
                 | _ => skipped
                 end
        end
      else skipped
  end.

(** The [for] loop over the lines of one read, on [full] and the deltas handed
    to [onDelta] so far; [true] when it has met [[DONE]] and returned. *)
Fixpoint read_lines (lines : list jsstring) (full : jsstring)
    (handed : list jsstring) : bool * jsstring * list jsstring :=
  match lines with
  | [] => (false, full, handed)
  | rawLine :: rest =>
      match read_line rawLine with
      | skipped => read_lines rest full handed
      | finished => (true, full, handed)
      | delta d => read_lines rest (full ++ d) (handed ++ [d])
      end
  end.

(** The [while (true)] loop over the reads of the body, each already decoded;
    the list ends where the reader reports [done].  The result is the text
    returned and the deltas handed to [onDelta], in order. *)
Fixpoint read_stream (chunks : list jsstring) (buffer full : jsstring)
    (handed : list jsstring) : jsstring * list jsstring :=
  match chunks with
  | [] => (full, handed)
  | value :: rest =>
      let lines := split_lines (buffer ++ value) in
      let buffer' := Js.or_else (default [] (last lines)) [] in
      match read_lines (removelast lines) full handed with
      | (true, full', handed') => (full', handed')
      | (false, full', handed') => read_stream rest buffer' full' handed'
      end
  end.

End Stream.

End Llm.

(* ================================================================== *)
(** ** [app/api/llm/route.ts] *)
(** In the sources: [src/frontend - 副本/src/app/api/llm/route.ts], lines
    18-28: what the proxy makes of the base URL it is sent. *)
(* ================================================================== *)

Module Route.

Definition normalizeBaseUrl (input : option jsstring) : jsstring :=
  let baseUrl := Js.trim (Js.nullish input []) in
  let baseUrl :=
    match baseUrl with [] => js "https://api.openai.com/v1" | _ => baseUrl end in
  let baseUrl :=
    if Js.ends_with baseUrl (js "#")
    then take (length baseUrl - 1)%nat baseUrl else baseUrl in
  Llm.strip_trailing_slashes baseUrl.

Definition chatCompletionsUrl (baseUrl : jsstring) : jsstring :=
  baseUrl ++ js "/chat/completions".

End Route.

(* ================================================================== *)
(** ** [hooks/use-chat.ts] *)
(** In the sources: [src/frontend - 副本/src/lib/backup.ts], lines 214-528. *)
(* ================================================================== *)

Module Chat.

(** The class [[\w\-\u4e00-\u9fff]] of the mention pattern: [\w] is
    [A-Za-z0-9_], and the pattern has no [u] flag, so it reads code units. *)
Definition is_mention_char (c : N) : bool :=
  ((48 <=? c) && (c <=? 57) || (65 <=? c) && (c <=? 90) || (c =? 95)
   || (97 <=? c) && (c <=? 122) || (c =? 45)
   || (19968 <=? c) && (c <=? 40959))%N.

(** The longest prefix made of mention characters. *)
Fixpoint mention_run (s : jsstring) : jsstring :=
  match s with
  | c :: s' => if is_mention_char c then c :: mention_run s' else []
  | [] => []
  end.

(** [message.match(/@([\w\-\u4e00-\u9fff]+)/g) ?? []]: every [@] that is
    followed by at least one mention character, with the longest run of
    them.  A run holds no [@], so the scan may go on right after the [@]. *)
Fixpoint match_mentions (message : jsstring) : list jsstring :=
  match message with
  | [] => []
  | c :: rest =>
      if (c =? 64)%N then
        match mention_run rest with
        | [] => match_mentions rest
        | run => (c :: run) :: match_mentions rest
        end
      else match_mentions rest
  end.

(** The body of the [for (const raw of matches)] loop, on the pair
    ([seen], [orderedUnique]). *)
Definition mention_step (agentSet : gset jsstring)
    (acc : gset jsstring * list jsstring) (raw : jsstring)
    : gset jsstring * list jsstring :=
  let name := drop 1 raw in
  if bool_decide (name ∈ agentSet) then
    if bool_decide (name ∈ acc.1) then acc
    else ({[ name ]} ∪ acc.1, acc.2 ++ [name])
  else acc.

Definition parseMentionedAgents (message : jsstring) (agents : list Agent.t)
    : list jsstring :=
  match match_mentions message with
  | [] => []
  | matches =>
      let agentSet : gset jsstring := list_to_set (Agent.name <$> agents) in
      (foldl (mention_step agentSet) (∅, []) matches).2
  end.

Definition toAbortErrorName (err : Js.Thrown) : option jsstring := Js.err_name err.

(** What one call of [openAiChatCompletion] or [openAiChatCompletionStream]
    does, seen from the hook: the deltas handed to [onDelta], in order, and
    then the text returned or the value thrown.  The [AbortController] is not
    part of the state: aborting it shows as the call in flight throwing a
    value named [AbortError]. *)
Record LlmReply := { deltas : list jsstring; result : Outcome jsstring }.

(** The network, by the number of earlier calls. *)
Definition Network := nat → Agent.t → list Llm.OpenAiChatMessage → LlmReply.

Record State := mkState {
  world : World;
  transcript : list TranscriptItem.t;
  transcriptRef : list TranscriptItem.t;
  isLoading : bool;
  (** the calls made to the network, latest last *)
  calls : list (Agent.t * list Llm.OpenAiChatMessage);
  (** the texts handed to [onError], latest last *)
  reported : list jsstring
}.

Definition lift {A} (c : M World A) : M State A :=
  λ st, let '(r, w) := c (world st) in
        (r, mkState w (transcript st) (transcriptRef st) (isLoading st)
              (calls st) (reported st)).

Definition setTranscript (f : list TranscriptItem.t → list TranscriptItem.t)
    : M State unit :=
  modify (λ st, mkState (world st) (f (transcript st)) (transcriptRef st)
                  (isLoading st) (calls st) (reported st)).

Definition setIsLoading (b : bool) (st : State) : State :=
  mkState (world st) (transcript st) (transcriptRef st) b (calls st) (reported st).

Definition onError (msg : jsstring) : M State unit :=
  modify (λ st, mkState (world st) (transcript st) (transcriptRef st)
                  (isLoading st) (calls st) (reported st ++ [msg])).

(** The effect of lines 297-299, [transcriptRef.current = transcript], runs
    after every render in which the transcript has changed. *)
Definition rendered (st : State) : State :=
  mkState (world st) (transcript st) (transcript st) (isLoading st) (calls st)
    (reported st).

(** [await c]: while the hook awaits the store or the network, React renders
    the updates made so far and runs the effect, so the hook goes on with the
    ref holding the transcript.  (The first update of [sendMessage] is made
    inside the event handler and is rendered, effects included, before any
    awaited operation can complete.)  How far the ref has followed the deltas
    of a streamed reply when the call returns is not observable: the hook
    reads the ref at lines 339 and 437 only. *)
Definition await {A} (c : M State A) : M State A := finally c rendered.

(** [item.id === agentMessageId && item.kind === "agent" ? f item : item] *)
Definition update_agent_item (agentMessageId : jsstring)
    (f : jsstring → jsstring) (streaming : option bool → option bool)
    (item : TranscriptItem.t) : TranscriptItem.t :=
  match item with
  | TranscriptItem.Agent i s c im st =>
      if bool_decide (i = agentMessageId)
      then TranscriptItem.Agent i s (f c) im (streaming st)
      else item
  | _ => item
  end.

(** [message || (images.length > 0 ? "[图片]" : "")] *)
Definition user_content (message : jsstring) (images : list jsstring) : jsstring :=
  Js.or_else message (match images with [] => [] | _ => js "[图片]" end).

Section Hook.
Context (env : Env) (net : Network).
(** The props of the hook, as the refs hold them. *)
Context (activeSessionId : option jsstring) (agents : list Agent.t)
        (globalPrompt : option jsstring).

Definition newId : M State jsstring := lift (LocalDb._newId env).

(** The [onDelta] the hook passes to the streaming call. *)
Definition onDelta (agentMessageId delta : jsstring) : M State unit :=
  setTranscript (fmap (update_agent_item agentMessageId (λ c, c ++ delta) id)).

(** One call of the completion functions with the [onDelta] of the hook. *)
Definition complete (agent : Agent.t) (messages : list Llm.OpenAiChatMessage)
    (agentMessageId : jsstring) : M State jsstring :=
  n <- gets (λ st, length (calls st)) ;;
  modify (λ st, mkState (world st) (transcript st) (transcriptRef st)
                  (isLoading st) (calls st ++ [(agent, messages)]) (reported st)) ;;;
  let reply := net n agent messages in
  match Agent.stream agent with
  | Some false => λ st, (result reply, st)
  | _ =>
      mapM (onDelta agentMessageId) (deltas reply) ;;;
      (λ st, (result reply, st))
  end.

(** The [for (const agentName of mentioned)] loop of [sendMessage]. *)
Fixpoint agent_loop (sessionId : jsstring) (mentioned : list jsstring)
    (workingHistory : list TranscriptItem.t) : M State unit :=
  match mentioned with
  | [] => ret tt
  | agentName :: rest =>
      match List.find (λ a, bool_decide (Agent.name a = agentName)) agents with
      | None => agent_loop sessionId rest workingHistory
      | Some agent =>
          agentMessageId <- newId ;;
          setTranscript
            (λ prev, prev ++ [TranscriptItem.Agent agentMessageId agentName []
                                None (Some true)]) ;;;
          let openAiMessages :=
            Llm.buildOpenAiMessages agent globalPrompt workingHistory in
          full <- try_catch (await (complete agent openAiMessages agentMessageId))
                    (λ e, if bool_decide (toAbortErrorName e = Some (js "AbortError"))
                          then throw e
                          else ret (js "[调用失败] " ++ Js.err_text e)) ;;
          setTranscript
            (fmap (update_agent_item agentMessageId (λ _, full) (λ _, Some false))) ;;;
          let final := TranscriptItem.Agent agentMessageId agentName full None None in
          try_catch (await (lift (LocalDb.dbUpsertMessage env sessionId final)))
                    (λ _, ret tt) ;;;
          agent_loop sessionId rest (workingHistory ++ [final])
      end
  end.

(** The opening of [sendMessage]: the user item is built, appended to the
    transcript and handed to the store, whose failure is only logged; then
    [setIsLoading(true)]. *)
Definition post_user_message (sessionId message : jsstring)
    (images : list jsstring) : M State TranscriptItem.t :=
  uid <- newId ;;
  let userItem :=
    TranscriptItem.User uid (user_content message images) (Some images) in
  setTranscript (λ prev, prev ++ [userItem]) ;;;
  try_catch (await (lift (LocalDb.dbAppendMessage env sessionId userItem)) ;;;
             ret tt)
            (λ _, ret tt) ;;;
  modify (setIsLoading true) ;;;
  ret userItem.

(** The [try] block of [sendMessage].  The ref it reads has been through the
    await of [post_user_message] and holds the user item already, which line
    339 appends once more. *)
Definition invoke_mentioned (sessionId message : jsstring)
    (userItem : TranscriptItem.t) : M State unit :=
  let mentioned := parseMentionedAgents message agents in
  match mentioned with
  | [] => ret tt
  | _ =>
      current <- gets transcriptRef ;;
      let workingHistory :=
        filter (λ i, TranscriptItem.kind i ≠ KSystem) (current ++ [userItem]) in
      agent_loop sessionId mentioned workingHistory
  end.

(** The outer [catch (error)] of [sendMessage]. *)
Definition report_failure (error : Js.Thrown) : M State unit :=
  if bool_decide (toAbortErrorName error = Some (js "AbortError"))
  then ret tt
  else
    sid <- newId ;;
    setTranscript
      (λ prev, prev ++ [TranscriptItem.System sid
                          (js "❌ Error: " ++ Js.err_text error)]) ;;;
    onError (js "发送失败: " ++ Js.err_text error).

Definition sendMessage (message : jsstring) (images : list jsstring)
    : M State unit :=
  match activeSessionId with
  | None | Some [] => ret tt
  | Some sessionId =>
      userItem <- post_user_message sessionId message images ;;
      finally
        (try_catch (invoke_mentioned sessionId message userItem) report_failure)
        (setIsLoading false)
  end.

Definition addMessageOnly (message : jsstring) (images : list jsstring)
    : M State (option jsstring) :=
  match activeSessionId with
  | None | Some [] => ret None
  | Some sessionId =>
      uid <- newId ;;
      let item :=
        TranscriptItem.User uid (user_content message images) (Some images) in
      setTranscript (λ prev, prev ++ [item]) ;;;
      try_catch (await (lift (LocalDb.dbAppendMessage env sessionId item)) ;;;
                 ret (Some (TranscriptItem.id item)))
                (λ _, ret None)
  end.

(** [invokeAgent]: one agent is called on the transcript as it stands, with
    no user message. *)
Definition invokeAgent (agentName : jsstring) : M State unit :=
  match activeSessionId with
  | None | Some [] => ret tt
  | Some sessionId =>
      modify (setIsLoading true) ;;;
      match List.find (λ a, bool_decide (Agent.name a = agentName)) agents with
      | None =>
          sid <- newId ;;
          setTranscript
            (λ prev, prev ++ [TranscriptItem.System sid
                                (js "❌ 未找到 Agent: " ++ agentName)]) ;;;
          modify (setIsLoading false)
      | Some agent =>
          agentMessageId <- newId ;;
          setTranscript
            (λ prev, prev ++ [TranscriptItem.Agent agentMessageId agentName []
                                None (Some true)]) ;;;
          finally
            (try_catch
               (current <- gets transcriptRef ;;
                let history :=
                  filter (λ i, TranscriptItem.kind i ≠ KSystem) current in
                let openAiMessages :=
                  Llm.buildOpenAiMessages agent globalPrompt history in
                full <- await (complete agent openAiMessages agentMessageId) ;;
                setTranscript
                  (fmap (update_agent_item agentMessageId (λ _, full)
                           (λ _, Some false))) ;;;
                try_catch
                  (await (lift (LocalDb.dbUpsertMessage env sessionId
                                  (TranscriptItem.Agent agentMessageId agentName
                                     full None None))))
                  (λ _, ret tt))
               (λ error,
                  if bool_decide (toAbortErrorName error = Some (js "AbortError"))
                  then ret tt
                  else
                    setTranscript
                      (fmap (update_agent_item agentMessageId
                               (λ _, js "[调用失败] " ++ Js.err_text error)
                               (λ _, Some false))) ;;;
                    onError (js "调用失败: " ++ Js.err_text error)))
            (setIsLoading false)
      end
  end.

End Hook.
End Chat.

(* ================================================================== *)
(** ** Vocabulary of the properties *)
(* ================================================================== *)

Local Close Scope Z_scope.

(** The ids of the messages of a session. *)
Definition message_ids (s : StoredSession.t) : list jsstring :=
  StoredMessage.id <$> StoredSession.messages s.

(** The record a run of [put]s leaves under the key [k]: the last of them that
    carries the key. *)
Definition latest {V} (key : V → jsstring) (k : jsstring) (vs : list V) : option V :=
  last (filter (λ v, key v = k) vs).

(** The names the mention pattern finds: each match without its [@]. *)
Definition mention_tokens (message : jsstring) : list jsstring :=
  drop 1 <$> Chat.match_mentions message.

(** A list without its repetitions, each element at its first place. *)
Fixpoint first_occurrences (l : list jsstring) : list jsstring :=
  match l with
  | [] => []
  | x :: l' => x :: filter (λ y, y ≠ x) (first_occurrences l')
  end.

(** [name] stands in [message] as a mention: right after an [@], made of one
    or more mention characters, and followed by none. *)
Definition mentioned_in (message name : jsstring) : Prop :=
  ∃ pre post,
    message = pre ++ 64%N :: name ++ post
    ∧ name ≠ []
    ∧ Forall (λ c, Chat.is_mention_char c = true) name
    ∧ match post with [] => True | c :: _ => Chat.is_mention_char c = false end.

(** The leading entry as the design document words it: the system prompt, with
    the global prompt appended as a block when it is not empty. *)
Definition spec_systemContent (targetAgent : Agent.t)
    (globalPrompt : option jsstring) : jsstring :=
  match globalPrompt with
  | Some (c :: g) =>
      Agent.system_prompt targetAgent ++ Llm.global_prompt_header ++ c :: g
  | _ => Agent.system_prompt targetAgent
  end.

(** The label put before the text of a message that is not the target's. *)
Definition speaker_label (item : TranscriptItem.t) : jsstring :=
  js "[" ++ Llm.speakerForItem item ++ js "]: ".

(** The value [JSON.parse] returns when the import reaches it and it does not
    throw: on the text of the file, or of the entry [pickExportJson] picks
    from the archive. *)
Definition file_value (codec : Backup.Codec) (file : Backup.File)
    : option Backup.Parsed :=
  if Js.ends_with (Js.to_lower (Backup.file_name file)) (js ".json")
  then Backup.JSON_parse codec (Backup.strFromU8 codec (Backup.file_bytes file))
  else
    files ← Backup.unzipSync codec (Backup.file_bytes file) ;
    jsonFile ← Backup.pickExportJson files ;
    Backup.JSON_parse codec (Backup.strFromU8 codec jsonFile).

(** The records a loop of [dbImportBundle] has put when it ends: those before
    the first value that is no record. *)
Fixpoint typed_prefix {T} (l : list (Backup.Elem T)) : list T :=
  match l with
  | Backup.typed x :: l' => x :: typed_prefix l'
  | _ => []
  end.

Definition put_by_loop {T} (l : Backup.Listing T) : list T :=
  match l with
  | Backup.not_iterable => []
  | Backup.elements l => typed_prefix l
  end.

(** A list of records of the declared type. *)
Definition all_typed {T} (l : Backup.Listing T) : Prop :=
  l = Backup.elements (Backup.typed <$> put_by_loop l).

(** The file an export hands to the browser: the name made for the form, and
    the bytes of that form. *)
Definition exported_file (codec : Backup.Codec) (ts : jsstring) (ext : Backup.Ext)
    (bundle : ExportBundleV1.t) : Backup.File :=
  {| Backup.file_name := Backup.makeExportFilename ts ext;
     Backup.file_bytes :=
       match ext with
       | Backup.zip => Backup.zip_of_bundle codec bundle
       | Backup.json => Backup.json_of_bundle codec bundle
       end |}.

(** A thrown value that the hook reads as a cancellation. *)
Definition is_abort (e : Js.Thrown) : Prop :=
  Chat.toAbortErrorName e = Some (js "AbortError").

(** The transcript after the deltas of a reply have reached [onDelta]: each is
    appended to the content of the agent items carrying the id.  A call made
    with [stream: false] passes no delta on. *)
Definition with_deltas (agent : Agent.t) (agentMessageId : jsstring)
    (reply : Chat.LlmReply) (tr : list TranscriptItem.t) : list TranscriptItem.t :=
  match Agent.stream agent with
  | Some false => tr
  | _ =>
      foldl (λ t delta,
               Chat.update_agent_item agentMessageId (λ c, c ++ delta) id <$> t)
            tr (Chat.deltas reply)
  end.

(** The store of a fresh install, before any clock read or id draw. *)
Definition empty_world : World := mkWorld ∅ ∅ 0 0.

(** The operations of the store that create or rewrite a session record. *)
Inductive StoreOp :=
| CreateSession (name global_prompt : jsstring)
| ForkSessionFromMessage (sourceSessionId messageId : jsstring)
    (newName : option jsstring)
| AppendMessage (sessionId : jsstring) (item : TranscriptItem.t)
| UpsertMessage (sessionId : jsstring) (item : TranscriptItem.t)
| UpdateMessageContent (sessionId messageId content : jsstring)
| DeleteMessage (sessionId messageId : jsstring)
| UpdateSession (sessionId : jsstring) (name global_prompt : option jsstring)
| DeleteSession (sessionId : jsstring).

(** The state an operation leaves, whether it returns or throws. *)
Definition run_op (env : Env) (op : StoreOp) (w : World) : World :=
  match op with
  | CreateSession n g => (LocalDb.dbCreateSession env n g w).2
  | ForkSessionFromMessage sid mid nm =>
      (LocalDb.dbForkSessionFromMessage env sid mid nm w).2
  | AppendMessage sid item => (LocalDb.dbAppendMessage env sid item w).2
  | UpsertMessage sid item => (LocalDb.dbUpsertMessage env sid item w).2
  | UpdateMessageContent sid mid c =>
      (LocalDb.dbUpdateMessageContent env sid mid c w).2
  | DeleteMessage sid mid => (LocalDb.dbDeleteMessage env sid mid w).2
  | UpdateSession sid n g => (LocalDb.dbUpdateSession env sid n g w).2
  | DeleteSession sid => (LocalDb.dbDeleteSession sid w).2
  end.

Definition run_ops (env : Env) (ops : list StoreOp) (w : World) : World :=
  foldl (λ acc op, run_op env op acc) w ops.

(** Clock reads never go back. *)
Definition clock_monotone (env : Env) : Prop :=
  ∀ i j, i ≤ j → (Date_now env i <= Date_now env j)%Z.

(** Every session was updated no earlier than it was created. *)
Definition timestamps_ordered (w : World) : Prop :=
  map_Forall (λ _ s, (StoredSession.created_at s <= StoredSession.updated_at s)%Z)
             (sessions w).

(** ... and none was created later than the clock now reads. *)
Definition stamped (env : Env) (w : World) : Prop :=
  map_Forall (λ _ s,
      (StoredSession.created_at s <= StoredSession.updated_at s)%Z
      ∧ (StoredSession.created_at s <= Date_now env (ticks w))%Z)
    (sessions w).

(** What an operation leaves under a key: the record that was there, or one
    written during the operation. *)
Definition kept_or_written (env : Env) (w w' : World) : Prop :=
  ticks w ≤ ticks w'
  ∧ ∀ k s', sessions w' !! k = Some s' →
      sessions w !! k = Some s'
      ∨ ∃ t, ticks w ≤ t < ticks w'
             ∧ StoredSession.updated_at s' = Date_now env t
             ∧ (StoredSession.created_at s' = Date_now env t
                ∨ ∃ k0 s, sessions w !! k0 = Some s
                          ∧ StoredSession.created_at s' = StoredSession.created_at s).

(** The [order] a listed summary's session carries in the store. *)
Definition order_of (w : World) (x : SessionSummary.t) : option Z :=
  sessions w !! SessionSummary.id x ≫= StoredSession.order.

(** The design document's second clause for [listSessions], at a store whose
    sessions carry an [order]: the listing is ascending by it. *)
Definition listed_ascending_by_order (w : World) : Prop :=
  ∃ l, (LocalDb.dbListSessions w).1 = Returned l
       ∧ Sorted (λ a b, ∃ x y, order_of w a = Some x ∧ order_of w b = Some y
                               ∧ (x ≤ y)%Z) l.

(** A concrete clock, id source and store, used to run the operations. *)
Module Demo.

Definition digit (n : nat) : N := N.of_nat (48 + n).

Definition env : Env :=
  {| Date_now := λ n, (1700000000000 + 250 * Z.of_nat n)%Z;
     randomUUID := λ n, js "uuid-" ++ [digit (n / 10); digit (n mod 10)] |}.

Definition empty : World := empty_world.

Definition hello : TranscriptItem.t :=
  TranscriptItem.User (js "m-hello") (js "@Bot hello") None.
Definition reply : TranscriptItem.t :=
  TranscriptItem.Agent (js "m-reply") (js "Bot") (js "hi") None None.
Definition thanks : TranscriptItem.t :=
  TranscriptItem.User (js "m-thanks") (js "thanks") (Some []).

(** One session, [uuid-00], holding three messages. *)
Definition w1 : World := (LocalDb.dbCreateSession env (js "topic") (js "be brief") empty).2.
Definition w2 : World := (LocalDb.dbAppendMessage env (js "uuid-00") hello w1).2.
Definition w3 : World := (LocalDb.dbAppendMessage env (js "uuid-00") reply w2).2.
Definition w4 : World := (LocalDb.dbAppendMessage env (js "uuid-00") thanks w3).2.

Definition topic : StoredSession.t :=
  default (StoredSession.mk [] [] [] 0%Z 0%Z [] None) (sessions w4 !! js "uuid-00").

(** Two sessions placed by hand: the older one first. *)
Definition first : StoredSession.t :=
  StoredSession.mk (js "a") (js "first") [] 1700000000%Z 1700000000%Z [] (Some 0%Z).
Definition second : StoredSession.t :=
  StoredSession.mk (js "b") (js "second") [] 1700000060%Z 1700000060%Z [] (Some 1%Z).
Definition ordered : World :=
  (LocalDb.dbSetSessions [first; second] empty).2.

(** A session exported on a machine whose clock is ahead of [env]'s, and one
    whose record says it was updated before it was created. *)
Definition ahead : StoredSession.t :=
  StoredSession.mk (js "x") (js "from elsewhere") [] 1800000000000%Z
    1800000000500%Z [] None.
Definition backwards : StoredSession.t :=
  StoredSession.mk (js "y") (js "edited by hand") [] 1700000000500%Z
    1700000000000%Z [] None.
Definition bundle_ahead : ExportBundleV1.t :=
  ExportBundleV1.mk (js "agent-group") 1%Z 1800000000600%Z [] [ahead] None.
Definition bundle_backwards : ExportBundleV1.t :=
  ExportBundleV1.mk (js "agent-group") 1%Z 1700000000600%Z [] [backwards] None.

Definition bot : Agent.t :=
  Agent.mk (js "Bot") (js "You are Bot.") None None None None (Some (js "sk-1"))
    (Some false) None.
Definition critic : Agent.t :=
  Agent.mk (js "杠精路人") (js "Find the holes.") None None None None None None None.

(** A network that streams two deltas and returns their text. *)
Definition net : Chat.Network :=
  λ _ _ _, {| Chat.deltas := [js "h"; js "i"]; Chat.result := Returned (js "hi") |}.

Definition planner : Agent.t :=
  Agent.mk (js "PM") (js "Plan the work.") None None None None None (Some true) None.

Definition boom : Js.Thrown := Js.Error (js "LLM 请求失败: HTTP 500").
Definition aborted : Js.Thrown :=
  {| Js.err_name := Some (js "AbortError");
     Js.err_text := js "The user aborted a request." |}.

(** A network whose first call fails, whose second call is cancelled after
    one delta, and whose later calls would answer. *)
Definition flaky : Chat.Network :=
  λ n _ _,
    match n with
    | 0 => {| Chat.deltas := []; Chat.result := Threw boom |}
    | 1 => {| Chat.deltas := [js "par"]; Chat.result := Threw aborted |}
    | _ => {| Chat.deltas := [js "late"]; Chat.result := Returned (js "late") |}
    end.

(** The hook showing the session [uuid-00]. *)
Definition chat : Chat.State :=
  Chat.mkState w4 (LocalDb._toTranscript (StoredSession.messages topic))
    (LocalDb._toTranscript (StoredSession.messages topic)) false [] [].

Definition bundle : ExportBundleV1.t :=
  ExportBundleV1.mk (js "agent-group") 1%Z 1700000009%Z [bot; critic] [topic]
    (Some (js "uuid-00")).
(** The same content under a later format version. *)
Definition bundle_v2 : ExportBundleV1.t :=
  ExportBundleV1.mk (js "agent-group") 2%Z 1700000009%Z [bot; critic] [topic]
    (Some (js "uuid-00")).

(** An archive format for the examples: the entries one after the other,
    each as the length of its name, the name, the length of its data and the
    data. *)
Definition pack (files : gmap jsstring (list N)) : list N :=
  concat ((λ e : jsstring * list N,
             N.of_nat (length e.1) :: e.1 ++ N.of_nat (length e.2) :: e.2)
          <$> map_to_list files).

Fixpoint unpack_entries (fuel : nat) (bytes : list N)
    : option (list (jsstring * list N)) :=
  match fuel, bytes with
  | _, [] => Some []
  | O, _ :: _ => None
  | S fuel', n :: r =>
      let name := take (N.to_nat n) r in
      match drop (N.to_nat n) r with
      | m :: r' =>
          match unpack_entries fuel' (drop (N.to_nat m) r') with
          | Some entries => Some ((name, take (N.to_nat m) r') :: entries)
          | None => None
          end
      | [] => None
      end
  end.

Definition unpack (bytes : list N) : option (gmap jsstring (list N)) :=
  list_to_map <$> unpack_entries (length bytes) bytes.

(** The codec of the browser over that format. *)
Definition codec : Backup.Codec := Backup.browser pack unpack.

End Demo.

(* ================================================================== *)
(** ** [hooks/use-sessions.ts] *)
(** In the sources: [src/frontend/src/lib/local-db.ts], lines 365-577. *)
(* ================================================================== *)

(** What a hook hands to [onSuccess] and [onError]. *)
Inductive Notice :=
| success (message : jsstring)
| failure (message : jsstring).

Module UseSessions.

(** An entry of [detail.history] as the legacy backend sends it; every field
    may be missing. *)
Record LegacyMessage := {
  legacy_id : option jsstring;
  legacy_speaker : option jsstring;
  legacy_content : option jsstring;
  legacy_images : option (list jsstring);
  legacy_timestamp : option Z
}.

(** The body of [GET /api/sessions/{id}]; [detail_history] is [None] when
    [detail.history] is not an array. *)
Record LegacyDetail := {
  detail_id : jsstring;
  detail_name : option jsstring;
  detail_global_prompt : option jsstring;
  detail_created_at : option Z;
  detail_history : option (list LegacyMessage)
}.

(** What [fetch] of one session's detail comes to. *)
Inductive DetailResponse :=
| detail_ok (detail : LegacyDetail)
| detail_not_ok
| detail_throws (e : Js.Thrown).

(** The legacy backend, as [loadSessions] sees it: [None] when the listing
    cannot be had (a fetch that throws, a status that is not ok); otherwise
    the response for each listed session. *)
Definition Legacy := option (list DetailResponse).

Record State := mkState {
  world : World;
  (** [sessions] of the hook *)
  sessionList : list SessionSummary.t;
  activeSessionId : option jsstring;
  activeSessionData : option SessionDetail.t;
  (** the slot [agent_group_session_id] of [localStorage] *)
  localStorage : option jsstring;
  notices : list Notice
}.

Definition lift {A} (c : M World A) : M State A :=
  λ st, let '(r, w) := c (world st) in
        (r, mkState w (sessionList st) (activeSessionId st) (activeSessionData st)
              (localStorage st) (notices st)).

Definition setSessions (f : list SessionSummary.t → list SessionSummary.t)
    : M State unit :=
  modify (λ st, mkState (world st) (f (sessionList st)) (activeSessionId st)
                  (activeSessionData st) (localStorage st) (notices st)).

Definition setActiveSessionIdState (f : option jsstring → option jsstring)
    : M State unit :=
  modify (λ st, mkState (world st) (sessionList st) (f (activeSessionId st))
                  (activeSessionData st) (localStorage st) (notices st)).

Definition setActiveSessionData
    (f : option SessionDetail.t → option SessionDetail.t) : M State unit :=
  modify (λ st, mkState (world st) (sessionList st) (activeSessionId st)
                  (f (activeSessionData st)) (localStorage st) (notices st)).

Definition notify (n : Notice) : M State unit :=
  modify (λ st, mkState (world st) (sessionList st) (activeSessionId st)
                  (activeSessionData st) (localStorage st) (notices st ++ [n])).

(** [setActiveSessionId]: the state, and the slot of [localStorage], which is
    removed for [null] and for the empty string. *)
Definition setActiveSessionId (id : option jsstring) : M State unit :=
  modify (λ st, mkState (world st) (sessionList st) id (activeSessionData st)
                  (match id with
                   | Some (c :: i) => Some (c :: i)
                   | _ => None
                   end)
                  (notices st)).

(** The state of the hook before its first effect, over a given store and a
    given slot of [localStorage]. *)
Definition initial (w : World) (saved : option jsstring) : State :=
  mkState w [] None None saved [].

(** The effect that runs once on mount: the saved id, if any, becomes the
    active one. *)
Definition mount : M State unit :=
  savedId <- gets localStorage ;;
  match savedId with
  | Some (c :: i) => setActiveSessionIdState (λ _, Some (c :: i))
  | _ => ret tt
  end.

Section Hook.
Context (env : Env).

(** [m.id || crypto.randomUUID?.() || Math.random().toString()] *)
Definition legacy_message_id (m : LegacyMessage) : M World jsstring :=
  match legacy_id m with
  | Some (c :: i) => ret (c :: i)
  | _ => LocalDb._newId env
  end.

(** The callback of [history.map] in [loadSessions]. *)
Definition import_message (detail : LegacyDetail) (m : LegacyMessage)
    : M World StoredMessage.t :=
  created_at <- match legacy_timestamp m with
                | Some t => ret t
                | None =>
                    match detail_created_at detail with
                    | Some t => ret t
                    | None => LocalDb.now env
                    end
                end ;;
  i <- legacy_message_id m ;;
  let content := Js.nullish (legacy_content m) [] in
  let images :=
    match legacy_images m with
    | Some (img :: imgs) => img :: imgs
    | _ => []
    end in
  if bool_decide (legacy_speaker m = Some (js "System")) then
    ret (StoredMessage.System i content created_at)
  else if bool_decide (legacy_speaker m = Some (js "用户")) then
    ret (StoredMessage.User i content (Some images) created_at)
  else
    ret (StoredMessage.Agent i (Js.nullish (legacy_speaker m) (js "Agent"))
           content (Some images) created_at).

(** One turn of the loop over the remote sessions whose detail was had. *)
Definition import_detail (detail : LegacyDetail) : M World StoredSession.t :=
  messages <- mapM (import_message detail) (Js.nullish (detail_history detail) []) ;;
  initial <- match detail_created_at detail with
             | Some t => ret t
             | None => LocalDb.now env
             end ;;
  let updated_at :=
    foldl (λ max msg, Z.max max (StoredMessage.created_at msg)) initial messages in
  created_at <- match detail_created_at detail with
                | Some t => ret t
                | None => LocalDb.now env
                end ;;
  ret (StoredSession.mk (detail_id detail)
         (Js.nullish (detail_name detail) (js "未命名会话"))
         (Js.nullish (detail_global_prompt detail) [])
         created_at updated_at messages None).

(** The loop: a response that is not ok is skipped, a fetch that throws
    leaves the loop. *)
Fixpoint import_details (details : list DetailResponse)
    : M World (list StoredSession.t) :=
  match details with
  | [] => ret []
  | detail_not_ok :: rest => import_details rest
  | detail_throws e :: _ => throw e
  | detail_ok detail :: rest =>
      s <- import_detail detail ;;
      imported <- import_details rest ;;
      ret (s :: imported)
  end.

Definition loadSessions (legacy : Legacy) : M State (list SessionSummary.t) :=
  try_catch
    (loadedSessions <- lift LocalDb.dbListSessions ;;
     loaded <-
       match loadedSessions with
       | [] =>
           try_catch
             match legacy with
             | Some (d :: details) =>
                 imported <- lift (import_details (d :: details)) ;;
                 match imported with
                 | [] => ret loadedSessions
                 | _ =>
                     lift (LocalDb.dbSetSessions imported) ;;;
                     lift LocalDb.dbListSessions
                 end
             | _ => ret loadedSessions
             end
             (λ _, ret loadedSessions)
       | _ => ret loadedSessions
       end ;;
     setSessions (λ _, loaded) ;;;
     ret loaded)
    (λ _, notify (failure (js "加载讨论组失败")) ;;; ret []).

Definition createSession : M State unit :=
  try_catch
    (newSession <- lift (LocalDb.dbCreateSession env (js "新讨论组") []) ;;
     setSessions (λ prev, newSession :: prev) ;;;
     setActiveSessionId (Some (SessionSummary.id newSession)) ;;;
     notify (success (js "讨论组已创建")))
    (λ _, notify (failure (js "创建失败"))).

Definition updateSession (session : SessionSummary.t) : M State bool :=
  try_catch
    (lift (LocalDb.dbUpdateSession env (SessionSummary.id session)
             (Some (SessionSummary.name session))
             (Some (SessionSummary.global_prompt session))) ;;;
     setSessions
       (fmap (λ s, if bool_decide (SessionSummary.id s = SessionSummary.id session)
                   then SessionSummary.mk (SessionSummary.id s)
                          (SessionSummary.name session)
                          (SessionSummary.global_prompt session)
                          (SessionSummary.created_at s)
                          (SessionSummary.message_count s) (SessionSummary.order s)
                   else s)) ;;;
     setActiveSessionData
       (λ prev, match prev with
                | Some d =>
                    if bool_decide (SessionSummary.id (SessionDetail.summary d)
                                    = SessionSummary.id session)
                    then
                      let s := SessionDetail.summary d in
                      Some (SessionDetail.mk
                              (SessionSummary.mk (SessionSummary.id s)
                                 (SessionSummary.name session)
                                 (SessionSummary.global_prompt session)
                                 (SessionSummary.created_at s)
                                 (SessionSummary.message_count s)
                                 (SessionSummary.order s))
                              (SessionDetail.history d))
                    else prev
                | None => None
                end) ;;;
     notify (success (js "讨论组已更新")) ;;;
     ret true)
    (λ _, notify (failure (js "更新失败")) ;;; ret false).

Definition deleteSession (id : jsstring) : M State bool :=
  try_catch
    (lift (LocalDb.dbDeleteSession id) ;;;
     setSessions (filter (λ s, SessionSummary.id s ≠ id)) ;;;
     setActiveSessionIdState
       (λ currentId, if bool_decide (currentId = Some id) then None else currentId) ;;;
     notify (success (js "讨论组已删除")) ;;;
     ret true)
    (λ _, notify (failure (js "删除失败")) ;;; ret false).

Definition loadSessionHistory (sessionId : jsstring)
    : M State (list TranscriptItem.t) :=
  try_catch
    (data <- lift (LocalDb.dbGetSessionDetail sessionId) ;;
     match data with
     | Some d =>
         setActiveSessionData (λ _, Some d) ;;;
         ret (SessionDetail.history d)
     | None => ret []
     end)
    (λ _, ret []).

Definition forkSession (messageId : jsstring) (newName : option jsstring)
    : M State (option jsstring) :=
  sessionId <- gets activeSessionId ;;
  match sessionId with
  | None | Some [] => ret None
  | Some sessionId =>
      try_catch
        (forkedSession <-
           lift (LocalDb.dbForkSessionFromMessage env sessionId messageId newName) ;;
         match forkedSession with
         | Some forked =>
             setSessions (λ prev, forked :: prev) ;;;
             setActiveSessionId (Some (SessionSummary.id forked)) ;;;
             notify (success (js "分支会话已创建")) ;;;
             ret (Some (SessionSummary.id forked))
         | None => ret None
         end)
        (λ _, notify (failure (js "创建分支失败")) ;;; ret None)
  end.

End Hook.
End UseSessions.

(* ================================================================== *)
(** ** [hooks/use-agents.ts] *)
(** In the sources: [src/frontend - 副本/src/lib/backup.ts], lines 59-213. *)
(* ================================================================== *)

Module UseAgents.

(** The body of [GET /api/agents] of the legacy backend: [None] when it
    cannot be had (a fetch that throws, a status that is not ok, a body that
    is not JSON), otherwise [json.agents ?? []]. *)
Definition Legacy := option (list Agent.t).

Record State := mkState {
  world : World;
  (** [agents] of the hook *)
  agentList : list Agent.t;
  isSaving : bool;
  notices : list Notice
}.

Definition lift {A} (c : M World A) : M State A :=
  λ st, let '(r, w) := c (world st) in
        (r, mkState w (agentList st) (isSaving st) (notices st)).

Definition setAgents (l : list Agent.t) : M State unit :=
  modify (λ st, mkState (world st) l (isSaving st) (notices st)).

Definition setIsSaving (b : bool) (st : State) : State :=
  mkState (world st) (agentList st) b (notices st).

Definition notify (n : Notice) : M State unit :=
  modify (λ st, mkState (world st) (agentList st) (isSaving st) (notices st ++ [n])).

(** [{ ...agent, name }] *)
Definition with_name (agent : Agent.t) (name : jsstring) : Agent.t :=
  Agent.mk name (Agent.system_prompt agent) (Agent.avatar_url agent)
    (Agent.model agent) (Agent.custom_params agent) (Agent.base_url agent)
    (Agent.api_key agent) (Agent.stream agent) (Agent.order agent).

Section Hook.
(** The three agents an install starts with.  They are a parameter here:
    the literals of the source carry a [temperature], a field the [Agent] of
    [types/index.ts] does not declare. *)
Context (DEFAULT_AGENTS : list Agent.t).

Definition loadAgents (legacy : Legacy) : M State unit :=
  try_catch
    (localAgents <- lift LocalDb.dbGetAgents ;;
     loaded <-
       match localAgents with
       | [] =>
           fetched <-
             try_catch
               match legacy with
               | Some (a :: remoteAgents) =>
                   lift (LocalDb.dbSetAgents (a :: remoteAgents)) ;;;
                   ret (a :: remoteAgents)
               | _ => ret localAgents
               end
               (λ _, ret localAgents) ;;
           match fetched with
           | [] =>
               lift (LocalDb.dbSetAgents DEFAULT_AGENTS) ;;;
               ret DEFAULT_AGENTS
           | _ => ret fetched
           end
       | _ => ret localAgents
       end ;;
     setAgents loaded)
    (λ _, notify (failure (js "加载 Agent 列表失败"))).

Definition saveAgent (agent : Agent.t) (isCreating : bool)
    (allAgents : list Agent.t) : M State bool :=
  if isCreating && bool_decide (Js.trim (Agent.name agent) = []) then
    notify (failure (js "Agent 名称不能为空")) ;;;
    ret false
  else
    modify (setIsSaving true) ;;;
    finally
      (try_catch
         (let name := Js.trim (Agent.name agent) in
          if isCreating && bool_decide (Exists (λ a, Agent.name a = name) allAgents)
          then
            notify (failure (js "已存在同名 Agent")) ;;;
            ret false
          else
            let normalizedAgent := with_name agent name in
            let newAgents :=
              if isCreating then allAgents ++ [normalizedAgent]
              else (λ a, if bool_decide (Agent.name a = Agent.name normalizedAgent)
                         then normalizedAgent else a) <$> allAgents in
            lift (LocalDb.dbSetAgents newAgents) ;;;
            setAgents newAgents ;;;
            notify (success (if isCreating then js "Agent 创建成功"
                             else js "Agent 更新成功")) ;;;
            ret true)
         (λ _, notify (failure (js "保存失败")) ;;; ret false))
      (setIsSaving false).

Definition deleteAgent (agentName : jsstring) : M State bool :=
  try_catch
    (lift (LocalDb.dbDeleteAgent agentName) ;;;
     remaining <- lift LocalDb.dbGetAgents ;;
     setAgents remaining ;;;
     notify (success (js "Agent 已删除")) ;;;
     ret true)
    (λ _, notify (failure (js "删除失败")) ;;; ret false).

End Hook.
End UseAgents.

(* ================================================================== *)
(** ** [app/page.tsx] *)
(** In the sources: [src/frontend/src/app/page.tsx], lines 1-356, and
    [handleImportFile] of [src/frontend - 副本/src/components/data-modal.tsx],
    lines 56-67.  The settings ([useProxy], the theme) and the reordering of
    the sidebar call functions of [local-db] that are not in the sources and
    are left out. *)
(* ================================================================== *)

Module Page.

(** The state of the component: the store, the toaster, the state of the
    three hooks and the page's own. *)
Record State := mkState {
  world : World;
  (** [toast.success] and [toast.error], also as the hooks' callbacks *)
  toasts : list Notice;
  sessionList : list SessionSummary.t;
  activeSessionId : option jsstring;
  activeSessionData : option SessionDetail.t;
  localStorage : option jsstring;
  agentList : list Agent.t;
  isSaving : bool;
  transcript : list TranscriptItem.t;
  transcriptRef : list TranscriptItem.t;
  isLoading : bool;
  calls : list (Agent.t * list Llm.OpenAiChatMessage);
  inputValue : jsstring;
  pendingImages : list jsstring;
  editingAgent : option Agent.t;
  isCreatingAgent : bool;
  editingMessageId : option jsstring;
  editingMessageContent : jsstring;
  editingMessageSpeaker : jsstring
}.

(** The state before the first effect, over a given store and a given slot
    of [localStorage]. *)
Definition initial (w : World) (saved : option jsstring) : State :=
  mkState w [] [] None None saved [] false [] [] false [] [] [] None false
    None [] [].

(** A computation of a part of the state, run on the whole. *)
Definition zoom {S T A} (get : T → S) (put : S → T → T) (c : M S A) : M T A :=
  λ t, let '(r, s) := c (get t) in (r, put s t).

(** *** The sessions hook *)

Definition sessions_of (st : State) : UseSessions.State :=
  UseSessions.mkState (world st) (sessionList st) (activeSessionId st)
    (activeSessionData st) (localStorage st) (toasts st).

Definition with_sessions (s : UseSessions.State) (st : State) : State :=
  mkState (UseSessions.world s) (UseSessions.notices s)
    (UseSessions.sessionList s) (UseSessions.activeSessionId s)
    (UseSessions.activeSessionData s) (UseSessions.localStorage s)
    (agentList st) (isSaving st) (transcript st) (transcriptRef st)
    (isLoading st) (calls st) (inputValue st) (pendingImages st)
    (editingAgent st) (isCreatingAgent st) (editingMessageId st)
    (editingMessageContent st) (editingMessageSpeaker st).

Definition in_sessions {A} (c : M UseSessions.State A) : M State A :=
  zoom sessions_of with_sessions c.

(** *** The agents hook *)

Definition agents_of (st : State) : UseAgents.State :=
  UseAgents.mkState (world st) (agentList st) (isSaving st) (toasts st).

Definition with_agents (a : UseAgents.State) (st : State) : State :=
  mkState (UseAgents.world a) (UseAgents.notices a)
    (sessionList st) (activeSessionId st) (activeSessionData st)
    (localStorage st) (UseAgents.agentList a) (UseAgents.isSaving a)
    (transcript st) (transcriptRef st) (isLoading st) (calls st)
    (inputValue st) (pendingImages st) (editingAgent st) (isCreatingAgent st)
    (editingMessageId st) (editingMessageContent st) (editingMessageSpeaker st).

Definition in_agents {A} (c : M UseAgents.State A) : M State A :=
  zoom agents_of with_agents c.

(** *** The chat hook: its [onError] is [toast.error] *)

Definition chat_of (st : State) : Chat.State :=
  Chat.mkState (world st) (transcript st) (transcriptRef st) (isLoading st)
    (calls st) [].

Definition with_chat (c : Chat.State) (st : State) : State :=
  mkState (Chat.world c) (toasts st ++ (failure <$> Chat.reported c))
    (sessionList st) (activeSessionId st) (activeSessionData st)
    (localStorage st) (agentList st) (isSaving st)
    (Chat.transcript c) (Chat.transcriptRef c) (Chat.isLoading c) (Chat.calls c)
    (inputValue st) (pendingImages st) (editingAgent st) (isCreatingAgent st)
    (editingMessageId st) (editingMessageContent st) (editingMessageSpeaker st).

Definition in_chat {A} (c : M Chat.State A) : M State A :=
  zoom chat_of with_chat c.

(** *** The store, for the functions of [local-db] the page calls itself *)

Definition with_world (w : World) (st : State) : State :=
  mkState w (toasts st) (sessionList st) (activeSessionId st)
    (activeSessionData st) (localStorage st) (agentList st) (isSaving st)
    (transcript st) (transcriptRef st) (isLoading st) (calls st)
    (inputValue st) (pendingImages st) (editingAgent st) (isCreatingAgent st)
    (editingMessageId st) (editingMessageContent st) (editingMessageSpeaker st).

Definition in_store {A} (c : M World A) : M State A :=
  zoom world with_world c.

(** *** The page's own state *)

Definition toast (n : Notice) : M State unit :=
  modify (λ st,
    mkState (world st) (toasts st ++ [n]) (sessionList st) (activeSessionId st)
      (activeSessionData st) (localStorage st) (agentList st) (isSaving st)
      (transcript st) (transcriptRef st) (isLoading st) (calls st)
      (inputValue st) (pendingImages st) (editingAgent st) (isCreatingAgent st)
      (editingMessageId st) (editingMessageContent st) (editingMessageSpeaker st)).

Definition setTranscript (f : list TranscriptItem.t → list TranscriptItem.t)
    : M State unit :=
  in_chat (Chat.setTranscript f).

Definition setInput (value : jsstring) (images : list jsstring) : M State unit :=
  modify (λ st,
    mkState (world st) (toasts st) (sessionList st) (activeSessionId st)
      (activeSessionData st) (localStorage st) (agentList st) (isSaving st)
      (transcript st) (transcriptRef st) (isLoading st) (calls st)
      value images (editingAgent st) (isCreatingAgent st)
      (editingMessageId st) (editingMessageContent st) (editingMessageSpeaker st)).

(** [setIsCreatingAgent] and [setEditingAgent] *)
Definition setAgentModal (creating : bool) (agent : option Agent.t)
    : M State unit :=
  modify (λ st,
    mkState (world st) (toasts st) (sessionList st) (activeSessionId st)
      (activeSessionData st) (localStorage st) (agentList st) (isSaving st)
      (transcript st) (transcriptRef st) (isLoading st) (calls st)
      (inputValue st) (pendingImages st) agent creating
      (editingMessageId st) (editingMessageContent st) (editingMessageSpeaker st)).

(** [setEditingMessageId], [setEditingMessageContent] and
    [setEditingMessageSpeaker] *)
Definition setEditModal (id : option jsstring) (content speaker : jsstring)
    : M State unit :=
  modify (λ st,
    mkState (world st) (toasts st) (sessionList st) (activeSessionId st)
      (activeSessionData st) (localStorage st) (agentList st) (isSaving st)
      (transcript st) (transcriptRef st) (isLoading st) (calls st)
      (inputValue st) (pendingImages st) (editingAgent st) (isCreatingAgent st)
      id content speaker).

Definition openEditModal (item : TranscriptItem.t) : M State unit :=
  setEditModal (Some (TranscriptItem.id item)) (TranscriptItem.content item)
    (match item with
     | TranscriptItem.Agent _ speaker _ _ _ => speaker
     | _ => js "用户"
     end).

Definition closeEditModal : M State unit := setEditModal None [] [].

(** [{ ...item, content: newContent }] *)
Definition with_content (item : TranscriptItem.t) (newContent : jsstring)
    : TranscriptItem.t :=
  match item with
  | TranscriptItem.User i _ im => TranscriptItem.User i newContent im
  | TranscriptItem.Agent i s _ im st => TranscriptItem.Agent i s newContent im st
  | TranscriptItem.System i _ => TranscriptItem.System i newContent
  end.

(** [hasMention]: some match of the mention pattern is ["@"] followed by the
    name of an agent. *)
Definition hasMention (agents : list Agent.t) (text : jsstring) : bool :=
  let agentNamesSet : gset jsstring :=
    list_to_set ((λ a, js "@" ++ Agent.name a) <$> agents) in
  existsb (λ m, bool_decide (m ∈ agentNamesSet)) (Chat.match_mentions text).

(** The session the page turns to, among those loaded: the preferred one
    when it is loaded, else the first. *)
Definition pick_session (preferred : option jsstring)
    (loadedSessions : list SessionSummary.t) : option jsstring :=
  match preferred with
  | Some (c :: i) =>
      if bool_decide (Exists (λ s, SessionSummary.id s = c :: i) loadedSessions)
      then Some (c :: i)
      else SessionSummary.id <$> head loadedSessions
  | _ => SessionSummary.id <$> head loadedSessions
  end.

(** The decimal text of a number, as a template literal prints it. *)
Fixpoint uint_text (d : Decimal.uint) : jsstring :=
  match d with
  | Decimal.Nil => []
  | Decimal.D0 d => 48%N :: uint_text d
  | Decimal.D1 d => 49%N :: uint_text d
  | Decimal.D2 d => 50%N :: uint_text d
  | Decimal.D3 d => 51%N :: uint_text d
  | Decimal.D4 d => 52%N :: uint_text d
  | Decimal.D5 d => 53%N :: uint_text d
  | Decimal.D6 d => 54%N :: uint_text d
  | Decimal.D7 d => 55%N :: uint_text d
  | Decimal.D8 d => 56%N :: uint_text d
  | Decimal.D9 d => 57%N :: uint_text d
  end.

Definition number_text (n : nat) : jsstring := uint_text (Nat.to_uint n).

(** The [while] loop of [handleCopyAgent], from a value of [counter] and of
    [copyName]; [None] when the fuel runs out before the loop ends. *)
Fixpoint copyName_loop (agents : list Agent.t) (base : jsstring)
    (fuel counter : nat) (copyName : jsstring) : option jsstring :=
  match fuel with
  | 0 => None
  | S fuel' =>
      if bool_decide (Exists (λ a, Agent.name a = copyName) agents)
      then copyName_loop agents base fuel' (S counter)
             (base ++ js "-副本" ++ number_text (S counter))
      else Some copyName
  end.

Section Handlers.
Context (env : Env) (net : Chat.Network) (DEFAULT_AGENTS : list Agent.t).

(** [activeSessionData?.global_prompt], the prop of [useChat] *)
Definition globalPrompt (st : State) : option jsstring :=
  (λ d, SessionSummary.global_prompt (SessionDetail.summary d))
    <$> activeSessionData st.

Definition sendMessage (message : jsstring) (images : list jsstring)
    : M State unit :=
  λ st, in_chat (Chat.sendMessage env net (activeSessionId st) (agentList st)
                   (globalPrompt st) message images) st.

Definition addMessageOnly (message : jsstring) (images : list jsstring)
    : M State (option jsstring) :=
  λ st, in_chat (Chat.addMessageOnly env (activeSessionId st) message images) st.

Definition invokeAgent (agentName : jsstring) : M State unit :=
  λ st, in_chat (Chat.invokeAgent env net (activeSessionId st) (agentList st)
                   (globalPrompt st) agentName) st.

(** The session part of the effect that runs once on mount. *)
Definition init (legacyAgents : UseAgents.Legacy)
    (legacySessions : UseSessions.Legacy) : M State unit :=
  in_agents (UseAgents.loadAgents DEFAULT_AGENTS legacyAgents) ;;;
  loadedSessions <- in_sessions (UseSessions.loadSessions env legacySessions) ;;
  savedId <- gets localStorage ;;
  match savedId with
  | Some (c :: i) =>
      if bool_decide (Exists (λ s, SessionSummary.id s = c :: i) loadedSessions)
      then in_sessions (UseSessions.setActiveSessionId (Some (c :: i)))
      else
        match loadedSessions with
        | s :: _ =>
            in_sessions (UseSessions.setActiveSessionId (Some (SessionSummary.id s)))
        | [] => ret tt
        end
  | _ =>
      match loadedSessions with
      | s :: _ =>
          in_sessions (UseSessions.setActiveSessionId (Some (SessionSummary.id s)))
      | [] => ret tt
      end
  end.

(** The effect that runs when [activeSessionId] has changed. *)
Definition loadHistory : M State unit :=
  active <- gets activeSessionId ;;
  match active with
  | Some (c :: i) =>
      history <- in_sessions (UseSessions.loadSessionHistory (c :: i)) ;;
      setTranscript (λ _, history)
  | _ =>
      setTranscript (λ _, []) ;;;
      in_sessions (UseSessions.setActiveSessionData (λ _, None))
  end.

Definition handleSubmit : M State unit :=
  λ st,
    if (bool_decide (Js.trim (inputValue st) = [])
        && bool_decide (pendingImages st = []))
       || isLoading st
       || match activeSessionId st with Some (_ :: _) => false | _ => true end
    then (Returned tt, st)
    else
      let text := Js.trim (inputValue st) in
      let images := pendingImages st in
      let hasMentionInText := hasMention (agentList st) text in
      (setInput [] [] ;;;
       if hasMentionInText then sendMessage text images
       else addMessageOnly text images ;;; ret tt) st.

Definition handleSaveAgent : M State unit :=
  editing <- gets editingAgent ;;
  match editing with
  | None => ret tt
  | Some agent =>
      creating <- gets isCreatingAgent ;;
      allAgents <- gets agentList ;;
      ok <- in_agents (UseAgents.saveAgent agent creating allAgents) ;;
      if ok then setAgentModal false None else ret tt
  end.

Definition handleEditMessage (messageId newContent : jsstring) : M State unit :=
  active <- gets activeSessionId ;;
  match active with
  | Some (c :: i) =>
      try_catch
        (ok <- in_store (LocalDb.dbUpdateMessageContent env (c :: i) messageId
                           newContent) ;;
         if ok then
           setTranscript
             (fmap (λ item, if bool_decide (TranscriptItem.id item = messageId)
                            then with_content item newContent else item)) ;;;
           closeEditModal ;;;
           toast (success (js "消息已更新"))
         else throw (Js.Error (js "Message not found")))
        (λ _, toast (failure (js "编辑失败")))
  | _ => ret tt
  end.

(** [confirmed] is what [confirm] answers. *)
Definition handleDeleteMessage (confirmed : bool) (messageId : jsstring)
    : M State unit :=
  active <- gets activeSessionId ;;
  match active with
  | Some (c :: i) =>
      if confirmed then
        try_catch
          (ok <- in_store (LocalDb.dbDeleteMessage env (c :: i) messageId) ;;
           if ok then
             setTranscript (filter (λ item, TranscriptItem.id item ≠ messageId)) ;;;
             toast (success (js "消息已删除"))
           else throw (Js.Error (js "Message not found")))
          (λ _, toast (failure (js "删除失败")))
      else ret tt
  | _ => ret tt
  end.

Definition handleForkMessage (messageId : jsstring) : M State unit :=
  forkedId <- in_sessions (UseSessions.forkSession env messageId None) ;;
  match forkedId with
  | Some (_ :: _) => toast (success (js "分支已创建，已切换到新会话"))
  | _ => ret tt
  end.

(** [handleCopyAgent]; it answers [None] when the fuel given to its loop
    runs out, and then sets nothing. *)
Definition handleCopyAgent (fuel : nat) (agent : Agent.t) : M State (option unit) :=
  allAgents <- gets agentList ;;
  match copyName_loop allAgents (Agent.name agent) fuel 1
          (Agent.name agent ++ js "-副本") with
  | None => ret None
  | Some copyName =>
      setAgentModal true (Some (UseAgents.with_name agent copyName)) ;;;
      ret (Some tt)
  end.

Definition handleImportedData (legacyAgents : UseAgents.Legacy)
    (legacySessions : UseSessions.Legacy) (preferredSessionId : option jsstring)
    : M State unit :=
  in_agents (UseAgents.loadAgents DEFAULT_AGENTS legacyAgents) ;;;
  loadedSessions <- in_sessions (UseSessions.loadSessions env legacySessions) ;;
  let nextSessionId := pick_session preferredSessionId loadedSessions in
  in_sessions (UseSessions.setActiveSessionId nextSessionId) ;;;
  match nextSessionId with
  | Some (c :: i) =>
      history <- in_sessions (UseSessions.loadSessionHistory (c :: i)) ;;
      setTranscript (λ _, history)
  | _ =>
      setTranscript (λ _, []) ;;;
      in_sessions (UseSessions.setActiveSessionData (λ _, None))
  end.

(** [handleImportFile] of the data dialog, once the user has confirmed. *)
Definition handleImportFile (codec : Backup.Codec) (file : Backup.File)
    (legacyAgents : UseAgents.Legacy) (legacySessions : UseSessions.Legacy)
    : Partial State unit :=
  pbind (λ st, match Backup.importFromFile codec file (world st) with
               | Some (r, w) => Some (r, with_world w st)
               | None => None
               end) (λ bundle,
  total (handleImportedData legacyAgents legacySessions
           (Backup.preferred_session bundle))).

End Handlers.
End Page.

(* ================================================================== *)
(** ** [components/mention-input.tsx] *)
(** In the sources: [src/frontend/src/components/mention-input.tsx], lines
    158-210: the menu of agents that opens while an [@] is being typed. *)
(* ================================================================== *)

Module MentionInput.

Record State := mkState {
  (** the text of the input, which the page holds *)
  value : jsstring;
  showMentions : bool;
  mentionQuery : jsstring;
  mentionStartPos : option nat
}.

(** [s.lastIndexOf("@")] *)
Fixpoint lastIndexOf_at (s : jsstring) : option nat :=
  match s with
  | [] => None
  | c :: s' =>
      match lastIndexOf_at s' with
      | Some i => Some (S i)
      | None => if (c =? 64)%N then Some 0 else None
      end
  end.

(** [handleChange], on the new text and the position of the cursor in it. *)
Definition handleChange (newValue : jsstring) (cursorPos : nat) (st : State)
    : State :=
  let textBeforeCursor := take cursorPos newValue in
  let closed := mkState newValue false (mentionQuery st) None in
  match lastIndexOf_at textBeforeCursor with
  | Some atIndex =>
      let charBefore :=
        match atIndex with
        | 0 => 32%N
        | S j => default 32%N (textBeforeCursor !! j)
        end in
      if (charBefore =? 32)%N || (charBefore =? 10)%N || bool_decide (atIndex = 0)
      then
        let query := drop (atIndex + 1) textBeforeCursor in
        if bool_decide (32%N ∈ query) || bool_decide (10%N ∈ query) then closed
        else mkState newValue true query (Some atIndex)
      else closed
  | None => closed
  end.

(** [selectAgent], with the cursor at [cursorPos]: the [@] and what was typed
    after it give way to the mention of the agent and a space. *)
Definition selectAgent (agent : Agent.t) (cursorPos : nat) (st : State) : State :=
  match mentionStartPos st with
  | None => st
  | Some start =>
      let before := take start (value st) in
      let after := drop cursorPos (value st) in
      let newValue := before ++ js "@" ++ Agent.name agent ++ js " " ++ after in
      mkState newValue false (mentionQuery st) None
  end.

End MentionInput.

(* ================================================================== *)
(** ** Vocabulary of the further properties *)
(* ================================================================== *)

(** A store keeps each record under the key its [keyPath] reads from it. *)
Definition keyed {V} (key : V → jsstring) (m : gmap jsstring V) : Prop :=
  map_Forall (λ k v, key v = k) m.

(** An item as the store keeps it: [isStreaming] is not stored. *)
Definition without_streaming (item : TranscriptItem.t) : TranscriptItem.t :=
  match item with
  | TranscriptItem.Agent i s c im _ => TranscriptItem.Agent i s c im None
  | _ => item
  end.

(** The operations of the store that write the agents. *)
Inductive AgentOp :=
| SetAgents (agents : list Agent.t)
| UpsertAgent (agent : Agent.t)
| DeleteAgent (name : jsstring)
| ImportBundle (bundle : ExportBundleV1.t).

Definition run_agent_op (op : AgentOp) (w : World) : World :=
  match op with
  | SetAgents l => (LocalDb.dbSetAgents l w).2
  | UpsertAgent a => (LocalDb.dbUpsertAgent a w).2
  | DeleteAgent n => (LocalDb.dbDeleteAgent n w).2
  | ImportBundle b => (LocalDb.dbImportBundle b w).2
  end.

(** The calls the page makes to the sessions hook. *)
Inductive SessionsCall :=
| CallLoadSessions (legacy : UseSessions.Legacy)
| CallCreateSession
| CallUpdateSession (session : SessionSummary.t)
| CallDeleteSession (id : jsstring)
| CallForkSession (messageId : jsstring) (newName : option jsstring)
| CallLoadSessionHistory (sessionId : jsstring)
| CallSetActiveSessionId (id : option jsstring).

Definition run_call (env : Env) (call : SessionsCall) (st : UseSessions.State)
    : UseSessions.State :=
  match call with
  | CallLoadSessions legacy => (UseSessions.loadSessions env legacy st).2
  | CallCreateSession => (UseSessions.createSession env st).2
  | CallUpdateSession s => (UseSessions.updateSession env s st).2
  | CallDeleteSession id => (UseSessions.deleteSession id st).2
  | CallForkSession mid name => (UseSessions.forkSession env mid name st).2
  | CallLoadSessionHistory sid => (UseSessions.loadSessionHistory sid st).2
  | CallSetActiveSessionId id => (UseSessions.setActiveSessionId id st).2
  end.

(** The calls that store a session under an id they draw. *)
Definition draws_session_id (call : SessionsCall) : Prop :=
  match call with
  | CallCreateSession | CallForkSession _ _ => True
  | _ => False
  end.

(** The list of the sidebar agrees with the store: every listed summary is
    that of a stored session, by id, name, prompt and [created_at], and every
    stored session is listed. *)
Definition listed_in_sync (st : UseSessions.State) : Prop :=
  (∀ s, s ∈ UseSessions.sessionList st →
     ∃ stored,
       sessions (UseSessions.world st) !! SessionSummary.id s = Some stored
       ∧ SessionSummary.name s = StoredSession.name stored
       ∧ SessionSummary.global_prompt s = StoredSession.global_prompt stored
       ∧ SessionSummary.created_at s = StoredSession.created_at stored)
  ∧ (∀ k, is_Some (sessions (UseSessions.world st) !! k) →
       k ∈ SessionSummary.id <$> UseSessions.sessionList st).

(** Two states of the store with the same records; the clock and the ids
    drawn may differ. *)
Definition same_store (w w' : World) : Prop :=
  agents w' = agents w ∧ sessions w' = sessions w.

(** The one call that sets the list of the sidebar from the store. *)
Definition reloads (call : SessionsCall) : Prop :=
  match call with CallLoadSessions _ => True | _ => False end.

(** The active session, if there is one, is a stored session. *)
Definition active_is_stored (st : UseSessions.State) : Prop :=
  ∀ i, UseSessions.activeSessionId st = Some i →
       is_Some (sessions (UseSessions.world st) !! i).

(** The slot of [localStorage] holds the active session id, and nothing when
    there is none or it is the empty string. *)
Definition slot_matches (st : UseSessions.State) : Prop :=
  UseSessions.localStorage st
  = match UseSessions.activeSessionId st with
    | Some (c :: i) => Some (c :: i)
    | _ => None
    end.

(** What the legacy import makes of one message of a session's history. *)
Definition imported_as (detail : UseSessions.LegacyDetail)
    (m : UseSessions.LegacyMessage) (stored : StoredMessage.t) : Prop :=
  StoredMessage.content stored = default [] (UseSessions.legacy_content m)
  ∧ StoredMessage.kind stored
    = (if bool_decide (UseSessions.legacy_speaker m = Some (js "System"))
       then KSystem
       else if bool_decide (UseSessions.legacy_speaker m = Some (js "用户"))
            then KUser else KAgent)
  ∧ (∀ i, UseSessions.legacy_id m = Some i → i ≠ [] → StoredMessage.id stored = i)
  ∧ (∀ t, UseSessions.legacy_timestamp m = Some t →
          StoredMessage.created_at stored = t)
  ∧ (∀ t, UseSessions.legacy_timestamp m = None →
          UseSessions.detail_created_at detail = Some t →
          StoredMessage.created_at stored = t).

(** The calls the page makes to the agents hook; [saveAgent] is handed the
    list of the hook as [allAgents]. *)
Inductive AgentsCall :=
| CallLoadAgents (legacy : UseAgents.Legacy)
| CallSaveAgent (agent : Agent.t) (isCreating : bool)
| CallDeleteAgent (agentName : jsstring).

Definition run_agents_call (DEFAULT_AGENTS : list Agent.t) (call : AgentsCall)
    (st : UseAgents.State) : UseAgents.State :=
  match call with
  | CallLoadAgents legacy => (UseAgents.loadAgents DEFAULT_AGENTS legacy st).2
  | CallSaveAgent agent isCreating =>
      (UseAgents.saveAgent agent isCreating (UseAgents.agentList st) st).2
  | CallDeleteAgent agentName => (UseAgents.deleteAgent agentName st).2
  end.

(** The agents the page shows are those of the store, each under its name. *)
Definition agents_in_sync (st : UseAgents.State) : Prop :=
  keyed Agent.name (agents (UseAgents.world st))
  ∧ UseAgents.agentList st ≡ₚ ObjectStore.getAll (agents (UseAgents.world st)).

(** The transcript on the page is the stored history of the active session,
    when the page has one and the store holds it; [isStreaming], which is not
    stored, apart. *)
Definition shows_stored (st : Page.State) : Prop :=
  ∀ c i s,
    Page.activeSessionId st = Some (c :: i) →
    sessions (Page.world st) !! (c :: i) = Some s →
    without_streaming <$> Page.transcript st
    = LocalDb._toTranscript (StoredSession.messages s).

(** What the user does to the messages of the active session without calling
    an agent. *)
Inductive MessageCall :=
| CallAddMessageOnly (message : jsstring) (images : list jsstring)
| CallEditMessage (messageId newContent : jsstring)
| CallDeleteMessage (confirmed : bool) (messageId : jsstring).

Definition run_message_call (env : Env) (call : MessageCall) (st : Page.State)
    : Page.State :=
  match call with
  | CallAddMessageOnly message images =>
      (Page.addMessageOnly env message images st).2
  | CallEditMessage messageId newContent =>
      (Page.handleEditMessage env messageId newContent st).2
  | CallDeleteMessage confirmed messageId =>
      (Page.handleDeleteMessage env confirmed messageId st).2
  end.

(** The names [handleCopyAgent] tries, in order: the name with ["-副本"], then
    with ["-副本2"], ["-副本3"] and so on. *)
Definition copy_candidate (base : jsstring) (k : nat) : jsstring :=
  match k with
  | 0 | 1 => base ++ js "-副本"
  | _ => base ++ js "-副本" ++ Page.number_text k
  end.

(** A page over the store of [Demo], showing its one session. *)
Module DemoPage.
Definition page : Page.State :=
  Page.mkState Demo.w4 [] [] (Some (js "uuid-00")) None (Some (js "uuid-00"))
    [Demo.bot; Demo.critic] false
    (LocalDb._toTranscript (StoredSession.messages Demo.topic))
    (LocalDb._toTranscript (StoredSession.messages Demo.topic))
    false [] [] [] None false None [] [].
End DemoPage.

(** Within each stored session the ids of the messages are pairwise
    distinct. *)
Definition ids_distinct (w : World) : Prop :=
  map_Forall (λ _ s, NoDup (message_ids s)) (sessions w).

(** The id [dbAppendMessage] stores an item under. *)
Definition stored_id (env : Env) (w : World) (item : TranscriptItem.t) : jsstring :=
  match TranscriptItem.id item with
  | [] => randomUUID env (draws w)
  | i => i
  end.

(** An id is in use in a store when it is the key of a session or the id of a
    message of one. *)
Definition id_in_use (w : World) (x : jsstring) : Prop :=
  is_Some (sessions w !! x)
  ∨ map_Exists (λ _ s, x ∈ message_ids s) (sessions w).

(** What the code relies on when it takes an id from [crypto.randomUUID]
    without looking it up: the next [n] values are in use nowhere in the store
    and differ from one another. *)
Definition next_ids_fresh (env : Env) (w : World) (n : nat) : Prop :=
  (∀ j, j < n → ¬ id_in_use w (randomUUID env (draws w + j)))
  ∧ (∀ i j, i < j → j < n →
       randomUUID env (draws w + i) ≠ randomUUID env (draws w + j)).

(** What an operation leaves of the session [s] it has rewritten: the record
    under the id of [s] keeps [created_at] and has [updated_at] read from the
    clock at its [t]-th reading. *)
Definition touched_at (env : Env) (w' : World) (s : StoredSession.t) (t : nat)
    : Prop :=
  ∃ s', sessions w' !! StoredSession.id s = Some s'
        ∧ StoredSession.created_at s' = StoredSession.created_at s
        ∧ StoredSession.updated_at s' = Date_now env t.

(** ... and of a session it has created: the record under the id drawn has
    both timestamps read from the clock at the one reading. *)
Definition created_at_now (env : Env) (w w' : World) : Prop :=
  ∃ s', sessions w' !! randomUUID env (draws w) = Some s'
        ∧ StoredSession.created_at s' = Date_now env (ticks w)
        ∧ StoredSession.updated_at s' = Date_now env (ticks w).

(** ** JSON texts and strings of scalar values *)

Section value_ind.
Context (P : Json.value → Prop).
Hypothesis HNull : P Json.Null.
Hypothesis HBool : ∀ b, P (Json.Bool b).
Hypothesis HNum : ∀ literal, P (Json.Num literal).
Hypothesis HStr : ∀ s, P (Json.Str s).
Hypothesis HArr : ∀ items, Forall P items → P (Json.Arr items).
Hypothesis HObj : ∀ members, Forall (λ m, P m.2) members → P (Json.Obj members).

Fixpoint Json_value_ind (v : Json.value) : P v :=
  match v with
  | Json.Null => HNull
  | Json.Bool b => HBool b
  | Json.Num literal => HNum literal
  | Json.Str s => HStr s
  | Json.Arr items =>
      HArr items
        ((fix go (l : list Json.value) : Forall P l :=
            match l with
            | [] => @List.Forall_nil _ _
            | x :: l' => @List.Forall_cons _ P x l' (Json_value_ind x) (go l')
            end) items)
  | Json.Obj members =>
      HObj members
        ((fix go (l : list (jsstring * Json.value)) : Forall (λ m, P m.2) l :=
            match l with
            | [] => @List.Forall_nil _ _
            | m :: l' =>
                @List.Forall_cons _ (λ m, P m.2) m l' (Json_value_ind m.2) (go l')
            end) members)
  end.
End value_ind.

(** What can follow a number literal without being read as part of it. *)
Definition stops (rest : jsstring) : Prop :=
  match rest with
  | [] => True
  | c :: _ => Json.is_digit c = false ∧ c ≠ 46%N ∧ c ≠ 101%N ∧ c ≠ 69%N
  end.

(** The characters of number literals. *)
Definition number_char (c : N) : bool :=
  (Json.is_digit c || (c =? 45) || (c =? 43) || (c =? 46) || (c =? 101)
   || (c =? 69))%N.

Definition spaces (s : jsstring) : Prop := Forall (λ c, c = 32%N) s.

(** The characters a printed value can start with. *)
Definition starts_value (c : N) : Prop :=
  Json.is_digit c = true ∨ c = 45%N ∨ c = 34%N ∨ c = 91%N ∨ c = 123%N
  ∨ c = 110%N ∨ c = 116%N ∨ c = 102%N.

(** What follows a run of digits without being read as part of it. *)
Definition no_digit (rest : jsstring) : Prop :=
  match rest with
  | [] => True
  | c :: _ => Json.is_digit c = false
  end.

(** The value of a sequence of digits. *)
Definition digits_value (ds : list N) : N :=
  foldl (λ acc d, (10 * acc + d)%N) 0%N ds.

(** A sign, the digits of a number, and a point with digits after it when
    there are some. *)
Definition plain_literal (negative : bool) (q : N) (ds : list N) : jsstring :=
  (if negative then [45%N] else [])
  ++ Number.print_nat q
  ++ match ds with
     | [] => []
     | _ => 46%N :: ((λ d, (48 + d)%N) <$> ds)
     end.

(** A string of scalar values: 16-bit code units among which no surrogate
    stands alone. *)
Inductive scalar_string : jsstring → Prop :=
| scalar_nil : scalar_string []
| scalar_unit c s :
    (c < 65536)%N → Json.is_high_surrogate c = false →
    Json.is_low_surrogate c = false → scalar_string s → scalar_string (c :: s)
| scalar_pair h l s :
    Json.is_high_surrogate h = true → Json.is_low_surrogate l = true →
    scalar_string s → scalar_string (h :: l :: s).

(* ================================================================== *)
(** * Properties *)
(* ================================================================== *)

(** ** The monad and the object stores *)

Ltac run :=
  repeat (progress (unfold bind, ret, gets, modify, throw, try_catch, finally,
                    LocalDb.dbGetSession, LocalDb.put_session, LocalDb.now,
                    LocalDb._newId, set_sessions, set_agents; cbn [fst snd])).

Lemma mapM_fresh_ids env (l : list StoredMessage.t) (w : World) :
  mapM (LocalDb.fresh_copy env) l w
  = (Returned (imap (λ j m, StoredMessage.with_id m (randomUUID env (draws w + j))) l),
     mkWorld (agents w) (sessions w) (ticks w) (draws w + length l)).
Proof.
  revert w. induction l as [|m l IH]; intros w.
  - cbn. destruct w; cbn. rewrite Nat.add_0_r. reflexivity.
  - cbn [mapM]. unfold LocalDb.fresh_copy at 1. run. rewrite IH. cbn.
    rewrite Nat.add_0_r. do 2 f_equal.
    + f_equal. apply imap_ext. intros j y _. cbn. do 2 f_equal. lia.
    + f_equal. lia.
Qed.

Lemma findIndex_Some {A} (P : A → Prop) `{∀ x, Decision (P x)} (l : list A) k x :
  l !! k = Some x → P x → (∀ j y, l !! j = Some y → j < k → ¬ P y) →
  Js.findIndex P l = Some k.
Proof.
  intros Hk HP Hfirst. unfold Js.findIndex.
  assert (list_find P l = Some (k, x)) as ->; [|done].
  apply list_find_Some. auto.
Qed.

Lemma findIndex_None {A} (P : A → Prop) `{∀ x, Decision (P x)} (l : list A) :
  Forall (λ x, ¬ P x) l → Js.findIndex P l = None.
Proof.
  intros HF. unfold Js.findIndex.
  assert (list_find P l = None) as ->; [|done].
  by apply list_find_None.
Qed.

Lemma not_in_message_ids (s : StoredSession.t) (mid : jsstring) :
  mid ∉ message_ids s ↔
  Forall (λ m, StoredMessage.id m ≠ mid) (StoredSession.messages s).
Proof.
  unfold message_ids. rewrite Forall_forall. split.
  - intros Hn m Hm Heq. apply Hn. rewrite <- Heq. by apply list_elem_of_fmap_2.
  - intros HF [m [-> Hm]]%list_elem_of_fmap. by apply (HF m).
Qed.

(** ** Deleting a message *)

Lemma filter_keeps_all_iff (s : StoredSession.t) (mid : jsstring) :
  length (filter (λ m, StoredMessage.id m ≠ mid) (StoredSession.messages s))
  = length (StoredSession.messages s) ↔ mid ∉ message_ids s.
Proof.
  rewrite not_in_message_ids.
  induction (StoredSession.messages s) as [|m l IH]; [by split|].
  rewrite filter_cons. case_decide as Hm.
  - cbn. rewrite Forall_cons. split.
    + intros Hl. split; [done|]. apply IH. lia.
    + intros [_ Hl]. f_equal. by apply IH.
  - cbn. split.
    + intros Hl. pose proof (length_filter (λ m, StoredMessage.id m ≠ mid) l). lia.
    + intros [Hm' _]%Forall_cons. done.
Qed.

(** C10.  [dbDeleteMessage] removes every message carrying the id (not only
    the first), answers [true] exactly when there was one, keeps the other
    messages as they were and in their order, and when it answers [false]
    (no such session, or no such message) writes nothing: the record and its
    [updated_at] stay. *)
Theorem dbDeleteMessage_removes_every_match env (sid mid : jsstring) (w : World) :
  (sessions w !! sid = None →
     LocalDb.dbDeleteMessage env sid mid w = (Returned false, w))
  ∧ (∀ s, sessions w !! sid = Some s → mid ∉ message_ids s →
       LocalDb.dbDeleteMessage env sid mid w = (Returned false, w))
  ∧ (∀ s, sessions w !! sid = Some s → StoredSession.id s = sid →
       mid ∈ message_ids s →
       ∃ s' w',
         LocalDb.dbDeleteMessage env sid mid w = (Returned true, w')
         ∧ sessions w' = <[sid := s']> (sessions w)
         ∧ agents w' = agents w
         ∧ StoredSession.messages s'
           = filter (λ m, StoredMessage.id m ≠ mid) (StoredSession.messages s)
         ∧ (mid ∉ message_ids s')
         ∧ (∀ m, StoredMessage.id m ≠ mid →
              (m ∈ StoredSession.messages s' ↔ m ∈ StoredSession.messages s))
         ∧ (StoredSession.messages s' `sublist_of` StoredSession.messages s)
         ∧ StoredSession.updated_at s' = Date_now env (ticks w)
         ∧ (StoredSession.id s', StoredSession.name s', StoredSession.global_prompt s',
            StoredSession.created_at s', StoredSession.order s')
           = (StoredSession.id s, StoredSession.name s, StoredSession.global_prompt s,
              StoredSession.created_at s, StoredSession.order s)).
Proof.
  split; [|split].
  - intros Hs. unfold LocalDb.dbDeleteMessage. run. rewrite Hs. reflexivity.
  - intros s Hs Hmid. unfold LocalDb.dbDeleteMessage. run. rewrite Hs.
    rewrite bool_decide_eq_true_2; [reflexivity|].
    by apply filter_keeps_all_iff.
  - intros s Hs Hkey Hmid. unfold LocalDb.dbDeleteMessage. run. rewrite Hs.
    rewrite bool_decide_eq_false_2.
    2:{ rewrite filter_keeps_all_iff. tauto. }
    eexists _, _. split; [reflexivity|]. cbn. rewrite Hkey.
    repeat split.
    + intros [m [Hm Hin]]%list_elem_of_fmap.
      apply list_elem_of_filter in Hin as [Hne _]. cbn in Hne. congruence.
    + intros Hin. by apply list_elem_of_filter in Hin as [_ ?].
    + intros Hin. by apply list_elem_of_filter.
    + apply sublist_filter.
    + unfold LocalDb.touch; cbn. by rewrite Hkey.
Qed.

Lemma dbDeleteMessage_removes_every_match_witness :
  sessions Demo.w4 !! js "uuid-00" = Some Demo.topic
  ∧ StoredSession.id Demo.topic = js "uuid-00"
  ∧ js "m-reply" ∈ message_ids Demo.topic
  ∧ ∃ s' w',
      LocalDb.dbDeleteMessage Demo.env (js "uuid-00") (js "m-reply") Demo.w4
      = (Returned true, w')
      ∧ sessions w' = <[js "uuid-00" := s']> (sessions Demo.w4)
      ∧ StoredSession.messages s'
        = filter (λ m, StoredMessage.id m ≠ js "m-reply")
                 (StoredSession.messages Demo.topic).
Proof.
  assert (H1 : sessions Demo.w4 !! js "uuid-00" = Some Demo.topic)
    by (vm_compute; reflexivity).
  assert (H2 : StoredSession.id Demo.topic = js "uuid-00")
    by (vm_compute; reflexivity).
  assert (H3 : js "m-reply" ∈ message_ids Demo.topic)
    by (apply (bool_decide_eq_true_1 _); vm_compute; reflexivity).
  repeat (split; [assumption|]).
  destruct (dbDeleteMessage_removes_every_match Demo.env (js "uuid-00")
              (js "m-reply") Demo.w4) as (_ & _ & Hdel).
  destruct (Hdel Demo.topic H1 H2 H3) as (s' & w' & Hrun & Hst & _ & Hmsgs & _).
  exists s', w'. auto.
Defined.
(** ** Forking a session *)


(** With ids unique within the session, the located message is any message
    carrying the id. *)
Lemma located_of_NoDup (s : StoredSession.t) k m :
  NoDup (message_ids s) → StoredSession.messages s !! k = Some m →
  ∀ j m', StoredSession.messages s !! j = Some m' → j < k →
          StoredMessage.id m' ≠ StoredMessage.id m.
Proof.
  intros Hnd Hk j m' Hj Hlt Heq.
  assert (j = k); [|lia].
  eapply NoDup_lookup; [exact Hnd| |]; unfold message_ids;
    rewrite list_lookup_fmap.
  - rewrite Hj. reflexivity.
  - rewrite Hk. cbn. by rewrite Heq.
Qed.


(** ** The object stores *)

Lemma getAll_Permutation {V} (m : gmap jsstring V) :
  ObjectStore.getAll m ≡ₚ (map_to_list m).*2.
Proof. unfold ObjectStore.getAll. by rewrite merge_sort_Permutation. Qed.

Lemma elem_of_getAll {V} (m : gmap jsstring V) (v : V) :
  v ∈ ObjectStore.getAll m ↔ ∃ k, m !! k = Some v.
Proof.
  rewrite getAll_Permutation, list_elem_of_fmap. split.
  - intros [[k v'] [-> Hin]]. exists k. by apply elem_of_map_to_list.
  - intros [k Hk]. exists (k, v). split; [done|]. by apply elem_of_map_to_list.
Qed.

Lemma latest_cons {V} (key : V → jsstring) k (v : V) (vs : list V) :
  latest key k (v :: vs)
  = match latest key k vs with
    | Some x => Some x
    | None => if decide (key v = k) then Some v else None
    end.
Proof.
  unfold latest. rewrite filter_cons.
  destruct (decide (key v = k)) as [Hk|Hk]; [|by destruct (last _)].
  destruct (filter _ vs) as [|y l] eqn:E; [done|].
  change (last (v :: y :: l)) with (last (y :: l)).
  destruct (last (y :: l)) eqn:El; [done|].
  by apply last_None in El.
Qed.

Lemma putAll_lookup {V} (key : V → jsstring) (vs : list V) (m : gmap jsstring V) k :
  ObjectStore.putAll key vs m !! k
  = match latest key k vs with Some v => Some v | None => m !! k end.
Proof.
  revert m. induction vs as [|v vs IH]; intros m; [done|].
  unfold ObjectStore.putAll in *. cbn [foldl]. rewrite IH, latest_cons.
  destruct (latest key k vs); [done|].
  case_decide as Hk.
  - by rewrite <- Hk, lookup_insert_eq.
  - by rewrite lookup_insert_ne.
Qed.

Lemma latest_None {V} (key : V → jsstring) k (vs : list V) :
  latest key k vs = None ↔ k ∉ key <$> vs.
Proof.
  unfold latest. rewrite last_None. split.
  - intros Hf [v [-> Hv]]%list_elem_of_fmap.
    assert (v ∈ filter (λ x, key x = key v) vs) as Hin
      by (by apply list_elem_of_filter).
    rewrite Hf in Hin. by apply elem_of_nil in Hin.
  - intros Hk. destruct (filter _ vs) as [|v l] eqn:E; [done|].
    assert (v ∈ filter (λ x, key x = k) vs) as [Hv Hin]%list_elem_of_filter
      by (rewrite E; left).
    destruct Hk. rewrite <- Hv. by apply list_elem_of_fmap_2.
Qed.

Lemma putAll_snoc {V} (key : V → jsstring) (vs : list V) (v : V)
    (m : gmap jsstring V) :
  ObjectStore.putAll key (vs ++ [v]) m
  = <[key v := v]> (ObjectStore.putAll key vs m).
Proof. unfold ObjectStore.putAll. by rewrite foldl_app. Qed.

Lemma putAll_to_list {V} (key : V → jsstring) (vs : list V) :
  NoDup (key <$> vs) →
  map_to_list (ObjectStore.putAll key vs ∅) ≡ₚ (λ v, (key v, v)) <$> vs.
Proof.
  induction vs as [|v vs IH] using rev_ind; intros Hnd.
  - unfold ObjectStore.putAll; cbn. by rewrite map_to_list_empty.
  - rewrite fmap_app in Hnd. apply NoDup_app in Hnd as (Hnd & Hv & _).
    rewrite putAll_snoc, map_to_list_insert.
    + rewrite IH by done. rewrite fmap_app. cbn.
      by rewrite (Permutation_app_comm _ [_]).
    + rewrite putAll_lookup, lookup_empty.
      assert (latest key (key v) vs = None) as ->; [|done].
      apply latest_None. intros Hin. apply (Hv _ Hin). cbn. left.
Qed.

Lemma getAll_putAll {V} (key : V → jsstring) (vs : list V) :
  NoDup (key <$> vs) → ObjectStore.getAll (ObjectStore.putAll key vs ∅) ≡ₚ vs.
Proof.
  intros Hnd. rewrite getAll_Permutation, putAll_to_list by done.
  rewrite <- list_fmap_compose. cbn.
  induction vs; cbn; auto. 
  constructor. apply IHvs. by apply NoDup_cons in Hnd as [_ ?].
Qed.

(** ** Importing a bundle *)

Lemma dbImportBundle_accepts (bundle : ExportBundleV1.t) (w : World) :
  ExportBundleV1.app bundle = js "agent-group" →
  ExportBundleV1.version bundle = 1%Z →
  LocalDb.dbImportBundle bundle w
  = (Returned tt,
     mkWorld (ObjectStore.putAll Agent.name (ExportBundleV1.agents bundle) ∅)
       (ObjectStore.putAll StoredSession.id (ExportBundleV1.sessions bundle) ∅)
       (ticks w) (draws w)).
Proof.
  intros Happ Hver. unfold LocalDb.dbImportBundle.
  by rewrite bool_decide_eq_false_2 by tauto.
Qed.

(** C2.  A bundle whose [app] is not ["agent-group"] or whose [version] is
    not 1 makes [dbImportBundle] throw with the state exactly as it was: no
    agent and no session is touched.  A bundle with the tag and the version
    replaces both stores in the one step: what was stored before is gone, every
    key holds the last record the bundle gives for it, and when the bundle's
    keys are distinct the stores hold the bundle's lists. *)
Theorem dbImportBundle_all_or_nothing (bundle : ExportBundleV1.t) (w : World) :
  (ExportBundleV1.app bundle ≠ js "agent-group"
   ∨ ExportBundleV1.version bundle ≠ 1%Z →
     LocalDb.dbImportBundle bundle w
     = (Threw (Js.Error (js "Unsupported import file")), w))
  ∧ (ExportBundleV1.app bundle = js "agent-group" →
     ExportBundleV1.version bundle = 1%Z →
     ∃ w',
       LocalDb.dbImportBundle bundle w = (Returned tt, w')
       ∧ (∀ n, agents w' !! n = latest Agent.name n (ExportBundleV1.agents bundle))
       ∧ (∀ i, sessions w' !! i
               = latest StoredSession.id i (ExportBundleV1.sessions bundle))
       ∧ (NoDup (Agent.name <$> ExportBundleV1.agents bundle) →
          ObjectStore.getAll (agents w') ≡ₚ ExportBundleV1.agents bundle)
       ∧ (NoDup (StoredSession.id <$> ExportBundleV1.sessions bundle) →
          ObjectStore.getAll (sessions w') ≡ₚ ExportBundleV1.sessions bundle)
       ∧ ticks w' = ticks w ∧ draws w' = draws w).
Proof.
  unfold LocalDb.dbImportBundle. split.
  - intros Hbad. by rewrite bool_decide_eq_true_2.
  - intros Happ Hver. fold (LocalDb.dbImportBundle bundle w).
    rewrite dbImportBundle_accepts by done.
    eexists. split; [reflexivity|]. cbn. repeat split.
    + intros n. rewrite putAll_lookup, lookup_empty. by destruct (latest _ _ _).
    + intros i. rewrite putAll_lookup, lookup_empty. by destruct (latest _ _ _).
    + apply getAll_putAll.
    + apply getAll_putAll.
Qed.

Lemma dbImportBundle_all_or_nothing_witness :
  (ExportBundleV1.app Demo.bundle_v2 ≠ js "agent-group"
   ∨ ExportBundleV1.version Demo.bundle_v2 ≠ 1%Z)
  ∧ LocalDb.dbImportBundle Demo.bundle_v2 Demo.w4
    = (Threw (Js.Error (js "Unsupported import file")), Demo.w4)
  ∧ ExportBundleV1.app Demo.bundle = js "agent-group"
  ∧ ExportBundleV1.version Demo.bundle = 1%Z
  ∧ ∃ w', LocalDb.dbImportBundle Demo.bundle Demo.w1 = (Returned tt, w')
          ∧ agents w' !! js "Bot" = Some Demo.bot
          ∧ sessions w' !! js "uuid-00" = Some Demo.topic.
Proof.
  assert (Hbad : ExportBundleV1.app Demo.bundle_v2 ≠ js "agent-group"
                 ∨ ExportBundleV1.version Demo.bundle_v2 ≠ 1%Z)
    by (right; discriminate).
  split; [exact Hbad|].
  split; [exact (proj1 (dbImportBundle_all_or_nothing Demo.bundle_v2 Demo.w4) Hbad)|].
  do 2 (split; [reflexivity|]).
  destruct (proj2 (dbImportBundle_all_or_nothing Demo.bundle Demo.w1)
              eq_refl eq_refl) as (w' & Hrun & Hag & Hse & _).
  exists w'. split; [exact Hrun|]. rewrite Hag, Hse. split; vm_compute; reflexivity.
Defined.

(** ** Listing the sessions *)

Lemma Sorted_weaken {A} (R R' : A → A → Prop) (l : list A) :
  (∀ a b, R a b → R' a b) → Sorted R l → Sorted R' l.
Proof.
  intros HR. induction 1 as [|x l Hl IH Hhd]; constructor; [done|].
  destruct Hhd; constructor; auto.
Qed.

Section JsSort.
Context {A : Type} (cmp : A → A → Z).

Lemma sort_insert_Permutation x l : Js.sort_insert cmp x l ≡ₚ x :: l.
Proof.
  induction l as [|y l IH]; [done|]. cbn.
  destruct (cmp x y <=? 0)%Z; [done|].
  rewrite IH. apply perm_swap.
Qed.

Lemma sort_Permutation l : Js.sort cmp l ≡ₚ l.
Proof.
  induction l as [|x l IH]; [done|]. cbn.
  fold (Js.sort cmp l). by rewrite sort_insert_Permutation, IH.
Qed.

(** The comparator orders any two elements one way or the other. *)
Hypothesis cmp_total : ∀ x y, (0 < cmp x y)%Z → (cmp y x <= 0)%Z.

Lemma sort_insert_Sorted x l :
  Sorted (λ a b, (cmp a b <= 0)%Z) l →
  Sorted (λ a b, (cmp a b <= 0)%Z) (Js.sort_insert cmp x l).
Proof.
  induction 1 as [|y l Hl IH Hhd]; cbn; [repeat constructor|].
  destruct (Z.leb_spec (cmp x y) 0) as [Hle|Hgt].
  - repeat constructor; done.
  - constructor; [done|].
    destruct l as [|z l]; cbn in *.
    + constructor. by apply cmp_total.
    + destruct (cmp x z <=? 0)%Z; constructor.
      * by apply cmp_total.
      * by inversion Hhd.
Qed.

Lemma sort_Sorted l : Sorted (λ a b, (cmp a b <= 0)%Z) (Js.sort cmp l).
Proof.
  induction l as [|x l IH]; [constructor|].
  cbn. by apply sort_insert_Sorted.
Qed.
End JsSort.

(** What [dbListSessions] of this [local-db.ts] does: one summary per stored
    session (id, name, global_prompt, created_at and the number of messages),
    newest first: descending by [created_at], whatever [order] the stored
    sessions carry. *)
Lemma dbListSessions_newest_first (w : World) :
  ∃ listed,
    LocalDb.dbListSessions w = (Returned (LocalDb._toSessionSummary <$> listed), w)
    ∧ listed ≡ₚ ObjectStore.getAll (sessions w)
    ∧ (∀ s, s ∈ listed ↔ ∃ k, sessions w !! k = Some s)
    ∧ StronglySorted
        (λ a b, (StoredSession.created_at b <= StoredSession.created_at a)%Z) listed.
Proof.
  set (cmp := λ a b : StoredSession.t,
         (StoredSession.created_at b - StoredSession.created_at a)%Z).
  exists (Js.sort cmp (ObjectStore.getAll (sessions w))).
  split; [reflexivity|]. split; [apply sort_Permutation|]. split.
  - intros s. by rewrite sort_Permutation, elem_of_getAll.
  - apply Sorted_StronglySorted.
    + intros a b c ??. lia.
    + apply (Sorted_weaken (λ a b, (cmp a b <= 0)%Z)).
      * intros a b. unfold cmp. lia.
      * apply sort_Sorted. intros a b. unfold cmp. lia.
Qed.

(** C7.  [SessionSummary] declares [order] as the sort key, smaller first
    ([types/index.ts]), and the page stores a new order of the sidebar and
    loads the list again ([handleSessionsReorder]); [dbListSessions] of this
    [local-db.ts] never reads it.  On a store holding the older session with
    [order] 0 and the newer one with [order] 1, the listing is the newer
    session first: descending by [order], where the design document and the
    type ask for ascending. *)
Lemma dbListSessions_ignores_order :
  ∃ l,
    LocalDb.dbListSessions Demo.ordered = (Returned l, Demo.ordered)
    ∧ SessionSummary.id <$> l = [js "b"; js "a"]
    ∧ SessionSummary.created_at <$> l = [1700000060%Z; 1700000000%Z]
    ∧ order_of Demo.ordered <$> l = [Some 1%Z; Some 0%Z]
    ∧ ¬ listed_ascending_by_order Demo.ordered.
Proof.
  assert (Hl : LocalDb.dbListSessions Demo.ordered
               = (Returned [LocalDb._toSessionSummary Demo.second;
                            LocalDb._toSessionSummary Demo.first], Demo.ordered))
    by (vm_compute; reflexivity).
  eexists. split; [exact Hl|]. do 3 (split; [vm_compute; reflexivity|]).
  intros (l & Hrun & Hsorted). rewrite Hl in Hrun. injection Hrun as <-.
  apply Sorted_inv in Hsorted as [_ Hhd]. apply HdRel_inv in Hhd.
  destruct Hhd as (x & y & Hx & Hy & Hle).
  vm_compute in Hx, Hy. injection Hx as <-. injection Hy as <-.
  by vm_compute in Hle.
Qed.
(** ** The timestamps of a session *)

Lemma lookup_put {V} (m : gmap jsstring V) i (x : V) k y :
  <[i := x]> m !! k = Some y → m !! k = Some y ∨ y = x.
Proof.
  destruct (decide (i = k)) as [->|Hne].
  - rewrite lookup_insert_eq. intros [= <-]. by right.
  - rewrite lookup_insert_ne by done. by left.
Qed.

Lemma run_op_kept_or_written env op w : kept_or_written env w (run_op env op w).
Proof.
  unfold kept_or_written.
  destruct op as [n g|sid mid nm|sid item|sid item|sid mid c|sid mid|sid n g|sid];
    cbn [run_op].
  - unfold LocalDb.dbCreateSession. run. cbn. split; [lia|].
    intros k s' [?| ->]%lookup_put; [by left|right].
    exists (ticks w). cbn. split; [lia|]. auto.
  - unfold LocalDb.dbForkSessionFromMessage. run.
    destruct (sessions w !! sid) as [s|] eqn:Hs; [|split; [done|by left]].
    destruct (Js.findIndex _ _) as [idx|]; [|split; [done|by left]].
    rewrite mapM_fresh_ids. cbn. split; [lia|].
    intros k s' [?| ->]%lookup_put; [by left|right].
    exists (ticks w). cbn. split; [lia|]. auto.
  - unfold LocalDb.dbAppendMessage. run.
    destruct (sessions w !! sid) as [s|] eqn:Hs; [|split; [done|by left]].
    destruct (TranscriptItem.id item); run; cbn; (split; [lia|]);
      intros k s' [?| ->]%lookup_put; try (by left); right;
      exists (ticks w); cbn; (split; [lia|]); (split; [reflexivity|right; eauto]).
  - unfold LocalDb.dbUpsertMessage. run.
    destruct (sessions w !! sid) as [s|] eqn:Hs; [|split; [done|by left]].
    destruct (Js.findIndex _ _) as [idx|]; run; cbn; (split; [lia|]);
      intros k s' [?| ->]%lookup_put; try (by left); right.
    + exists (ticks w); cbn; (split; [lia|]); (split; [reflexivity|right; eauto]).
    + exists (S (ticks w)); cbn; (split; [lia|]); (split; [reflexivity|right; eauto]).
  - unfold LocalDb.dbUpdateMessageContent. run.
    destruct (sessions w !! sid) as [s|] eqn:Hs; [|split; [done|by left]].
    destruct (list_find _ _) as [[idx msg]|]; [|split; [done|by left]].
    cbn. split; [lia|].
    intros k s' [?| ->]%lookup_put; [by left|right].
    exists (ticks w); cbn; (split; [lia|]); (split; [reflexivity|right; eauto]).
  - unfold LocalDb.dbDeleteMessage. run.
    destruct (sessions w !! sid) as [s|] eqn:Hs; [|split; [done|by left]].
    case_bool_decide; [split; [done|by left]|].
    cbn. split; [lia|].
    intros k s' [?| ->]%lookup_put; [by left|right].
    exists (ticks w); cbn; (split; [lia|]); (split; [reflexivity|right; eauto]).
  - unfold LocalDb.dbUpdateSession. run.
    destruct (sessions w !! sid) as [s|] eqn:Hs; [|split; [done|by left]].
    cbn. split; [lia|].
    intros k s' [?| ->]%lookup_put; [by left|right].
    exists (ticks w); cbn; (split; [lia|]); (split; [reflexivity|right; eauto]).
  - unfold LocalDb.dbDeleteSession. run. cbn. split; [done|].
    intros k s' Hk. left. by apply lookup_delete_Some in Hk as [_ ?].
Qed.

Lemma stamped_step env w w' :
  clock_monotone env → kept_or_written env w w' → stamped env w → stamped env w'.
Proof.
  intros Hmono [Hticks Hstep] Hinv k s' Hk. cbn.
  destruct (Hstep k s' Hk) as [Hold|(t & Ht & Hupd & Hcre)].
  - destruct (Hinv k s' Hold) as [H1 H2]. split; [done|].
    etrans; [exact H2|]. by apply Hmono.
  - assert (Date_now env t <= Date_now env (ticks w'))%Z by (apply Hmono; lia).
    destruct Hcre as [Hc|(k0 & s & Hs & Hc)]; rewrite Hc, Hupd.
    + split; [lia|done].
    + destruct (Hinv k0 s Hs) as [_ H2].
      assert (Date_now env (ticks w) <= Date_now env t)%Z by (apply Hmono; lia).
      split; lia.
Qed.

Lemma run_ops_stamped env ops w :
  clock_monotone env → stamped env w → stamped env (run_ops env ops w).
Proof.
  intros Hmono. revert w. induction ops as [|op ops IH]; intros w Hw; [done|].
  cbn. apply IH. apply (stamped_step env w); [done| |done].
  apply run_op_kept_or_written.
Qed.

(** C8, as the code has it.  [dbCreateSession] and [dbForkSessionFromMessage]
    write the new record with both timestamps read from the clock at the one
    reading.  [dbAppendMessage], [dbUpsertMessage], [dbUpdateMessageContent],
    [dbDeleteMessage] and [dbUpdateSession], when they rewrite a session, keep
    its [created_at] and set [updated_at] to a reading of the clock made
    during the operation (the second one of an upsert that appends); every
    other record is left as it was.  Under a clock that never goes back this
    keeps [created_at <= updated_at] on a store none of whose records was
    created later than the clock reads, and so on every store reached from
    the empty one through these operations. *)
Theorem store_keeps_timestamps_ordered env :
  clock_monotone env →
  (∀ n g w, created_at_now env w (run_op env (CreateSession n g) w))
  ∧ (∀ sid mid nm w s, sessions w !! sid = Some s → mid ∈ message_ids s →
       created_at_now env w (run_op env (ForkSessionFromMessage sid mid nm) w))
  ∧ (∀ sid item w s, sessions w !! sid = Some s →
       touched_at env (run_op env (AppendMessage sid item) w) s (ticks w))
  ∧ (∀ sid item w s, sessions w !! sid = Some s →
       touched_at env (run_op env (UpsertMessage sid item) w) s
         (if decide (TranscriptItem.id item ∈ message_ids s)
          then ticks w else S (ticks w)))
  ∧ (∀ sid mid c w s, sessions w !! sid = Some s → mid ∈ message_ids s →
       touched_at env (run_op env (UpdateMessageContent sid mid c) w) s (ticks w))
  ∧ (∀ sid mid w s, sessions w !! sid = Some s → mid ∈ message_ids s →
       touched_at env (run_op env (DeleteMessage sid mid) w) s (ticks w))
  ∧ (∀ sid n g w s, sessions w !! sid = Some s →
       touched_at env (run_op env (UpdateSession sid n g) w) s (ticks w))
  ∧ (∀ op w, kept_or_written env w (run_op env op w))
  ∧ (∀ op w, stamped env w → stamped env (run_op env op w))
  ∧ (∀ ops, timestamps_ordered (run_ops env ops empty_world)).
Proof.
  intros Hmono.
  assert (Hfound : ∀ (s : StoredSession.t) mid, mid ∈ message_ids s →
            ∃ idx msg,
              list_find (λ m, StoredMessage.id m = mid) (StoredSession.messages s)
              = Some (idx, msg)).
  { intros s mid [m [-> Hm]]%list_elem_of_fmap.
    destruct (list_find (λ m0, StoredMessage.id m0 = StoredMessage.id m)
                (StoredSession.messages s)) as [[idx msg]|] eqn:Hf; [eauto|].
    apply list_find_None in Hf. rewrite Forall_forall in Hf.
    by destruct (Hf m Hm). }
  split_and!.
  - intros n g w. cbn [run_op]. unfold LocalDb.dbCreateSession. run. cbn.
    eexists. split; [apply lookup_insert_eq|done].
  - intros sid mid nm w s Hs Hmid. cbn [run_op].
    unfold LocalDb.dbForkSessionFromMessage, Js.findIndex. run. rewrite Hs.
    destruct (Hfound s mid Hmid) as (idx & msg & ->). cbn [fmap option_fmap option_map].
    rewrite mapM_fresh_ids. cbn.
    eexists. split; [apply lookup_insert_eq|done].
  - intros sid item w s Hs. cbn [run_op].
    unfold LocalDb.dbAppendMessage. run. rewrite Hs.
    destruct (TranscriptItem.id item); run; cbn;
      (eexists; split; [apply lookup_insert_eq|done]).
  - intros sid item w s Hs. cbn [run_op].
    unfold LocalDb.dbUpsertMessage, Js.findIndex. run. rewrite Hs.
    destruct (decide (TranscriptItem.id item ∈ message_ids s)) as [Hin|Hout].
    + destruct (Hfound s _ Hin) as (idx & msg & ->). cbn.
      eexists. split; [apply lookup_insert_eq|done].
    + assert (list_find (λ m, StoredMessage.id m = TranscriptItem.id item)
                (StoredSession.messages s) = None) as ->
        by (apply list_find_None; by apply not_in_message_ids).
      cbn. eexists. split; [apply lookup_insert_eq|done].
  - intros sid mid c w s Hs Hmid. cbn [run_op].
    unfold LocalDb.dbUpdateMessageContent. run. rewrite Hs.
    destruct (Hfound s mid Hmid) as (idx & msg & ->). cbn.
    eexists. split; [apply lookup_insert_eq|done].
  - intros sid mid w s Hs Hmid. cbn [run_op].
    unfold LocalDb.dbDeleteMessage. run. rewrite Hs.
    rewrite bool_decide_eq_false_2 by (rewrite filter_keeps_all_iff; tauto).
    cbn. eexists. split; [apply lookup_insert_eq|done].
  - intros sid n g w s Hs. cbn [run_op].
    unfold LocalDb.dbUpdateSession. run. rewrite Hs. cbn.
    eexists. split; [apply lookup_insert_eq|done].
  - intros. apply run_op_kept_or_written.
  - intros op w. apply stamped_step; [done|]. apply run_op_kept_or_written.
  - intros ops k s Hk.
    assert (stamped env (run_ops env ops empty_world)) as Hst
      by (apply run_ops_stamped; [done|apply map_Forall_empty]).
    by destruct (Hst k s Hk).
Qed.

Lemma store_keeps_timestamps_ordered_witness :
  clock_monotone Demo.env
  ∧ touched_at Demo.env
      (run_op Demo.env (UpdateSession (js "uuid-00") (Some (js "renamed")) None)
         Demo.w4)
      Demo.topic 4
  ∧ timestamps_ordered
      (run_ops Demo.env
         [CreateSession (js "topic") []; AppendMessage (js "uuid-00") Demo.hello;
          UpsertMessage (js "uuid-00") Demo.reply;
          ForkSessionFromMessage (js "uuid-00") (js "m-hello") None;
          DeleteMessage (js "uuid-00") (js "m-reply");
          UpdateSession (js "uuid-01") (Some (js "branch")) None]
         empty_world).
Proof.
  assert (H : clock_monotone Demo.env) by (intros i j Hij; cbn; lia).
  split; [exact H|].
  destruct (store_keeps_timestamps_ordered Demo.env H)
    as (_ & _ & _ & _ & _ & _ & Hupdate & _ & _ & Hreached).
  split; [|exact (Hreached _)].
  apply (Hupdate (js "uuid-00") (Some (js "renamed")) None Demo.w4 Demo.topic).
  vm_compute. reflexivity.
Defined.

(** C8 as worded fails on records the store was given: [dbImportBundle] (and
    [dbSetSessions]) store the timestamps of the bundle as they are, so a
    record updated before it was created is stored; and a record created on a
    machine whose clock is ahead satisfies [created_at <= updated_at] when it
    is imported and loses it at the next [dbUpdateSession], although the
    clock of this machine never goes back. *)
Lemma imported_timestamps_not_ordered :
  clock_monotone Demo.env
  ∧ ¬ timestamps_ordered (LocalDb.dbImportBundle Demo.bundle_backwards empty_world).2
  ∧ timestamps_ordered (LocalDb.dbImportBundle Demo.bundle_ahead empty_world).2
  ∧ ¬ timestamps_ordered
        (run_op Demo.env (UpdateSession (js "x") (Some (js "renamed")) None)
           (LocalDb.dbImportBundle Demo.bundle_ahead empty_world).2).
Proof.
  split; [intros i j Hij; cbn; lia|]. split; [|split].
  - intros H. specialize (H (js "y") Demo.backwards). cbn in H.
    assert (Hl : sessions (LocalDb.dbImportBundle Demo.bundle_backwards empty_world).2
                   !! js "y" = Some Demo.backwards) by (vm_compute; reflexivity).
    specialize (H Hl). vm_compute in H. by apply H.
  - intros k s Hk.
    assert (Hw : sessions (LocalDb.dbImportBundle Demo.bundle_ahead empty_world).2
                 = {[ js "x" := Demo.ahead ]}) by (vm_compute; reflexivity).
    rewrite Hw in Hk. apply lookup_singleton_Some in Hk as [_ <-].
    vm_compute. discriminate.
  - intros H.
    set (w := run_op Demo.env (UpdateSession (js "x") (Some (js "renamed")) None)
                (LocalDb.dbImportBundle Demo.bundle_ahead empty_world).2) in *.
    assert (Hl : ∃ s, sessions w !! js "x" = Some s
                      ∧ StoredSession.created_at s = 1800000000000%Z
                      ∧ StoredSession.updated_at s = 1700000000000%Z).
    { eexists. split; [vm_compute; reflexivity|]. split; reflexivity. }
    destruct Hl as (s & Hs & Hc & Hu). specialize (H _ _ Hs). cbn in H. lia.
Qed.

(** ** The chat hook *)

Lemma bind_Returned {S A B} (c : M S A) (k : A → M S B) s a s' :
  c s = (Returned a, s') → bind c k s = k a s'.
Proof. intros H. unfold bind. by rewrite H. Qed.

Lemma bind_Threw {S A B} (c : M S A) (k : A → M S B) s e s' :
  c s = (Threw e, s') → bind c k s = (Threw e, s').
Proof. intros H. unfold bind. by rewrite H. Qed.

Lemma dbAppendMessage_found env (sid : jsstring) item w s :
  sessions w !! sid = Some s →
  ∃ i,
    LocalDb.dbAppendMessage env sid item w
    = (Returned i,
       mkWorld (agents w)
         (<[StoredSession.id s :=
              LocalDb.touch s (Date_now env (ticks w))
                (StoredSession.messages s
                 ++ [LocalDb._toStoredMessage (TranscriptItem.with_id item i)
                       (Date_now env (ticks w))])]> (sessions w))
         (S (ticks w))
         (match TranscriptItem.id item with [] => S (draws w) | _ => draws w end)).
Proof.
  intros Hs. unfold LocalDb.dbAppendMessage. run. rewrite Hs.
  destruct (TranscriptItem.id item); run; cbn; by eexists.
Qed.

Lemma dbAppendMessage_missing env (sid : jsstring) item w :
  sessions w !! sid = None →
  LocalDb.dbAppendMessage env sid item w
  = (Threw (Js.Error (js "Session not found")), w).
Proof. intros Hs. unfold LocalDb.dbAppendMessage. run. by rewrite Hs. Qed.

(** The opening of [sendMessage] always returns: the user item is in the
    transcript and, after the await, in the ref; the store has run the one
    [dbAppendMessage]. *)
Lemma post_user_message_eq env (sid message : jsstring) images (st : Chat.State) :
  let userItem :=
    TranscriptItem.User (randomUUID env (draws (Chat.world st)))
      (Chat.user_content message images) (Some images) in
  Chat.post_user_message env sid message images st
  = (Returned userItem,
     Chat.mkState
       (LocalDb.dbAppendMessage env sid userItem
          (LocalDb._newId env (Chat.world st)).2).2
       (Chat.transcript st ++ [userItem]) (Chat.transcript st ++ [userItem]) true
       (Chat.calls st) (Chat.reported st)).
Proof.
  intros userItem. unfold Chat.post_user_message.
  unfold Chat.newId, Chat.await, Chat.rendered, Chat.lift, Chat.setTranscript,
    Chat.setIsLoading. run.
  cbn [Chat.world Chat.transcript Chat.transcriptRef Chat.isLoading Chat.calls
       Chat.reported]. fold userItem.
  by destruct (LocalDb.dbAppendMessage env sid userItem _) as [[i|e] w'].
Qed.

Lemma sendMessage_no_mention env net (sid : jsstring) agents globalPrompt
    (message : jsstring) images (st : Chat.State) :
  sid ≠ [] → Chat.parseMentionedAgents message agents = [] →
  Chat.sendMessage env net (Some sid) agents globalPrompt message images st
  = (Returned tt,
     Chat.setIsLoading false
       (Chat.post_user_message env sid message images st).2).
Proof.
  intros Hsid Hnone. destruct sid as [|c sid]; [done|].
  unfold Chat.sendMessage.
  rewrite (bind_Returned _ _ _ _ _ (post_user_message_eq env _ message images st)).
  rewrite post_user_message_eq.
  unfold finally, try_catch, Chat.invoke_mentioned. by rewrite Hnone.
Qed.

Lemma addMessageOnly_eq env (sid message : jsstring) images (st : Chat.State) :
  sid ≠ [] →
  let item :=
    TranscriptItem.User (randomUUID env (draws (Chat.world st)))
      (Chat.user_content message images) (Some images) in
  let stored :=
    LocalDb.dbAppendMessage env sid item (LocalDb._newId env (Chat.world st)).2 in
  Chat.addMessageOnly env (Some sid) message images st
  = (Returned (match stored.1 with
               | Returned _ => Some (TranscriptItem.id item)
               | Threw _ => None
               end),
     Chat.mkState stored.2 (Chat.transcript st ++ [item])
       (Chat.transcript st ++ [item])
       (Chat.isLoading st) (Chat.calls st) (Chat.reported st)).
Proof.
  intros Hsid item. cbv zeta. destruct sid as [|c sid]; [done|].
  unfold Chat.addMessageOnly.
  unfold Chat.newId, Chat.await, Chat.rendered, Chat.lift, Chat.setTranscript. run.
  cbn [Chat.world Chat.transcript Chat.transcriptRef Chat.isLoading Chat.calls
       Chat.reported]. fold item.
  by destruct (LocalDb.dbAppendMessage env (c :: sid) item _) as [[i|e] w'].
Qed.

(** C9.  Sent with an empty text, a message takes the content ["[图片]"]
    when it carries images and the empty string when it carries none, both in
    [sendMessage] and in [addMessageOnly]: that is the content of the item
    appended to the transcript and of the message appended to the stored
    session. *)
Theorem empty_text_content env net (sid : jsstring) agents globalPrompt
    (images : list jsstring) (st : Chat.State) :
  sid ≠ [] →
  let content := match images with [] => [] | _ => js "[图片]" end in
  let item :=
    TranscriptItem.User (randomUUID env (draws (Chat.world st))) content (Some images) in
  let persisted st' :=
    ∀ s, sessions (Chat.world st) !! sid = Some s →
      ∃ s' i,
        sessions (Chat.world st') !! StoredSession.id s = Some s'
        ∧ StoredSession.messages s'
          = StoredSession.messages s
            ++ [StoredMessage.User i content (Some images)
                  (Date_now env (ticks (Chat.world st)))] in
  (∃ st',
     Chat.sendMessage env net (Some sid) agents globalPrompt [] images st
     = (Returned tt, st')
     ∧ Chat.transcript st' = Chat.transcript st ++ [item]
     ∧ Chat.calls st' = Chat.calls st
     ∧ persisted st')
  ∧ (∃ r st',
       Chat.addMessageOnly env (Some sid) [] images st = (Returned r, st')
       ∧ Chat.transcript st' = Chat.transcript st ++ [item]
       ∧ persisted st').
Proof.
  intros Hsid content item persisted.
  assert (Hstored : ∀ s, sessions (Chat.world st) !! sid = Some s →
            ∃ s' i,
              sessions (LocalDb.dbAppendMessage env sid item
                          (LocalDb._newId env (Chat.world st)).2).2
                !! StoredSession.id s = Some s'
              ∧ StoredSession.messages s'
                = StoredSession.messages s
                  ++ [StoredMessage.User i content (Some images)
                        (Date_now env (ticks (Chat.world st)))]).
  { intros s Hs.
    destruct (dbAppendMessage_found env sid item
                (LocalDb._newId env (Chat.world st)).2 s Hs) as [i ->].
    eexists _, i. cbn. split; [apply lookup_insert_eq|]. reflexivity. }
  split.
  - eexists. split; [by apply sendMessage_no_mention|].
    rewrite post_user_message_eq. unfold Chat.setIsLoading.
    cbn [snd Chat.world Chat.transcript Chat.calls].
    change (Chat.user_content [] images) with content. fold item.
    repeat split. exact Hstored.
  - eexists _, _. split; [by apply addMessageOnly_eq|].
    cbn [snd Chat.world Chat.transcript Chat.calls].
    change (Chat.user_content [] images) with content. fold item.
    repeat split. exact Hstored.
Qed.

Lemma empty_text_content_witness :
  js "uuid-00" ≠ []
  ∧ ∃ st',
      Chat.sendMessage Demo.env Demo.net (Some (js "uuid-00")) [Demo.bot] None []
        [js "data:image/png;base64,AAAA"] Demo.chat
      = (Returned tt, st')
      ∧ Chat.transcript st'
        = Chat.transcript Demo.chat
          ++ [TranscriptItem.User (js "uuid-01") (js "[图片]")
                (Some [js "data:image/png;base64,AAAA"])].
Proof.
  assert (H : js "uuid-00" ≠ []) by discriminate.
  split; [exact H|].
  destruct (empty_text_content Demo.env Demo.net (js "uuid-00") [Demo.bot] None
              [js "data:image/png;base64,AAAA"] Demo.chat H)
    as [(st' & Hrun & Htr & _) _].
  exists st'. split; [exact Hrun|]. exact Htr.
Defined.

(** ** Mentions *)

Lemma mention_run_app (run post : jsstring) :
  Forall (λ c, Chat.is_mention_char c = true) run →
  match post with [] => True | c :: _ => Chat.is_mention_char c = false end →
  Chat.mention_run (run ++ post) = run.
Proof.
  intros Hrun Hpost. induction Hrun as [|c run Hc _ IH]; cbn.
  - destruct post as [|c post]; [done|]. cbn. by rewrite Hpost.
  - by rewrite Hc, IH.
Qed.

Lemma mention_run_split (s : jsstring) :
  ∃ post, s = Chat.mention_run s ++ post
          ∧ Forall (λ c, Chat.is_mention_char c = true) (Chat.mention_run s)
          ∧ match post with [] => True | c :: _ => Chat.is_mention_char c = false end.
Proof.
  induction s as [|c s (post & Hs & Hall & Hpost)]; cbn.
  - exists []. auto.
  - destruct (Chat.is_mention_char c) eqn:Hc.
    + exists post. cbn. rewrite <- Hs. auto.
    + exists (c :: s). auto.
Qed.

(** The pattern resumes after the end of a match; the scan of the model
    resumes after the [@].  They find the same matches, as a run of mention
    characters holds no [@]. *)
Lemma match_mentions_skip (run rest : jsstring) :
  Forall (λ c, Chat.is_mention_char c = true) run →
  Chat.match_mentions (run ++ rest) = Chat.match_mentions rest.
Proof.
  induction 1 as [|c run Hc _ IH]; [done|]. cbn.
  destruct (N.eqb_spec c 64) as [->|_]; [discriminate Hc|]. exact IH.
Qed.

Lemma elem_of_match_mentions (message raw : jsstring) :
  raw ∈ Chat.match_mentions message ↔
  ∃ name, raw = 64%N :: name ∧ mentioned_in message name.
Proof.
  split.
  - induction message as [|c rest IH]; cbn; [by intros ?%elem_of_nil|].
    assert (raw ∈ Chat.match_mentions rest →
            ∃ name, raw = 64%N :: name ∧ mentioned_in (c :: rest) name) as Hrest.
    { intros (name & -> & pre & post & -> & ?)%IH.
      exists name. split; [done|]. by exists (c :: pre), post. }
    destruct (N.eqb_spec c 64) as [->|_]; [|done].
    destruct (Chat.mention_run rest) as [|r run] eqn:Hrun; [done|].
    intros [->|Hin]%elem_of_cons; [|auto].
    exists (r :: run). split; [done|].
    destruct (mention_run_split rest) as (post & Hsplit & Hall & Hpost).
    rewrite Hrun in Hsplit, Hall.
    exists [], post. cbn. by rewrite Hsplit.
  - intros (name & -> & pre & post & -> & Hne & Hall & Hpost).
    induction pre as [|c pre IH]; cbn.
    + rewrite mention_run_app by done.
      destruct name; [done|]. left.
    + destruct (c =? 64)%N; [|done].
      destruct (Chat.mention_run _); [done|]. by right.
Qed.

Lemma elem_of_first_occurrences (l : list jsstring) x :
  x ∈ first_occurrences l ↔ x ∈ l.
Proof.
  induction l as [|y l IH]; [done|]. cbn.
  rewrite !elem_of_cons, list_elem_of_filter, IH.
  destruct (decide (x = y)); tauto.
Qed.

Lemma NoDup_first_occurrences (l : list jsstring) : NoDup (first_occurrences l).
Proof.
  induction l as [|y l IH]; cbn; constructor.
  - rewrite list_elem_of_filter. by intros [? _].
  - by apply NoDup_filter.
Qed.

Lemma first_occurrences_sublist (l : list jsstring) :
  first_occurrences l `sublist_of` l.
Proof.
  induction l as [|y l IH]; cbn; [done|].
  constructor. by etrans; [apply sublist_filter|].
Qed.

(** The loop over the matches, from any point of its run. *)
Lemma mention_loop_spec (agentSet seen : gset jsstring) (acc : list jsstring)
    (raws : list jsstring) :
  (∀ x, x ∈ seen ↔ x ∈ acc) →
  (foldl (Chat.mention_step agentSet) (seen, acc) raws).2
  = acc ++ filter (λ y, y ∉ acc)
             (first_occurrences (filter (λ n, n ∈ agentSet) (drop 1 <$> raws))).
Proof.
  revert seen acc. induction raws as [|raw raws IH]; intros seen acc Hseen.
  - cbn. by rewrite app_nil_r.
  - cbn [foldl fmap list_fmap]. unfold Chat.mention_step at 2. cbn [fst snd].
    rewrite filter_cons.
    destruct (decide (drop 1 raw ∈ agentSet)) as [Hin|Hout].
    + rewrite (bool_decide_eq_true_2 _ Hin). cbn [first_occurrences].
      rewrite filter_cons.
      destruct (decide (drop 1 raw ∈ seen)) as [Hs|Hs].
      * rewrite (bool_decide_eq_true_2 _ Hs), (IH _ _ Hseen).
        rewrite decide_False by (intros Hn; apply Hn; by apply Hseen).
        f_equal. rewrite list_filter_filter. apply list_filter_iff.
        intros y. split; [|tauto]. intros Hy. split; [done|].
        intros ->. apply Hy. by apply Hseen.
      * rewrite (bool_decide_eq_false_2 _ Hs).
        rewrite decide_True by (by rewrite <- Hseen).
        rewrite IH.
        2:{ intros x. rewrite elem_of_union, elem_of_singleton, elem_of_app,
              list_elem_of_singleton, Hseen. tauto. }
        rewrite <- app_assoc. cbn. do 2 f_equal.
        rewrite list_filter_filter. apply list_filter_iff.
        intros y. rewrite elem_of_app, list_elem_of_singleton. tauto.
    + rewrite (bool_decide_eq_false_2 _ Hout). by apply IH.
Qed.

Lemma parseMentionedAgents_eq (message : jsstring) (agents : list Agent.t) :
  Chat.parseMentionedAgents message agents
  = first_occurrences
      (filter (λ n, n ∈ Agent.name <$> agents) (mention_tokens message)).
Proof.
  unfold Chat.parseMentionedAgents, mention_tokens.
  destruct (Chat.match_mentions message) as [|raw raws] eqn:Hm; [done|].
  rewrite mention_loop_spec by set_solver.
  cbn [app]. rewrite <- Hm.
  rewrite (list_filter_iff (λ y, y ∉ []) (λ _, True)) by (intros; set_solver).
  rewrite (list_filter_iff (λ n, n ∈ (list_to_set (Agent.name <$> agents) : gset _))
             (λ n, n ∈ Agent.name <$> agents)) by (intros; set_solver).
  induction (first_occurrences _) as [|x l IHl]; [done|].
  rewrite filter_cons_True by done. by f_equal.
Qed.

(** C4.  [parseMentionedAgents] returns the names that stand in the text as
    mentions and are names of the agents given, each once, in the order of
    their first mention; a mention of no known agent is dropped.  When none
    is left, [sendMessage] appends the user message to the transcript, runs
    the one [dbAppendMessage] on the store and calls no agent; the ref has
    followed the transcript. *)
Theorem mentions_known_unique_in_order env net (sid : jsstring)
    (agents : list Agent.t) globalPrompt (message : jsstring)
    (images : list jsstring) (st : Chat.State) :
  let mentioned := Chat.parseMentionedAgents message agents in
  mentioned
  = first_occurrences
      (filter (λ n, n ∈ Agent.name <$> agents) (mention_tokens message))
  ∧ (∀ n, n ∈ mentioned ↔ mentioned_in message n ∧ n ∈ Agent.name <$> agents)
  ∧ NoDup mentioned
  ∧ (mentioned `sublist_of` mention_tokens message)
  ∧ (sid ≠ [] → mentioned = [] →
     let userItem :=
       TranscriptItem.User (randomUUID env (draws (Chat.world st)))
         (Chat.user_content message images) (Some images) in
     Chat.sendMessage env net (Some sid) agents globalPrompt message images st
     = (Returned tt,
        Chat.mkState
          (LocalDb.dbAppendMessage env sid userItem
             (LocalDb._newId env (Chat.world st)).2).2
          (Chat.transcript st ++ [userItem]) (Chat.transcript st ++ [userItem])
          false (Chat.calls st) (Chat.reported st))).
Proof.
  intros mentioned. subst mentioned. rewrite parseMentionedAgents_eq.
  split; [done|]. split; [|split; [|split]].
  - intros n. rewrite elem_of_first_occurrences, list_elem_of_filter.
    unfold mention_tokens. split.
    + intros [Hag (raw & -> & Hraw)%list_elem_of_fmap].
      apply elem_of_match_mentions in Hraw as (name & -> & Hin). done.
    + intros [Hin Hag]. split; [done|].
      apply list_elem_of_fmap. exists (64%N :: n). split; [done|].
      apply elem_of_match_mentions. eauto.
  - apply NoDup_first_occurrences.
  - etrans; [apply first_occurrences_sublist|apply sublist_filter].
  - intros Hsid Hnone userItem. rewrite <- parseMentionedAgents_eq in Hnone.
    rewrite sendMessage_no_mention, post_user_message_eq by done. reflexivity.
Qed.

Lemma mentions_known_unique_in_order_witness :
  js "uuid-00" ≠ []
  ∧ Chat.parseMentionedAgents (js "@Nobody hi, @杠精 and @Bot-2") [Demo.bot; Demo.critic]
    = []
  ∧ (∃ st',
       Chat.sendMessage Demo.env Demo.net (Some (js "uuid-00")) [Demo.bot; Demo.critic]
         None (js "@Nobody hi, @杠精 and @Bot-2") [] Demo.chat
       = (Returned tt, st')
       ∧ Chat.calls st' = [])
  ∧ Chat.parseMentionedAgents (js "@杠精路人 then @Bot, @Nobody, @Bot!")
      [Demo.bot; Demo.critic]
    = [js "杠精路人"; js "Bot"].
Proof.
  assert (H1 : js "uuid-00" ≠ []) by discriminate.
  assert (H2 : Chat.parseMentionedAgents (js "@Nobody hi, @杠精 and @Bot-2")
                 [Demo.bot; Demo.critic] = []) by (vm_compute; reflexivity).
  do 2 (split; [assumption|]). split.
  - destruct (mentions_known_unique_in_order Demo.env Demo.net (js "uuid-00")
                [Demo.bot; Demo.critic] None (js "@Nobody hi, @杠精 and @Bot-2") []
                Demo.chat) as (_ & _ & _ & _ & Hsend).
    eexists. split; [exact (Hsend H1 H2)|reflexivity].
  - vm_compute. reflexivity.
Defined.

(** ** Failure and cancellation of a call *)

Lemma mapM_deltas (amid : jsstring) (ds : list jsstring) (st : Chat.State) :
  ∃ us,
    mapM (Chat.onDelta amid) ds st
    = (Returned us,
       Chat.mkState (Chat.world st)
         (foldl (λ t delta,
                   Chat.update_agent_item amid (λ c, c ++ delta) id <$> t)
                (Chat.transcript st) ds)
         (Chat.transcriptRef st) (Chat.isLoading st) (Chat.calls st)
         (Chat.reported st)).
Proof.
  revert st. induction ds as [|d ds IH]; intros st.
  - exists []. by destruct st.
  - cbn [mapM]. unfold Chat.onDelta at 1, Chat.setTranscript. run.
    cbn [Chat.world Chat.transcript Chat.transcriptRef Chat.isLoading Chat.calls
         Chat.reported].
    destruct (IH (Chat.mkState (Chat.world st)
                    (Chat.update_agent_item amid (λ c, c ++ d) id <$> Chat.transcript st)
                    (Chat.transcriptRef st) (Chat.isLoading st) (Chat.calls st)
                    (Chat.reported st))) as [us Hus].
    rewrite Hus. by eexists.
Qed.

Lemma complete_eq (net : Chat.Network) agent messages (amid : jsstring) (st : Chat.State) :
  let reply := net (length (Chat.calls st)) agent messages in
  Chat.complete net agent messages amid st
  = (Chat.result reply,
     Chat.mkState (Chat.world st) (with_deltas agent amid reply (Chat.transcript st))
       (Chat.transcriptRef st) (Chat.isLoading st)
       (Chat.calls st ++ [(agent, messages)]) (Chat.reported st)).
Proof.
  intros reply. unfold Chat.complete, with_deltas. run. cbn. fold reply.
  destruct (Agent.stream agent) as [[|]|]; try reflexivity.
  all: match goal with |- context [mapM ?f ?ds ?s] =>
         destruct (mapM_deltas amid ds s) as [us ->] end; reflexivity.
Qed.

(** The last update of a call overrides what the deltas wrote. *)
Lemma finalize_with_deltas agent (amid full : jsstring) reply tr :
  Chat.update_agent_item amid (λ _, full) (λ _, Some false)
    <$> with_deltas agent amid reply tr
  = Chat.update_agent_item amid (λ _, full) (λ _, Some false) <$> tr.
Proof.
  unfold with_deltas. destruct (Agent.stream agent) as [[|]|]; try reflexivity.
  all: revert tr; induction (Chat.deltas reply) as [|d ds IH]; intros tr;
    [reflexivity|]; cbn [foldl]; rewrite IH, <- list_fmap_compose;
    apply list_fmap_ext; intros _ item _; cbn;
    destruct item; cbn; try reflexivity; case_bool_decide; cbn;
    rewrite ?bool_decide_eq_true_2 by done; try reflexivity;
    rewrite ?bool_decide_eq_false_2 by done; reflexivity.
Qed.

Lemma with_deltas_last agent (amid speaker : jsstring) reply tr c :
  ∃ c', last (with_deltas agent amid reply
                (tr ++ [TranscriptItem.Agent amid speaker c None (Some true)]))
        = Some (TranscriptItem.Agent amid speaker c' None (Some true)).
Proof.
  unfold with_deltas. destruct (Agent.stream agent) as [[|]|].
  2:{ exists c. by rewrite last_snoc. }
  all: revert tr c; induction (Chat.deltas reply) as [|d ds IH]; intros tr c;
    cbn [foldl]; [exists c; by rewrite last_snoc|];
    rewrite fmap_app; cbn; rewrite bool_decide_eq_true_2 by done; apply IH.
Qed.

Lemma bind_eq {S A B} (c : M S A) (k : A → M S B) s :
  bind c k s
  = match c s with
    | (Returned a, s') => k a s'
    | (Threw e, s') => (Threw e, s')
    end.
Proof. reflexivity. Qed.

(** An awaited write whose failure is only logged. *)
Lemma persist_best_effort (c : M World unit) (st : Chat.State) :
  try_catch (Chat.await (Chat.lift c)) (λ _, ret tt) st
  = (Returned tt,
     Chat.mkState (c (Chat.world st)).2 (Chat.transcript st) (Chat.transcript st)
       (Chat.isLoading st) (Chat.calls st) (Chat.reported st)).
Proof.
  unfold try_catch, Chat.await, finally, Chat.rendered, Chat.lift, ret.
  by destruct (c (Chat.world st)) as [[[]|e] w].
Qed.

(** An awaited call: the ref holds the transcript when the hook goes on. *)
Lemma await_complete_eq (net : Chat.Network) agent messages (amid : jsstring)
    (st : Chat.State) :
  let reply := net (length (Chat.calls st)) agent messages in
  Chat.await (Chat.complete net agent messages amid) st
  = (Chat.result reply,
     Chat.mkState (Chat.world st) (with_deltas agent amid reply (Chat.transcript st))
       (with_deltas agent amid reply (Chat.transcript st)) (Chat.isLoading st)
       (Chat.calls st ++ [(agent, messages)]) (Chat.reported st)).
Proof.
  intros reply. unfold Chat.await, finally. rewrite complete_eq. reflexivity.
Qed.

Section Loop.
Context (env : Env) (net : Chat.Network) (known : list Agent.t)
        (globalPrompt : option jsstring) (sid : jsstring).
Context (agentName : jsstring) (agent : Agent.t) (rest : list jsstring)
        (workingHistory : list TranscriptItem.t) (st : Chat.State).

Let amid := randomUUID env (draws (Chat.world st)).
Let placeholder := TranscriptItem.Agent amid agentName [] None (Some true).
Let messages := Llm.buildOpenAiMessages agent globalPrompt workingHistory.
Let reply := net (length (Chat.calls st)) agent messages.
Let final (full : jsstring) := TranscriptItem.Agent amid agentName full None None.

(** The state when the call has ended: one id drawn, the placeholder in the
    transcript with the deltas it received, the ref after it, the call on
    record. *)
Let called : Chat.State :=
  Chat.mkState (LocalDb._newId env (Chat.world st)).2
    (with_deltas agent amid reply (Chat.transcript st ++ [placeholder]))
    (with_deltas agent amid reply (Chat.transcript st ++ [placeholder]))
    (Chat.isLoading st)
    (Chat.calls st ++ [(agent, messages)]) (Chat.reported st).

(** The state when the iteration has ended with the text [full]. *)
Let finalized (full : jsstring) : Chat.State :=
  Chat.mkState
    (LocalDb.dbUpsertMessage env sid (final full) (Chat.world called)).2
    (Chat.update_agent_item amid (λ _, full) (λ _, Some false)
       <$> (Chat.transcript st ++ [placeholder]))
    (Chat.update_agent_item amid (λ _, full) (λ _, Some false)
       <$> (Chat.transcript st ++ [placeholder]))
    (Chat.isLoading st)
    (Chat.calls st ++ [(agent, messages)]) (Chat.reported st).

Lemma agent_loop_cons :
  List.find (λ a, bool_decide (Agent.name a = agentName)) known = Some agent →
  Chat.agent_loop env net known globalPrompt sid (agentName :: rest)
    workingHistory st
  = match Chat.result reply with
    | Returned full =>
        Chat.agent_loop env net known globalPrompt sid rest
          (workingHistory ++ [final full]) (finalized full)
    | Threw e =>
        if bool_decide (is_abort e) then (Threw e, called)
        else
          Chat.agent_loop env net known globalPrompt sid rest
            (workingHistory ++ [final (js "[调用失败] " ++ Js.err_text e)])
            (finalized (js "[调用失败] " ++ Js.err_text e))
    end.
Proof.
  intros Hfind. cbn [Chat.agent_loop]. rewrite Hfind.
  rewrite bind_eq. unfold Chat.newId at 1, Chat.lift at 1.
  unfold LocalDb._newId at 1. cbn [fst snd].
  rewrite bind_eq. unfold Chat.setTranscript at 1, modify at 1.
  cbn [Chat.world Chat.transcript Chat.transcriptRef Chat.isLoading Chat.calls
       Chat.reported agents sessions ticks draws].
  rewrite bind_eq. unfold try_catch at 1. rewrite await_complete_eq.
  cbn [Chat.world Chat.transcript Chat.transcriptRef Chat.isLoading Chat.calls
       Chat.reported].
  fold amid. fold placeholder. fold messages. fold reply.
  assert (∀ full,
    (Chat.setTranscript
       (fmap (Chat.update_agent_item amid (λ _ : jsstring, full)
                (λ _ : option bool, Some false))) ;;;
     try_catch (Chat.await (Chat.lift (LocalDb.dbUpsertMessage env sid (final full))))
       (λ _, ret tt) ;;;
     Chat.agent_loop env net known globalPrompt sid rest
       (workingHistory ++ [final full])) called
    = Chat.agent_loop env net known globalPrompt sid rest
        (workingHistory ++ [final full]) (finalized full)) as Hcont.
  { intros full. rewrite bind_eq. unfold Chat.setTranscript at 1, modify at 1.
    rewrite bind_eq, persist_best_effort.
    cbn [Chat.world Chat.transcript Chat.transcriptRef Chat.isLoading Chat.calls
         Chat.reported called].
    by rewrite finalize_with_deltas. }
  destruct (Chat.result reply) as [full|e].
  - apply Hcont.
  - unfold is_abort. case_bool_decide.
    + reflexivity.
    + apply Hcont.
Qed.
End Loop.



(** C3.  In the loop of [sendMessage] over the mentioned agents, at the turn
    of a known agent:
    - when its call fails with anything but a cancellation, the placeholder
      ends with the content ["[调用失败] " ++ message] and [isStreaming] false,
      the same text is handed to the store, and the loop goes on with the
      agents that remain;
    - when its call is cancelled, the loop ends there with the cancellation:
      the call is the last one made, the sessions of the store are as they
      were, and the transcript holds the placeholder with the deltas received
      and [isStreaming] still set, without any marker;
    - [sendMessage] ends a cancelled loop by clearing [isLoading] only: it
      returns, appends nothing and reports nothing. *)
Theorem failure_continues_cancellation_stops env net (known : list Agent.t)
    globalPrompt (sid agentName : jsstring) (agent : Agent.t)
    (rest : list jsstring) (workingHistory : list TranscriptItem.t)
    (st : Chat.State) :
  List.find (λ a, bool_decide (Agent.name a = agentName)) known = Some agent →
  let amid := randomUUID env (draws (Chat.world st)) in
  let placeholder := TranscriptItem.Agent amid agentName [] None (Some true) in
  let messages := Llm.buildOpenAiMessages agent globalPrompt workingHistory in
  let reply := net (length (Chat.calls st)) agent messages in
  (∀ e, Chat.result reply = Threw e → ¬ is_abort e →
     let marker := js "[调用失败] " ++ Js.err_text e in
     let final := TranscriptItem.Agent amid agentName marker None None in
     ∃ st',
       Chat.agent_loop env net known globalPrompt sid (agentName :: rest)
         workingHistory st
       = Chat.agent_loop env net known globalPrompt sid rest
           (workingHistory ++ [final]) st'
       ∧ Chat.transcript st'
         = Chat.update_agent_item amid (λ _, marker) (λ _, Some false)
             <$> (Chat.transcript st ++ [placeholder])
       ∧ last (Chat.transcript st')
         = Some (TranscriptItem.Agent amid agentName marker None (Some false))
       ∧ Chat.calls st' = Chat.calls st ++ [(agent, messages)]
       ∧ Chat.world st'
         = (LocalDb.dbUpsertMessage env sid final
              (LocalDb._newId env (Chat.world st)).2).2
       ∧ Chat.reported st' = Chat.reported st)
  ∧ (∀ e, Chat.result reply = Threw e → is_abort e →
       ∃ st',
         Chat.agent_loop env net known globalPrompt sid (agentName :: rest)
           workingHistory st
         = (Threw e, st')
         ∧ Chat.calls st' = Chat.calls st ++ [(agent, messages)]
         ∧ sessions (Chat.world st') = sessions (Chat.world st)
         ∧ Chat.transcript st'
           = with_deltas agent amid reply (Chat.transcript st ++ [placeholder])
         ∧ (∃ c, last (Chat.transcript st')
                 = Some (TranscriptItem.Agent amid agentName c None (Some true)))
         ∧ Chat.reported st' = Chat.reported st)
  ∧ (∀ message images st0 userItem st1 e st',
       sid ≠ [] →
       Chat.post_user_message env sid message images st0 = (Returned userItem, st1) →
       Chat.invoke_mentioned env net known globalPrompt sid message userItem st1
       = (Threw e, st') →
       is_abort e →
       Chat.sendMessage env net (Some sid) known globalPrompt message images st0
       = (Returned tt, Chat.setIsLoading false st')).
Proof.
  intros Hfind amid placeholder messages reply.
  pose proof (agent_loop_cons env net known globalPrompt sid agentName agent rest
                workingHistory st Hfind) as Hstep.
  cbv zeta in Hstep. fold amid placeholder messages reply in Hstep.
  split; [|split].
  - intros e He Hne marker final. rewrite Hstep, He.
    rewrite bool_decide_eq_false_2 by done.
    eexists. split; [reflexivity|].
    cbn [Chat.transcript Chat.calls Chat.world Chat.reported]. repeat split.
    rewrite fmap_app. unfold placeholder. cbn [fmap list_fmap].
    rewrite last_snoc. unfold Chat.update_agent_item.
    by rewrite bool_decide_eq_true_2.
  - intros e He Habort. rewrite Hstep, He.
    rewrite bool_decide_eq_true_2 by done.
    eexists. split; [reflexivity|].
    cbn [Chat.transcript Chat.calls Chat.world Chat.reported]. repeat split.
    apply with_deltas_last.
  - intros message images st0 userItem st1 e st' Hsid Hpost Hloop Habort.
    destruct sid as [|c sid']; [done|].
    unfold Chat.sendMessage. rewrite (bind_Returned _ _ _ _ _ Hpost).
    unfold finally, try_catch. rewrite Hloop.
    unfold Chat.report_failure. unfold is_abort in Habort.
    by rewrite bool_decide_eq_true_2.
Qed.

Lemma failure_continues_cancellation_stops_witness :
  List.find (λ a, bool_decide (Agent.name a = js "Bot"))
    [Demo.bot; Demo.critic; Demo.planner] = Some Demo.bot
  ∧ ¬ is_abort Demo.boom
  ∧ ∃ st' workingHistory',
      Chat.agent_loop Demo.env Demo.flaky [Demo.bot; Demo.critic; Demo.planner] None
        (js "uuid-00") [js "Bot"; js "杠精路人"; js "PM"] [] Demo.chat
      = Chat.agent_loop Demo.env Demo.flaky [Demo.bot; Demo.critic; Demo.planner] None
          (js "uuid-00") [js "杠精路人"; js "PM"] workingHistory' st'
      ∧ TranscriptItem.content <$> last (Chat.transcript st')
        = Some (js "[调用失败] LLM 请求失败: HTTP 500")
      ∧ TranscriptItem.isStreaming <$> last (Chat.transcript st')
        = Some (Some false).
Proof.
  assert (H1 : List.find (λ a, bool_decide (Agent.name a = js "Bot"))
                 [Demo.bot; Demo.critic; Demo.planner] = Some Demo.bot)
    by reflexivity.
  assert (H2 : ¬ is_abort Demo.boom) by (vm_compute; discriminate).
  do 2 (split; [assumption|]).
  destruct (failure_continues_cancellation_stops Demo.env Demo.flaky
              [Demo.bot; Demo.critic; Demo.planner] None (js "uuid-00") (js "Bot")
              Demo.bot [js "杠精路人"; js "PM"] [] Demo.chat H1) as [Hfail _].
  destruct (Hfail Demo.boom eq_refl H2) as (st' & Hrun & _ & Hlast & _).
  exists st'. eexists. split; [exact Hrun|]. rewrite Hlast.
  split; vm_compute; reflexivity.
Defined.

(** A submission to three agents over a network whose first call fails and
    whose second call is cancelled: the first agent's message carries the
    marker and is stored, the second keeps the delta it received and is not
    stored, the third is never called. *)
Example cancelled_submission :
  ∃ st',
    Chat.sendMessage Demo.env Demo.flaky (Some (js "uuid-00"))
      [Demo.bot; Demo.critic; Demo.planner] None (js "@Bot @杠精路人 @PM go") []
      Demo.chat
    = (Returned tt, st')
    ∧ drop 3 (Chat.transcript st')
      = [TranscriptItem.User (js "uuid-01") (js "@Bot @杠精路人 @PM go") (Some []);
         TranscriptItem.Agent (js "uuid-02") (js "Bot")
           (js "[调用失败] LLM 请求失败: HTTP 500") None (Some false);
         TranscriptItem.Agent (js "uuid-03") (js "杠精路人") (js "par") None
           (Some true)]
    ∧ (Agent.name ∘ fst) <$> Chat.calls st' = [js "Bot"; js "杠精路人"]
    ∧ (StoredMessage.id <$>
         default [] (StoredSession.messages <$>
                       sessions (Chat.world st') !! js "uuid-00"))
      = [js "m-hello"; js "m-reply"; js "m-thanks"; js "uuid-01"; js "uuid-02"]
    ∧ Chat.reported st' = [] ∧ Chat.isLoading st' = false.
Proof. eexists. split; [vm_compute; reflexivity|]. vm_compute. auto. Qed.
(** ** Building the request *)

Lemma buildOpenAiMessages_push (targetAgent : Agent.t)
    (history : list TranscriptItem.t) (result : list Llm.OpenAiChatMessage) :
  foldl (λ result item,
           match TranscriptItem.kind item with
           | KSystem => result
           | _ => result ++ [Llm.entry targetAgent item]
           end) result history
  = result
    ++ (Llm.entry targetAgent
          <$> filter (λ i, TranscriptItem.kind i ≠ KSystem) history).
Proof.
  revert result. induction history as [|item history IH]; intros result.
  - cbn. by rewrite app_nil_r.
  - cbn [foldl]. rewrite IH, filter_cons.
    destruct (TranscriptItem.kind item) eqn:Hk.
    + rewrite decide_True by done. by rewrite <- app_assoc.
    + rewrite decide_True by done. by rewrite <- app_assoc.
    + rewrite decide_False by (intros H; by apply H). done.
Qed.

Lemma isTargetAgent_spec (targetAgent : Agent.t) (item : TranscriptItem.t) :
  Llm.isTargetAgent targetAgent item = true ↔
  TranscriptItem.kind item = KAgent
  ∧ Llm.speakerForItem item = Agent.name targetAgent.
Proof.
  destruct item; cbn; [split; [done|by intros [? _]]| |split; [done|by intros [? _]]].
  rewrite bool_decide_eq_true. tauto.
Qed.

Lemma text_not_in_images (text : jsstring) (imgs : list jsstring) :
  Llm.text_part text ∉ (Llm.image_url_part ∘ Llm.image_url <$> imgs).
Proof. by intros [x [[=] _]]%list_elem_of_fmap. Qed.

(** C5, as the code has it.  [buildOpenAiMessages] returns a system message
    followed by one message per history item that is not of kind system, in
    order.  The system message is the agent's system prompt, followed, when the
    global prompt holds more than white space, by the delimiter and the
    global prompt trimmed; otherwise it is the system prompt alone.  The role
    of an item's message is assistant exactly when the item is an agent
    message whose speaker is the target agent's name, and user otherwise.  A
    message of the target carries no label, any other carries the label
    ["[Speaker]: "] before its text.  The content of an item without images is
    one string, the label and the whole content.  The content of an item with
    images is a list of parts: one text part, the label and the trimmed
    content, when the trimmed content is not empty, and no text part when it
    is; then one image part per image, in order. *)
Theorem buildOpenAiMessages_shape (targetAgent : Agent.t)
    (globalPrompt : option jsstring) (history : list TranscriptItem.t) :
  Llm.buildOpenAiMessages targetAgent globalPrompt history
  = Llm.mk Llm.system
      (Llm.plain
         (Agent.system_prompt targetAgent
          ++ match Js.trim <$> globalPrompt with
             | Some (c :: g) => Llm.global_prompt_header ++ c :: g
             | _ => []
             end))
    :: (Llm.entry targetAgent
          <$> filter (λ i, TranscriptItem.kind i ≠ KSystem) history)
  ∧ ∀ item,
      let e := Llm.entry targetAgent item in
      let of_target :=
        TranscriptItem.kind item = KAgent
        ∧ Llm.speakerForItem item = Agent.name targetAgent in
      (Llm.role e = Llm.assistant ↔ of_target)
      ∧ (Llm.role e = Llm.user ↔ ¬ of_target)
      ∧ ∃ label,
          (of_target → label = [])
          ∧ (¬ of_target → label = speaker_label item)
          ∧ (default [] (TranscriptItem.images item) = [] →
               Llm.content e = Llm.plain (label ++ TranscriptItem.content item))
          ∧ (default [] (TranscriptItem.images item) ≠ [] →
               ∃ texts,
                 Llm.content e
                 = Llm.parts
                     (texts
                      ++ (Llm.image_url_part ∘ Llm.image_url
                            <$> default [] (TranscriptItem.images item)))
                 ∧ (Js.trim (TranscriptItem.content item) = [] → texts = [])
                 ∧ (Js.trim (TranscriptItem.content item) ≠ [] →
                      texts
                      = [Llm.text_part
                           (label ++ Js.trim (TranscriptItem.content item))])).
Proof.
  split.
  - unfold Llm.buildOpenAiMessages. rewrite buildOpenAiMessages_push. cbn.
    do 3 f_equal. unfold Llm.systemContent.
    destruct globalPrompt as [g|]; cbn; [|symmetry; apply app_nil_r].
    destruct g as [|c g].
    { cbn. symmetry. apply app_nil_r. }
    change (rev (Js.trim_start (rev (if Js.is_space c then Js.trim_start g
                                     else c :: g))))
      with (Js.trim (c :: g)).
    destruct (Js.trim (c :: g)); [symmetry; apply app_nil_r|done].
  - intros item e of_target. subst e of_target.
    pose proof (isTargetAgent_spec targetAgent item) as Ht.
    unfold Llm.entry, speaker_label.
    destruct (Llm.isTargetAgent targetAgent item) eqn:Htarget.
    + assert (TranscriptItem.kind item = KAgent
              ∧ Llm.speakerForItem item = Agent.name targetAgent) as Hyes
        by (by apply Ht).
      split; [by destruct (TranscriptItem.images item) as [[|img imgs]|]|].
      split; [by destruct (TranscriptItem.images item) as [[|img imgs]|]|].
      exists []. split; [done|]. split; [done|].
      destruct (TranscriptItem.images item) as [[|img imgs]|];
        cbn [default Llm.content]; (split; [done|]); intros Himgs; try done.
      eexists. split; [reflexivity|].
      destruct (Js.trim (TranscriptItem.content item)); done.
    + assert (¬ (TranscriptItem.kind item = KAgent
                 ∧ Llm.speakerForItem item = Agent.name targetAgent)) as Hno
        by (intros H; apply Ht in H; done).
      split; [by destruct (TranscriptItem.images item) as [[|img imgs]|]|].
      split; [by destruct (TranscriptItem.images item) as [[|img imgs]|]|].
      exists (js "[" ++ Llm.speakerForItem item ++ js "]: ").
      split; [intros H; by destruct Hno|]. split; [done|].
      destruct (TranscriptItem.images item) as [[|img imgs]|];
        cbn [default Llm.content]; (split; [done|]); intros Himgs; try done.
      eexists. split; [reflexivity|].
      destruct (Js.trim (TranscriptItem.content item)); done.
Qed.

(** C5 as worded fails on a global prompt of white space: it is not empty,
    and the system message is the system prompt alone.  It fails also on a
    global prompt with white space around it, which is appended trimmed. *)
Lemma buildOpenAiMessages_blank_global_prompt :
  js " " ≠ []
  ∧ Llm.buildOpenAiMessages Demo.bot (Some (js " ")) []
    = [Llm.mk Llm.system (Llm.plain (Agent.system_prompt Demo.bot))]
  ∧ Llm.buildOpenAiMessages Demo.bot (Some (js " ")) []
    ≠ [Llm.mk Llm.system (Llm.plain (spec_systemContent Demo.bot (Some (js " "))))]
  ∧ Llm.buildOpenAiMessages Demo.bot (Some (js " be brief ")) []
    ≠ [Llm.mk Llm.system
         (Llm.plain (spec_systemContent Demo.bot (Some (js " be brief "))))].
Proof.
  split; [discriminate|]. split; [vm_compute; reflexivity|].
  split; vm_compute; discriminate.
Qed.
(** ** The backup codec *)

Lemma ends_with_app (s p : jsstring) : Js.ends_with (s ++ p) p = true.
Proof.
  unfold Js.ends_with. apply bool_decide_eq_true_2.
  rewrite length_app, Nat.add_sub. by rewrite drop_app_length.
Qed.

Lemma ends_with_last (s p : jsstring) :
  p ≠ [] → Js.ends_with s p = true → last s = last p.
Proof.
  unfold Js.ends_with. intros Hp Hs%bool_decide_eq_true_1.
  rewrite <- (take_drop (length s - length p) s) at 1. rewrite Hs.
  destruct p as [|c p] using rev_ind; [done|].
  by rewrite app_assoc, !last_snoc.
Qed.

Lemma to_lower_app (a b : jsstring) :
  Js.to_lower (a ++ b) = Js.to_lower a ++ Js.to_lower b.
Proof. unfold Js.to_lower. apply map_app. Qed.

(** The name made for an export selects the decoder of its form. *)
Lemma makeExportFilename_dispatch (ts : jsstring) (ext : Backup.Ext) :
  Js.ends_with (Js.to_lower (Backup.makeExportFilename ts ext)) (js ".json")
  = match ext with Backup.json => true | Backup.zip => false end.
Proof.
  unfold Backup.makeExportFilename. rewrite !to_lower_app. destruct ext.
  - apply not_true_is_false. intros H%ends_with_last; [|by vm_compute].
    rewrite !app_assoc in H.
    change (Js.to_lower (Backup.ext_text Backup.zip))
      with ([122; 105]%N ++ [112%N]) in H.
    rewrite app_assoc, last_snoc in H. by vm_compute in H.
  - change (Js.to_lower (js ".") ++ Js.to_lower (Backup.ext_text Backup.json))
      with (js ".json").
    rewrite app_assoc. apply ends_with_app.
Qed.

Lemma pickExportJson_single (bytes : list N) :
  Backup.pickExportJson {[ js "export.json" := bytes ]} = Some bytes.
Proof. unfold Backup.pickExportJson. by rewrite lookup_singleton_eq. Qed.

(* ================================================================== *)
(** * JSON: a printed value is read back *)
(* ================================================================== *)

(** Decides the comparisons of code units in the goal and the context. *)
Ltac ncases :=
  repeat match goal with
         | |- context [(?a =? ?b)%N] => destruct (N.eqb_spec a b)
         | |- context [(?a <? ?b)%N] => destruct (N.ltb_spec a b)
         | |- context [(?a <=? ?b)%N] => destruct (N.leb_spec a b)
         | H : context [(?a =? ?b)%N] |- _ => destruct (N.eqb_spec a b)
         | H : context [(?a <? ?b)%N] |- _ => destruct (N.ltb_spec a b)
         | H : context [(?a <=? ?b)%N] |- _ => destruct (N.leb_spec a b)
         end;
  cbn [andb orb negb] in *; try discriminate; try lia.

Lemma hex_value_digit (n : N) :
  (n < 16)%N → Json.hex_value (Json.hex_digit n) = Some n.
Proof.
  intros Hn. unfold Json.hex_value, Json.hex_digit, Json.is_digit.
  destruct (N.ltb_spec n 10); ncases; f_equal; lia.
Qed.

Lemma unescape_short (c e : N) :
  Json.short_escape c = Some e → (e =? 117)%N = false ∧ Json.unescape e = Some c.
Proof.
  unfold Json.short_escape, Json.unescape.
  repeat match goal with
         | |- context [(c =? ?k)%N] =>
             destruct (N.eqb_spec c k) as [->|]; [intros [= <-]; by vm_compute|]
         end.
  done.
Qed.

Lemma short_escape_None (c : N) :
  Json.short_escape c = None → (c =? 34)%N = false ∧ (c =? 92)%N = false.
Proof. unfold Json.short_escape. ncases. Qed.

Lemma hex_parts (c : N) :
  (c < 65536)%N →
  (c / 4096 < 16 ∧ (c / 256) mod 16 < 16 ∧ (c / 16) mod 16 < 16 ∧ c mod 16 < 16
   ∧ c / 4096 * 4096 + (c / 256) mod 16 * 256 + (c / 16) mod 16 * 16 + c mod 16
     = c)%N.
Proof.
  intros Hc.
  pose proof (N.div_mod c 16 ltac:(lia)) as H1.
  pose proof (N.div_mod (c / 16) 16 ltac:(lia)) as H2.
  pose proof (N.div_mod (c / 256) 16 ltac:(lia)) as H3.
  assert (c / 16 / 16 = c / 256)%N as E2 by (by rewrite N.Div0.div_div).
  assert (c / 256 / 16 = c / 4096)%N as E3 by (by rewrite N.Div0.div_div).
  rewrite E2 in H2. rewrite E3 in H3.
  pose proof (N.mod_lt c 16 ltac:(lia)).
  pose proof (N.mod_lt (c / 16) 16 ltac:(lia)).
  pose proof (N.mod_lt (c / 256) 16 ltac:(lia)).
  clear E2 E3.
  generalize dependent (c mod 16)%N. generalize dependent ((c / 16) mod 16)%N.
  generalize dependent ((c / 256) mod 16)%N.
  generalize dependent (c / 4096)%N. generalize dependent (c / 256)%N.
  generalize dependent (c / 16)%N.
  intros. lia.
Qed.

Lemma parse_chars_unicode_escape (c : N) (s : jsstring) :
  (c < 65536)%N →
  Json.parse_chars (Json.unicode_escape c ++ s)
  = match Json.parse_chars s with
    | Some (t, rest) => Some (c :: t, rest)
    | None => None
    end.
Proof.
  intros (H1 & H2 & H3 & H4 & Hc)%hex_parts. unfold Json.unicode_escape.
  cbn [app Json.parse_chars N.eqb Pos.eqb].
  rewrite (hex_value_digit _ H1), (hex_value_digit _ H2),
    (hex_value_digit _ H3), (hex_value_digit _ H4).
  destruct (Json.parse_chars s) as [[t rest]|]; [|reflexivity].
  by rewrite Hc.
Qed.

Lemma parse_chars_plain (c : N) (s : jsstring) :
  (c =? 34)%N = false → (c =? 92)%N = false → (c <? 32)%N = false →
  Json.parse_chars (c :: s)
  = match Json.parse_chars s with
    | Some (t, rest) => Some (c :: t, rest)
    | None => None
    end.
Proof. intros H1 H2 H3. cbn [Json.parse_chars]. by rewrite H1, H2, H3. Qed.

Lemma surrogate_plain (c : N) :
  Json.is_high_surrogate c || Json.is_low_surrogate c = true →
  (c =? 34)%N = false ∧ (c =? 92)%N = false ∧ (c <? 32)%N = false.
Proof. unfold Json.is_high_surrogate, Json.is_low_surrogate. ncases. Qed.

(** The characters [QuoteJSONString] writes for a string are read back as
    the string. *)
Lemma parse_chars_quote_chars (s rest : jsstring) :
  Json.code_units s = true →
  Json.parse_chars (Json.quote_chars s ++ 34%N :: rest) = Some (s, rest).
Proof.
  remember (length s) as n eqn:Hn. revert s Hn.
  induction n as [n IH] using lt_wf_ind. intros s -> Hs.
  destruct s as [|c s]; [done|].
  cbn [Json.code_units forallb] in Hs. apply andb_true_iff in Hs as [Hc Hs].
  apply N.ltb_lt in Hc.
  assert (IHs : Json.parse_chars (Json.quote_chars s ++ 34%N :: rest)
                = Some (s, rest)).
  { apply (IH (length s)); [cbn; lia|done..]. }
  cbn [Json.quote_chars].
  destruct (Json.short_escape c) as [e|] eqn:He.
  { apply unescape_short in He as [He1 He2].
    cbn [app Json.parse_chars N.eqb Pos.eqb]. by rewrite He1, He2, IHs. }
  apply short_escape_None in He as [H34 H92].
  destruct (N.ltb_spec c 32) as [H32|H32].
  { rewrite <- app_assoc, parse_chars_unicode_escape by done. by rewrite IHs. }
  assert ((c <? 32)%N = false) as H32' by by apply N.ltb_ge.
  destruct (Json.is_high_surrogate c) eqn:Hhi.
  - destruct s as [|d s'].
    + rewrite parse_chars_unicode_escape by done. done.
    + destruct (Json.is_low_surrogate d) eqn:Hlo.
      * cbn [Json.code_units forallb] in Hs. apply andb_true_iff in Hs as [Hd Hs].
        destruct (surrogate_plain d) as (D1 & D2 & D3); [by rewrite Hlo, orb_true_r|].
        cbn [app]. rewrite parse_chars_plain by done.
        rewrite parse_chars_plain by done.
        rewrite (IH (length s') ltac:(cbn; lia) s' eq_refl Hs). done.
      * rewrite <- app_assoc, parse_chars_unicode_escape by done. by rewrite IHs.
  - destruct (Json.is_low_surrogate c) eqn:Hlo.
    + rewrite <- app_assoc, parse_chars_unicode_escape by done. by rewrite IHs.
    + cbn [app]. rewrite parse_chars_plain by done. by rewrite IHs.
Qed.

Lemma span_digits_app (s rest ds r : jsstring) :
  Json.span_digits s = (ds, r) → stops rest →
  Json.span_digits (s ++ rest) = (ds, r ++ rest).
Proof.
  intros Hs Hrest. revert ds r Hs. induction s as [|c s IH]; intros ds r.
  - intros [= <- <-]. destruct rest as [|c rest]; [done|].
    cbn. by rewrite (proj1 Hrest).
  - cbn. destruct (Json.is_digit c); [|by intros [= <- <-]].
    destruct (Json.span_digits s) as [ds' r'] eqn:Hsp.
    intros [= <- <-]. by rewrite (IH _ _ eq_refl).
Qed.

Lemma span_digits_chars (s ds r : jsstring) :
  Json.span_digits s = (ds, r) →
  s = ds ++ r ∧ Forall (λ c, Json.is_digit c = true) ds.
Proof.
  revert ds r. induction s as [|c s IH]; intros ds r.
  - by intros [= <- <-].
  - cbn. destruct (Json.is_digit c) eqn:Hc; [|by intros [= <- <-]].
    destruct (Json.span_digits s) as [ds' r'] eqn:Hsp.
    intros [= <- <-]. destruct (IH _ _ eq_refl) as [-> Hds].
    split; [done|]. by constructor.
Qed.

Lemma digit_number_char (ds : jsstring) :
  Forall (λ c, Json.is_digit c = true) ds →
  Forall (λ c, number_char c = true) ds.
Proof.
  intros H. eapply Forall_impl; [exact H|].
  intros c Hc. unfold number_char. by rewrite Hc.
Qed.

Lemma scan_int_app (s rest b r : jsstring) :
  Json.scan_int s = Some (b, r) → stops rest →
  Json.scan_int (s ++ rest) = Some (b, r ++ rest).
Proof.
  destruct s as [|c s]; [done|]. cbn.
  destruct (c =? 48)%N; [by intros [= <- <-]|].
  destruct (Json.is_digit c); [|done].
  destruct (Json.span_digits s) as [ds r'] eqn:Hsp.
  intros [= <- <-] Hrest. by rewrite (span_digits_app _ _ _ _ Hsp Hrest).
Qed.

Lemma scan_frac_app (s rest b r : jsstring) :
  Json.scan_frac s = Some (b, r) → stops rest →
  Json.scan_frac (s ++ rest) = Some (b, r ++ rest).
Proof.
  destruct s as [|c s].
  - intros [= <- <-] Hrest. destruct rest as [|c rest]; [done|].
    cbn. destruct Hrest as (_ & H46 & _).
    by destruct (N.eqb_spec c 46).
  - cbn. destruct (c =? 46)%N; [|by intros [= <- <-]].
    destruct (Json.span_digits s) as [ds r'] eqn:Hsp.
    intros Hs Hrest. rewrite (span_digits_app _ _ _ _ Hsp Hrest).
    destruct ds; [done|]. by injection Hs as <- <-.
Qed.

Lemma scan_exp_app (s rest b r : jsstring) :
  Json.scan_exp s = Some (b, r) → stops rest →
  Json.scan_exp (s ++ rest) = Some (b, r ++ rest).
Proof.
  destruct s as [|c s].
  - intros [= <- <-] Hrest. destruct rest as [|c rest]; [done|].
    cbn. destruct Hrest as (_ & _ & H101 & H69).
    by destruct (N.eqb_spec c 101), (N.eqb_spec c 69).
  - cbn. destruct ((c =? 101) || (c =? 69))%N; [|by intros [= <- <-]].
    destruct s as [|d s]; [done|]. cbn.
    destruct ((d =? 43) || (d =? 45))%N.
    + destruct (Json.span_digits s) as [ds r'] eqn:Hsp.
      intros Hs Hrest. rewrite (span_digits_app _ _ _ _ Hsp Hrest).
      destruct ds; [done|]. by injection Hs as <- <-.
    + destruct (Json.span_digits (d :: s)) as [ds r'] eqn:Hsp.
      intros Hs Hrest.
      change (d :: s ++ rest) with ((d :: s) ++ rest).
      rewrite (span_digits_app _ _ _ _ Hsp Hrest).
      destruct ds; [done|]. by injection Hs as <- <-.
Qed.

(** A literal is read whole when what follows cannot continue it. *)
Lemma parse_number_app (s rest literal r : jsstring) :
  Json.parse_number s = Some (literal, r) → stops rest →
  Json.parse_number (s ++ rest) = Some (literal, r ++ rest).
Proof.
  unfold Json.parse_number. intros Hs Hrest.
  assert (∃ a s1, Json.scan_sign s = (a, s1)
                  ∧ Json.scan_sign (s ++ rest) = (a, s1 ++ rest)
                  ∧ s ≠ []) as (a & s1 & Ha & Ha' & _).
  { destruct s as [|c s]; [done|]. cbn. destruct (c =? 45)%N; by eexists _, _. }
  rewrite Ha in Hs. rewrite Ha'.
  destruct (Json.scan_int s1) as [[b s2]|] eqn:Hb; [|done].
  rewrite (scan_int_app _ _ _ _ Hb Hrest).
  destruct (Json.scan_frac s2) as [[c s3]|] eqn:Hc; [|done].
  rewrite (scan_frac_app _ _ _ _ Hc Hrest).
  destruct (Json.scan_exp s3) as [[d s4]|] eqn:Hd; [|done].
  rewrite (scan_exp_app _ _ _ _ Hd Hrest).
  by injection Hs as <- <-.
Qed.

(** A literal starts with a minus sign or a digit, is made of the characters
    of numbers, and is what the scanner has consumed. *)
Lemma parse_number_chars (s literal r : jsstring) :
  Json.parse_number s = Some (literal, r) →
  s = literal ++ r
  ∧ Forall (λ c, number_char c = true) literal
  ∧ ∃ c l, literal = c :: l ∧ (c = 45%N ∨ Json.is_digit c = true).
Proof.
  unfold Json.parse_number.
  destruct (Json.scan_sign s) as [a s1] eqn:Ha.
  destruct (Json.scan_int s1) as [[b s2]|] eqn:Hb; [|done].
  destruct (Json.scan_frac s2) as [[c s3]|] eqn:Hc; [|done].
  destruct (Json.scan_exp s3) as [[d s4]|] eqn:Hd; [|done].
  intros [= <- <-].
  assert (s = a ++ s1 ∧ Forall (λ c, number_char c = true) a
          ∧ (a = [] ∨ ∃ l, a = 45%N :: l)) as (-> & Fa & Hhead).
  { destruct s as [|x s]; [by injection Ha as <- <-; auto|]. cbn in Ha.
    destruct (N.eqb_spec x 45) as [->|]; injection Ha as <- <-; [|by auto].
    split; [done|]. split; [by repeat constructor|]. eauto. }
  assert (s1 = b ++ s2 ∧ Forall (λ c, number_char c = true) b
          ∧ ∃ x l, b = x :: l ∧ Json.is_digit x = true) as (-> & Fb & Hb').
  { destruct s1 as [|x s1]; [done|]. cbn in Hb.
    destruct (N.eqb_spec x 48) as [->|]; [injection Hb as <- <-|].
    { split; [done|]. split; [by repeat constructor|]. by eexists _, _. }
    destruct (Json.is_digit x) eqn:Hx; [|done].
    destruct (Json.span_digits s1) as [ds r'] eqn:Hsp. injection Hb as <- <-.
    apply span_digits_chars in Hsp as [-> Hds]. split; [done|].
    split; [|by eexists _, _].
    constructor; [unfold number_char; by rewrite Hx|by apply digit_number_char]. }
  assert (s2 = c ++ s3 ∧ Forall (λ c, number_char c = true) c) as (-> & Fc).
  { destruct s2 as [|x s2]; [by injection Hc as <- <-|]. cbn in Hc.
    destruct (N.eqb_spec x 46) as [->|]; [|by injection Hc as <- <-].
    destruct (Json.span_digits s2) as [ds r'] eqn:Hsp.
    apply span_digits_chars in Hsp as [-> Hds].
    destruct ds; [done|]. injection Hc as <- <-. split; [done|].
    constructor; [done|by apply digit_number_char]. }
  assert (s3 = d ++ s4 ∧ Forall (λ c, number_char c = true) d) as (-> & Fd).
  { destruct s3 as [|x s3]; [by injection Hd as <- <-|]. cbn in Hd.
    destruct ((x =? 101) || (x =? 69))%N eqn:Hx; [|by injection Hd as <- <-].
    assert (number_char x = true) as Hnx.
    { unfold number_char. apply orb_true_iff in Hx as [->| ->];
        by rewrite ?orb_true_r. }
    destruct s3 as [|y s3]; [done|].
    destruct ((y =? 43) || (y =? 45))%N eqn:Hy.
    - destruct (Json.span_digits s3) as [ds r'] eqn:Hsp.
      apply span_digits_chars in Hsp as [-> Hds].
      destruct ds; [done|]. injection Hd as <- <-. split; [done|].
      constructor; [done|]. constructor; [|by apply digit_number_char].
      unfold number_char. apply orb_true_iff in Hy as [->| ->];
        by rewrite ?orb_true_r.
    - destruct (Json.span_digits (y :: s3)) as [ds r'] eqn:Hsp.
      apply span_digits_chars in Hsp as [Heq Hds]. rewrite Heq.
      destruct ds; [done|]. injection Hd as <- <-. split; [done|].
      constructor; [done|by apply digit_number_char]. }
  split; [by rewrite <- !app_assoc|]. split; [by rewrite !Forall_app|].
  destruct Hb' as (x & l & -> & Hx).
  destruct Hhead as [->|[l' ->]]; [by eexists _, _; eauto|].
  eexists _, _. split; [done|]. by left.
Qed.

Lemma is_digit_range (c : N) : Json.is_digit c = true ↔ (48 ≤ c ≤ 57)%N.
Proof. unfold Json.is_digit. rewrite andb_true_iff, !N.leb_le. done. Qed.

Lemma starts_value_other (c : N) :
  starts_value c →
  Json.is_ws c = false ∧ (c =? 93)%N = false ∧ (c =? 125)%N = false
  ∧ (c =? 44)%N = false ∧ (c =? 58)%N = false.
Proof.
  unfold starts_value. rewrite is_digit_range. unfold Json.is_ws.
  intros H. rewrite !orb_false_iff, !N.eqb_neq. lia.
Qed.

Lemma skip_ws_spaces (indent s : jsstring) :
  spaces indent → Json.skip_ws (indent ++ s) = Json.skip_ws s.
Proof. induction 1 as [|c l -> _ IH]; [done|]. exact IH. Qed.

Lemma skip_ws_line (indent s : jsstring) :
  spaces indent → Json.skip_ws (10%N :: indent ++ s) = Json.skip_ws s.
Proof. intros H. cbn. by apply skip_ws_spaces. Qed.

Lemma skip_ws_start (c : N) (s : jsstring) :
  Json.is_ws c = false → Json.skip_ws (c :: s) = c :: s.
Proof. intros H. cbn. by rewrite H. Qed.

Lemma skip_ws_idem (s : jsstring) : Json.skip_ws (Json.skip_ws s) = Json.skip_ws s.
Proof.
  induction s as [|c s IH]; [done|]. cbn.
  destruct (Json.is_ws c) eqn:Hc; [done|]. cbn. by rewrite Hc.
Qed.

Lemma parse_value_ws (fuel : nat) (s s' : jsstring) :
  Json.skip_ws s = Json.skip_ws s' →
  Json.parse_value fuel s = Json.parse_value fuel s'.
Proof. intros H. destruct fuel; [done|]. cbn [Json.parse_value]. by rewrite H. Qed.

Lemma parse_member_ws pv (s s' : jsstring) :
  Json.skip_ws s = Json.skip_ws s' →
  Json.parse_member pv s = Json.parse_member pv s'.
Proof. intros H. unfold Json.parse_member. by rewrite H. Qed.

Lemma spaces_inner (indent : jsstring) :
  spaces indent → spaces (indent ++ [32; 32]%N).
Proof. intros H. apply Forall_app. split; [done|]. by repeat constructor. Qed.

Lemma print_Arr_cons (indent : jsstring) x items :
  Json.print indent (Json.Arr (x :: items))
  = 91%N :: 10%N :: (indent ++ [32; 32]%N) ++ Json.print (indent ++ [32; 32]%N) x
    ++ concat (List.map (λ y, 44%N :: 10%N :: (indent ++ [32; 32]%N)
                              ++ Json.print (indent ++ [32; 32]%N) y) items)
    ++ 10%N :: indent ++ [93%N].
Proof. reflexivity. Qed.

Lemma print_Obj_cons (indent : jsstring) m members :
  Json.print indent (Json.Obj (m :: members))
  = 123%N :: 10%N :: (indent ++ [32; 32]%N) ++ Json.quote m.1 ++ 58%N :: 32%N :: Json.print (indent ++ [32; 32]%N) m.2
    ++ concat (List.map (λ m, 44%N :: 10%N :: (indent ++ [32; 32]%N)
                              ++ Json.quote m.1 ++ 58%N :: 32%N :: Json.print (indent ++ [32; 32]%N) m.2) members)
    ++ 10%N :: indent ++ [125%N].
Proof. reflexivity. Qed.

Lemma wf_Num (literal : jsstring) :
  Json.wf (Json.Num literal) = true →
  Json.parse_number literal = Some (literal, []).
Proof. cbn. apply bool_decide_eq_true_1. Qed.

(** A printed value starts with a character no white space, comma, colon or
    closing bracket is. *)
Lemma print_head (indent : jsstring) (v : Json.value) :
  Json.wf v = true →
  ∃ c s, Json.print indent v = c :: s ∧ starts_value c.
Proof.
  unfold starts_value.
  destruct v as [|[]|literal|s|[|x items]|[|m members]]; intros Hwf;
    try (eexists _, _; split; [reflexivity|]; tauto).
  apply wf_Num, parse_number_chars in Hwf as (_ & _ & c & l & -> & Hc).
  exists c, l. split; [done|]. tauto.
Qed.

Lemma parse_value_number (fuel : nat) (c : N) (s : jsstring) :
  c = 45%N ∨ Json.is_digit c = true →
  Json.parse_value (S fuel) (c :: s)
  = match Json.parse_number (c :: s) with
    | Some (literal, r1) => Some (Json.Num literal, r1)
    | None => None
    end.
Proof.
  intros [->|Hc]; [done|]. cbn [Json.parse_value].
  apply is_digit_range in Hc.
  rewrite skip_ws_start
    by (unfold Json.is_ws; rewrite !orb_false_iff, !N.eqb_neq; lia).
  rewrite !(proj2 (N.eqb_neq c _)) by lia. done.
Qed.

(** What follows a value inside an array or an object, or at the end of the
    text, is nothing a number goes on with. *)
Lemma stops_comma (s : jsstring) : stops (44%N :: s).
Proof. done. Qed.
Lemma stops_line (s : jsstring) : stops (10%N :: s).
Proof. done. Qed.

Lemma stops_items {A} (f : A → jsstring) (l : list A) (s : jsstring) :
  stops (concat (List.map (λ y, 44%N :: f y) l) ++ 10%N :: s).
Proof. by destruct l. Qed.

Section Elements.
Context (f : nat) (inner indent rest : jsstring).
Hypothesis Hinner : spaces inner.
Hypothesis Hindent : spaces indent.

Lemma parse_elements_print (items : list Json.value) (fuel : nat) :
  Forall (λ y, ∀ tail, stops tail →
                Json.parse_value f (Json.print inner y ++ tail) = Some (y, tail))
         items →
  Forall (λ y, Json.wf y = true) items →
  length items < fuel →
  Json.parse_elements (Json.parse_value f) fuel
    (concat (List.map (λ y, 44%N :: 10%N :: inner ++ Json.print inner y) items)
     ++ 10%N :: indent ++ 93%N :: rest)
  = Some (items, rest).
Proof.
  revert fuel. induction items as [|y items IH]; intros fuel HP Hwf Hfuel.
  - destruct fuel as [|fuel]; [cbn in Hfuel; lia|].
    cbn [concat List.map app Json.parse_elements].
    rewrite skip_ws_line, skip_ws_start by done. done.
  - destruct fuel as [|fuel]; [cbn in Hfuel; lia|].
    apply Forall_cons in HP as [Hy HP]. apply Forall_cons in Hwf as [Hwy Hwf].
    cbn [concat List.map app Json.parse_elements].
    rewrite skip_ws_start by done.
    change ((44 =? 93)%N) with false. change ((44 =? 44)%N) with true.
    cbv iota.
    rewrite <- !app_assoc.
    destruct (print_head inner y Hwy) as (c & s & Hc & Hsv).
    rewrite (parse_value_ws f _ (Json.print inner y ++
               concat (List.map (λ y, 44%N :: 10%N :: inner ++ Json.print inner y)
                         items) ++ 10%N :: indent ++ 93%N :: rest)).
    2: { rewrite skip_ws_line by done. done. }
    rewrite Hy by apply stops_items.
    rewrite IH; [done..|cbn in Hfuel; lia].
Qed.

Lemma parse_member_print (m : jsstring * Json.value) (tail : jsstring) :
  (∀ tail, stops tail →
     Json.parse_value f (Json.print inner m.2 ++ tail) = Some (m.2, tail)) →
  Json.code_units m.1 = true → Json.wf m.2 = true → stops tail →
  Json.parse_member (Json.parse_value f)
    (10%N :: inner ++ Json.quote m.1 ++ 58%N :: 32%N :: Json.print inner m.2 ++ tail)
  = Some (m, tail).
Proof.
  intros Hm Hk Hwf Htail. unfold Json.parse_member.
  rewrite skip_ws_line by done. unfold Json.quote.
  cbn [app]. rewrite skip_ws_start by done.
  change ((34 =? 34)%N) with true. cbv iota.
  rewrite <- app_assoc. cbn [app].
  rewrite parse_chars_quote_chars by done.
  rewrite skip_ws_start by done.
  change ((58 =? 58)%N) with true. cbv iota.
  destruct (print_head inner m.2 Hwf) as (c & s & Hc & Hsv).
  rewrite (parse_value_ws f _ (Json.print inner m.2 ++ tail)) by done.
  rewrite Hm by done. by destruct m.
Qed.

Lemma parse_members_print (members : list (jsstring * Json.value)) (fuel : nat) :
  Forall (λ m, ∀ tail, stops tail →
                Json.parse_value f (Json.print inner m.2 ++ tail)
                = Some (m.2, tail))
         members →
  Forall (λ m, Json.code_units m.1 = true ∧ Json.wf m.2 = true) members →
  length members < fuel →
  Json.parse_members (Json.parse_value f) fuel
    (concat (List.map (λ m, 44%N :: 10%N :: inner ++ Json.quote m.1 ++ 58%N :: 32%N :: Json.print inner m.2) members)
     ++ 10%N :: indent ++ 125%N :: rest)
  = Some (members, rest).
Proof.
  revert fuel. induction members as [|m members IH]; intros fuel HP Hwf Hfuel.
  - destruct fuel as [|fuel]; [cbn in Hfuel; lia|].
    cbn [concat List.map app Json.parse_members].
    rewrite skip_ws_line, skip_ws_start by done. done.
  - destruct fuel as [|fuel]; [cbn in Hfuel; lia|].
    apply Forall_cons in HP as [Hm HP].
    apply Forall_cons in Hwf as [[Hk Hwm] Hwf].
    cbn [concat List.map app Json.parse_members].
    rewrite skip_ws_start by done.
    change ((44 =? 125)%N) with false. change ((44 =? 44)%N) with true.
    cbv iota.
    rewrite <- !app_assoc.
    pose proof (parse_member_print m
      (concat (List.map (λ m, 44%N :: 10%N :: inner ++ Json.quote m.1
                               ++ 58%N :: 32%N :: Json.print inner m.2) members)
       ++ 10%N :: indent ++ 125%N :: rest) Hm Hk Hwm (stops_items _ _ _)) as E.
    rewrite <- ?app_assoc in E. cbn [app] in E. cbn [app]. rewrite E.
    rewrite IH; [done..|cbn in Hfuel; lia].
Qed.

End Elements.

Lemma size_pos (v : Json.value) : 1 ≤ Json.size v.
Proof. destruct v; cbn; lia. Qed.

Lemma list_sum_cons_eq (a : nat) (l : list nat) :
  list_sum (a :: l) = a + list_sum l.
Proof. reflexivity. Qed.

Lemma list_sum_sizes {A} (g : A → nat) (l : list A) :
  (∀ x, 1 ≤ g x) →
  length l ≤ list_sum (List.map g l) ∧ Forall (λ x, g x ≤ list_sum (List.map g l)) l.
Proof.
  intros Hg. induction l as [|x l [IH1 IH2]]; [by split|].
  cbn [List.map length]. rewrite list_sum_cons_eq. split.
  - specialize (Hg x). lia.
  - constructor; [lia|]. eapply Forall_impl; [exact IH2|]. cbn beta. intros. lia.
Qed.

Ltac norm_app := repeat (progress (cbn [app]; rewrite <- ?app_assoc)).

(** The parser reads a printed value back, whatever the indentation it was
    printed at, given fuel for its size. *)
Lemma parse_value_print (v : Json.value) :
  Json.wf v = true →
  ∀ fuel indent rest,
    Json.size v ≤ fuel → spaces indent → stops rest →
    Json.parse_value fuel (Json.print indent v ++ rest) = Some (v, rest).
Proof.
  induction v as [|b|literal|s|items IH|members IH] using Json_value_ind;
    intros Hwf fuel indent rest Hfuel Hind Hrest;
    (destruct fuel as [|f]; [cbn in Hfuel; lia|]).
  - done.
  - by destruct b.
  - apply wf_Num in Hwf.
    destruct (parse_number_chars _ _ _ Hwf) as (_ & _ & c & l & -> & Hc).
    cbn [Json.print app]. rewrite parse_value_number by tauto.
    change (c :: l ++ rest) with ((c :: l) ++ rest).
    by rewrite (parse_number_app _ rest _ _ Hwf Hrest).
  - cbn [Json.print Json.wf] in *. unfold Json.quote.
    cbn [app Json.parse_value].
    rewrite skip_ws_start by done.
    change ((34 =? 123)%N) with false. change ((34 =? 91)%N) with false.
    change ((34 =? 34)%N) with true. cbv iota.
    rewrite <- app_assoc. cbn [app].
    by rewrite parse_chars_quote_chars.
  - destruct items as [|x items]; [done|].
    cbn [Json.wf forallb] in Hwf. apply andb_true_iff in Hwf as [Hwx Hwf].
    pose proof (proj1 (forallb_forall _ _) Hwf) as Hall. clear Hwf. rename Hall into Hwf. 
    apply Forall_cons in IH as [IHx IH].
    cbn [Json.size List.map] in Hfuel. rewrite list_sum_cons_eq in Hfuel.
    destruct (list_sum_sizes Json.size items size_pos) as [Hlen Hsizes].
    pose proof (size_pos x) as Hx.
    rewrite print_Arr_cons.
    assert (Hinner : spaces (indent ++ [32; 32]%N)) by by apply spaces_inner.
    set (inner := (indent ++ [32; 32]%N)) in *. clearbody inner.
    cbn [app Json.parse_value].
    rewrite skip_ws_start by done.
    change ((91 =? 123)%N) with false. change ((91 =? 91)%N) with true.
    cbv iota.
    rewrite <- !app_assoc. rewrite skip_ws_line by done.
    destruct (print_head inner x Hwx) as (c & s & Hc & Hsv).
    destruct (starts_value_other c Hsv) as (Hws & H93 & _).
    set (K := Json.parse_value f _).
    rewrite Hc. cbn [app]. rewrite skip_ws_start by done. rewrite H93.
    subst K.
    rewrite (parse_value_ws f _ (Json.print inner x ++
               concat (List.map (λ y, 44%N :: 10%N :: inner
                                      ++ Json.print inner y)
                         items) ++ 10%N :: indent ++ [93%N] ++ rest)).
    2: { rewrite skip_ws_line by done. by norm_app. }
    rewrite (IHx Hwx f _ _ ltac:(lia) Hinner (stops_items _ _ _)).
    cbn [app].
    rewrite (parse_elements_print f _ indent rest Hinner Hind items f);
      [done| | |lia].
    + apply Forall_forall. intros y Hy tail Htail.
      rewrite Forall_forall in IH, Hsizes.
      apply (IH y Hy); [|specialize (Hsizes y Hy); lia|done..].
      apply Hwf. by apply list_elem_of_In.
    + apply Forall_forall. intros y Hy. apply Hwf. by apply list_elem_of_In.
  - destruct members as [|m members]; [done|].
    cbn [Json.wf forallb] in Hwf. apply andb_true_iff in Hwf as [Hwm Hwf].
    apply andb_true_iff in Hwm as [Hk Hwm].
    pose proof (proj1 (forallb_forall _ _) Hwf) as Hall. clear Hwf. rename Hall into Hwf.
    apply Forall_cons in IH as [IHm IH].
    cbn [Json.size List.map] in Hfuel. rewrite list_sum_cons_eq in Hfuel.
    destruct (list_sum_sizes (λ m : jsstring * Json.value, Json.size m.2) members
                (λ m, size_pos m.2)) as [Hlen Hsizes].
    pose proof (size_pos m.2) as Hm.
    rewrite print_Obj_cons.
    assert (Hinner : spaces (indent ++ [32; 32]%N)) by by apply spaces_inner.
    set (inner := (indent ++ [32; 32]%N)) in *. clearbody inner.
    cbn [app Json.parse_value].
    rewrite skip_ws_start by done.
    change ((123 =? 123)%N) with true. cbv iota.
    norm_app. rewrite skip_ws_line by done.
    set (K := Json.parse_member _ _).
    unfold Json.quote at 1. cbn [app]. rewrite skip_ws_start by done.
    change ((34 =? 125)%N) with false. cbv iota. subst K.
    pose proof (parse_member_print f _ Hinner m
      (concat (List.map (λ m, 44%N :: 10%N :: inner
                               ++ Json.quote m.1 ++ 58%N :: 32%N :: Json.print inner m.2) members)
       ++ 10%N :: indent ++ [125%N] ++ rest)) as E.
    repeat (progress (cbn [app] in E; rewrite <- ?app_assoc in E)).
    rewrite E; [|intros tail Htail; apply IHm; [done|lia|done..]
                |done|done|apply stops_items].
    rewrite (parse_members_print f _ indent rest Hinner Hind members f);
      [done| | |lia].
    + apply Forall_forall. intros y Hy tail Htail.
      rewrite Forall_forall in IH, Hsizes.
      apply (IH y Hy); [|specialize (Hsizes y Hy); cbn in Hsizes; lia|done..].
      apply list_elem_of_In, Hwf, andb_true_iff in Hy. tauto.
    + apply Forall_forall. intros y Hy.
      apply list_elem_of_In, Hwf, andb_true_iff in Hy. tauto.
Qed.

Lemma length_concat_ge {A} (g : A → jsstring) (h : A → nat) (l : list A) :
  (∀ x, h x ≤ length (g x)) →
  list_sum (List.map h l) ≤ length (concat (List.map g l)).
Proof.
  intros Hg. induction l as [|x l IH]; [done|].
  cbn [List.map concat]. rewrite list_sum_cons_eq.
  rewrite length_app. specialize (Hg x). lia.
Qed.

(** A value has no more nodes than its text has characters. *)
Lemma size_le_length (v : Json.value) (indent : jsstring) :
  Json.wf v = true → Json.size v ≤ length (Json.print indent v).
Proof.
  revert indent.
  induction v as [|b|literal|s|items IH|members IH] using Json_value_ind;
    intros indent Hwf.
  - cbn. lia.
  - destruct b; cbn; lia.
  - apply wf_Num, parse_number_chars in Hwf as (_ & _ & c & l & -> & _).
    cbn. lia.
  - cbn. lia.
  - destruct items as [|x items]; [cbn; lia|].
    cbn [Json.wf forallb] in Hwf. apply andb_true_iff in Hwf as [Hwx Hwf].
    pose proof (proj1 (forallb_forall _ _) Hwf) as Hall. clear Hwf. rename Hall into Hwf. apply Forall_cons in IH as [IHx IH].
    rewrite print_Arr_cons. cbn [Json.size List.map length]. rewrite list_sum_cons_eq.
    rewrite !length_app. specialize (IHx (indent ++ [32; 32]%N) Hwx).
    assert (list_sum (List.map Json.size items)
            ≤ list_sum (List.map (λ y, length (Json.print (indent ++ [32; 32]%N) y))
                          items)) as H1.
    { clear -IH Hwf. induction items as [|y items IHi]; [done|].
      apply Forall_cons in IH as [IHy IH].
      cbn [List.map]. rewrite !list_sum_cons_eq.
      specialize (IHy (indent ++ [32; 32]%N) (Hwf y ltac:(by left))).
      specialize (IHi IH ltac:(intros z Hz; apply Hwf; by right)). lia. }
    pose proof (length_concat_ge
      (λ y, 44%N :: 10%N :: (indent ++ [32; 32]%N)
            ++ Json.print (indent ++ [32; 32]%N) y)
      (λ y, length (Json.print (indent ++ [32; 32]%N) y)) items) as H2.
    specialize (H2 ltac:(intros; cbn [length]; rewrite ?length_app; cbn [length]; lia)).
    cbn [length]. rewrite ?length_app. cbn [length]. lia.
  - destruct members as [|m members]; [cbn; lia|].
    cbn [Json.wf forallb] in Hwf. apply andb_true_iff in Hwf as [Hwm Hwf].
    apply andb_true_iff in Hwm as [_ Hwm].
    pose proof (proj1 (forallb_forall _ _) Hwf) as Hall. clear Hwf. rename Hall into Hwf. apply Forall_cons in IH as [IHm IH].
    rewrite print_Obj_cons. cbn [Json.size List.map length]. rewrite list_sum_cons_eq.
    rewrite !length_app. specialize (IHm (indent ++ [32; 32]%N) Hwm).
    assert (list_sum (List.map (λ m : jsstring * Json.value, Json.size m.2) members)
            ≤ list_sum (List.map (λ m : jsstring * Json.value,
                                    length (Json.print (indent ++ [32; 32]%N) m.2))
                          members)) as H1.
    { clear -IH Hwf. induction members as [|y members IHi]; [done|].
      apply Forall_cons in IH as [IHy IH].
      cbn [List.map]. rewrite !list_sum_cons_eq.
      pose proof (Hwf y ltac:(by left)) as Hy. apply andb_true_iff in Hy as [_ Hy].
      specialize (IHy (indent ++ [32; 32]%N) Hy).
      specialize (IHi IH ltac:(intros z Hz; apply Hwf; by right)). lia. }
    pose proof (length_concat_ge
      (λ m : jsstring * Json.value,
         44%N :: 10%N :: (indent ++ [32; 32]%N) ++ Json.quote m.1 ++ 58%N :: 32%N :: Json.print (indent ++ [32; 32]%N) m.2)
      (λ m, length (Json.print (indent ++ [32; 32]%N) m.2)) members) as H2.
    specialize (H2 ltac:(intros; cbn [length]; rewrite ?length_app; cbn [length]; lia)).
    cbn [length]. rewrite ?length_app. cbn [length]. lia.
Qed.

(** [JSON.parse(JSON.stringify(v, null, 2))] is [v]. *)
Lemma parse_stringify (v : Json.value) :
  Json.wf v = true → Json.parse (Json.stringify v) = Some v.
Proof.
  intros Hwf. unfold Json.parse, Json.stringify.
  pose proof (parse_value_print v Hwf (S (length (Json.print [] v))) [] []) as H.
  rewrite app_nil_r in H. rewrite H; [done| |by constructor|done].
  pose proof (size_le_length v [] Hwf). lia.
Qed.

(* ================================================================== *)
(** * Numbers: a printed number is read back *)
(* ================================================================== *)

Lemma read_digits_app (a b : jsstring) :
  Number.read_digits (a ++ b)
  = (Number.read_digits a * 10 ^ N.of_nat (length b) + Number.read_digits b)%N.
Proof.
  unfold Number.read_digits. rewrite foldl_app.
  generalize (foldl (λ acc c, (10 * acc + (c - 48))%N) 0%N a). clear a.
  induction b as [|c b IH]; intros acc; [cbn; lia|].
  cbn [foldl length]. rewrite IH, (IH (10 * 0 + (c - 48))%N).
  rewrite Nat2N.inj_succ, N.pow_succ_r'. lia.
Qed.

Lemma text_of_uint_revapp (d d' : Decimal.uint) :
  Number.text_of_uint (Decimal.revapp d d')
  = rev (Number.text_of_uint d) ++ Number.text_of_uint d'.
Proof.
  revert d'. induction d; intros d'; cbn [Decimal.revapp Number.text_of_uint rev];
    [done|rewrite IHd, <- app_assoc; done..].
Qed.

Lemma read_digits_rev_of_lu (d : Decimal.uint) :
  Number.read_digits (rev (Number.text_of_uint d)) = DecimalPos.Unsigned.of_lu d.
Proof.
  induction d; cbn [Number.text_of_uint rev DecimalPos.Unsigned.of_lu];
    [done|rewrite read_digits_app, IHd; cbn; lia..].
Qed.

Lemma read_digits_text (d : Decimal.uint) :
  Number.read_digits (Number.text_of_uint d) = N.of_uint d.
Proof.
  unfold N.of_uint. rewrite DecimalPos.Unsigned.of_uint_alt.
  rewrite <- read_digits_rev_of_lu. unfold Decimal.rev.
  by rewrite text_of_uint_revapp, app_nil_r, rev_involutive.
Qed.

Lemma read_digits_print_nat (n : N) : Number.read_digits (Number.print_nat n) = n.
Proof.
  unfold Number.print_nat. by rewrite read_digits_text, DecimalN.Unsigned.of_to.
Qed.

Lemma text_of_uint_digits (d : Decimal.uint) :
  Forall (λ c, Json.is_digit c = true) (Number.text_of_uint d).
Proof. induction d; cbn; by constructor. Qed.

(** The digits of a number are [0] alone, or start with another digit. *)
Lemma print_nat_shape (n : N) :
  Number.print_nat n = [48%N]
  ∨ ∃ c l, Number.print_nat n = c :: l ∧ Json.is_digit c = true ∧ c ≠ 48%N
           ∧ Forall (λ c, Json.is_digit c = true) l.
Proof.
  unfold Number.print_nat.
  pose proof (DecimalN.Unsigned.to_of (N.to_uint n)) as H.
  rewrite DecimalN.Unsigned.of_to in H. unfold Decimal.unorm in H.
  pose proof (DecimalFacts.nzhead_nonzero (N.to_uint n)) as Hnz.
  pose proof (text_of_uint_digits (N.to_uint n)) as Hd.
  destruct (Decimal.nzhead (N.to_uint n)) eqn:Hh; rewrite ?H in *;
    [by left|by destruct (Hnz u)|right..];
    cbn in *; apply Forall_cons in Hd as [? ?]; by eexists _, _.
Qed.

Lemma span_digits_all (ds rest : jsstring) :
  Forall (λ c, Json.is_digit c = true) ds → no_digit rest →
  Json.span_digits (ds ++ rest) = (ds, rest).
Proof.
  intros Hds Hrest. induction Hds as [|c ds Hc _ IH]; cbn.
  - destruct rest as [|c rest]; [done|]. cbn. cbn in Hrest. by rewrite Hrest.
  - by rewrite Hc, IH.
Qed.

Lemma scan_int_print_nat (n : N) (rest : jsstring) :
  no_digit rest →
  Json.scan_int (Number.print_nat n ++ rest) = Some (Number.print_nat n, rest).
Proof.
  intros Hrest.
  destruct (print_nat_shape n) as [->|(c & l & -> & Hc & H48 & Hl)]; [done|].
  cbn. rewrite (proj2 (N.eqb_neq c 48)), Hc by done.
  by rewrite span_digits_all.
Qed.

Lemma digits_is_digit (ds : list N) :
  Forall (λ d, (d < 10)%N) ds →
  Forall (λ c, Json.is_digit c = true) ((λ d, (48 + d)%N) <$> ds).
Proof.
  intros H. apply Forall_fmap. eapply Forall_impl; [exact H|].
  intros d Hd. unfold compose. apply is_digit_range. cbv beta in *. lia.
Qed.

Lemma read_digits_fmap (ds : list N) :
  Number.read_digits ((λ d, (48 + d)%N) <$> ds) = digits_value ds.
Proof.
  unfold Number.read_digits, digits_value.
  generalize 0%N. induction ds as [|d ds IH]; intros acc; [done|].
  cbn. rewrite IH. f_equal. lia.
Qed.

Lemma scan_plain_literal (negative : bool) (q : N) (ds : list N) :
  Forall (λ d, (d < 10)%N) ds →
  let frac := match ds with
              | [] => []
              | _ => 46%N :: ((λ d, (48 + d)%N) <$> ds)
              end in
  Json.scan_sign (plain_literal negative q ds)
  = (if negative then [45%N] else [], Number.print_nat q ++ frac)
  ∧ Json.scan_int (Number.print_nat q ++ frac) = Some (Number.print_nat q, frac)
  ∧ Json.scan_frac frac = Some (frac, [])
  ∧ Json.scan_exp [] = Some ([], []).
Proof.
  intros Hds frac. split; [|split; [|split; [|done]]].
  - unfold plain_literal. fold frac. destruct negative; [done|]. cbn [app].
    destruct (print_nat_shape q) as [->|(c & l & -> & Hc & _)]; [done|].
    cbn. apply is_digit_range in Hc.
    by rewrite (proj2 (N.eqb_neq c 45)) by lia.
  - apply scan_int_print_nat. subst frac. by destruct ds.
  - subst frac. destruct ds as [|d ds]; [done|].
    cbn [Json.scan_frac]. change ((46 =? 46)%N) with true. cbv iota.
    pose proof (span_digits_all _ [] (digits_is_digit _ Hds) I) as H.
    rewrite app_nil_r in H. rewrite H. done.
Qed.

Lemma plain_literal_parses (negative : bool) (q : N) (ds : list N) :
  Forall (λ d, (d < 10)%N) ds →
  Json.parse_number (plain_literal negative q ds)
  = Some (plain_literal negative q ds, []).
Proof.
  intros Hds. destruct (scan_plain_literal negative q ds Hds) as (H1 & H2 & H3 & H4).
  unfold Json.parse_number. rewrite H1, H2, H3, H4.
  unfold plain_literal. by rewrite app_nil_r.
Qed.

Lemma plain_literal_decimal (negative : bool) (q : N) (ds : list N) :
  Forall (λ d, (d < 10)%N) ds →
  Number.decimal_of (plain_literal negative q ds)
  = Some ((if negative then -1 else 1)
          * Z.of_N (q * 10 ^ N.of_nat (length ds) + digits_value ds),
          - Z.of_nat (length ds))%Z.
Proof.
  intros Hds. destruct (scan_plain_literal negative q ds Hds) as (H1 & H2 & H3 & H4).
  unfold Number.decimal_of. rewrite H1, H2, H3, H4.
  assert (drop 1 (match ds with
                  | [] => []
                  | _ => 46%N :: ((λ d, (48 + d)%N) <$> ds)
                  end) = (λ d, (48 + d)%N) <$> ds) as -> by by destruct ds.
  rewrite read_digits_app, read_digits_print_nat, read_digits_fmap, length_fmap.
  repeat f_equal; try lia. destruct negative; lia.
Qed.

Lemma print_int_plain (z : Z) :
  Number.print_int z = plain_literal (z <? 0)%Z (Z.abs_N z) [].
Proof. unfold Number.print_int, plain_literal. by rewrite app_nil_r. Qed.

Lemma print_millis_plain (t : Z) :
  Number.print_millis t
  = plain_literal (t <? 0)%Z (Z.abs_N t / 1000)
      (Number.frac_digits (Z.abs_N t mod 1000)).
Proof.
  unfold Number.print_millis, plain_literal.
  by destruct (Number.frac_digits _).
Qed.

Lemma frac_digits_spec (r : N) :
  (r < 1000)%N →
  Forall (λ d, (d < 10)%N) (Number.frac_digits r)
  ∧ length (Number.frac_digits r) ≤ 3
  ∧ (digits_value (Number.frac_digits r)
     * 10 ^ N.of_nat (3 - length (Number.frac_digits r)) = r)%N.
Proof.
  intros Hr. unfold Number.frac_digits.
  pose proof (N.div_mod r 10 ltac:(lia)) as H1.
  pose proof (N.div_mod (r / 10) 10 ltac:(lia)) as H2.
  assert (r / 10 / 10 = r / 100)%N as E by (by rewrite N.Div0.div_div).
  rewrite E in H2.
  pose proof (N.mod_lt r 10 ltac:(lia)).
  pose proof (N.mod_lt (r / 10) 10 ltac:(lia)).
  clear E.
  generalize dependent (r mod 10)%N. generalize dependent ((r / 10) mod 10)%N.
  generalize dependent (r / 100)%N. generalize dependent (r / 10)%N.
  intros r10 a b H2 Hb c H1 Hc.
  destruct (N.eqb_spec r 0); [by repeat constructor|].
  destruct (N.eqb_spec c 0); [destruct (N.eqb_spec b 0)|];
    (split; [repeat constructor; lia|]); (split; [cbn; lia|]);
    unfold digits_value; cbn; lia.
Qed.

(** An integer is printed as a literal of the grammar and read back. *)
Lemma print_int_read (z : Z) :
  Json.parse_number (Number.print_int z) = Some (Number.print_int z, [])
  ∧ Number.as_int (Number.print_int z) = Some z.
Proof.
  rewrite print_int_plain. split; [by apply plain_literal_parses|].
  unfold Number.as_int. rewrite plain_literal_decimal by done.
  cbn [mbind option_bind length]. unfold Number.scaled. cbn [fst snd].
  change (- Z.of_nat 0 + 0)%Z with 0%Z. change (N.of_nat 0) with 0%N.
  cbn [Z.leb Z.compare]. f_equal. unfold digits_value. cbn [foldl].
  rewrite N.pow_0_r, Z.pow_0_r. destruct (Z.ltb_spec z 0); lia.
Qed.

(** A reading of the clock is printed as a literal of the grammar and read
    back. *)
Lemma print_millis_read (t : Z) :
  Json.parse_number (Number.print_millis t) = Some (Number.print_millis t, [])
  ∧ Number.as_millis (Number.print_millis t) = Some t.
Proof.
  rewrite print_millis_plain.
  destruct (frac_digits_spec (Z.abs_N t mod 1000)) as (Hds & Hlen & Hval);
    [apply N.mod_lt; lia|].
  split; [by apply plain_literal_parses|].
  unfold Number.as_millis. rewrite plain_literal_decimal by done.
  cbn [mbind option_bind]. unfold Number.scaled. cbn [fst snd].
  set (ds := Number.frac_digits (Z.abs_N t mod 1000)) in *.
  rewrite (proj2 (Z.leb_le 0 _)) by lia. f_equal.
  replace (- Z.of_nat (length ds) + 3)%Z with (Z.of_N (N.of_nat (3 - length ds)))
    by lia.
  pose proof (N.div_mod (Z.abs_N t) 1000 ltac:(lia)) as Hdm.
  assert (10 ^ N.of_nat (length ds) * 10 ^ N.of_nat (3 - length ds) = 1000)%N
    as Hpow.
  { rewrite <- N.pow_add_r. replace (N.of_nat (length ds) + N.of_nat (3 - length ds))%N
      with 3%N by lia. done. }
  assert (Z.of_N (Z.abs_N t / 1000 * 10 ^ N.of_nat (length ds) + digits_value ds)
          * 10 ^ Z.of_N (N.of_nat (3 - length ds)) = Z.of_N (Z.abs_N t))%Z as Habs.
  { change 10%Z with (Z.of_N 10). rewrite <- N2Z.inj_pow.
    rewrite <- N2Z.inj_mul. f_equal.
    rewrite N.mul_add_distr_r, <- N.mul_assoc, Hpow, Hval. lia. }
  rewrite <- Z.mul_assoc, Habs. destruct (Z.ltb_spec t 0); lia.
Qed.

(* ================================================================== *)
(** * The bundle: its JSON value is read back as the bundle *)
(* ================================================================== *)

Lemma read_all_fmap {A B} (f : A → option B) (g : B → A) (l : list B) :
  (∀ x, f (g x) = Some x) → Backup.read_all f (g <$> l) = Some l.
Proof.
  intros H. induction l as [|x l IH]; [done|].
  cbn [fmap list_fmap Backup.read_all]. change (list_fmap B A g l) with (g <$> l).
  by rewrite H, IH.
Qed.

Lemma texts_read_back (images : list jsstring) :
  Backup.texts_or_absent (Some (Backup.strings images)) = Some (Some images).
Proof.
  unfold Backup.texts_or_absent, Backup.strings.
  by rewrite read_all_fmap.
Qed.

Lemma as_message_json (m : StoredMessage.t) :
  Backup.as_message (Backup.message_json m) = Some m.
Proof.
  pose proof (λ t, proj2 (print_millis_read t)) as Hmillis.
  pose proof texts_read_back as Htexts.
  assert (Backup.texts_or_absent None = Some None) as Hnone by done.
  unfold Backup.message_json, Backup.as_message, Backup.seconds, Backup.timestamp,
    Backup.optional.
  revert Hmillis Htexts Hnone.
  generalize Number.print_millis Number.as_millis Backup.strings
    Backup.texts_or_absent.
  intros P R S T Hmillis Htexts Hnone.
  destruct m as [id c [im|] t|id sp c [im|] t|id c t];
    vm_compute; rewrite ?Hmillis; vm_compute; rewrite ?Htexts, ?Hnone;
    reflexivity.
Qed.

Lemma messages_read_back (messages : list StoredMessage.t) :
  Backup.messages_of (Some (Json.Arr (Backup.message_json <$> messages)))
  = Some messages.
Proof. unfold Backup.messages_of. apply read_all_fmap, as_message_json. Qed.

Lemma as_agent_json (a : Agent.t) :
  Backup.element (js "name") Backup.as_agent (Backup.agent_json a) = Backup.typed a.
Proof.
  pose proof (λ z, proj2 (print_int_read z)) as Hint.
  unfold Backup.agent_json, Backup.element, Backup.as_agent, Backup.integer,
    Backup.integer_or_absent, Backup.optional.
  revert Hint. generalize Number.print_int Number.as_int. intros P R Hint.
  destruct a as [name sp [av|] [model|] [cp|] [bu|] [ak|] [st|] [ord|]];
    vm_compute; rewrite ?Hint; reflexivity.
Qed.

Lemma as_session_json (s : StoredSession.t) :
  Backup.element (js "id") Backup.as_session (Backup.session_json s)
  = Backup.typed s.
Proof.
  pose proof (λ z, proj2 (print_int_read z)) as Hint.
  pose proof (λ t, proj2 (print_millis_read t)) as Hmillis.
  pose proof (messages_read_back (StoredSession.messages s)) as Hmessages.
  unfold Backup.session_json, Backup.element, Backup.as_session, Backup.integer,
    Backup.integer_or_absent, Backup.seconds, Backup.timestamp, Backup.optional.
  revert Hint Hmillis Hmessages.
  generalize Number.print_int Number.as_int Number.print_millis Number.as_millis
    (Json.Arr (Backup.message_json <$> StoredSession.messages s)) Backup.messages_of.
  intros P R P' R' v M Hint Hmillis Hmessages.
  destruct s as [id name gp ca ua msgs [ord|]];
    vm_compute; rewrite ?Hmillis; vm_compute; rewrite ?Hmessages; vm_compute;
    rewrite ?Hint; reflexivity.
Qed.

Lemma version_read_back (z : Z) :
  Backup.is_version_1 (Some (Backup.integer z)) = bool_decide (z = 1%Z).
Proof.
  unfold Backup.is_version_1, Backup.integer.
  rewrite print_int_plain, plain_literal_decimal by done.
  unfold Backup.rounds_to_one. cbn [fst snd length].
  change (0 <=? - Z.of_nat 0)%Z with true. cbv iota.
  change (10 ^ (- Z.of_nat 0))%Z with 1%Z. change (N.of_nat 0) with 0%N.
  unfold digits_value. cbn [foldl]. rewrite N.pow_0_r.
  case_bool_decide as Hz.
  - subst z. done.
  - apply Z.eqb_neq. destruct (Z.ltb_spec z 0); lia.
Qed.

Lemma bundle_members_get (v1 v2 v3 v4 v5 v6 : Json.value) :
  let members :=
    [(js "app", v1); (js "version", v2); (js "exported_at", v3);
     (js "agents", v4); (js "sessions", v5); (js "active_session_id", v6)] in
  Json.get (js "app") members = Some v1
  ∧ Json.get (js "version") members = Some v2
  ∧ Json.get (js "exported_at") members = Some v3
  ∧ Json.get (js "agents") members = Some v4
  ∧ Json.get (js "sessions") members = Some v5
  ∧ Json.get (js "active_session_id") members = Some v6.
Proof. by vm_compute. Qed.

(** The JSON value of a bundle is read as the bundle. *)
Lemma view_bundle_json (bundle : ExportBundleV1.t) :
  Backup.view (Backup.bundle_json bundle) = Backup.of_bundle bundle.
Proof.
  pose proof (version_read_back (ExportBundleV1.version bundle)) as Hversion.
  pose proof (proj2 (print_millis_read (ExportBundleV1.exported_at bundle)))
    as Hmillis.
  assert (Hagents :
    Backup.listing (Backup.element (js "name") Backup.as_agent)
      (Some (Json.Arr (Backup.agent_json <$> ExportBundleV1.agents bundle)))
    = Backup.elements (Backup.typed <$> ExportBundleV1.agents bundle)).
  { cbn [Backup.listing]. f_equal. rewrite <- list_fmap_compose.
    apply list_fmap_ext. intros _ a _. apply as_agent_json. }
  assert (Hsessions :
    Backup.listing (Backup.element (js "id") Backup.as_session)
      (Some (Json.Arr (Backup.session_json <$> ExportBundleV1.sessions bundle)))
    = Backup.elements (Backup.typed <$> ExportBundleV1.sessions bundle)).
  { cbn [Backup.listing]. f_equal. rewrite <- list_fmap_compose.
    apply list_fmap_ext. intros _ s _. apply as_session_json. }
  unfold Backup.view, Backup.bundle_json, Backup.of_bundle.
  destruct bundle as [app version exported_at ags ses active].
  cbn [ExportBundleV1.app ExportBundleV1.version ExportBundleV1.exported_at
       ExportBundleV1.agents ExportBundleV1.sessions
       ExportBundleV1.active_session_id] in *.
  match goal with
  | |- context [Json.get _ [(_, ?v1); (_, ?v2); (_, ?v3); (_, ?v4); (_, ?v5); (_, ?v6)]] =>
      destruct (bundle_members_get v1 v2 v3 v4 v5 v6)
        as (H1 & H2 & H3 & H4 & H5 & H6)
  end.
  cbv zeta in H1, H2, H3, H4, H5, H6. rewrite H1, H2, H3, H4, H5, H6.
  rewrite Hversion, Hagents, Hsessions. unfold Backup.seconds, Backup.timestamp.
  rewrite Hmillis.
  assert (bool_decide (Some (Json.Str app) = Some (Json.Str (js "agent-group")))
          && bool_decide (version = 1%Z)
          = bool_decide (app = js "agent-group" ∧ version = 1%Z)) as ->.
  { rewrite bool_decide_and. f_equal. apply bool_decide_ext.
    split; congruence. }
  destruct (bool_decide (app = js "agent-group" ∧ version = 1%Z)); [|done].
  by destruct active.
Qed.

(* ================================================================== *)
(** * UTF-8: the bytes of a string without lone surrogates are read back *)
(* ================================================================== *)

Lemma scalar_string_app (a b : jsstring) :
  scalar_string a → scalar_string b → scalar_string (a ++ b).
Proof. induction 1; intros Hb; cbn [app]; [done|by constructor; auto..]. Qed.

Lemma scalar_string_concat (l : list jsstring) :
  Forall scalar_string l → scalar_string (concat l).
Proof.
  induction 1 as [|x l Hx _ IH]; [constructor|].
  cbn. by apply scalar_string_app.
Qed.

Lemma surrogate_range (c : N) :
  (Json.is_high_surrogate c = true ↔ (55296 ≤ c ≤ 56319)%N)
  ∧ (Json.is_low_surrogate c = true ↔ (56320 ≤ c ≤ 57343)%N).
Proof.
  unfold Json.is_high_surrogate, Json.is_low_surrogate.
  rewrite !andb_true_iff, !N.leb_le. done.
Qed.

Lemma not_surrogate (c : N) :
  (c < 55296 ∨ 57343 < c)%N →
  Json.is_high_surrogate c = false ∧ Json.is_low_surrogate c = false.
Proof.
  intros Hc. destruct (surrogate_range c) as [Hh Hl].
  split; apply not_true_is_false; [rewrite Hh|rewrite Hl]; lia.
Qed.

Lemma scalar_string_ascii (s : jsstring) :
  Forall (λ c, (c < 128)%N) s → scalar_string s.
Proof.
  induction 1 as [|c s Hc _ IH]; [constructor|].
  destruct (not_surrogate c) as [? ?]; [lia|]. constructor; [lia|done..].
Qed.

Lemma in_range_true (lo hi b : N) :
  (lo ≤ b ≤ hi)%N → Utf8.in_range lo hi b = true.
Proof. intros H. unfold Utf8.in_range. rewrite andb_true_iff, !N.leb_le. lia. Qed.

Lemma in_range_false (lo hi b : N) :
  (b < lo ∨ hi < b)%N → Utf8.in_range lo hi b = false.
Proof.
  intros H. unfold Utf8.in_range. apply not_true_is_false.
  rewrite andb_true_iff, !N.leb_le. lia.
Qed.

Lemma decode_scalars_1 (b : N) (rest : list N) :
  (b < 128)%N → Utf8.decode_scalars (b :: rest) = b :: Utf8.decode_scalars rest.
Proof.
  intros Hb. cbn [Utf8.decode_scalars]. by rewrite (proj2 (N.ltb_lt b 128)).
Qed.

Lemma decode_scalars_2 (b b1 : N) (rest : list N) :
  (194 ≤ b ≤ 223)%N → (128 ≤ b1 ≤ 191)%N →
  Utf8.decode_scalars (b :: b1 :: rest)
  = Utf8.units ((b - 192) * 64 + (b1 - 128)) ++ Utf8.decode_scalars rest.
Proof.
  intros Hb Hb1. cbn [Utf8.decode_scalars].
  rewrite (proj2 (N.ltb_ge b 128)) by lia.
  by rewrite !in_range_true by done.
Qed.

Lemma decode_scalars_3 (b b1 b2 : N) (rest : list N) :
  (224 ≤ b ≤ 239)%N → (Utf8.lower b ≤ b1 ≤ Utf8.upper b)%N → (128 ≤ b2 ≤ 191)%N →
  Utf8.decode_scalars (b :: b1 :: b2 :: rest)
  = Utf8.units ((b - 224) * 4096 + (b1 - 128) * 64 + (b2 - 128))
    ++ Utf8.decode_scalars rest.
Proof.
  intros Hb Hb1 Hb2. cbn [Utf8.decode_scalars].
  rewrite (proj2 (N.ltb_ge b 128)) by lia.
  rewrite (in_range_false 194 223) by lia.
  by rewrite !in_range_true by done.
Qed.

Lemma decode_scalars_4 (b b1 b2 b3 : N) (rest : list N) :
  (240 ≤ b ≤ 244)%N → (Utf8.lower b ≤ b1 ≤ Utf8.upper b)%N →
  (128 ≤ b2 ≤ 191)%N → (128 ≤ b3 ≤ 191)%N →
  Utf8.decode_scalars (b :: b1 :: b2 :: b3 :: rest)
  = Utf8.units ((b - 240) * 262144 + (b1 - 128) * 4096 + (b2 - 128) * 64
                + (b3 - 128))
    ++ Utf8.decode_scalars rest.
Proof.
  intros Hb Hb1 Hb2 Hb3. cbn [Utf8.decode_scalars].
  rewrite (proj2 (N.ltb_ge b 128)) by lia.
  rewrite (in_range_false 194 223), (in_range_false 224 239) by lia.
  by rewrite !in_range_true by done.
Qed.

(** The base-64 digits of a scalar value. *)
Lemma sextets (cp : N) :
  ∃ q1 q2 q3 r1 r2 r3 : N,
    (cp / 64 = q1 ∧ cp / 4096 = q2 ∧ cp / 262144 = q3
     ∧ cp mod 64 = r1 ∧ (cp / 64) mod 64 = r2 ∧ (cp / 4096) mod 64 = r3
     ∧ cp = 64 * q1 + r1 ∧ q1 = 64 * q2 + r2 ∧ q2 = 64 * q3 + r3
     ∧ r1 < 64 ∧ r2 < 64 ∧ r3 < 64)%N.
Proof.
  pose proof (N.div_mod cp 64 ltac:(lia)) as H1.
  pose proof (N.div_mod (cp / 64) 64 ltac:(lia)) as H2.
  pose proof (N.div_mod (cp / 4096) 64 ltac:(lia)) as H3.
  assert (cp / 64 / 64 = cp / 4096)%N as E2 by (by rewrite N.Div0.div_div).
  assert (cp / 4096 / 64 = cp / 262144)%N as E3 by (by rewrite N.Div0.div_div).
  rewrite E2 in H2. rewrite E3 in H3.
  pose proof (N.mod_lt cp 64 ltac:(lia)).
  pose proof (N.mod_lt (cp / 64) 64 ltac:(lia)).
  pose proof (N.mod_lt (cp / 4096) 64 ltac:(lia)).
  eexists _, _, _, _, _, _. split_and!; (reflexivity || assumption).
Qed.

(** The bytes of a scalar value are read back as its code units. *)
Lemma decode_encode_scalar (cp : N) (rest : list N) :
  (cp < 1114112)%N →
  Json.is_high_surrogate cp = false → Json.is_low_surrogate cp = false →
  Utf8.decode_scalars (Utf8.encode_scalar cp ++ rest)
  = Utf8.units cp ++ Utf8.decode_scalars rest.
Proof.
  intros Hcp Hh Hl.
  assert (cp < 55296 ∨ 57343 < cp)%N as Hns.
  { destruct (surrogate_range cp) as [Hh' Hl'].
    destruct (N.lt_ge_cases cp 55296) as [|H1]; [by left|right].
    destruct (N.lt_ge_cases 57343 cp) as [|H2]; [done|].
    destruct (N.lt_ge_cases cp 56320).
    - rewrite (proj2 Hh') in Hh by lia. done.
    - rewrite (proj2 Hl') in Hl by lia. done. }
  clear Hh Hl. unfold Utf8.encode_scalar.
  destruct (sextets cp)
    as (q1 & q2 & q3 & r1 & r2 & r3 & -> & -> & -> & -> & -> & -> & E1 & E2 & E3
        & R1 & R2 & R3).
  destruct (N.ltb_spec cp 128) as [H1|H1].
  { cbn [app]. rewrite decode_scalars_1 by done. unfold Utf8.units.
    by rewrite (proj2 (N.ltb_lt cp 65536)) by lia. }
  destruct (N.ltb_spec cp 2048) as [H2|H2].
  { cbn [app]. rewrite decode_scalars_2 by lia. f_equal. f_equal. lia. }
  destruct (N.ltb_spec cp 65536) as [H3|H3].
  { cbn [app]. rewrite decode_scalars_3; [f_equal; f_equal; lia|lia| |lia].
    unfold Utf8.lower, Utf8.upper.
    destruct (N.eqb_spec (224 + q2) 224), (N.eqb_spec (224 + q2) 237),
      (N.eqb_spec (224 + q2) 240), (N.eqb_spec (224 + q2) 244); lia. }
  cbn [app]. rewrite decode_scalars_4; [f_equal; f_equal; lia|lia| |lia|lia].
  unfold Utf8.lower, Utf8.upper.
  destruct (N.eqb_spec (240 + q3) 224), (N.eqb_spec (240 + q3) 237),
    (N.eqb_spec (240 + q3) 240), (N.eqb_spec (240 + q3) 244); lia.
Qed.

Lemma units_pair (h l : N) :
  Json.is_high_surrogate h = true → Json.is_low_surrogate l = true →
  let cp := (65536 + (h - 55296) * 1024 + (l - 56320))%N in
  (cp < 1114112)%N ∧ (57343 < cp)%N ∧ Utf8.units cp = [h; l].
Proof.
  intros Hh%surrogate_range Hl%surrogate_range cp. subst cp.
  split; [lia|]. split; [lia|]. unfold Utf8.units.
  rewrite (proj2 (N.ltb_ge _ 65536)) by lia.
  replace (65536 + (h - 55296) * 1024 + (l - 56320) - 65536)%N
    with (1024 * (h - 55296) + (l - 56320))%N by lia.
  rewrite <- (N.div_unique _ 1024 (h - 55296) (l - 56320)) by lia.
  rewrite <- (N.mod_unique _ 1024 (h - 55296) (l - 56320)) by lia.
  f_equal; [lia|]. f_equal. lia.
Qed.

(** [TextDecoder] reads the bytes [TextEncoder] writes for a string of
    scalar values as that string. *)
Lemma decode_scalars_encode (s : jsstring) :
  scalar_string s → Utf8.decode_scalars (Utf8.encode s) = s.
Proof.
  induction 1 as [|c s Hc Hh Hl _ IH|h l s Hh Hl _ IH]; [done| |].
  - cbn [Utf8.encode]. rewrite Hh, Hl.
    rewrite decode_encode_scalar by (done || lia). rewrite IH.
    unfold Utf8.units. by rewrite (proj2 (N.ltb_lt c 65536)).
  - cbn [Utf8.encode]. rewrite Hh, Hl.
    destruct (units_pair h l Hh Hl) as (H1 & H2 & H3).
    destruct (not_surrogate (65536 + (h - 55296) * 1024 + (l - 56320)))
      as [? ?]; [lia|].
    rewrite decode_encode_scalar by done. by rewrite IH, H3.
Qed.

(** A text that starts with an ASCII character has no byte order mark to
    lose. *)
Lemma decode_encode (c : N) (s : jsstring) :
  (c < 128)%N → scalar_string (c :: s) →
  Utf8.decode (Utf8.encode (c :: s)) = c :: s.
Proof.
  intros Hc Hs. rewrite <- (decode_scalars_encode _ Hs) at 2.
  destruct (not_surrogate c) as [Hh Hl]; [lia|].
  cbn [Utf8.encode]. rewrite Hh, Hl. unfold Utf8.encode_scalar.
  rewrite (proj2 (N.ltb_lt c 128)) by done. cbn [app]. unfold Utf8.decode.
  destruct (N.eqb_spec c 239) as [->|Hne]; [lia|].
  destruct c as [|p]; [done|].
  repeat (destruct p as [p|p|]; try done).
Qed.

(** ** The text [JSON.stringify] writes is a string of scalar values *)

Lemma scalar_cons_ascii (c : N) (s : jsstring) :
  (c < 128)%N → scalar_string s → scalar_string (c :: s).
Proof.
  intros Hc Hs. destruct (not_surrogate c) as [? ?]; [lia|].
  constructor; [lia|done..].
Qed.

Lemma hex_digit_ascii (n : N) : (n < 16)%N → (Json.hex_digit n < 128)%N.
Proof. intros Hn. unfold Json.hex_digit. destruct (N.ltb_spec n 10); lia. Qed.

Lemma unicode_escape_scalar (c : N) (s : jsstring) :
  (c < 65536)%N → scalar_string s → scalar_string (Json.unicode_escape c ++ s).
Proof.
  intros (H1 & H2 & H3 & H4 & _)%hex_parts Hs. unfold Json.unicode_escape.
  cbn [app]. repeat apply scalar_cons_ascii; try done; by apply hex_digit_ascii.
Qed.

Lemma short_escape_ascii (c e : N) : Json.short_escape c = Some e → (e < 128)%N.
Proof.
  unfold Json.short_escape.
  repeat match goal with
         | |- context [(c =? ?k)%N] => destruct (c =? k)%N; [by intros [= <-]|]
         end.
  done.
Qed.

Lemma quote_chars_scalar (s : jsstring) :
  Json.code_units s = true → scalar_string (Json.quote_chars s).
Proof.
  remember (length s) as n eqn:Hn. revert s Hn.
  induction n as [n IH] using lt_wf_ind. intros s -> Hs.
  destruct s as [|c s]; [constructor|].
  cbn [Json.code_units forallb] in Hs. apply andb_true_iff in Hs as [Hc Hs].
  apply N.ltb_lt in Hc.
  assert (IHs : scalar_string (Json.quote_chars s)).
  { apply (IH (length s)); [cbn; lia|done..]. }
  cbn [Json.quote_chars].
  destruct (Json.short_escape c) as [e|] eqn:He.
  { apply short_escape_ascii in He. by repeat apply scalar_cons_ascii. }
  destruct (N.ltb_spec c 32) as [H32|H32]; [by apply unicode_escape_scalar|].
  destruct (Json.is_high_surrogate c) eqn:Hhi.
  - destruct s as [|d s'].
    + rewrite <- (app_nil_r (Json.unicode_escape c)).
      apply unicode_escape_scalar; [done|constructor].
    + destruct (Json.is_low_surrogate d) eqn:Hlo;
        [|by apply unicode_escape_scalar].
      cbn [Json.code_units forallb] in Hs. apply andb_true_iff in Hs as [_ Hs].
      apply scalar_pair; [done..|].
      apply (IH (length s')); [cbn; lia|done..].
  - destruct (Json.is_low_surrogate c) eqn:Hlo;
      [by apply unicode_escape_scalar|].
    by constructor.
Qed.

Lemma quote_scalar (s : jsstring) (rest : jsstring) :
  Json.code_units s = true → scalar_string rest →
  scalar_string (Json.quote s ++ rest).
Proof.
  intros Hs Hrest. unfold Json.quote. cbn [app].
  apply scalar_cons_ascii; [done|]. rewrite <- app_assoc.
  apply scalar_string_app; [by apply quote_chars_scalar|].
  cbn [app]. by apply scalar_cons_ascii.
Qed.

Lemma number_char_ascii (c : N) : number_char c = true → (c < 128)%N.
Proof.
  unfold number_char. rewrite !orb_true_iff, is_digit_range, !N.eqb_eq. lia.
Qed.

Lemma spaces_scalar (indent rest : jsstring) :
  spaces indent → scalar_string rest → scalar_string (indent ++ rest).
Proof.
  intros Hi Hrest. apply scalar_string_app; [|done].
  apply scalar_string_ascii. eapply Forall_impl; [exact Hi|]. cbn. lia.
Qed.

(** No surrogate stands alone in the text of a value: those of its strings
    have been escaped. *)
Lemma print_scalar (v : Json.value) :
  Json.wf v = true →
  ∀ indent, spaces indent → scalar_string (Json.print indent v).
Proof.
  induction v as [|b|literal|s|items IH|members IH] using Json_value_ind;
    intros Hwf indent Hind.
  - by apply scalar_string_ascii; repeat constructor.
  - by destruct b; apply scalar_string_ascii; repeat constructor.
  - apply wf_Num, parse_number_chars in Hwf as (_ & Hchars & _).
    apply scalar_string_ascii. eapply Forall_impl; [exact Hchars|].
    apply number_char_ascii.
  - cbn [Json.print Json.wf] in *. rewrite <- (app_nil_r (Json.quote s)).
    apply quote_scalar; [done|constructor].
  - destruct items as [|x items];
      [by apply scalar_string_ascii; repeat constructor|].
    cbn [Json.wf forallb] in Hwf. apply andb_true_iff in Hwf as [Hwx Hwf].
    pose proof (proj1 (forallb_forall _ _) Hwf) as Hall.
    apply Forall_cons in IH as [IHx IH].
    rewrite print_Arr_cons.
    assert (Hinner : spaces (indent ++ [32; 32]%N)) by by apply spaces_inner.
    set (inner := (indent ++ [32; 32]%N)) in *. clearbody inner.
    do 2 (apply scalar_cons_ascii; [done|]).
    apply spaces_scalar; [done|].
    apply scalar_string_app; [by apply IHx|].
    apply scalar_string_app.
    + apply scalar_string_concat, Forall_forall. intros t Ht.
      apply list_elem_of_In, in_map_iff in Ht as (y & <- & Hy).
      do 2 (apply scalar_cons_ascii; [done|]).
      apply spaces_scalar; [done|].
      rewrite Forall_forall in IH.
      apply IH; [by apply list_elem_of_In|by apply Hall|done].
    + apply scalar_cons_ascii; [done|]. apply spaces_scalar; [done|].
      by apply scalar_string_ascii; repeat constructor.
  - destruct members as [|m members];
      [by apply scalar_string_ascii; repeat constructor|].
    cbn [Json.wf forallb] in Hwf. apply andb_true_iff in Hwf as [Hwm Hwf].
    apply andb_true_iff in Hwm as [Hk Hwm].
    pose proof (proj1 (forallb_forall _ _) Hwf) as Hall.
    apply Forall_cons in IH as [IHm IH].
    rewrite print_Obj_cons.
    assert (Hinner : spaces (indent ++ [32; 32]%N)) by by apply spaces_inner.
    set (inner := (indent ++ [32; 32]%N)) in *. clearbody inner.
    do 2 (apply scalar_cons_ascii; [done|]).
    apply spaces_scalar; [done|].
    apply quote_scalar; [done|].
    do 2 (apply scalar_cons_ascii; [done|]).
    apply scalar_string_app; [by apply IHm|].
    apply scalar_string_app.
    + apply scalar_string_concat, Forall_forall. intros t Ht.
      apply list_elem_of_In, in_map_iff in Ht as (y & <- & Hy).
      pose proof (Hall y Hy) as Hwy. apply andb_true_iff in Hwy as [Hky Hwy].
      do 2 (apply scalar_cons_ascii; [done|]).
      apply spaces_scalar; [done|].
      apply quote_scalar; [done|].
      do 2 (apply scalar_cons_ascii; [done|]).
      rewrite Forall_forall in IH.
      apply IH; [by apply list_elem_of_In|done..].
    + apply scalar_cons_ascii; [done|]. apply spaces_scalar; [done|].
      by apply scalar_string_ascii; repeat constructor.
Qed.

Lemma starts_value_ascii (c : N) : starts_value c → (c < 128)%N.
Proof. unfold starts_value. rewrite is_digit_range. lia. Qed.

(** The bytes of the text of a value are read back as the text. *)
Lemma decode_encode_stringify (v : Json.value) :
  Json.wf v = true →
  Utf8.decode (Utf8.encode (Json.stringify v)) = Json.stringify v.
Proof.
  intros Hwf. unfold Json.stringify.
  pose proof (print_scalar v Hwf [] ltac:(constructor)) as Hs.
  destruct (print_head [] v Hwf) as (c & s & Hc & Hsv).
  rewrite Hc in *. apply decode_encode; [by apply starts_value_ascii|done].
Qed.

(* ================================================================== *)
(** * The backup codec *)
(* ================================================================== *)

Lemma put_each_typed {T} (put : T → World → World) (l : list T) (w : World) :
  Backup.put_each put (Backup.typed <$> l) w
  = Some (Returned tt, foldl (λ acc x, put x acc) w l).
Proof.
  revert w. induction l as [|x l IH]; intros w; [done|].
  cbn [fmap list_fmap Backup.put_each foldl].
  unfold pbind, total at 1, modify. apply IH.
Qed.

(** On a bundle of the declared type, the import of the parsed value is the
    import of the bundle. *)
Lemma dbImportBundle_of_bundle (bundle : ExportBundleV1.t) (w : World) :
  Backup.dbImportBundle (Backup.of_bundle bundle) w
  = Some (LocalDb.dbImportBundle bundle w).
Proof.
  unfold Backup.of_bundle, LocalDb.dbImportBundle.
  destruct (decide (ExportBundleV1.app bundle = js "agent-group"
                    ∧ ExportBundleV1.version bundle = 1%Z)) as [Hok|Hno].
  - rewrite bool_decide_eq_true_2 by done.
    rewrite bool_decide_eq_false_2 by tauto.
    unfold Backup.dbImportBundle, pbind, total at 1, modify at 1.
    cbn [Backup.agents Backup.sessions Backup.put_all].
    rewrite put_each_typed, put_each_typed. unfold modify. do 2 f_equal.
    generalize (ExportBundleV1.sessions bundle) as ses.
    generalize (ExportBundleV1.agents bundle) as ags. intros ags ses.
    assert (∀ w0, foldl (λ acc a, set_agents (insert (Agent.name a) a) acc) w0 ags
                  = set_agents (ObjectStore.putAll Agent.name ags) w0) as Ha.
    { induction ags as [|x xs IH]; intros w0; [by destruct w0|].
      cbn. rewrite IH. by destruct w0. }
    assert (∀ w0, foldl (λ acc s, set_sessions (insert (StoredSession.id s) s) acc)
                    w0 ses
                  = set_sessions (ObjectStore.putAll StoredSession.id ses) w0) as Hs.
    { induction ses as [|x xs IH]; intros w0; [by destruct w0|].
      cbn. rewrite IH. by destruct w0. }
    by rewrite Ha, Hs.
  - rewrite bool_decide_eq_false_2 by done.
    rewrite bool_decide_eq_true_2; [done|].
    destruct (decide (ExportBundleV1.app bundle = js "agent-group")); [|tauto].
    destruct (decide (ExportBundleV1.version bundle = 1%Z)); tauto.
Qed.

(** The text [JSON.stringify] writes for a bundle is parsed as the bundle,
    and its bytes are read back as the text. *)
Lemma browser_codec_faithful zipSync unzipSync (bundle : ExportBundleV1.t) :
  Json.wf (Backup.bundle_json bundle) = true →
  let codec := Backup.browser zipSync unzipSync in
  Backup.JSON_parse codec (Backup.JSON_stringify codec bundle)
  = Some (Backup.of_bundle bundle)
  ∧ Backup.strFromU8 codec (Backup.strToU8 codec (Backup.JSON_stringify codec bundle))
    = Backup.JSON_stringify codec bundle.
Proof.
  intros Hwf codec. unfold codec, Backup.browser.
  cbn [Backup.JSON_parse Backup.JSON_stringify Backup.strFromU8 Backup.strToU8].
  rewrite parse_stringify by done. cbn [fmap option_fmap option_map].
  rewrite view_bundle_json. split; [done|].
  by apply decode_encode_stringify.
Qed.

(** [importFromFile] throws with the store as it was when it does not come
    to a parsed value; else it imports that value and returns it. *)
Lemma importFromFile_eq (codec : Backup.Codec) (file : Backup.File) (w : World) :
  match file_value codec file with
  | Some parsed =>
      Backup.importFromFile codec file w
      = pbind (Backup.dbImportBundle parsed) (λ _, total (ret parsed)) w
  | None => ∃ e, Backup.importFromFile codec file w = Some (Threw e, w)
  end.
Proof.
  assert (Htext : ∀ text,
    match Backup.JSON_parse codec text with
    | Some parsed =>
        Backup.import_text codec text w
        = pbind (Backup.dbImportBundle parsed) (λ _, total (ret parsed)) w
    | None => ∃ e, Backup.import_text codec text w = Some (Threw e, w)
    end).
  { intros text. unfold Backup.import_text, Backup.parse, pbind at 1, total at 1.
    destruct (Backup.JSON_parse codec text); [done|by eexists]. }
  unfold file_value, Backup.importFromFile, Backup.importFromJson,
    Backup.importFromZip.
  destruct (Js.ends_with _ _); [apply Htext|].
  destruct (Backup.unzipSync codec _) as [files|]; cbn; [|by eexists].
  destruct (Backup.pickExportJson files) as [jsonFile|]; cbn; [|by eexists].
  apply Htext.
Qed.



(* ================================================================== *)
(** * Further properties of the store *)
(* ================================================================== *)

(** ** Keys of the object stores *)

Lemma keyed_insert {V} (key : V → jsstring) (m : gmap jsstring V) (v : V) :
  keyed key m → keyed key (<[key v := v]> m).
Proof. intros Hm. by apply map_Forall_insert_2. Qed.

Lemma keyed_putAll {V} (key : V → jsstring) (vs : list V) (m : gmap jsstring V) :
  keyed key m → keyed key (ObjectStore.putAll key vs m).
Proof.
  revert m. induction vs as [|v vs IH]; intros m Hm; [done|].
  unfold ObjectStore.putAll. cbn [foldl]. apply IH. by apply keyed_insert.
Qed.

Lemma keyed_empty {V} (key : V → jsstring) : keyed key (∅ : gmap jsstring V).
Proof. apply map_Forall_empty. Qed.

Lemma keyed_getAll_keys {V} (key : V → jsstring) (m : gmap jsstring V) :
  keyed key m → key <$> (map_to_list m).*2 = (map_to_list m).*1.
Proof.
  intros Hm. rewrite <- list_fmap_compose. apply list_fmap_ext.
  intros i [k v] Hi. cbn. apply (Hm k v).
  apply elem_of_map_to_list. apply list_elem_of_lookup. eauto.
Qed.

(** The records of a keyed store have pairwise distinct keys. *)
Lemma keyed_getAll_NoDup {V} (key : V → jsstring) (m : gmap jsstring V) :
  keyed key m → NoDup (key <$> ObjectStore.getAll m).
Proof.
  intros Hm. rewrite getAll_Permutation, keyed_getAll_keys by done.
  apply NoDup_fst_map_to_list.
Qed.

Lemma elem_of_latest {V} (key : V → jsstring) k (vs : list V) (v : V) :
  latest key k vs = Some v → v ∈ vs ∧ key v = k.
Proof.
  unfold latest. intros Hl.
  assert (v ∈ filter (λ x, key x = k) vs) as Hin.
  { apply list_elem_of_lookup. exists (pred (length (filter (λ x, key x = k) vs))).
    by rewrite <- last_lookup. }
  apply list_elem_of_filter in Hin. tauto.
Qed.

(** Putting back what [getAll] listed rebuilds a keyed store. *)
Lemma putAll_getAll {V} (key : V → jsstring) (m : gmap jsstring V) :
  keyed key m → ObjectStore.putAll key (ObjectStore.getAll m) ∅ = m.
Proof.
  intros Hm. apply map_eq. intros k. rewrite putAll_lookup, lookup_empty.
  destruct (latest key k (ObjectStore.getAll m)) as [v|] eqn:Hl.
  - apply elem_of_latest in Hl as [[k' Hk']%elem_of_getAll Hkey].
    rewrite <- Hkey, (Hm k' v Hk'). by rewrite Hk'.
  - apply latest_None in Hl. destruct (m !! k) as [v|] eqn:Hk; [|done].
    destruct Hl. rewrite <- (Hm k v Hk). apply list_elem_of_fmap_2.
    apply elem_of_getAll. eauto.
Qed.

(** ** Messages of a stored session *)

Lemma findIndex_inv {A} (P : A → Prop) `{∀ x, Decision (P x)} (l : list A) k :
  Js.findIndex P l = Some k →
  ∃ x, l !! k = Some x ∧ P x ∧ ∀ j y, l !! j = Some y → j < k → ¬ P y.
Proof.
  unfold Js.findIndex. destruct (list_find P l) as [[i x]|] eqn:E; [|done].
  intros [= <-]. apply list_find_Some in E. eauto.
Qed.

Lemma findIndex_None_inv {A} (P : A → Prop) `{∀ x, Decision (P x)} (l : list A) :
  Js.findIndex P l = None → Forall (λ x, ¬ P x) l.
Proof.
  unfold Js.findIndex. destruct (list_find P l) as [[i x]|] eqn:E; [done|].
  intros _. by apply list_find_None in E.
Qed.

(** X1.  [dbAppendMessage] throws ["Session not found"] and writes nothing
    when the session is absent.  Otherwise it returns the id of the item, or
    an id drawn from [_newId] when the item's id is empty, and the session
    gains exactly one message, at the end: the item under that id, stamped
    with the clock reading that also becomes [updated_at]. *)
Theorem dbAppendMessage_appends_at_end env (sid : jsstring)
    (item : TranscriptItem.t) (w : World) :
  (sessions w !! sid = None →
     LocalDb.dbAppendMessage env sid item w
     = (Threw (Js.Error (js "Session not found")), w))
  ∧ (∀ s, sessions w !! sid = Some s → StoredSession.id s = sid →
       let i := match TranscriptItem.id item with
                | [] => randomUUID env (draws w)
                | x => x
                end in
       let t := Date_now env (ticks w) in
       ∃ s' w',
         LocalDb.dbAppendMessage env sid item w = (Returned i, w')
         ∧ sessions w' = <[sid := s']> (sessions w)
         ∧ agents w' = agents w
         ∧ StoredSession.messages s'
           = StoredSession.messages s
             ++ [LocalDb._toStoredMessage (TranscriptItem.with_id item i) t]
         ∧ StoredSession.updated_at s' = t
         ∧ (StoredSession.id s', StoredSession.name s',
            StoredSession.global_prompt s', StoredSession.created_at s')
           = (sid, StoredSession.name s, StoredSession.global_prompt s,
              StoredSession.created_at s)
         ∧ (TranscriptItem.id item ≠ [] → draws w' = draws w)).
Proof.
  split.
  - apply dbAppendMessage_missing.
  - intros s Hs Hkey i t. subst i t.
    unfold LocalDb.dbAppendMessage. run. rewrite Hs.
    destruct (TranscriptItem.id item) as [|c x] eqn:Hid; run;
      unfold LocalDb.touch; cbn; rewrite Hkey;
      eexists _, _; (split; [reflexivity|]); cbn; repeat split; done.
Qed.

(** X2.  [dbUpsertMessage] throws and writes nothing when the session is
    absent.  When a message of the session carries the item's id, the first
    such message is replaced where it stands by the item, with the
    [created_at] it had; the other messages and the length of the list stay.
    When none does, the item is appended with the clock reading as its
    [created_at]. *)
Theorem dbUpsertMessage_replaces_in_place env (sid : jsstring)
    (item : TranscriptItem.t) (w : World) :
  (sessions w !! sid = None →
     LocalDb.dbUpsertMessage env sid item w
     = (Threw (Js.Error (js "Session not found")), w))
  ∧ (∀ s k m, sessions w !! sid = Some s → StoredSession.id s = sid →
       StoredSession.messages s !! k = Some m →
       StoredMessage.id m = TranscriptItem.id item →
       (∀ j m', StoredSession.messages s !! j = Some m' → j < k →
                StoredMessage.id m' ≠ TranscriptItem.id item) →
       ∃ s' w',
         LocalDb.dbUpsertMessage env sid item w = (Returned tt, w')
         ∧ sessions w' = <[sid := s']> (sessions w)
         ∧ StoredSession.messages s'
           = <[k := LocalDb._toStoredMessage item (StoredMessage.created_at m)]>
               (StoredSession.messages s)
         ∧ length (StoredSession.messages s') = length (StoredSession.messages s)
         ∧ (∀ j, j ≠ k →
              StoredSession.messages s' !! j = StoredSession.messages s !! j)
         ∧ StoredSession.updated_at s' = Date_now env (ticks w)
         ∧ StoredSession.created_at s' = StoredSession.created_at s)
  ∧ (∀ s, sessions w !! sid = Some s → StoredSession.id s = sid →
       TranscriptItem.id item ∉ message_ids s →
       ∃ s' w',
         LocalDb.dbUpsertMessage env sid item w = (Returned tt, w')
         ∧ sessions w' = <[sid := s']> (sessions w)
         ∧ StoredSession.messages s'
           = StoredSession.messages s
             ++ [LocalDb._toStoredMessage item (Date_now env (ticks w))]
         ∧ StoredSession.updated_at s' = Date_now env (S (ticks w))
         ∧ StoredSession.created_at s' = StoredSession.created_at s).
Proof.
  split; [|split].
  - intros Hs. unfold LocalDb.dbUpsertMessage. run. by rewrite Hs.
  - intros s k m Hs Hkey Hk Hm Hfirst.
    unfold LocalDb.dbUpsertMessage. run. rewrite Hs.
    rewrite (findIndex_Some _ _ k m Hk Hm Hfirst). run.
    unfold LocalDb.touch. cbn. rewrite Hk, Hkey. cbn.
    eexists _, _. split; [reflexivity|]. cbn. repeat split.
    + apply length_insert.
    + intros j Hj. by apply list_lookup_insert_ne.
  - intros s Hs Hkey Hnew.
    unfold LocalDb.dbUpsertMessage. run. rewrite Hs.
    rewrite findIndex_None by (by apply not_in_message_ids). run.
    unfold LocalDb.touch. cbn. rewrite Hkey.
    eexists _, _. split; [reflexivity|]. cbn. repeat split.
Qed.

Lemma dbUpsertMessage_replaces_in_place_witness :
  sessions Demo.w4 !! js "uuid-00" = Some Demo.topic
  ∧ StoredSession.id Demo.topic = js "uuid-00"
  ∧ StoredSession.messages Demo.topic !! 1
    = Some (LocalDb._toStoredMessage Demo.reply 1700000000500%Z)
  ∧ ∃ s' w',
      LocalDb.dbUpsertMessage Demo.env (js "uuid-00")
        (TranscriptItem.Agent (js "m-reply") (js "Bot") (js "hi again") None None)
        Demo.w4
      = (Returned tt, w')
      ∧ sessions w' = <[js "uuid-00" := s']> (sessions Demo.w4)
      ∧ length (StoredSession.messages s') = length (StoredSession.messages Demo.topic).
Proof.
  assert (H1 : sessions Demo.w4 !! js "uuid-00" = Some Demo.topic)
    by (vm_compute; reflexivity).
  assert (H2 : StoredSession.id Demo.topic = js "uuid-00")
    by (vm_compute; reflexivity).
  assert (H3 : StoredSession.messages Demo.topic !! 1
               = Some (LocalDb._toStoredMessage Demo.reply 1700000000500%Z))
    by (vm_compute; reflexivity).
  do 3 (split; [assumption|]).
  destruct (dbUpsertMessage_replaces_in_place Demo.env (js "uuid-00")
              (TranscriptItem.Agent (js "m-reply") (js "Bot") (js "hi again")
                 None None) Demo.w4) as (_ & Hrep & _).
  destruct (Hrep Demo.topic 1 _ H1 H2 H3 eq_refl) as
    (s' & w' & Hrun & Hst & _ & Hlen & _).
  { assert (Hnd : NoDup (message_ids Demo.topic))
      by (apply (bool_decide_eq_true_1 _); vm_compute; reflexivity).
    exact (located_of_NoDup Demo.topic 1 _ Hnd H3). }
  exists s', w'. auto.
Defined.

(** X3.  [dbUpdateMessageContent] answers [false] and writes nothing when
    the session is absent or no message carries the id.  Otherwise it answers
    [true] and the first message carrying the id has the new content and is
    otherwise as it was (kind, id, speaker, images, [created_at]); every other
    message stays, and so does the length of the list. *)
Theorem dbUpdateMessageContent_edits_one env (sid mid content : jsstring)
    (w : World) :
  (sessions w !! sid = None →
     LocalDb.dbUpdateMessageContent env sid mid content w = (Returned false, w))
  ∧ (∀ s, sessions w !! sid = Some s → mid ∉ message_ids s →
       LocalDb.dbUpdateMessageContent env sid mid content w = (Returned false, w))
  ∧ (∀ s k m, sessions w !! sid = Some s → StoredSession.id s = sid →
       StoredSession.messages s !! k = Some m → StoredMessage.id m = mid →
       (∀ j m', StoredSession.messages s !! j = Some m' → j < k →
                StoredMessage.id m' ≠ mid) →
       ∃ s' w',
         LocalDb.dbUpdateMessageContent env sid mid content w = (Returned true, w')
         ∧ sessions w' = <[sid := s']> (sessions w)
         ∧ StoredSession.messages s'
           = <[k := StoredMessage.with_content m content]> (StoredSession.messages s)
         ∧ StoredMessage.content (StoredMessage.with_content m content) = content
         ∧ (StoredMessage.id (StoredMessage.with_content m content),
            StoredMessage.kind (StoredMessage.with_content m content),
            StoredMessage.created_at (StoredMessage.with_content m content))
           = (mid, StoredMessage.kind m, StoredMessage.created_at m)
         ∧ (∀ j, j ≠ k →
              StoredSession.messages s' !! j = StoredSession.messages s !! j)
         ∧ length (StoredSession.messages s') = length (StoredSession.messages s)
         ∧ StoredSession.updated_at s' = Date_now env (ticks w)).
Proof.
  split; [|split].
  - intros Hs. unfold LocalDb.dbUpdateMessageContent. run. by rewrite Hs.
  - intros s Hs Hmid. unfold LocalDb.dbUpdateMessageContent. run. rewrite Hs.
    assert (list_find (λ m, StoredMessage.id m = mid) (StoredSession.messages s)
            = None) as ->; [|done].
    apply list_find_None. by apply not_in_message_ids.
  - intros s k m Hs Hkey Hk Hm Hfirst.
    unfold LocalDb.dbUpdateMessageContent. run. rewrite Hs.
    assert (list_find (λ m, StoredMessage.id m = mid) (StoredSession.messages s)
            = Some (k, m)) as -> by (apply list_find_Some; auto).
    unfold LocalDb.touch. cbn. rewrite Hkey.
    eexists _, _. split; [reflexivity|]. cbn. repeat split.
    + by destruct m.
    + destruct m; cbn in *; by rewrite Hm.
    + intros j Hj. by apply list_lookup_insert_ne.
    + apply length_insert.
Qed.

Lemma dbUpdateMessageContent_edits_one_witness :
  sessions Demo.w4 !! js "uuid-00" = Some Demo.topic
  ∧ StoredSession.id Demo.topic = js "uuid-00"
  ∧ StoredSession.messages Demo.topic !! 1
    = Some (LocalDb._toStoredMessage Demo.reply 1700000000500%Z)
  ∧ (∃ s' w',
       LocalDb.dbUpdateMessageContent Demo.env (js "uuid-00") (js "m-reply")
         (js "hello there") Demo.w4
       = (Returned true, w')
       ∧ sessions w' !! js "uuid-00" = Some s'
       ∧ StoredSession.messages s'
         = [LocalDb._toStoredMessage Demo.hello 1700000000250%Z;
            StoredMessage.Agent (js "m-reply") (js "Bot") (js "hello there") None
              1700000000500%Z;
            LocalDb._toStoredMessage Demo.thanks 1700000000750%Z]
       ∧ StoredSession.updated_at s' = 1700000001000%Z)
  ∧ (js "m-none" ∉ message_ids Demo.topic)
  ∧ LocalDb.dbUpdateMessageContent Demo.env (js "uuid-00") (js "m-none") (js "x")
      Demo.w4
    = (Returned false, Demo.w4).
Proof.
  assert (H1 : sessions Demo.w4 !! js "uuid-00" = Some Demo.topic)
    by (vm_compute; reflexivity).
  assert (H2 : StoredSession.id Demo.topic = js "uuid-00")
    by (vm_compute; reflexivity).
  assert (H3 : StoredSession.messages Demo.topic !! 1
               = Some (LocalDb._toStoredMessage Demo.reply 1700000000500%Z))
    by (vm_compute; reflexivity).
  assert (H4 : js "m-none" ∉ message_ids Demo.topic)
    by (apply (bool_decide_eq_true_1 _); vm_compute; reflexivity).
  do 3 (split; [assumption|]).
  destruct (dbUpdateMessageContent_edits_one Demo.env (js "uuid-00") (js "m-reply")
              (js "hello there") Demo.w4) as (_ & _ & Hedit).
  destruct (Hedit Demo.topic 1 _ H1 H2 H3 eq_refl)
    as (s' & w' & Hrun & Hst & Hmsgs & _ & _ & _ & _ & Hupd).
  { assert (Hnd : NoDup (message_ids Demo.topic))
      by (apply (bool_decide_eq_true_1 _); vm_compute; reflexivity).
    exact (located_of_NoDup Demo.topic 1 _ Hnd H3). }
  split.
  - exists s', w'. split; [exact Hrun|]. split; [rewrite Hst; apply lookup_insert_eq|].
    split; [rewrite Hmsgs; vm_compute; reflexivity|].
    rewrite Hupd. vm_compute. reflexivity.
  - split; [assumption|].
    destruct (dbUpdateMessageContent_edits_one Demo.env (js "uuid-00") (js "m-none")
                (js "x") Demo.w4) as (_ & Hnone & _).
    exact (Hnone Demo.topic H1 H4).
Defined.

(** X4.  [dbUpdateSession] on an id that is not stored returns without
    writing anything.  On a stored session it replaces the name and the
    global prompt that are given, keeps the ones that are not, keeps the id,
    [created_at] and the messages, and sets [updated_at] to the clock reading. *)
Theorem dbUpdateSession_partial env (sid : jsstring)
    (name global_prompt : option jsstring) (w : World) :
  (sessions w !! sid = None →
     LocalDb.dbUpdateSession env sid name global_prompt w = (Returned tt, w))
  ∧ (∀ s, sessions w !! sid = Some s → StoredSession.id s = sid →
       ∃ s' w',
         LocalDb.dbUpdateSession env sid name global_prompt w = (Returned tt, w')
         ∧ sessions w' = <[sid := s']> (sessions w)
         ∧ StoredSession.name s' = default (StoredSession.name s) name
         ∧ StoredSession.global_prompt s'
           = default (StoredSession.global_prompt s) global_prompt
         ∧ StoredSession.messages s' = StoredSession.messages s
         ∧ StoredSession.created_at s' = StoredSession.created_at s
         ∧ StoredSession.updated_at s' = Date_now env (ticks w)
         ∧ ∀ i, i ≠ sid → sessions w' !! i = sessions w !! i).
Proof.
  split.
  - intros Hs. unfold LocalDb.dbUpdateSession. run. by rewrite Hs.
  - intros s Hs Hkey. unfold LocalDb.dbUpdateSession. run. rewrite Hs.
    cbn. rewrite Hkey. eexists _, _. split; [reflexivity|]. cbn.
    repeat split; try (by destruct name); try (by destruct global_prompt).
    intros i Hi. by rewrite lookup_insert_ne.
Qed.

(** ** Reading back what was stored *)

Lemma toTranscript_toStoredMessage (item : TranscriptItem.t) (t : Z) :
  LocalDb._toTranscript [LocalDb._toStoredMessage item t] = [without_streaming item].
Proof. by destruct item. Qed.

Lemma toTranscript_app (l1 l2 : list StoredMessage.t) :
  LocalDb._toTranscript (l1 ++ l2) = LocalDb._toTranscript l1 ++ LocalDb._toTranscript l2.
Proof. unfold LocalDb._toTranscript. apply fmap_app. Qed.

(** X5.  [dbGetSessionDetail] answers [null] exactly for an id that is not
    stored.  After [dbAppendMessage] has returned the id [i], it answers the
    session's summary with one message more, and a history that is the
    earlier history followed by the appended item under the id [i], as it was
    given but without [isStreaming], which is not stored. *)
Theorem append_then_read_back env (sid : jsstring) (item : TranscriptItem.t)
    (w : World) :
  (sessions w !! sid = None ↔
     LocalDb.dbGetSessionDetail sid w = (Returned None, w))
  ∧ (∀ s i w', sessions w !! sid = Some s → StoredSession.id s = sid →
       LocalDb.dbAppendMessage env sid item w = (Returned i, w') →
       ∃ d,
         LocalDb.dbGetSessionDetail sid w' = (Returned (Some d), w')
         ∧ SessionDetail.history d
           = LocalDb._toTranscript (StoredSession.messages s)
             ++ [without_streaming (TranscriptItem.with_id item i)]
         ∧ SessionSummary.message_count (SessionDetail.summary d)
           = S (length (StoredSession.messages s))
         ∧ length (SessionDetail.history d)
           = SessionSummary.message_count (SessionDetail.summary d)
         ∧ SessionSummary.id (SessionDetail.summary d) = sid).
Proof.
  split.
  - unfold LocalDb.dbGetSessionDetail. run.
    destruct (sessions w !! sid); split; intros; done.
  - intros s i w' Hs Hkey Hrun.
    destruct (dbAppendMessage_found env sid item w s Hs) as [i' Hrun'].
    rewrite Hrun' in Hrun. injection Hrun as <- <-.
    unfold LocalDb.dbGetSessionDetail. run. cbn [sessions].
    rewrite Hkey, lookup_insert_eq. eexists. split; [reflexivity|].
    unfold LocalDb.touch. cbn.
    rewrite toTranscript_app, toTranscript_toStoredMessage.
    repeat split.
    + rewrite length_app. cbn. lia.
    + rewrite !length_app. unfold LocalDb._toTranscript.
      rewrite length_fmap. done.
    + done.
Qed.

Lemma append_then_read_back_witness :
  sessions Demo.w3 !! js "uuid-00" = Some (default Demo.topic (sessions Demo.w3 !! js "uuid-00"))
  ∧ LocalDb.dbAppendMessage Demo.env (js "uuid-00") Demo.thanks Demo.w3
    = (Returned (js "m-thanks"), Demo.w4)
  ∧ ∃ d,
      LocalDb.dbGetSessionDetail (js "uuid-00") Demo.w4 = (Returned (Some d), Demo.w4)
      ∧ length (SessionDetail.history d) = 3.
Proof.
  assert (H1 : sessions Demo.w3 !! js "uuid-00"
               = Some (default Demo.topic (sessions Demo.w3 !! js "uuid-00")))
    by (vm_compute; reflexivity).
  assert (H2 : LocalDb.dbAppendMessage Demo.env (js "uuid-00") Demo.thanks Demo.w3
               = (Returned (js "m-thanks"), Demo.w4))
    by (vm_compute; reflexivity).
  do 2 (split; [assumption|]).
  destruct (append_then_read_back Demo.env (js "uuid-00") Demo.thanks Demo.w3)
    as [_ Hread].
  destruct (Hread _ _ _ H1 ltac:(vm_compute; reflexivity) H2)
    as (d & Hd & _ & Hcount & Hlen & _).
  exists d. split; [exact Hd|]. rewrite Hlen, Hcount. vm_compute. reflexivity.
Defined.

(** ** The agents of the store *)

Lemma run_agent_op_keyed (op : AgentOp) (w : World) :
  keyed Agent.name (agents w) → keyed Agent.name (agents (run_agent_op op w)).
Proof.
  intros Hw. destruct op as [l|a|n|b]; cbn.
  - apply keyed_putAll, keyed_empty.
  - by apply keyed_insert.
  - by apply map_Forall_delete.
  - unfold LocalDb.dbImportBundle. case_bool_decide; cbn; [done|].
    apply keyed_putAll, keyed_empty.
Qed.

(** X6.  Whatever sequence of [dbSetAgents], [dbUpsertAgent], [dbDeleteAgent]
    and [dbImportBundle] an install has run, [dbGetAgents] lists agents with
    pairwise distinct names.  [dbUpsertAgent] makes its agent the one listed
    under its name and leaves the agents of other names as they were;
    [dbDeleteAgent] leaves none under the name, and on a name that is not
    stored changes nothing. *)
Theorem agent_names_stay_unique (ops : list AgentOp) :
  let w := foldl (λ acc op, run_agent_op op acc) empty_world ops in
  NoDup (Agent.name <$> ObjectStore.getAll (agents w))
  ∧ (∀ a,
       let w' := (LocalDb.dbUpsertAgent a w).2 in
       a ∈ ObjectStore.getAll (agents w')
       ∧ (∀ b, b ∈ ObjectStore.getAll (agents w') →
               Agent.name b = Agent.name a → b = a)
       ∧ (∀ b, Agent.name b ≠ Agent.name a →
               (b ∈ ObjectStore.getAll (agents w')
                ↔ b ∈ ObjectStore.getAll (agents w))))
  ∧ (∀ n,
       let w' := (LocalDb.dbDeleteAgent n w).2 in
       (n ∉ (Agent.name <$> ObjectStore.getAll (agents w')))
       ∧ ((n ∉ (Agent.name <$> ObjectStore.getAll (agents w))) → agents w' = agents w)).
Proof.
  intros w.
  assert (Hk : keyed Agent.name (agents w)).
  { subst w. generalize (keyed_empty Agent.name : keyed Agent.name (agents empty_world)).
    generalize empty_world.
    induction ops as [|op ops IH]; intros w0 Hw0; [done|].
    cbn. apply IH. by apply run_agent_op_keyed. }
  split; [by apply keyed_getAll_NoDup|]. split.
  - intros a w'. subst w'. cbn. split; [|split].
    + apply elem_of_getAll. exists (Agent.name a). apply lookup_insert_eq.
    + intros b [k Hb]%elem_of_getAll Hname.
      destruct (decide (k = Agent.name a)) as [->|Hne].
      * rewrite lookup_insert_eq in Hb. by injection Hb.
      * rewrite lookup_insert_ne in Hb by done. destruct Hne.
        rewrite <- Hname. symmetry. by apply (Hk k b).
    + intros b Hname. rewrite !elem_of_getAll. split; intros [k Hb]; exists k.
      * destruct (decide (k = Agent.name a)) as [->|Hne].
        -- rewrite lookup_insert_eq in Hb. injection Hb as <-. done.
        -- by rewrite lookup_insert_ne in Hb.
      * rewrite lookup_insert_ne; [done|]. intros <-.
        apply Hname. by apply (Hk _ b).
  - intros n w'. subst w'. cbn. split.
    + intros [b [-> [k Hb]%elem_of_getAll]]%list_elem_of_fmap.
      apply lookup_delete_Some in Hb as [Hne Hb]. apply Hne.
      by apply (Hk k b).
    + intros Hn. apply delete_id.
      destruct (agents w !! n) as [b|] eqn:Hb; [|done].
      destruct Hn. rewrite <- (Hk n b Hb). apply list_elem_of_fmap_2.
      apply elem_of_getAll. eauto.
Qed.

(** Every operation on sessions stores a record under its own id. *)
Lemma run_op_keyed_sessions env (op : StoreOp) (w : World) :
  keyed StoredSession.id (sessions w) →
  keyed StoredSession.id (sessions (run_op env op w)).
Proof.
  intros Hw.
  destruct op as [n g|sid mid nm|sid item|sid item|sid mid c|sid mid|sid n g|sid];
    cbn [run_op].
  - unfold LocalDb.dbCreateSession. run. cbn.
    by apply (keyed_insert StoredSession.id _ (StoredSession.mk _ _ _ _ _ _ _)).
  - unfold LocalDb.dbForkSessionFromMessage. run.
    destruct (sessions w !! sid) as [s|] eqn:Hs; [|done].
    destruct (Js.findIndex _ _) as [idx|]; [|done].
    rewrite mapM_fresh_ids. cbn.
    by apply (keyed_insert StoredSession.id _ (StoredSession.mk _ _ _ _ _ _ _)).
  - unfold LocalDb.dbAppendMessage. run.
    destruct (sessions w !! sid) as [s|] eqn:Hs; [|done].
    destruct (TranscriptItem.id item); run; cbn;
      by apply (keyed_insert StoredSession.id _ (LocalDb.touch _ _ _)).
  - unfold LocalDb.dbUpsertMessage. run.
    destruct (sessions w !! sid) as [s|] eqn:Hs; [|done].
    destruct (Js.findIndex _ _) as [idx|]; run; cbn;
      by apply (keyed_insert StoredSession.id _ (LocalDb.touch _ _ _)).
  - unfold LocalDb.dbUpdateMessageContent. run.
    destruct (sessions w !! sid) as [s|] eqn:Hs; [|done].
    destruct (list_find _ _) as [[idx msg]|]; [|done]. cbn.
    by apply (keyed_insert StoredSession.id _ (LocalDb.touch _ _ _)).
  - unfold LocalDb.dbDeleteMessage. run.
    destruct (sessions w !! sid) as [s|] eqn:Hs; [|done].
    case_bool_decide; [done|]. cbn.
    by apply (keyed_insert StoredSession.id _ (LocalDb.touch _ _ _)).
  - unfold LocalDb.dbUpdateSession. run.
    destruct (sessions w !! sid) as [s|] eqn:Hs; [|done]. cbn.
    by apply (keyed_insert StoredSession.id _ (StoredSession.mk _ _ _ _ _ _ _)).
  - unfold LocalDb.dbDeleteSession. run. cbn. by apply map_Forall_delete.
Qed.

(** ** Export, import and creation *)

(** X7.  On a store whose records lie under their own keys, importing the
    bundle that [dbExportBundle] built gives back the agents and the sessions
    that were exported, whatever the store held at the time of the import;
    the export itself writes nothing, and the bundle carries the active
    session id it was given. *)
Theorem export_then_import_restores env (activeSessionId : option jsstring)
    (w w0 : World) :
  keyed Agent.name (agents w) → keyed StoredSession.id (sessions w) →
  ∃ bundle w1 w2,
    LocalDb.dbExportBundle env activeSessionId w = (Returned bundle, w1)
    ∧ agents w1 = agents w ∧ sessions w1 = sessions w
    ∧ ExportBundleV1.active_session_id bundle = activeSessionId
    ∧ LocalDb.dbImportBundle bundle w0 = (Returned tt, w2)
    ∧ agents w2 = agents w ∧ sessions w2 = sessions w.
Proof.
  intros Hag Hse. unfold LocalDb.dbExportBundle. run.
  eexists _, _, _. split; [reflexivity|]. cbn [agents sessions].
  do 3 (split; [reflexivity|]).
  rewrite dbImportBundle_accepts by reflexivity.
  split; [reflexivity|]. cbn [agents sessions ExportBundleV1.agents
                              ExportBundleV1.sessions].
  by rewrite !putAll_getAll.
Qed.

Lemma export_then_import_restores_witness :
  keyed Agent.name (agents Demo.w4) ∧ keyed StoredSession.id (sessions Demo.w4)
  ∧ ∃ bundle w1 w2,
      LocalDb.dbExportBundle Demo.env None Demo.w4 = (Returned bundle, w1)
      ∧ LocalDb.dbImportBundle bundle Demo.ordered = (Returned tt, w2)
      ∧ sessions w2 = sessions Demo.w4.
Proof.
  assert (H1 : keyed Agent.name (agents Demo.w4)) by apply keyed_empty.
  assert (H2 : keyed StoredSession.id (sessions Demo.w4)).
  { unfold Demo.w4, Demo.w3, Demo.w2, Demo.w1.
    repeat (apply (run_op_keyed_sessions Demo.env (AppendMessage _ _))).
    apply (run_op_keyed_sessions Demo.env (CreateSession _ _)).
    apply keyed_empty. }
  do 2 (split; [assumption|]).
  destruct (export_then_import_restores Demo.env None Demo.w4 Demo.ordered H1 H2)
    as (bundle & w1 & w2 & He & _ & _ & _ & Hi & _ & Hs).
  exists bundle, w1, w2. auto.
Defined.

(* ================================================================== *)
(** * Further properties of the hooks *)
(* ================================================================== *)

(** ** The sessions hook *)

Ltac run_hook :=
  unfold UseSessions.setSessions, UseSessions.setActiveSessionId,
    UseSessions.setActiveSessionIdState, UseSessions.setActiveSessionData,
    UseSessions.notify, UseSessions.lift;
  run.

Ltac hcbn :=
  cbn -[UseSessions.import_details LocalDb.dbListSessions ObjectStore.putAll
       ObjectStore.getAll].

Tactic Notation "hcbn" "in" hyp(H) :=
  cbn -[UseSessions.import_details LocalDb.dbListSessions ObjectStore.putAll
       ObjectStore.getAll] in H.

(** The legacy import reads the clock and draws ids; it writes no record. *)
Lemma import_message_same_store env d m w :
  same_store w (UseSessions.import_message env d m w).2.
Proof.
  unfold UseSessions.import_message, UseSessions.legacy_message_id.
  destruct (UseSessions.legacy_timestamp m), (UseSessions.detail_created_at d),
    (UseSessions.legacy_id m) as [[|]|];
    run; repeat case_bool_decide; by run.
Qed.

Lemma same_store_refl w : same_store w w.
Proof. done. Qed.

Lemma same_store_trans w1 w2 w3 :
  same_store w1 w2 → same_store w2 w3 → same_store w1 w3.
Proof. intros [? ?] [? ?]. split; congruence. Qed.

Lemma bind_same_store {A B} (c : M World A) (k : A → M World B) w :
  (∀ w0, same_store w0 (c w0).2) → (∀ a w0, same_store w0 (k a w0).2) →
  same_store w (bind c k w).2.
Proof.
  intros Hc Hk. unfold bind. specialize (Hc w).
  destruct (c w) as [[a|e] w1]; cbn in *; [|done].
  eapply same_store_trans; [exact Hc|apply Hk].
Qed.

Lemma now_same_store env w : same_store w (LocalDb.now env w).2.
Proof. done. Qed.

Lemma mapM_same_store {A B} (f : A → M World B) (l : list A) w :
  (∀ a w0, same_store w0 (f a w0).2) → same_store w (mapM f l w).2.
Proof.
  intros Hf. revert w. induction l as [|a l IH]; intros w; [done|].
  cbn [mapM]. apply bind_same_store; [apply Hf|].
  intros b w0. apply bind_same_store; [apply IH|done].
Qed.

Lemma import_detail_same_store env d w :
  same_store w (UseSessions.import_detail env d w).2.
Proof.
  unfold UseSessions.import_detail.
  apply bind_same_store;
    [intros w0; apply mapM_same_store, import_message_same_store|].
  intros msgs w0. apply bind_same_store; [by destruct (UseSessions.detail_created_at d)|].
  intros t w1. apply bind_same_store; [by destruct (UseSessions.detail_created_at d)|].
  done.
Qed.

Lemma import_details_same_store env l w :
  same_store w (UseSessions.import_details env l w).2.
Proof.
  revert w. induction l as [|[d| |e] l IH]; intros w; cbn [UseSessions.import_details];
    [done| |apply IH|done].
  apply bind_same_store; [apply import_detail_same_store|].
  intros s w0. apply bind_same_store; [apply IH|done].
Qed.

(** What [dbListSessions] answers: nothing only on an empty store, and on a
    keyed store a list in agreement with it. *)
Lemma dbListSessions_returns (w : World) :
  ∃ l, LocalDb.dbListSessions w = (Returned l, w)
       ∧ (l = [] → sessions w = ∅)
       ∧ (keyed StoredSession.id (sessions w) →
          ∀ a d ls n, listed_in_sync (UseSessions.mkState w l a d ls n)).
Proof.
  unfold LocalDb.dbListSessions. run. eexists. split; [reflexivity|]. split.
  - intros Hnil. apply fmap_nil_inv in Hnil.
    apply map_to_list_empty_iff, fmap_nil_inv with (f := snd).
    apply Permutation_nil_r. rewrite <- getAll_Permutation.
    by rewrite <- (sort_Permutation
                     (λ a b, (StoredSession.created_at b
                              - StoredSession.created_at a)%Z)), Hnil.
  - intros Hk a d ls n.
    split; cbn [UseSessions.sessionList UseSessions.world].
    + intros s [stored [-> Hin]]%list_elem_of_fmap.
      rewrite sort_Permutation in Hin. apply elem_of_getAll in Hin as [k Hin].
      exists stored. cbn. by rewrite (Hk k stored Hin).
    + intros k [stored Hin]. rewrite <- list_fmap_compose.
      apply list_elem_of_fmap. exists stored.
      split; [cbn; symmetry; by apply (Hk k)|].
      rewrite sort_Permutation. apply elem_of_getAll. eauto.
Qed.

Lemma listed_in_sync_ext (st st' : UseSessions.State) :
  sessions (UseSessions.world st') = sessions (UseSessions.world st) →
  UseSessions.sessionList st' = UseSessions.sessionList st →
  listed_in_sync st → listed_in_sync st'.
Proof. unfold listed_in_sync. by intros -> ->. Qed.

(** [loadSessions] answers the list it hands to [setSessions]; it leaves the
    active session and the slot alone, writes nothing to a store that holds a
    session, and on a keyed store leaves a list in agreement with the store. *)
Lemma loadSessions_spec env legacy (st : UseSessions.State) :
  ∃ st',
    UseSessions.loadSessions env legacy st
    = (Returned (UseSessions.sessionList st'), st')
    ∧ UseSessions.activeSessionId st' = UseSessions.activeSessionId st
    ∧ UseSessions.activeSessionData st' = UseSessions.activeSessionData st
    ∧ UseSessions.localStorage st' = UseSessions.localStorage st
    ∧ UseSessions.notices st' = UseSessions.notices st
    ∧ agents (UseSessions.world st') = agents (UseSessions.world st)
    ∧ (sessions (UseSessions.world st) ≠ ∅ →
         sessions (UseSessions.world st') = sessions (UseSessions.world st))
    ∧ (keyed StoredSession.id (sessions (UseSessions.world st)) →
         listed_in_sync st'
         ∧ keyed StoredSession.id (sessions (UseSessions.world st'))).
Proof.
  destruct st as [w l0 a d ls n]. cbn [UseSessions.world] in *.
  destruct (dbListSessions_returns w) as (l & Hl & Hnil & Hsync).
  unfold UseSessions.loadSessions. run_hook. cbn [UseSessions.world]. rewrite Hl.
  destruct l as [|s l]; hcbn.
  2:{ eexists (UseSessions.mkState _ _ _ _ _ _); split; [reflexivity|]. hcbn.
      do 6 (split; [done|]). intros Hk. split; [by apply Hsync|done]. }
  specialize (Hnil eq_refl).
  destruct legacy as [[|r rs]|]; hcbn.
  1,3: eexists (UseSessions.mkState _ _ _ _ _ _); split; [reflexivity|]; hcbn;
       do 6 (split; [done|]); intros Hk; split; [by apply Hsync|done].
  pose proof (import_details_same_store env (r :: rs) w) as [Hag Hsame].
  destruct (UseSessions.import_details env (r :: rs) w) as [[imported|e] w1];
    hcbn in Hsame; hcbn in Hag; hcbn.
  2:{ eexists (UseSessions.mkState _ _ _ _ _ _); split; [reflexivity|]. hcbn.
      do 6 (split; [done|]). intros Hk. split; [|by rewrite Hsame].
      eapply listed_in_sync_ext; [| |by apply (Hsync Hk a d ls n)]; done. }
  destruct imported as [|i imported]; hcbn.
  { eexists (UseSessions.mkState _ _ _ _ _ _); split; [reflexivity|]. hcbn.
    do 6 (split; [done|]). intros Hk. split; [|by rewrite Hsame].
    eapply listed_in_sync_ext; [| |by apply (Hsync Hk a d ls n)]; done. }
  unfold LocalDb.dbSetSessions. run. hcbn.
  set (w2 := mkWorld _ _ _ _).
  assert (Hk2 : keyed StoredSession.id (sessions w2))
    by apply keyed_putAll, keyed_empty.
  destruct (dbListSessions_returns w2) as (l2 & Hl2 & _ & Hsync2).
  rewrite Hl2. eexists (UseSessions.mkState _ _ _ _ _ _); split; [reflexivity|].
  hcbn. do 5 (split; [done|]). split; [by intros []|].
  intros _. split; [by apply Hsync2|done].
Qed.

(** Storing a new session under an id that is not in use, and listing it
    first, keeps the list in agreement. *)
Lemma listed_in_sync_insert (w : World) l a d ls n a' d' ls' n' t dr
    (new : StoredSession.t) :
  sessions w !! StoredSession.id new = None →
  listed_in_sync (UseSessions.mkState w l a d ls n) →
  listed_in_sync
    (UseSessions.mkState
       (mkWorld (agents w) (<[StoredSession.id new := new]> (sessions w)) t dr)
       (LocalDb._toSessionSummary new :: l) a' d' ls' n').
Proof.
  intros Hfresh [Hl Hs]. split; cbn [UseSessions.sessionList UseSessions.world sessions] in *.
  - intros s [->|Hin]%elem_of_cons.
    + exists new. cbn. by rewrite lookup_insert_eq.
    + destruct (Hl s Hin) as (stored & Hst & ?). exists stored. split; [|done].
      rewrite lookup_insert_ne; [done|]. intros Heq. congruence.
  - intros k Hk. rewrite fmap_cons. apply elem_of_cons.
    destruct (decide (k = StoredSession.id new)) as [->|Hne]; [by left|right].
    rewrite lookup_insert_ne in Hk by done. by apply Hs.
Qed.

(** X8.  The list of the sidebar stays in agreement with the store.  On a
    keyed store, [loadSessions] leaves a list that agrees with the store
    whatever the list was; [createSession], [updateSession], [deleteSession],
    [forkSession], [loadSessionHistory] and [setActiveSessionId] keep it, provided the
    id that [createSession] or [forkSession] draws is not in use. *)
Theorem sessions_list_mirrors_store env (call : SessionsCall)
    (st : UseSessions.State) :
  keyed StoredSession.id (sessions (UseSessions.world st)) →
  reloads call ∨ listed_in_sync st →
  (draws_session_id call →
     sessions (UseSessions.world st)
       !! randomUUID env (draws (UseSessions.world st)) = None) →
  listed_in_sync (run_call env call st)
  ∧ keyed StoredSession.id (sessions (UseSessions.world (run_call env call st))).
Proof.
  intros Hk Hsync Hfresh.
  destruct call as [legacy| |s|id|mid name|sid|id]; cbn [run_call].
  - destruct (loadSessions_spec env legacy st) as (st' & -> & _ & _ & _ & _ & _ & _ & H).
    by apply H.
  - destruct Hsync as [[]|Hsync]. specialize (Hfresh I).
    destruct st as [w l a d ls n]. cbn [UseSessions.world] in *.
    unfold UseSessions.createSession, LocalDb.dbCreateSession. run_hook. hcbn.
    split.
    + by apply (listed_in_sync_insert w l a d ls n _ _ _ _ _ _
                  (StoredSession.mk _ _ _ _ _ _ _)).
    + by apply (keyed_insert StoredSession.id _ (StoredSession.mk _ _ _ _ _ _ _)).
  - destruct Hsync as [[]|Hsync].
    destruct st as [w l a d ls n]. cbn [UseSessions.world] in *.
    unfold UseSessions.updateSession, LocalDb.dbUpdateSession. run_hook. hcbn.
    destruct (sessions w !! SessionSummary.id s) as [stored|] eqn:Hst; hcbn.
    + pose proof (Hk _ _ Hst) as Hid. rewrite Hid.
      split; [|by apply (keyed_insert StoredSession.id _
                           (StoredSession.mk _ _ _ _ _ _ _))].
      destruct Hsync as [Hl Hs].
      split; cbn [UseSessions.sessionList UseSessions.world sessions] in *.
      * intros s' [s0 [-> Hin]]%list_elem_of_fmap.
        destruct (Hl s0 Hin) as (stored0 & Hst0 & Hn & Hg & Hc).
        case_bool_decide as Heq; cbn.
        -- rewrite Heq, lookup_insert_eq. eexists. split; [reflexivity|]. cbn.
           rewrite Heq, Hst in Hst0. injection Hst0 as <-. done.
        -- rewrite lookup_insert_ne by done. eauto.
      * intros k Hin. rewrite <- list_fmap_compose.
        assert (k ∈ SessionSummary.id <$> l) as [s0 [-> Hs0]]%list_elem_of_fmap.
        { apply Hs. destruct (decide (k = SessionSummary.id s)) as [->|Hne];
            [by eexists|by rewrite lookup_insert_ne in Hin]. }
        apply list_elem_of_fmap. exists s0. split; [|done].
        cbn. by case_bool_decide.
    + split; [|done]. destruct Hsync as [Hl Hs].
      split; cbn [UseSessions.sessionList UseSessions.world] in *.
      * intros s' [s0 [-> Hin]]%list_elem_of_fmap.
        destruct (Hl s0 Hin) as (stored0 & Hst0 & ?).
        case_bool_decide as Heq; [congruence|eauto].
      * intros k Hin. rewrite <- list_fmap_compose.
        apply Hs in Hin as [s0 [-> Hs0]]%list_elem_of_fmap.
        apply list_elem_of_fmap. exists s0. split; [|done].
        cbn. by case_bool_decide.
  - destruct Hsync as [[]|Hsync].
    destruct st as [w l a d ls n]. cbn [UseSessions.world] in *.
    unfold UseSessions.deleteSession, LocalDb.dbDeleteSession. run_hook. hcbn.
    split; [|by apply map_Forall_delete].
    destruct Hsync as [Hl Hs].
    split; cbn [UseSessions.sessionList UseSessions.world sessions] in *.
    + intros s [Hne Hin]%list_elem_of_filter.
      destruct (Hl s Hin) as (stored & ? & ?). exists stored.
      by rewrite lookup_delete_ne.
    + intros k [stored [Hne Hin]%lookup_delete_Some].
      assert (k ∈ SessionSummary.id <$> l) as [s0 [-> Hs0]]%list_elem_of_fmap
        by (apply Hs; by eexists).
      apply list_elem_of_fmap. exists s0. split; [done|].
      apply list_elem_of_filter. auto.
  - destruct Hsync as [[]|Hsync]. specialize (Hfresh I).
    destruct st as [w l a d ls n]. cbn [UseSessions.world] in *.
    unfold UseSessions.forkSession. run_hook. hcbn.
    destruct a as [[|c a]|]; hcbn; try done.
    unfold LocalDb.dbForkSessionFromMessage. run.
    destruct (sessions w !! (c :: a)) as [src|] eqn:Hsrc; hcbn; [|done].
    destruct (Js.findIndex _ _) as [idx|]; hcbn; [|done].
    rewrite mapM_fresh_ids. hcbn.
    split.
    + by apply (listed_in_sync_insert w l (Some (c :: a)) d ls n _ _ _ _ _ _
                  (StoredSession.mk _ _ _ _ _ _ _)).
    + by apply (keyed_insert StoredSession.id _ (StoredSession.mk _ _ _ _ _ _ _)).
  - destruct Hsync as [[]|Hsync].
    destruct st as [w l a d ls n]. cbn [UseSessions.world] in *.
    unfold UseSessions.loadSessionHistory, LocalDb.dbGetSessionDetail. run_hook.
    hcbn. destruct (sessions w !! sid); hcbn; done.
  - destruct Hsync as [[]|Hsync]. done.
Qed.

Lemma sessions_list_mirrors_store_witness :
  keyed StoredSession.id
    (sessions (UseSessions.world (UseSessions.initial empty_world None)))
  ∧ listed_in_sync (UseSessions.initial empty_world None)
  ∧ listed_in_sync
      (run_call Demo.env CallCreateSession (UseSessions.initial empty_world None))
  ∧ UseSessions.sessionList
      (run_call Demo.env CallCreateSession (UseSessions.initial empty_world None))
    = [SessionSummary.mk (js "uuid-00") (js "新讨论组") [] 1700000000000%Z 0 None].
Proof.
  set (st := UseSessions.initial empty_world None).
  assert (H1 : keyed StoredSession.id (sessions (UseSessions.world st)))
    by apply keyed_empty.
  assert (H2 : listed_in_sync st).
  { split.
    - intros s Hin. by apply elem_of_nil in Hin.
    - intros k [x Hx]. unfold st, UseSessions.initial, empty_world in Hx. cbn in Hx.
      by rewrite lookup_empty in Hx. }
  do 2 (split; [assumption|]).
  split; [|vm_compute; reflexivity].
  apply (sessions_list_mirrors_store Demo.env CallCreateSession st H1 (or_intror H2)).
  intros _. apply lookup_empty.
Defined.

(** X9.  The active session is a stored one, and stays so: every call of the
    hook keeps the active id, when there is one, the id of a stored session,
    provided an id handed to [setActiveSessionId] is that of a stored session
    (the sidebar hands it a listed one). *)
Theorem active_session_is_stored env (call : SessionsCall)
    (st : UseSessions.State) :
  active_is_stored st →
  (∀ i, call = CallSetActiveSessionId (Some i) →
        is_Some (sessions (UseSessions.world st) !! i)) →
  active_is_stored (run_call env call st).
Proof.
  intros Hact Hsel.
  destruct call as [legacy| |s|id|mid name|sid|id]; cbn [run_call].
  - destruct (loadSessions_spec env legacy st)
      as (st' & -> & Ha & _ & _ & _ & _ & Hs & _).
    cbn [snd]. intros i Hi. rewrite Ha in Hi. specialize (Hact i Hi).
    rewrite Hs; [done|]. intros Hempty. rewrite Hempty, lookup_empty in Hact.
    by destruct Hact.
  - destruct st as [w l a d ls n].
    unfold UseSessions.createSession, LocalDb.dbCreateSession. run_hook. hcbn.
    intros i [= <-]. hcbn. rewrite lookup_insert_eq. by eexists.
  - destruct st as [w l a d ls n]. unfold active_is_stored in *.
    cbn [UseSessions.world UseSessions.activeSessionId] in *.
    unfold UseSessions.updateSession, LocalDb.dbUpdateSession. run_hook. hcbn.
    destruct (sessions w !! SessionSummary.id s) as [stored|] eqn:Hst; hcbn;
      [|done].
    intros i Hi. destruct (decide (i = StoredSession.id stored)) as [->|Hne].
    + rewrite lookup_insert_eq. by eexists.
    + rewrite lookup_insert_ne by done. by apply Hact.
  - destruct st as [w l a d ls n]. unfold active_is_stored in *.
    cbn [UseSessions.world UseSessions.activeSessionId] in *.
    unfold UseSessions.deleteSession, LocalDb.dbDeleteSession. run_hook. hcbn.
    intros i. case_bool_decide as Heq; [done|]. intros ->.
    rewrite lookup_delete_ne by congruence. by apply Hact.
  - destruct st as [w l a d ls n]. unfold active_is_stored in *.
    cbn [UseSessions.world UseSessions.activeSessionId] in *.
    unfold UseSessions.forkSession. run_hook. hcbn.
    destruct a as [[|c a]|]; hcbn; try done.
    unfold LocalDb.dbForkSessionFromMessage. run.
    destruct (sessions w !! (c :: a)) as [src|] eqn:Hsrc; hcbn; [|done].
    destruct (Js.findIndex _ _) as [idx|]; hcbn; [|done].
    rewrite mapM_fresh_ids. hcbn.
    intros i [= <-]. rewrite lookup_insert_eq. by eexists.
  - destruct st as [w l a d ls n]. unfold active_is_stored in *.
    cbn [UseSessions.world UseSessions.activeSessionId] in *.
    unfold UseSessions.loadSessionHistory, LocalDb.dbGetSessionDetail. run_hook.
    hcbn. destruct (sessions w !! sid); hcbn; done.
  - destruct st as [w l a d ls n]. unfold active_is_stored in *.
    cbn [UseSessions.world UseSessions.activeSessionId] in *.
    run_hook. hcbn. intros i ->. by apply Hsel.
Qed.

Lemma active_session_is_stored_witness :
  active_is_stored (UseSessions.initial Demo.w4 None)
  ∧ is_Some (sessions Demo.w4 !! js "uuid-00")
  ∧ active_is_stored
      (run_call Demo.env (CallSetActiveSessionId (Some (js "uuid-00")))
         (UseSessions.initial Demo.w4 None)).
Proof.
  assert (H1 : active_is_stored (UseSessions.initial Demo.w4 None))
    by (intros i Hi; discriminate Hi).
  assert (H2 : is_Some (sessions Demo.w4 !! js "uuid-00"))
    by (vm_compute; eexists; reflexivity).
  do 2 (split; [assumption|]).
  apply (active_session_is_stored Demo.env _ _ H1).
  intros i [= <-]. exact H2.
Defined.

(** X10.  The slot [agent_group_session_id] of [localStorage] follows the
    active session through every call of the hook but one: [deleteSession]
    never writes the slot, so deleting the active session leaves the hook
    with no active session while the slot still holds the id of the deleted
    session, which the store no longer has. *)
Theorem slot_follows_active_session env (call : SessionsCall)
    (st : UseSessions.State) :
  slot_matches st →
  ((∀ id, call = CallDeleteSession id → UseSessions.activeSessionId st ≠ Some id) →
     slot_matches (run_call env call st))
  ∧ (∀ id, call = CallDeleteSession id → UseSessions.activeSessionId st = Some id →
       UseSessions.activeSessionId (run_call env call st) = None
       ∧ UseSessions.localStorage (run_call env call st) = UseSessions.localStorage st
       ∧ sessions (UseSessions.world (run_call env call st)) !! id = None).
Proof.
  intros Hslot. split.
  - intros Hdel.
    destruct call as [legacy| |s|id|mid name|sid|id]; cbn [run_call].
    + destruct (loadSessions_spec env legacy st)
        as (st' & -> & Ha & _ & Hls & _). cbn [snd].
      unfold slot_matches. by rewrite Ha, Hls.
    + destruct st as [w l a d ls n].
      unfold UseSessions.createSession, LocalDb.dbCreateSession. run_hook. hcbn.
      done.
    + destruct st as [w l a d ls n]. unfold slot_matches in *.
      unfold UseSessions.updateSession, LocalDb.dbUpdateSession. run_hook. hcbn.
      destruct (sessions w !! SessionSummary.id s); hcbn; done.
    + destruct st as [w l a d ls n]. unfold slot_matches in *.
      specialize (Hdel id eq_refl).
      unfold UseSessions.deleteSession, LocalDb.dbDeleteSession. run_hook. hcbn.
      hcbn in Hdel. hcbn in Hslot. by case_bool_decide.
    + destruct st as [w l a d ls n]. unfold slot_matches in *.
      unfold UseSessions.forkSession. run_hook. hcbn.
      destruct a as [[|c a]|]; hcbn; try done.
      unfold LocalDb.dbForkSessionFromMessage. run.
      destruct (sessions w !! (c :: a)) as [src|] eqn:Hsrc; hcbn; [|done].
      destruct (Js.findIndex _ _) as [idx|]; hcbn; [|done].
      rewrite mapM_fresh_ids. hcbn. done.
    + destruct st as [w l a d ls n]. unfold slot_matches in *.
      unfold UseSessions.loadSessionHistory, LocalDb.dbGetSessionDetail. run_hook.
      hcbn. destruct (sessions w !! sid); hcbn; done.
    + destruct st as [w l a d ls n]. unfold slot_matches. run_hook. hcbn.
      by destruct id as [[|c i]|].
  - intros id -> Hact. destruct st as [w l a d ls n]. cbn [run_call].
    unfold UseSessions.deleteSession, LocalDb.dbDeleteSession. run_hook. hcbn.
    hcbn in Hact. rewrite bool_decide_eq_true_2 by done.
    split; [done|]. split; [done|]. apply lookup_delete_eq.
Qed.

Lemma slot_follows_active_session_witness :
  slot_matches (UseSessions.initial empty_world None)
  ∧ slot_matches
      (run_call Demo.env CallCreateSession (UseSessions.initial empty_world None))
  ∧ UseSessions.localStorage
      (run_call Demo.env CallCreateSession (UseSessions.initial empty_world None))
    = Some (js "uuid-00").
Proof.
  assert (H1 : slot_matches (UseSessions.initial empty_world None))
    by reflexivity.
  split; [assumption|]. split; [|vm_compute; reflexivity].
  apply (slot_follows_active_session Demo.env CallCreateSession _ H1).
  intros id Hid. discriminate Hid.
Defined.

(** ** The import from the legacy backend *)

Lemma import_message_spec env d m w :
  ∃ stored w',
    UseSessions.import_message env d m w = (Returned stored, w')
    ∧ imported_as d m stored.
Proof.
  unfold UseSessions.import_message, UseSessions.legacy_message_id, imported_as.
  destruct m as [mi ms mc mim mt]. cbn [UseSessions.legacy_id
    UseSessions.legacy_speaker UseSessions.legacy_content
    UseSessions.legacy_images UseSessions.legacy_timestamp].
  destruct mt as [t|], (UseSessions.detail_created_at d) as [t0|],
    mi as [[|c i]|]; run;
    repeat case_bool_decide; run; eexists _, _; (split; [reflexivity|]);
    cbn; repeat split; intros; congruence.
Qed.

Lemma mapM_Forall2 {S A B} (f : A → M S B) (P : A → B → Prop) (l : list A) (s : S) :
  (∀ a s0, ∃ b s1, f a s0 = (Returned b, s1) ∧ P a b) →
  ∃ bs s', mapM f l s = (Returned bs, s') ∧ Forall2 P l bs.
Proof.
  intros Hf. revert s. induction l as [|a l IH]; intros s.
  - eexists _, _. split; [reflexivity|constructor].
  - destruct (Hf a s) as (b & s1 & Hb & HP).
    destruct (IH s1) as (bs & s2 & Hbs & HPs).
    exists (b :: bs), s2. cbn [mapM]. unfold bind at 1. rewrite Hb.
    unfold bind at 1. rewrite Hbs. split; [reflexivity|by constructor].
Qed.

Lemma foldl_max_bounds (init : Z) (l : list StoredMessage.t) :
  let top := foldl (λ max msg, Z.max max (StoredMessage.created_at msg)) init l in
  (init <= top)%Z ∧ Forall (λ m, (StoredMessage.created_at m <= top)%Z) l.
Proof.
  revert init. induction l as [|m l IH]; intros init; cbn.
  - split; [lia|constructor].
  - destruct (IH (Z.max init (StoredMessage.created_at m))) as [H1 H2].
    split; [lia|]. constructor; [lia|done].
Qed.

(** X11.  The import of one legacy session always succeeds and writes no
    record by itself.  The session keeps the id of the detail; its messages
    are those of the history, one for one and in order, a message being a
    system, a user or an agent message by its speaker and keeping its own
    timestamp when it has one; [updated_at] is no earlier than any message;
    and when the detail carries [created_at], that is the session's
    [created_at], no later than [updated_at], and equal to it when there is
    no history. *)
Theorem legacy_import_shape env (d : UseSessions.LegacyDetail) (w : World) :
  ∃ s w',
    UseSessions.import_detail env d w = (Returned s, w')
    ∧ same_store w w'
    ∧ StoredSession.id s = UseSessions.detail_id d
    ∧ Forall2 (imported_as d) (default [] (UseSessions.detail_history d))
        (StoredSession.messages s)
    ∧ Forall (λ m, (StoredMessage.created_at m <= StoredSession.updated_at s)%Z)
        (StoredSession.messages s)
    ∧ (∀ t, UseSessions.detail_created_at d = Some t →
         StoredSession.created_at s = t
         ∧ (t <= StoredSession.updated_at s)%Z
         ∧ (default [] (UseSessions.detail_history d) = [] →
            StoredSession.updated_at s = t)).
Proof.
  pose proof (import_detail_same_store env d w) as Hsame.
  unfold UseSessions.import_detail in *.
  destruct (mapM_Forall2 (UseSessions.import_message env d) (imported_as d)
              (Js.nullish (UseSessions.detail_history d) []) w
              (import_message_spec env d)) as (msgs & w1 & Hm & HP).
  unfold bind at 1. unfold bind at 1 in Hsame. rewrite Hm in Hsame |- *.
  destruct (UseSessions.detail_created_at d) as [t0|] eqn:Ht; run; cbn in Hsame |- *.
  - eexists _, _. split; [reflexivity|]. cbn. split; [done|]. split; [done|].
    split; [by destruct (UseSessions.detail_history d)|].
    destruct (foldl_max_bounds t0 msgs) as [H1 H2]. cbn in H1, H2.
    split; [done|]. intros t [= <-]. split; [done|]. split; [done|].
    intros Hnil. destruct (UseSessions.detail_history d) as [h|]; cbn in *; subst;
      by inversion HP.
  - eexists _, _. split; [reflexivity|]. cbn. split; [done|]. split; [done|].
    split; [by destruct (UseSessions.detail_history d)|].
    destruct (foldl_max_bounds (Date_now env (ticks w1)) msgs) as [H1 H2].
    cbn in H1, H2. split; [done|]. intros t [=].
Qed.

(** ** The agents hook *)

Ltac run_agents :=
  unfold UseAgents.setAgents, UseAgents.notify, UseAgents.lift,
    LocalDb.dbSetAgents, LocalDb.dbGetAgents, LocalDb.dbDeleteAgent;
  run.

Ltac acbn := cbn -[ObjectStore.putAll ObjectStore.getAll Js.trim].

Tactic Notation "acbn" "in" hyp(H) :=
  cbn -[ObjectStore.putAll ObjectStore.getAll Js.trim] in H.

(** Replacing the agent of a name by one of the same name keeps the names. *)
Lemma names_after_edit (a : Agent.t) (l : list Agent.t) :
  Agent.name <$> ((λ b, if bool_decide (Agent.name b = Agent.name a) then a else b)
                    <$> l)
  = Agent.name <$> l.
Proof.
  rewrite <- list_fmap_compose. apply list_fmap_ext. intros i b _. cbn.
  by case_bool_decide.
Qed.

(** X12.  [saveAgent] answers [false] and changes neither the store nor the
    list when a new agent has a blank name or, once trimmed, the name of an
    agent of [allAgents]; the reason is notified.  Otherwise it answers
    [true] with [isSaving] back to [false]: a new agent is appended under its
    trimmed name, an edit replaces the agents of that name and keeps the
    names of the list as they were, and the store is rebuilt from the new
    list. *)
Theorem saveAgent_outcome (agent : Agent.t) (isCreating : bool)
    (allAgents : list Agent.t) (st : UseAgents.State) :
  let name := Js.trim (Agent.name agent) in
  (isCreating = true → name = [] ∨ name ∈ Agent.name <$> allAgents →
     ∃ msg st',
       UseAgents.saveAgent agent isCreating allAgents st = (Returned false, st')
       ∧ UseAgents.world st' = UseAgents.world st
       ∧ UseAgents.agentList st' = UseAgents.agentList st
       ∧ UseAgents.notices st' = UseAgents.notices st ++ [failure msg])
  ∧ (isCreating = false ∨ (name ≠ [] ∧ name ∉ Agent.name <$> allAgents) →
     ∃ st',
       UseAgents.saveAgent agent isCreating allAgents st = (Returned true, st')
       ∧ UseAgents.isSaving st' = false
       ∧ agents (UseAgents.world st')
         = ObjectStore.putAll Agent.name (UseAgents.agentList st') ∅
       ∧ sessions (UseAgents.world st') = sessions (UseAgents.world st)
       ∧ (isCreating = true →
            UseAgents.agentList st' = allAgents ++ [UseAgents.with_name agent name])
       ∧ (isCreating = false →
            Agent.name <$> UseAgents.agentList st' = Agent.name <$> allAgents
            ∧ ∀ a, a ∈ UseAgents.agentList st' →
                   a = UseAgents.with_name agent name
                   ∨ (a ∈ allAgents ∧ Agent.name a ≠ name))).
Proof.
  intros name. destruct st as [w l sv n]. split.
  - intros -> Hbad. unfold UseAgents.saveAgent. fold name.
    destruct (decide (name = [])) as [Hnil|Hnil].
    + rewrite bool_decide_eq_true_2 by done. run_agents. acbn. eauto 10.
    + rewrite (bool_decide_eq_false_2 (name = [])) by done.
      destruct Hbad as [?|Hin]; [done|].
      rewrite andb_false_r. run_agents. acbn.
      rewrite bool_decide_eq_true_2.
      2:{ apply Exists_exists. apply list_elem_of_fmap in Hin as (a & -> & Ha).
          eauto. }
      acbn. eauto 10.
  - intros Hok. unfold UseAgents.saveAgent. fold name.
    destruct isCreating.
    + destruct Hok as [?|[Hnil Hnew]]; [done|].
      rewrite (bool_decide_eq_false_2 (name = [])) by done.
      rewrite andb_false_r. run_agents. acbn.
      rewrite bool_decide_eq_false_2.
      2:{ intros (a & Ha & Hname)%Exists_exists. apply Hnew.
          apply list_elem_of_fmap. eauto. }
      acbn. eexists (UseAgents.mkState _ _ _ _). split; [reflexivity|]. acbn.
      repeat split; done.
    + acbn. run_agents. acbn.
      eexists (UseAgents.mkState _ _ _ _). split; [reflexivity|]. acbn.
      repeat split; try done.
      * apply (names_after_edit (UseAgents.with_name agent name)).
      * intros a [b [-> Hb]]%list_elem_of_fmap. case_bool_decide; auto.
Qed.

(** After [dbSetAgents], a list of pairwise distinct names is in agreement
    with the store. *)
Lemma agents_in_sync_set (l : list Agent.t) w sv n :
  NoDup (Agent.name <$> l) →
  agents_in_sync
    (UseAgents.mkState
       (set_agents (λ _, ObjectStore.putAll Agent.name l ∅) w) l sv n).
Proof.
  intros Hnd. split; acbn.
  - apply keyed_putAll, keyed_empty.
  - symmetry. by apply getAll_putAll.
Qed.

(** X13.  The agents the page lists are those of the store.  On a store
    that keeps each agent under its name, [loadAgents] and [deleteAgent]
    leave a list in agreement with the store, and [saveAgent], handed the
    list of the hook, keeps the agreement; the agents of the legacy backend
    and the default agents, which are installed as they come, must have
    pairwise distinct names. *)
Theorem agents_list_mirrors_store (DEFAULT_AGENTS : list Agent.t)
    (call : AgentsCall) (st : UseAgents.State) :
  keyed Agent.name (agents (UseAgents.world st)) →
  NoDup (Agent.name <$> DEFAULT_AGENTS) →
  (∀ remote, call = CallLoadAgents (Some remote) → NoDup (Agent.name <$> remote)) →
  (∀ agent isCreating, call = CallSaveAgent agent isCreating →
     UseAgents.agentList st ≡ₚ ObjectStore.getAll (agents (UseAgents.world st))) →
  agents_in_sync (run_agents_call DEFAULT_AGENTS call st).
Proof.
  intros Hk Hdef Hremote Hsync.
  destruct call as [legacy|agent isCreating|agentName]; cbn [run_agents_call].
  - destruct st as [w l sv n]. acbn in Hk.
    unfold UseAgents.loadAgents. run_agents. acbn.
    destruct (ObjectStore.getAll (agents w)) as [|a0 l0] eqn:Hall; acbn.
    2:{ split; acbn; [done|by rewrite Hall]. }
    destruct legacy as [[|a remote]|]; acbn.
    1,3: by apply agents_in_sync_set.
    apply agents_in_sync_set. by apply Hremote.
  - specialize (Hsync agent isCreating eq_refl).
    destruct st as [w l sv n]. acbn in Hk. acbn in Hsync.
    assert (Hnd : NoDup (Agent.name <$> l)).
    { rewrite Hsync. by apply keyed_getAll_NoDup. }
    unfold UseAgents.saveAgent. acbn.
    set (name := Js.trim (Agent.name agent)).
    destruct isCreating; acbn.
    + case_bool_decide as Hnil; run_agents; acbn; [done|].
      case_bool_decide as Hex; acbn; [done|].
      apply agents_in_sync_set. acbn. rewrite fmap_app. apply NoDup_app.
      split; [done|]. split; [|apply NoDup_singleton].
      intros x [a [-> Ha]]%list_elem_of_fmap [Heq|[]%elem_of_nil]%elem_of_cons.
      apply Hex, Exists_exists. eauto.
    + run_agents. acbn. apply agents_in_sync_set. acbn.
      by rewrite (names_after_edit (UseAgents.with_name agent name)).
  - destruct st as [w l sv n]. acbn in Hk.
    unfold UseAgents.deleteAgent. run_agents. acbn.
    split; acbn; [by apply map_Forall_delete|done].
Qed.

Lemma agents_list_mirrors_store_witness :
  keyed Agent.name (agents (UseAgents.world (UseAgents.mkState empty_world [] false [])))
  ∧ NoDup (Agent.name <$> [Demo.planner; Demo.bot; Demo.critic])
  ∧ agents_in_sync
      (run_agents_call [Demo.planner; Demo.bot; Demo.critic] (CallLoadAgents None)
         (UseAgents.mkState empty_world [] false []))
  ∧ UseAgents.agentList
      (run_agents_call [Demo.planner; Demo.bot; Demo.critic] (CallLoadAgents None)
         (UseAgents.mkState empty_world [] false []))
    = [Demo.planner; Demo.bot; Demo.critic].
Proof.
  assert (H1 : keyed Agent.name
                 (agents (UseAgents.world (UseAgents.mkState empty_world [] false []))))
    by apply keyed_empty.
  assert (H2 : NoDup (Agent.name <$> [Demo.planner; Demo.bot; Demo.critic]))
    by (apply (bool_decide_eq_true_1 _); vm_compute; reflexivity).
  do 2 (split; [assumption|]). split; [|vm_compute; reflexivity].
  apply (agents_list_mirrors_store _ (CallLoadAgents None) _ H1 H2).
  - intros remote Hr. discriminate Hr.
  - intros agent isCreating Hc. discriminate Hc.
Defined.

(** ** Calling one agent from the sidebar *)

Lemma finalize_last (amid speaker full c : jsstring) (tr : list TranscriptItem.t) :
  last (Chat.update_agent_item amid (λ _, full) (λ _, Some false)
          <$> (tr ++ [TranscriptItem.Agent amid speaker c None (Some true)]))
  = Some (TranscriptItem.Agent amid speaker full None (Some false)).
Proof.
  rewrite fmap_app. cbn. rewrite bool_decide_eq_true_2 by done. apply last_snoc.
Qed.

(** X14.  [invokeAgent] on an active session always returns, with
    [isLoading] cleared and the agents of the store untouched.  For a name
    that no agent carries it calls nobody and appends one system item that
    says so.  For a known agent it makes one call, on the history the ref
    holds without its system items.  When the call returns a text, the
    placeholder ends with that text and the item is handed to
    [dbUpsertMessage].  When the call fails, nothing is written to the
    sessions of the store: a cancellation leaves the placeholder as the
    deltas left it and reports nothing; any other failure puts the marker
    ["[调用失败] " ++ message] in the placeholder, which is shown but, unlike
    in [sendMessage], not stored, and reports ["调用失败: " ++ message]. *)
Theorem invokeAgent_outcomes env net (known : list Agent.t) globalPrompt
    (sid agentName : jsstring) (st : Chat.State) :
  sid ≠ [] →
  let amid := randomUUID env (draws (Chat.world st)) in
  let placeholder := TranscriptItem.Agent amid agentName [] None (Some true) in
  let history :=
    filter (λ i, TranscriptItem.kind i ≠ KSystem) (Chat.transcriptRef st) in
  ∃ st',
    Chat.invokeAgent env net (Some sid) known globalPrompt agentName st
    = (Returned tt, st')
    ∧ Chat.isLoading st' = false
    ∧ agents (Chat.world st') = agents (Chat.world st)
    ∧ (List.find (λ a, bool_decide (Agent.name a = agentName)) known = None →
         Chat.transcript st'
         = Chat.transcript st
           ++ [TranscriptItem.System amid (js "❌ 未找到 Agent: " ++ agentName)]
         ∧ Chat.calls st' = Chat.calls st
         ∧ sessions (Chat.world st') = sessions (Chat.world st)
         ∧ Chat.reported st' = Chat.reported st)
    ∧ (∀ agent,
         List.find (λ a, bool_decide (Agent.name a = agentName)) known = Some agent →
         let messages := Llm.buildOpenAiMessages agent globalPrompt history in
         let reply := net (length (Chat.calls st)) agent messages in
         Chat.calls st' = Chat.calls st ++ [(agent, messages)]
         ∧ (∀ full, Chat.result reply = Returned full →
              last (Chat.transcript st')
              = Some (TranscriptItem.Agent amid agentName full None (Some false))
              ∧ Chat.world st'
                = (LocalDb.dbUpsertMessage env sid
                     (TranscriptItem.Agent amid agentName full None None)
                     (LocalDb._newId env (Chat.world st)).2).2
              ∧ Chat.reported st' = Chat.reported st)
         ∧ (∀ e, Chat.result reply = Threw e →
              sessions (Chat.world st') = sessions (Chat.world st)
              ∧ (is_abort e →
                   Chat.transcript st'
                   = with_deltas agent amid reply (Chat.transcript st ++ [placeholder])
                   ∧ Chat.reported st' = Chat.reported st)
              ∧ (¬ is_abort e →
                   last (Chat.transcript st')
                   = Some (TranscriptItem.Agent amid agentName
                             (js "[调用失败] " ++ Js.err_text e) None (Some false))
                   ∧ Chat.reported st'
                     = Chat.reported st ++ [js "调用失败: " ++ Js.err_text e]))).
Proof.
  intros Hsid amid placeholder history.
  unfold Chat.invokeAgent. destruct sid as [|c sid]; [done|].
  rewrite bind_eq. unfold modify at 1.
  destruct (List.find _ known) as [agent|] eqn:Hfind.
  - rewrite bind_eq. unfold Chat.newId at 1, Chat.lift at 1.
    unfold LocalDb._newId at 1. cbn [fst snd].
    rewrite bind_eq. unfold Chat.setTranscript at 1, modify at 1.
    cbn [Chat.setIsLoading Chat.world Chat.transcript Chat.transcriptRef
         Chat.isLoading Chat.calls Chat.reported agents sessions ticks draws].
    fold amid. fold placeholder.
    unfold finally, try_catch at 1. rewrite bind_eq. unfold gets at 1.
    cbn [Chat.transcriptRef]. fold history.
    rewrite bind_eq, await_complete_eq.
    cbn [Chat.world Chat.transcript Chat.transcriptRef Chat.isLoading Chat.calls
         Chat.reported].
    set (messages := Llm.buildOpenAiMessages agent globalPrompt history).
    set (reply := net (length (Chat.calls st)) agent messages).
    destruct (Chat.result reply) as [full|e] eqn:Hres.
    + rewrite bind_eq. unfold Chat.setTranscript at 1, modify at 1.
      rewrite persist_best_effort.
      cbn [Chat.setIsLoading Chat.world Chat.transcript Chat.transcriptRef
           Chat.isLoading Chat.calls Chat.reported].
      eexists. split; [reflexivity|].
      cbn [Chat.world Chat.transcript Chat.transcriptRef Chat.isLoading Chat.calls
           Chat.reported].
      split; [done|]. split.
      { unfold LocalDb.dbUpsertMessage. run. cbn [sessions].
        destruct (sessions (Chat.world st) !! (c :: sid)); [|done].
        destruct (Js.findIndex _ _); done. }
      split; [done|]. intros ? [= <-]. cbv zeta. fold history messages reply. rewrite Hres.
      split; [done|]. split; [|by intros ? [=]].
      intros ? [= <-]. rewrite finalize_with_deltas.
      split; [apply finalize_last|done].
    + unfold Chat.toAbortErrorName. fold (is_abort e).
      destruct (decide (is_abort e)) as [Hab|Hab].
      * rewrite bool_decide_eq_true_2 by done. unfold ret.
        cbn [Chat.setIsLoading Chat.world Chat.transcript Chat.transcriptRef
             Chat.isLoading Chat.calls Chat.reported].
        eexists. split; [reflexivity|].
        cbn [Chat.world Chat.transcript Chat.transcriptRef Chat.isLoading
             Chat.calls Chat.reported agents sessions].
        split; [done|]. split; [done|]. split; [done|].
        intros ? [= <-]. cbv zeta. fold history messages reply. rewrite Hres.
        split; [done|]. split; [by intros ? [=]|].
        intros ? [= <-]. split; [done|]. split; [done|]. by intros [].
      * rewrite bool_decide_eq_false_2 by done.
        rewrite bind_eq. unfold Chat.setTranscript at 1, modify at 1.
        unfold Chat.onError, modify.
        cbn [Chat.setIsLoading Chat.world Chat.transcript Chat.transcriptRef
             Chat.isLoading Chat.calls Chat.reported].
        eexists. split; [reflexivity|].
        cbn [Chat.world Chat.transcript Chat.transcriptRef Chat.isLoading
             Chat.calls Chat.reported agents sessions].
        split; [done|]. split; [done|]. split; [done|].
        intros ? [= <-]. cbv zeta. fold history messages reply. rewrite Hres.
        split; [done|]. split; [by intros ? [=]|].
        intros ? [= <-]. split; [done|]. split; [by intros ?|].
        intros _. rewrite finalize_with_deltas. split; [apply finalize_last|done].
  - rewrite bind_eq. unfold Chat.newId at 1, Chat.lift at 1.
    unfold LocalDb._newId at 1. cbn [fst snd].
    rewrite bind_eq. unfold Chat.setTranscript at 1, modify.
    cbn [Chat.setIsLoading Chat.world Chat.transcript Chat.transcriptRef
         Chat.isLoading Chat.calls Chat.reported agents sessions ticks draws].
    eexists. split; [reflexivity|].
    cbn [Chat.world Chat.transcript Chat.transcriptRef Chat.isLoading
         Chat.calls Chat.reported agents sessions].
    split; [done|]. split; [done|]. split; [done|]. intros ? [=].
Qed.

Lemma invokeAgent_outcomes_witness :
  js "uuid-00" ≠ []
  ∧ ∃ st',
      Chat.invokeAgent Demo.env Demo.flaky (Some (js "uuid-00"))
        [Demo.bot; Demo.critic] None (js "Bot") Demo.chat
      = (Returned tt, st')
      ∧ Chat.isLoading st' = false
      ∧ sessions (Chat.world st') = sessions Demo.w4
      ∧ Chat.reported st' = [js "调用失败: " ++ Js.err_text Demo.boom].
Proof.
  assert (H1 : js "uuid-00" ≠ []) by discriminate.
  split; [assumption|].
  destruct (invokeAgent_outcomes Demo.env Demo.flaky [Demo.bot; Demo.critic] None
              (js "uuid-00") (js "Bot") Demo.chat H1)
    as (st' & Hrun & Hload & _ & _ & Hknown).
  exists st'. split; [exact Hrun|]. split; [exact Hload|].
  destruct (Hknown Demo.bot ltac:(vm_compute; reflexivity)) as (_ & _ & Hfail).
  destruct (Hfail Demo.boom ltac:(reflexivity)) as (Hstore & _ & Hshown).
  split; [exact Hstore|].
  apply Hshown. intros Hab. vm_compute in Hab. discriminate Hab.
Defined.

(* ================================================================== *)
(** * Further properties of the page *)
(* ================================================================== *)

(** ** Submitting a message *)

Lemma hasMention_spec (agents : list Agent.t) (text : jsstring) :
  Page.hasMention agents text = true
  ↔ ∃ n, n ∈ mention_tokens text ∧ n ∈ Agent.name <$> agents.
Proof.
  unfold Page.hasMention, mention_tokens. rewrite existsb_exists. split.
  - intros (raw & Hraw%list_elem_of_In & Hset%bool_decide_eq_true).
    apply elem_of_list_to_set, list_elem_of_fmap in Hset as (a & -> & Ha).
    exists (Agent.name a). split.
    + apply list_elem_of_fmap. eexists. split; [|exact Hraw]. reflexivity.
    + by apply list_elem_of_fmap_2.
  - intros (n & (raw & -> & Hraw)%list_elem_of_fmap & (a & Hn & Ha)%list_elem_of_fmap).
    exists raw. split; [by apply list_elem_of_In|].
    apply bool_decide_eq_true, elem_of_list_to_set, list_elem_of_fmap.
    exists a. split; [|done].
    apply elem_of_match_mentions in Hraw as (name & -> & _).
    cbn in Hn. by rewrite <- Hn.
Qed.

Lemma parseMentionedAgents_nonempty (agents : list Agent.t) (text : jsstring) :
  Chat.parseMentionedAgents text agents ≠ []
  ↔ ∃ n, n ∈ mention_tokens text ∧ n ∈ Agent.name <$> agents.
Proof.
  rewrite parseMentionedAgents_eq. split.
  - intros Hne.
    destruct (first_occurrences _) as [|n l] eqn:Hl; [done|].
    assert (n ∈ first_occurrences
              (filter (λ n, n ∈ Agent.name <$> agents) (mention_tokens text))) as Hin
      by (rewrite Hl; left).
    apply elem_of_first_occurrences, list_elem_of_filter in Hin as [? ?]. eauto.
  - intros (n & Hn & Ha) Hnil.
    assert (n ∈ first_occurrences
              (filter (λ n, n ∈ Agent.name <$> agents) (mention_tokens text))) as Hin
      by (by apply elem_of_first_occurrences, list_elem_of_filter).
    rewrite Hnil in Hin. by apply elem_of_nil in Hin.
Qed.

(** X15.  [handleSubmit] does nothing while the input is blank with no image
    pending, while a reply is loading, or without an active session.
    Otherwise it clears the input and hands the trimmed text to
    [sendMessage] exactly when [parseMentionedAgents] would find an agent in
    it: [hasMention] and [parseMentionedAgents] agree on every text.  A
    submitted text that mentions no known agent only becomes a user item of
    the transcript: no call is made, nothing is reported, [isLoading] stays
    [false]. *)
Theorem handleSubmit_dispatch env net (st : Page.State) :
  let text := Js.trim (Page.inputValue st) in
  let images := Page.pendingImages st in
  let blocked :=
    (text = [] ∧ images = []) ∨ Page.isLoading st = true
    ∨ ¬ (∃ c i, Page.activeSessionId st = Some (c :: i)) in
  (Page.hasMention (Page.agentList st) text = true
   ↔ Chat.parseMentionedAgents text (Page.agentList st) ≠ [])
  ∧ (blocked → Page.handleSubmit env net st = (Returned tt, st))
  ∧ (¬ blocked → Chat.parseMentionedAgents text (Page.agentList st) ≠ [] →
       Page.handleSubmit env net st
       = (Page.setInput [] [] ;;; Page.sendMessage env net text images) st)
  ∧ (¬ blocked → Chat.parseMentionedAgents text (Page.agentList st) = [] →
       ∃ st',
         Page.handleSubmit env net st = (Returned tt, st')
         ∧ Page.transcript st'
           = Page.transcript st
             ++ [TranscriptItem.User (randomUUID env (draws (Page.world st)))
                   (Chat.user_content text images) (Some images)]
         ∧ Page.calls st' = Page.calls st
         ∧ Page.toasts st' = Page.toasts st
         ∧ Page.isLoading st' = false
         ∧ Page.inputValue st' = [] ∧ Page.pendingImages st' = []).
Proof.
  intros text images blocked.
  assert (Hagree : Page.hasMention (Page.agentList st) text = true
                   ↔ Chat.parseMentionedAgents text (Page.agentList st) ≠ [])
    by (by rewrite hasMention_spec, parseMentionedAgents_nonempty).
  split; [exact Hagree|].
  assert (Hguard :
    ((bool_decide (text = []) && bool_decide (images = []))
     || Page.isLoading st
     || match Page.activeSessionId st with Some (_ :: _) => false | _ => true end)
    = true ↔ blocked).
  { unfold blocked. rewrite !orb_true_iff, andb_true_iff, !bool_decide_eq_true.
    destruct (Page.activeSessionId st) as [[|c i]|]; split; intros H;
      repeat (destruct H as [H|H]); auto;
      try (by right; right; intros (? & ? & [=]));
      try (destruct H as [? ?]; auto);
      try (destruct H; eauto). }
  split; [|split].
  - intros Hb. apply Hguard in Hb. unfold Page.handleSubmit.
    fold text. fold images. by rewrite Hb.
  - intros Hnb Hm. unfold Page.handleSubmit. fold text. fold images.
    rewrite (not_true_is_false _ (λ Hg, Hnb (proj1 Hguard Hg))).
    apply Hagree in Hm. rewrite Hm.
    unfold bind. destruct (Page.setInput [] [] st) as [[[]|e] st1]; [|done].
    by destruct (Page.sendMessage env net text images st1) as [[[]|e] st2].
  - intros Hnb Hm. unfold Page.handleSubmit. fold text. fold images.
    rewrite (not_true_is_false _ (λ Hg, Hnb (proj1 Hguard Hg))).
    assert (Page.hasMention (Page.agentList st) text = false) as ->.
    { destruct (Page.hasMention _ _); [|done]. by destruct (proj1 Hagree eq_refl). }
    destruct (Page.activeSessionId st) as [[|c i]|] eqn:Hact;
      try (destruct Hnb; unfold blocked; right; right; by intros (? & ? & [=])).
    destruct (Page.isLoading st) eqn:Hload; [destruct Hnb; unfold blocked; auto|].
    unfold Page.setInput, Page.addMessageOnly, Page.in_chat, Page.zoom. run.
    cbn [Page.activeSessionId]. rewrite Hact.
    rewrite addMessageOnly_eq by done.
    eexists. split; [reflexivity|].
    cbn [Page.with_chat Page.chat_of Page.transcript Page.calls Page.toasts
         Page.isLoading Page.inputValue Page.pendingImages Page.world
         Chat.transcript Chat.calls Chat.reported Chat.isLoading Chat.world
         Chat.transcriptRef fmap list_fmap].
    rewrite app_nil_r, Hload. done.
Qed.

(** ** The transcript and the stored history *)

Ltac pcbn :=
  cbn [Page.with_chat Page.chat_of Page.with_world Page.with_sessions
       Page.sessions_of Page.with_agents Page.agents_of
       Page.world Page.toasts Page.sessionList Page.activeSessionId
       Page.activeSessionData Page.localStorage Page.agentList Page.isSaving
       Page.transcript Page.transcriptRef Page.isLoading Page.calls
       Page.inputValue Page.pendingImages Page.editingAgent
       Page.isCreatingAgent Page.editingMessageId Page.editingMessageContent
       Page.editingMessageSpeaker
       Chat.world Chat.transcript Chat.transcriptRef Chat.isLoading Chat.calls
       Chat.reported
       UseSessions.world UseSessions.sessionList UseSessions.activeSessionId
       UseSessions.activeSessionData UseSessions.localStorage UseSessions.notices
       UseAgents.world UseAgents.agentList UseAgents.isSaving UseAgents.notices
       agents sessions ticks draws fst snd].

Tactic Notation "pcbn" "in" hyp(H) :=
  cbn [Page.with_chat Page.chat_of Page.with_world Page.with_sessions
       Page.sessions_of Page.with_agents Page.agents_of
       Page.world Page.toasts Page.sessionList Page.activeSessionId
       Page.activeSessionData Page.localStorage Page.agentList Page.isSaving
       Page.transcript Page.transcriptRef Page.isLoading Page.calls
       Page.inputValue Page.pendingImages Page.editingAgent
       Page.isCreatingAgent Page.editingMessageId Page.editingMessageContent
       Page.editingMessageSpeaker
       Chat.world Chat.transcript Chat.transcriptRef Chat.isLoading Chat.calls
       Chat.reported
       UseSessions.world UseSessions.sessionList UseSessions.activeSessionId
       UseSessions.activeSessionData UseSessions.localStorage UseSessions.notices
       UseAgents.world UseAgents.agentList UseAgents.isSaving UseAgents.notices
       agents sessions ticks draws fst snd] in H.

Ltac run_page :=
  unfold Page.toast, Page.setTranscript, Page.closeEditModal, Page.setEditModal,
    Page.setInput, Page.setAgentModal, Page.in_chat, Page.in_store,
    Page.in_sessions, Page.in_agents, Page.zoom, Chat.setTranscript;
  run; pcbn.

Lemma toTranscript_filter (mid : jsstring) (msgs : list StoredMessage.t) :
  LocalDb._toTranscript (filter (λ m, StoredMessage.id m ≠ mid) msgs)
  = filter (λ item, TranscriptItem.id item ≠ mid) (LocalDb._toTranscript msgs).
Proof.
  unfold LocalDb._toTranscript.
  induction msgs as [|m msgs IH]; [done|].
  rewrite fmap_cons, !filter_cons, <- IH.
  destruct m; cbn; case_decide; done.
Qed.

Lemma without_streaming_filter (mid : jsstring) (tr : list TranscriptItem.t) :
  without_streaming <$> filter (λ item, TranscriptItem.id item ≠ mid) tr
  = filter (λ item, TranscriptItem.id item ≠ mid) (without_streaming <$> tr).
Proof.
  induction tr as [|x tr IH]; [done|].
  rewrite fmap_cons, !filter_cons, <- IH.
  destruct x; cbn; case_decide; done.
Qed.

(** Editing the items of an id where one item carries it edits that item. *)
Lemma edit_unique (mid c : jsstring) (l : list TranscriptItem.t) idx x :
  NoDup (TranscriptItem.id <$> l) → l !! idx = Some x → TranscriptItem.id x = mid →
  (λ item, if bool_decide (TranscriptItem.id item = mid)
           then Page.with_content item c else item) <$> l
  = <[idx := Page.with_content x c]> l.
Proof.
  intros Hnd Hx Hid. apply list_eq. intros j.
  rewrite list_lookup_fmap.
  destruct (decide (j = idx)) as [->|Hne].
  - rewrite list_lookup_insert_eq by (by eapply lookup_lt_Some).
    rewrite Hx. cbn. by rewrite bool_decide_eq_true_2.
  - rewrite list_lookup_insert_ne by done.
    destruct (l !! j) as [y|] eqn:Hy; [|done]. cbn.
    rewrite bool_decide_eq_false_2; [done|]. intros Hyid. apply Hne.
    apply (NoDup_lookup _ j idx mid Hnd);
      rewrite list_lookup_fmap; [rewrite Hy|rewrite Hx]; cbn; congruence.
Qed.

(** X16.  What the user does to the messages without calling an agent keeps
    the transcript in step with the store.  When the transcript shows the
    stored history of the active session, it still does after
    [addMessageOnly], [handleEditMessage] and [handleDeleteMessage], whether
    they succeed or fail.  [handleEditMessage] rewrites every item of the
    transcript that carries the id while the store rewrites the first message
    that does, so the ids of the transcript must be pairwise distinct; and
    the id drawn for a new message must not be the empty string, which the
    store would replace. *)
Theorem transcript_mirrors_store env (call : MessageCall) (st : Page.State) :
  keyed StoredSession.id (sessions (Page.world st)) →
  shows_stored st →
  (∀ m im, call = CallAddMessageOnly m im →
           randomUUID env (draws (Page.world st)) ≠ []) →
  (∀ mid c, call = CallEditMessage mid c →
            NoDup (TranscriptItem.id <$> Page.transcript st)) →
  shows_stored (run_message_call env call st)
  ∧ keyed StoredSession.id (sessions (Page.world (run_message_call env call st)))
  ∧ Page.activeSessionId (run_message_call env call st) = Page.activeSessionId st.
Proof.
  intros Hk Hshow Hid Hnd.
  destruct st as [w to sl a ad ls al sv tr trr il ca iv pi ea ic emi emc ems].
  unfold shows_stored in *. pcbn. pcbn in Hk. pcbn in Hshow. pcbn in Hid.
  pcbn in Hnd.
  destruct call as [message images|mid content|confirmed mid]; cbn [run_message_call].
  - specialize (Hid _ _ eq_refl).
    unfold Page.addMessageOnly. run_page.
    destruct a as [[|c i]|].
    1,3: unfold Chat.addMessageOnly; run; pcbn; split; [|done]; by intros ? ? ? [=].
    rewrite addMessageOnly_eq by done. pcbn.
    destruct (randomUUID env (draws w)) as [|u us] eqn:Hu; [done|].
    unfold LocalDb.dbAppendMessage, LocalDb._newId. run. pcbn.
    destruct (sessions w !! (c :: i)) as [s|] eqn:Hs; pcbn.
    2:{ split; [|done]. intros c' i' s' [= <- <-]. by rewrite Hs. }
    cbn [TranscriptItem.id TranscriptItem.with_id]. run. pcbn.
    pose proof (Hk _ _ Hs) as Hsid. unfold LocalDb.touch. cbn [StoredSession.id].
    rewrite Hsid. split; [|split; [|done]].
    + intros c' i' s' [= <- <-]. rewrite lookup_insert_eq. intros [= <-].
      cbn [StoredSession.messages].
      by rewrite fmap_app, toTranscript_app, (Hshow c i s eq_refl Hs).
    + by apply (keyed_insert StoredSession.id _ (StoredSession.mk _ _ _ _ _ _ _)).
  - specialize (Hnd _ _ eq_refl).
    unfold Page.handleEditMessage. run_page.
    destruct a as [[|c i]|]; pcbn; try (split; [|done]; by intros ? ? ? [=]).
    unfold LocalDb.dbUpdateMessageContent. run. pcbn.
    destruct (sessions w !! (c :: i)) as [s|] eqn:Hs; pcbn.
    2:{ split; [|done]. intros c' i' s' [= <- <-]. by rewrite Hs. }
    specialize (Hshow c i s eq_refl Hs).
    destruct (list_find _ _) as [[idx msg]|] eqn:Hfind; pcbn.
    2:{ split; [|done]. intros c' i' s' [= <- <-]. rewrite Hs. by intros [= <-]. }
    apply list_find_Some in Hfind as (Hidx & Hmid & _).
    pose proof (Hk _ _ Hs) as Hsid. unfold LocalDb.touch. cbn [StoredSession.id].
    rewrite Hsid. split; [|split; [|done]].
    + intros c' i' s' [= <- <-]. rewrite lookup_insert_eq. intros [= <-].
      cbn [StoredSession.messages].
      assert (Hids : TranscriptItem.id <$> (without_streaming <$> tr)
                     = TranscriptItem.id <$> tr).
      { rewrite <- list_fmap_compose. apply list_fmap_ext. by intros ? [] ?. }
      transitivity
        ((λ item, if bool_decide (TranscriptItem.id item = mid)
                  then Page.with_content item content else item)
           <$> (without_streaming <$> tr)).
      { rewrite <- !list_fmap_compose. apply list_fmap_ext.
        intros ? [] ?; cbn; case_bool_decide; done. }
      rewrite Hshow in Hids |- *.
      rewrite (edit_unique mid content _ idx
                 (default (TranscriptItem.System [] [])
                    (LocalDb._toTranscript (StoredSession.messages s) !! idx))).
      * unfold LocalDb._toTranscript. rewrite list_fmap_insert, list_lookup_fmap, Hidx.
        by destruct msg.
      * by rewrite Hids.
      * unfold LocalDb._toTranscript. by rewrite list_lookup_fmap, Hidx.
      * unfold LocalDb._toTranscript. rewrite list_lookup_fmap, Hidx.
        by destruct msg.
    + by apply (keyed_insert StoredSession.id _ (StoredSession.mk _ _ _ _ _ _ _)).
  - unfold Page.handleDeleteMessage. run_page.
    destruct a as [[|c i]|]; pcbn; try (split; [|done]; by intros ? ? ? [=]).
    destruct confirmed; pcbn; [|done].
    unfold LocalDb.dbDeleteMessage. run. pcbn.
    destruct (sessions w !! (c :: i)) as [s|] eqn:Hs; pcbn.
    2:{ split; [|done]. intros c' i' s' [= <- <-]. by rewrite Hs. }
    specialize (Hshow c i s eq_refl Hs).
    case_bool_decide as Hlen; pcbn.
    { split; [|done]. intros c' i' s' [= <- <-]. rewrite Hs. by intros [= <-]. }
    pose proof (Hk _ _ Hs) as Hsid. unfold LocalDb.touch. cbn [StoredSession.id].
    rewrite Hsid. split; [|split; [|done]].
    + intros c' i' s' [= <- <-]. rewrite lookup_insert_eq. intros [= <-].
      cbn [StoredSession.messages].
      by rewrite without_streaming_filter, toTranscript_filter, Hshow.
    + by apply (keyed_insert StoredSession.id _ (StoredSession.mk _ _ _ _ _ _ _)).
Qed.

Lemma demo_page_keyed : keyed StoredSession.id (sessions (Page.world DemoPage.page)).
Proof.
  unfold DemoPage.page, Demo.w4, Demo.w3, Demo.w2, Demo.w1. cbn [Page.world].
  repeat (apply (run_op_keyed_sessions Demo.env (AppendMessage _ _))).
  apply (run_op_keyed_sessions Demo.env (CreateSession _ _)).
  apply keyed_empty.
Qed.

Lemma demo_page_shows_stored : shows_stored DemoPage.page.
Proof.
  intros c i s Hact Hs. vm_compute in Hact. injection Hact as <- <-.
  vm_compute in Hs. injection Hs as <-. vm_compute. reflexivity.
Qed.

Lemma transcript_mirrors_store_witness :
  keyed StoredSession.id (sessions (Page.world DemoPage.page))
  ∧ shows_stored DemoPage.page
  ∧ shows_stored
      (run_message_call Demo.env (CallDeleteMessage true (js "m-reply"))
         DemoPage.page)
  ∧ TranscriptItem.id
      <$> Page.transcript
            (run_message_call Demo.env (CallDeleteMessage true (js "m-reply"))
               DemoPage.page)
    = [js "m-hello"; js "m-thanks"].
Proof.
  split; [exact demo_page_keyed|]. split; [exact demo_page_shows_stored|].
  split; [|vm_compute; reflexivity].
  apply (transcript_mirrors_store Demo.env _ _ demo_page_keyed
           demo_page_shows_stored).
  - intros m im Hc. discriminate Hc.
  - intros mid c Hc. discriminate Hc.
Defined.

(** ** Turning to a session: after an import, on mount *)

Lemma loadAgents_returns (DEFAULT_AGENTS : list Agent.t) legacy
    (a : UseAgents.State) :
  ∃ a',
    UseAgents.loadAgents DEFAULT_AGENTS legacy a = (Returned tt, a')
    ∧ sessions (UseAgents.world a') = sessions (UseAgents.world a)
    ∧ UseAgents.notices a' = UseAgents.notices a
    ∧ (ObjectStore.getAll (agents (UseAgents.world a)) ≠ [] →
         agents (UseAgents.world a') = agents (UseAgents.world a)
         ∧ UseAgents.agentList a' = ObjectStore.getAll (agents (UseAgents.world a))).
Proof.
  destruct a as [w l sv n]. unfold UseAgents.loadAgents. run_agents. acbn.
  destruct (ObjectStore.getAll (agents w)) as [|a0 l0] eqn:Hall; acbn.
  2:{ eexists (UseAgents.mkState _ _ _ _). split; [reflexivity|]. acbn.
      auto. }
  destruct legacy as [[|r rs]|]; acbn;
    (eexists (UseAgents.mkState _ _ _ _); split; [reflexivity|]; acbn; done).
Qed.

Lemma loadSessionHistory_eq (sid : jsstring) (s : UseSessions.State) :
  UseSessions.loadSessionHistory sid s
  = match sessions (UseSessions.world s) !! sid with
    | Some stored =>
        (Returned (LocalDb._toTranscript (StoredSession.messages stored)),
         UseSessions.mkState (UseSessions.world s) (UseSessions.sessionList s)
           (UseSessions.activeSessionId s)
           (Some (SessionDetail.mk (LocalDb._toSessionSummary stored)
                    (LocalDb._toTranscript (StoredSession.messages stored))))
           (UseSessions.localStorage s) (UseSessions.notices s))
    | None => (Returned [], s)
    end.
Proof.
  destruct s as [w l a d ls n].
  unfold UseSessions.loadSessionHistory, LocalDb.dbGetSessionDetail. run_hook.
  hcbn. by destruct (sessions w !! sid).
Qed.

Lemma without_streaming_toTranscript (msgs : list StoredMessage.t) :
  without_streaming <$> LocalDb._toTranscript msgs = LocalDb._toTranscript msgs.
Proof.
  unfold LocalDb._toTranscript. rewrite <- list_fmap_compose.
  apply list_fmap_ext. by intros ? [] ?.
Qed.

(** The session the page turns to is a listed one, the preferred one when it
    is listed, and there is one whenever a session is listed. *)
Lemma pick_session_spec (preferred : option jsstring)
    (loaded : list SessionSummary.t) :
  (∀ x, Page.pick_session preferred loaded = Some x →
        x ∈ SessionSummary.id <$> loaded)
  ∧ (loaded ≠ [] → is_Some (Page.pick_session preferred loaded))
  ∧ (∀ c i, preferred = Some (c :: i) → c :: i ∈ SessionSummary.id <$> loaded →
            Page.pick_session preferred loaded = Some (c :: i)).
Proof.
  assert (Hhead : ∀ x, SessionSummary.id <$> head loaded = Some x →
                       x ∈ SessionSummary.id <$> loaded).
  { intros x. destruct loaded as [|s l]; [done|]. intros [= <-]. left. }
  unfold Page.pick_session. split; [|split].
  - intros x. destruct preferred as [[|c i]|]; try apply Hhead.
    case_bool_decide as Hex; [|apply Hhead]. intros [= <-].
    apply Exists_exists in Hex as (s & Hs & <-). by apply list_elem_of_fmap_2.
  - intros Hne. destruct loaded as [|s l]; [done|].
    destruct preferred as [[|c i]|]; try (by eexists).
    case_bool_decide; by eexists.
  - intros c i -> [s [Hid Hs]]%list_elem_of_fmap.
    rewrite bool_decide_eq_true_2; [done|]. apply Exists_exists. eauto.
Qed.

(** [loadAgents] and then [loadSessions], as [init] and [handleImportedData]
    run them: the sessions of a store that holds one are left alone, the list
    of the sidebar is what [loadSessions] answers, and the active session, the
    slot and the transcript are as they were. *)
Lemma load_both env (DEFAULT_AGENTS : list Agent.t) legacyAgents legacySessions
    (st : Page.State) {A} (k : list SessionSummary.t → M Page.State A) :
  ∃ st1,
    (Page.in_agents (UseAgents.loadAgents DEFAULT_AGENTS legacyAgents) ;;;
     loadedSessions <- Page.in_sessions (UseSessions.loadSessions env legacySessions) ;;
     k loadedSessions) st
    = k (Page.sessionList st1) st1
    ∧ Page.activeSessionId st1 = Page.activeSessionId st
    ∧ Page.localStorage st1 = Page.localStorage st
    ∧ Page.toasts st1 = Page.toasts st
    ∧ (sessions (Page.world st) ≠ ∅ →
         sessions (Page.world st1) = sessions (Page.world st))
    ∧ (keyed StoredSession.id (sessions (Page.world st)) →
         listed_in_sync (Page.sessions_of st1)
         ∧ keyed StoredSession.id (sessions (Page.world st1))).
Proof.
  destruct (loadAgents_returns DEFAULT_AGENTS legacyAgents (Page.agents_of st))
    as (a' & Ha & Has & Hat & _).
  rewrite bind_eq. unfold Page.in_agents at 1, Page.zoom at 1. rewrite Ha.
  destruct (loadSessions_spec env legacySessions
              (Page.sessions_of (Page.with_agents a' st)))
    as (s' & Hs & Hsa & _ & Hsl & Hsn & _ & Hss & Hsk).
  rewrite bind_eq. unfold Page.in_sessions at 1, Page.zoom at 1. rewrite Hs.
  exists (Page.with_sessions s' (Page.with_agents a' st)).
  split; [reflexivity|].
  destruct st as [w to sl a ad ls al sv tr trr il ca iv pi ea ic emi emc ems].
  pcbn in Has. pcbn in Hat. pcbn in Hsa. pcbn in Hsl. pcbn in Hsn. pcbn in Hss.
  pcbn in Hsk. pcbn.
  split; [done|]. split; [done|]. split; [congruence|].
  rewrite Has in Hss, Hsk. split; [done|].
  intros Hk. destruct (Hsk Hk) as [Hsync Hk']. split; [|done].
  by destruct s'.
Qed.

(** [handleImportedData] on a keyed store: the list agrees with the store,
    the page turns to the session [pick_session] names, and shows the stored
    history of that session, or nothing when there is none. *)
Lemma handleImportedData_spec env (DEFAULT_AGENTS : list Agent.t) legacyAgents
    legacySessions (preferred : option jsstring) (st : Page.State) :
  keyed StoredSession.id (sessions (Page.world st)) →
  ∃ st',
    Page.handleImportedData env DEFAULT_AGENTS legacyAgents legacySessions
      preferred st
    = (Returned tt, st')
    ∧ listed_in_sync (Page.sessions_of st')
    ∧ keyed StoredSession.id (sessions (Page.world st'))
    ∧ (sessions (Page.world st) ≠ ∅ →
         sessions (Page.world st') = sessions (Page.world st))
    ∧ Page.activeSessionId st' = Page.pick_session preferred (Page.sessionList st')
    ∧ (∀ c i, Page.activeSessionId st' = Some (c :: i) →
         ∃ s, sessions (Page.world st') !! (c :: i) = Some s
              ∧ Page.transcript st' = LocalDb._toTranscript (StoredSession.messages s)
              ∧ Page.activeSessionData st'
                = Some (SessionDetail.mk (LocalDb._toSessionSummary s)
                          (LocalDb._toTranscript (StoredSession.messages s))))
    ∧ ((∀ c i, Page.activeSessionId st' ≠ Some (c :: i)) →
         Page.transcript st' = [] ∧ Page.activeSessionData st' = None).
Proof.
  intros Hk.
  set (k := λ loadedSessions,
              let nextSessionId := Page.pick_session preferred loadedSessions in
              Page.in_sessions (UseSessions.setActiveSessionId nextSessionId) ;;;
              match nextSessionId with
              | Some (c :: i) =>
                  history <- Page.in_sessions
                               (UseSessions.loadSessionHistory (c :: i)) ;;
                  Page.setTranscript (λ _, history)
              | _ =>
                  Page.setTranscript (λ _, []) ;;;
                  Page.in_sessions (UseSessions.setActiveSessionData (λ _, None))
              end).
  destruct (load_both env DEFAULT_AGENTS legacyAgents legacySessions st k)
    as (st1 & Heq & _ & _ & _ & Hstore & Hsync).
  change (Page.handleImportedData env DEFAULT_AGENTS legacyAgents legacySessions
            preferred st)
    with ((Page.in_agents (UseAgents.loadAgents DEFAULT_AGENTS legacyAgents) ;;;
           loadedSessions <-
             Page.in_sessions (UseSessions.loadSessions env legacySessions) ;;
           k loadedSessions) st).
  rewrite Heq. clear Heq. unfold k. clear k.
  destruct (Hsync Hk) as [[Hlisted Hall] Hk1]. clear Hsync.
  destruct (pick_session_spec preferred (Page.sessionList st1)) as (Hin & _ & _).
  destruct st1 as [w to sl a ad ls al sv tr trr il ca iv pi ea ic emi emc ems].
  pcbn in Hstore. pcbn in Hlisted. pcbn in Hall. pcbn in Hk1. pcbn in Hin.
  cbv zeta. rewrite bind_eq.
  unfold Page.in_sessions at 1, Page.zoom at 1, UseSessions.setActiveSessionId,
    modify. pcbn.
  destruct (Page.pick_session preferred sl) as [[|c i]|] eqn:Hpick.
  - run_page. unfold UseSessions.setActiveSessionData. run. pcbn.
    eexists. split; [reflexivity|]. pcbn.
    do 4 (split; [done|]). split; [by intros ? ? [=]|done].
  - rewrite bind_eq. unfold Page.in_sessions at 1, Page.zoom at 1.
    rewrite loadSessionHistory_eq. pcbn.
    pose proof (Hin _ eq_refl) as Hx.
    apply list_elem_of_fmap in Hx as [x [Hx Hxin]].
    destruct (Hlisted x Hxin) as (s & Hs & _). rewrite <- Hx in Hs. rewrite Hs.
    run_page. eexists. split; [reflexivity|]. pcbn.
    do 4 (split; [done|]). split.
    + intros ? ? [= <- <-]. eauto.
    + intros Hnone. by destruct (Hnone c i).
  - run_page. unfold UseSessions.setActiveSessionData. run. pcbn.
    eexists. split; [reflexivity|]. pcbn.
    do 4 (split; [done|]). split; [by intros ? ? [=]|done].
Qed.

(** ** Importing a file *)

Lemma put_each_spec {T} (put : T → World → World) (l : list (Backup.Elem T))
    (w : World) r :
  Backup.put_each put l w = Some r →
  r.2 = foldl (λ acc x, put x acc) w (typed_prefix l)
  ∧ ((∃ u, r.1 = Returned u) ↔ l = Backup.typed <$> typed_prefix l).
Proof.
  revert w. induction l as [|[x| |] l IH]; intros w; cbn.
  - intros [= <-]. cbn. split; [done|]. split; [done|by eexists].
  - unfold pbind, total, modify. cbn. intros H.
    destruct (IH _ H) as [Hw Hiff]. split; [done|]. rewrite Hiff.
    split; [by intros <-|by intros [= ?]].
  - intros [= <-]. cbn. split; [done|]. split; [by intros [? ?]|done].
  - done.
Qed.

Lemma put_all_spec {T} (put : T → World → World) (l : Backup.Listing T)
    (w : World) r :
  Backup.put_all put l w = Some r →
  r.2 = foldl (λ acc x, put x acc) w (put_by_loop l)
  ∧ ((∃ u, r.1 = Returned u) ↔ all_typed l).
Proof.
  destruct l as [|l]; cbn.
  - intros [= <-]. cbn. split; [done|]. split; [by intros [? ?]|done].
  - intros [Hw Hiff]%put_each_spec. split; [done|]. rewrite Hiff.
    unfold all_typed. cbn. split; [by intros <-|by intros [= ?]].
Qed.

Lemma foldl_put_agents (xs : list Agent.t) (w : World) :
  foldl (λ acc a, set_agents (insert (Agent.name a) a) acc) w xs
  = set_agents (ObjectStore.putAll Agent.name xs) w.
Proof.
  revert w. induction xs as [|x xs IH]; intros w; [by destruct w|].
  cbn. rewrite IH. by destruct w.
Qed.

Lemma foldl_put_sessions (xs : list StoredSession.t) (w : World) :
  foldl (λ acc s, set_sessions (insert (StoredSession.id s) s) acc) w xs
  = set_sessions (ObjectStore.putAll StoredSession.id xs) w.
Proof.
  revert w. induction xs as [|x xs IH]; intros w; [by destruct w|].
  cbn. rewrite IH. by destruct w.
Qed.

(** [dbImportBundle] on a tagged value: both stores are cleared, and each
    loop puts the records it meets before a value that is none; the sessions
    are reached when every agent was a record, and the import returns when
    both lists hold records only. *)
Lemma dbImportBundle_tagged (t : Backup.Tagged) (w : World) r :
  Backup.dbImportBundle (Backup.tagged t) w = Some r →
  agents r.2 = ObjectStore.putAll Agent.name (put_by_loop (Backup.agents t)) ∅
  ∧ (all_typed (Backup.agents t) →
       sessions r.2
       = ObjectStore.putAll StoredSession.id (put_by_loop (Backup.sessions t)) ∅)
  ∧ (¬ all_typed (Backup.agents t) → sessions r.2 = ∅)
  ∧ ticks r.2 = ticks w ∧ draws r.2 = draws w
  ∧ ((∃ u, r.1 = Returned u)
     ↔ all_typed (Backup.agents t) ∧ all_typed (Backup.sessions t)).
Proof.
  unfold Backup.dbImportBundle, pbind, total, modify. cbn.
  destruct (Backup.put_all _ (Backup.agents t) _) as [[[[]|e] w1]|] eqn:Ha;
    [| |done].
  - apply put_all_spec in Ha as [Hw1 Hta]. cbn in Hw1.
    rewrite foldl_put_agents in Hw1.
    assert (all_typed (Backup.agents t)) as Hall by (apply Hta; by eexists).
    intros Hs. apply put_all_spec in Hs as [Hw2 Hts].
    rewrite foldl_put_sessions, Hw1 in Hw2. rewrite Hw2. cbn.
    split; [done|]. split; [done|]. split; [done|]. split; [done|].
    split; [done|]. rewrite Hts. tauto.
  - apply put_all_spec in Ha as [Hw1 Hta]. cbn in Hw1.
    rewrite foldl_put_agents in Hw1.
    assert (¬ all_typed (Backup.agents t)) as Hall
      by (intros [? [=]]%Hta).
    intros [= <-]. rewrite Hw1. cbn.
    split; [done|]. split; [done|]. split; [done|]. split; [done|].
    split; [done|]. split; [by intros [? [=]]|tauto].
Qed.

(** A value that is not tagged is refused before the store is opened. *)
Lemma dbImportBundle_refuses (parsed : Backup.Parsed) (w : World) :
  (∀ t, parsed ≠ Backup.tagged t) →
  ∃ e, Backup.dbImportBundle parsed w = Some (Threw e, w).
Proof. intros Hno. destruct parsed; [by eexists..|by destruct (Hno t)]. Qed.

Lemma putAll_lookup_Some {V} (key : V → jsstring) (vs : list V) k :
  k ∈ key <$> vs →
  ∃ v, ObjectStore.putAll key vs ∅ !! k = Some v ∧ latest key k vs = Some v.
Proof.
  intros Hin. rewrite putAll_lookup.
  destruct (latest key k vs) as [v|] eqn:Hl; [eauto|].
  apply latest_None in Hl. done.
Qed.

Lemma handleImportFile_eq env (DEFAULT_AGENTS : list Agent.t)
    (codec : Backup.Codec) (file : Backup.File) legacyAgents legacySessions
    (st : Page.State) :
  Page.handleImportFile env DEFAULT_AGENTS codec file legacyAgents legacySessions st
  = match Backup.importFromFile codec file (Page.world st) with
    | Some (Returned parsed, w) =>
        Some (Page.handleImportedData env DEFAULT_AGENTS legacyAgents
                legacySessions (Backup.preferred_session parsed)
                (Page.with_world w st))
    | Some (Threw e, w) => Some (Threw e, Page.with_world w st)
    | None => None
    end.
Proof.
  unfold Page.handleImportFile, pbind, total.
  by destruct (Backup.importFromFile codec file (Page.world st)) as [[[]]|].
Qed.

(** X17.  Importing a file from the data dialog.  When [importFromFile]
    throws, [handleImportFile] throws the same value and nothing of the page
    is reloaded: its lists, its active session and its transcript are as they
    were, over the store as the import left it.  That store is the old one
    when the import did not come to an object with the tag and the version.
    When it did, both stores have been cleared and hold the records the loops
    put before the throw: a tagged file without a list of agents leaves both
    stores empty.  When [importFromFile] returns, the file held lists of
    records: the list of the sidebar agrees with the store and the page turns
    to the file's active session when the file holds it, else to the first
    session listed, and shows exactly the stored history of that session; if
    the file holds a session, the sessions of the store are those of the file
    and one of them is active. *)
Theorem import_file_then_show env (DEFAULT_AGENTS : list Agent.t)
    (codec : Backup.Codec) (file : Backup.File) legacyAgents legacySessions
    (st : Page.State) :
  (∀ e w', Backup.importFromFile codec file (Page.world st) = Some (Threw e, w') →
     Page.handleImportFile env DEFAULT_AGENTS codec file legacyAgents
       legacySessions st
     = Some (Threw e, Page.with_world w' st)
     ∧ ticks w' = ticks (Page.world st) ∧ draws w' = draws (Page.world st))
  ∧ ((∀ t, file_value codec file ≠ Some (Backup.tagged t)) →
       ∃ e, Backup.importFromFile codec file (Page.world st)
            = Some (Threw e, Page.world st))
  ∧ (∀ t e w',
       file_value codec file = Some (Backup.tagged t) →
       Backup.importFromFile codec file (Page.world st) = Some (Threw e, w') →
       agents w' = ObjectStore.putAll Agent.name (put_by_loop (Backup.agents t)) ∅
       ∧ (all_typed (Backup.agents t) →
            sessions w'
            = ObjectStore.putAll StoredSession.id
                (put_by_loop (Backup.sessions t)) ∅
            ∧ ¬ all_typed (Backup.sessions t))
       ∧ (¬ all_typed (Backup.agents t) → sessions w' = ∅))
  ∧ (∀ t,
       file_value codec file = Some (Backup.tagged t) →
       Backup.agents t = Backup.not_iterable →
       ∃ e, Page.handleImportFile env DEFAULT_AGENTS codec file legacyAgents
              legacySessions st
            = Some (Threw e,
                    Page.with_world
                      (mkWorld ∅ ∅ (ticks (Page.world st)) (draws (Page.world st)))
                      st))
  ∧ (∀ parsed w',
       Backup.importFromFile codec file (Page.world st)
       = Some (Returned parsed, w') →
       ∃ t ags ses st',
         parsed = Backup.tagged t
         ∧ Backup.agents t = Backup.elements (Backup.typed <$> ags)
         ∧ Backup.sessions t = Backup.elements (Backup.typed <$> ses)
         ∧ Page.handleImportFile env DEFAULT_AGENTS codec file legacyAgents
             legacySessions st
           = Some (Returned tt, st')
         ∧ listed_in_sync (Page.sessions_of st')
         ∧ shows_stored st'
         ∧ Page.activeSessionId st'
           = Page.pick_session (Backup.active_session_id t) (Page.sessionList st')
         ∧ (ses ≠ [] →
              sessions (Page.world st') = ObjectStore.putAll StoredSession.id ses ∅
              ∧ is_Some (Page.activeSessionId st'))
         ∧ (∀ c i,
              Backup.active_session_id t = Some (c :: i) →
              c :: i ∈ StoredSession.id <$> ses →
              Page.activeSessionId st' = Some (c :: i)
              ∧ ∃ s,
                  latest StoredSession.id (c :: i) ses = Some s
                  ∧ Page.transcript st'
                    = LocalDb._toTranscript (StoredSession.messages s))).
Proof.
  pose proof (importFromFile_eq codec file (Page.world st)) as Heq.
  rewrite handleImportFile_eq.
  split; [|split; [|split; [|split]]].
  - intros e w' Hthrow. rewrite Hthrow. split; [done|].
    destruct (file_value codec file) as [parsed|];
      [|destruct Heq as [? Heq]; rewrite Heq in Hthrow; by injection Hthrow as _ <-].
    rewrite Heq in Hthrow. unfold pbind, total in Hthrow.
    destruct (Backup.dbImportBundle parsed (Page.world st)) as [[[[]|e'] w1]|] eqn:Hi;
      [done| |done].
    injection Hthrow as _ <-.
    destruct parsed as [| |t].
    + by injection Hi as _ <-.
    + by injection Hi as _ <-.
    + apply dbImportBundle_tagged in Hi. tauto.
  - intros Hno.
    destruct (file_value codec file) as [parsed|]; [|done].
    destruct (dbImportBundle_refuses parsed (Page.world st)) as [e He].
    { intros t ->. by destruct (Hno t). }
    rewrite Heq. unfold pbind. rewrite He. by eexists.
  - intros t e w' Ht Hthrow. rewrite Ht in Heq. rewrite Heq in Hthrow.
    unfold pbind, total in Hthrow.
    destruct (Backup.dbImportBundle _ _) as [[[[]|e'] w1]|] eqn:Hi; [done| |done].
    injection Hthrow as _ <-.
    apply dbImportBundle_tagged in Hi as (Ha & Hs & Hs' & _ & _ & Hret).
    cbn in *. split; [done|]. split; [|done].
    intros Hall. split; [by apply Hs|].
    intros Hall'. destruct Hret as [_ Hret]. by destruct Hret as [? [=]].
  - intros t Ht Hnot. rewrite Ht in Heq. rewrite Heq.
    unfold pbind, total, Backup.dbImportBundle, modify, pbind, total.
    rewrite Hnot. cbn. by eexists.
  - intros parsed w' Hret.
    destruct (file_value codec file) as [parsed'|];
      [|by destruct Heq as [? Heq]; rewrite Heq in Hret].
    rewrite Heq in Hret. unfold pbind, total in Hret.
    destruct (Backup.dbImportBundle _ _) as [[[[]|e'] w1]|] eqn:Hi; [|done..].
    injection Hret as <- <-.
    destruct parsed' as [| |t]; [by unfold Backup.dbImportBundle, total, throw in Hi..|].
    pose proof (dbImportBundle_tagged _ _ _ Hi) as (Ha & Hs & _ & _ & _ & [Hta Hts]).
    destruct Hta as [Hta' Hts']; [by eexists|]. specialize (Hs Hta').
    rewrite Heq. unfold pbind, total. rewrite Hi.
    set (ags := put_by_loop (Backup.agents t)) in *.
    set (ses := put_by_loop (Backup.sessions t)) in *.
    exists t, ags, ses.
    set (st1 := Page.with_world w1 st).
    assert (Hk1 : keyed StoredSession.id (sessions (Page.world st1))).
    { destruct st. cbn in *. rewrite Hs. apply keyed_putAll, keyed_empty. }
    assert (Hst1 : sessions (Page.world st1)
                   = ObjectStore.putAll StoredSession.id ses ∅)
      by (by destruct st).
    destruct (handleImportedData_spec env DEFAULT_AGENTS legacyAgents
                legacySessions (Backup.active_session_id t) st1 Hk1)
      as (st' & Hrun & Hsync & _ & Hstore & Hpick & Hshow & _).
    assert (Hfull : ∀ k, k ∈ StoredSession.id <$> ses →
                         sessions (Page.world st')
                         = ObjectStore.putAll StoredSession.id ses ∅
                         ∧ k ∈ SessionSummary.id <$> Page.sessionList st').
    { intros k Hin.
      destruct (putAll_lookup_Some StoredSession.id _ k Hin) as (v & Hv & _).
      assert (sessions (Page.world st')
              = ObjectStore.putAll StoredSession.id ses ∅)
        as Heq'.
      { rewrite <- Hst1. apply Hstore. rewrite Hst1. intros Hempty.
        by rewrite Hempty, lookup_empty in Hv. }
      split; [done|]. destruct Hsync as [_ Hall].
      destruct st'. apply Hall. pcbn. pcbn in Heq'. rewrite Heq'. eauto. }
    exists st'. split; [done|]. split; [done|]. split; [done|].
    split; [f_equal; exact Hrun|]. split; [done|].
    split; [|split; [done|split]].
    + intros c i s Hact Hs0. destruct (Hshow c i Hact) as (s' & Hs' & -> & _).
      rewrite Hs0 in Hs'. injection Hs' as <-.
      apply without_streaming_toTranscript.
    + intros Hne. destruct ses as [|x l] eqn:Hb; [done|].
      destruct (Hfull (StoredSession.id x)) as [Heq' Hin]; [left|].
      split; [done|]. rewrite Hpick.
      apply pick_session_spec. intros Hnil. rewrite Hnil in Hin.
      by apply elem_of_nil in Hin.
    + intros c i Hpref Hin. destruct (Hfull _ Hin) as [Heq' Hlisted].
      assert (Hact : Page.activeSessionId st' = Some (c :: i)).
      { rewrite Hpick. by apply pick_session_spec. }
      split; [done|].
      destruct (putAll_lookup_Some StoredSession.id _ _ Hin) as (v & Hv & Hlatest).
      destruct (Hshow c i Hact) as (s' & Hs' & Htr & _).
      rewrite Heq', Hv in Hs'. injection Hs' as <-. eauto.
Qed.

(** X18.  Mounting the page over a keyed store and a saved session id: the
    hook takes the saved id as the active one, then [init] loads the agents
    and the sessions and turns to a session.  Afterwards the list agrees with
    the store; when a session is listed, the active session is a stored one,
    the saved one if the store holds it and the first listed otherwise, and
    the slot holds its id; when none is listed, nothing is corrected: the
    saved id stays the active one although the store holds no such
    session. *)
Theorem init_turns_to_session env (DEFAULT_AGENTS : list Agent.t) legacyAgents
    legacySessions (w : World) (saved : option jsstring) :
  keyed StoredSession.id (sessions w) →
  ∃ st',
    (Page.in_sessions UseSessions.mount ;;;
     Page.init env DEFAULT_AGENTS legacyAgents legacySessions)
      (Page.initial w saved)
    = (Returned tt, st')
    ∧ listed_in_sync (Page.sessions_of st')
    ∧ (sessions w ≠ ∅ → sessions (Page.world st') = sessions w)
    ∧ (Page.sessionList st' ≠ [] →
         is_Some (Page.activeSessionId st')
         ∧ active_is_stored (Page.sessions_of st')
         ∧ (∀ c i, Page.activeSessionId st' = Some (c :: i) →
                   Page.localStorage st' = Some (c :: i)))
    ∧ (∀ c i, saved = Some (c :: i) →
         is_Some (sessions (Page.world st') !! (c :: i)) →
         Page.activeSessionId st' = Some (c :: i))
    ∧ (Page.sessionList st' = [] →
         Page.localStorage st' = saved
         ∧ Page.activeSessionId st'
           = match saved with Some (c :: i) => Some (c :: i) | _ => None end)
    ∧ (∀ s l, Page.sessionList st' = s :: l →
         (∀ c i, saved = Some (c :: i) →
                 sessions (Page.world st') !! (c :: i) = None) →
         Page.activeSessionId st' = Some (SessionSummary.id s)
         ∧ is_Some (sessions (Page.world st') !! SessionSummary.id s)).
Proof.
  intros Hk. rewrite bind_eq.
  unfold Page.in_sessions at 1, Page.zoom at 1, UseSessions.mount.
  set (st0 := Page.mkState w [] []
                (match saved with Some (c :: i) => Some (c :: i) | _ => None end)
                None saved [] false [] [] false [] [] [] None false None [] []).
  assert (Hmount :
    (savedId <- gets UseSessions.localStorage ;;
     match savedId with
     | Some (c :: i) => UseSessions.setActiveSessionIdState (λ _, Some (c :: i))
     | _ => ret tt
     end) (Page.sessions_of (Page.initial w saved))
    = (Returned tt, Page.sessions_of st0)).
  { unfold Page.initial, st0. run_hook. pcbn. by destruct saved as [[|c i]|]. }
  rewrite Hmount.
  assert (Page.with_sessions (Page.sessions_of st0) (Page.initial w saved) = st0)
    as -> by reflexivity.
  set (k := λ loadedSessions : list SessionSummary.t,
              savedId <- gets Page.localStorage ;;
              match savedId with
              | Some (c :: i) =>
                  if bool_decide (Exists (λ s, SessionSummary.id s = c :: i)
                                    loadedSessions)
                  then Page.in_sessions
                         (UseSessions.setActiveSessionId (Some (c :: i)))
                  else
                    match loadedSessions with
                    | s :: _ =>
                        Page.in_sessions
                          (UseSessions.setActiveSessionId
                             (Some (SessionSummary.id s)))
                    | [] => ret tt
                    end
              | _ =>
                  match loadedSessions with
                  | s :: _ =>
                      Page.in_sessions
                        (UseSessions.setActiveSessionId (Some (SessionSummary.id s)))
                  | [] => ret tt
                  end
              end).
  destruct (load_both env DEFAULT_AGENTS legacyAgents legacySessions st0 k)
    as (st1 & Heq & Hact & Hslot & _ & Hstore & Hsync).
  change (Page.init env DEFAULT_AGENTS legacyAgents legacySessions st0)
    with ((Page.in_agents (UseAgents.loadAgents DEFAULT_AGENTS legacyAgents) ;;;
           loadedSessions <-
             Page.in_sessions (UseSessions.loadSessions env legacySessions) ;;
           k loadedSessions) st0).
  rewrite Heq. clear Heq. unfold k. clear k.
  destruct (Hsync Hk) as [[Hlisted Hall] Hk1]. clear Hsync.
  destruct st1 as [w1 to sl a ad ls al sv tr trr il ca iv pi ea ic emi emc ems].
  unfold st0 in *. pcbn in Hact. pcbn in Hslot. pcbn in Hstore. pcbn in Hlisted.
  pcbn in Hall. pcbn in Hk1. subst a ls.
  rewrite bind_eq. unfold gets at 1. pcbn.
  assert (Hstored : ∀ x, x ∈ SessionSummary.id <$> sl → is_Some (sessions w1 !! x)).
  { intros x [s [-> Hs]]%list_elem_of_fmap.
    destruct (Hlisted s Hs) as (stored & -> & _). by eexists. }
  assert (Hturn : ∀ x, x ∈ SessionSummary.id <$> sl → sl ≠ [] →
    ∃ st',
      Page.in_sessions (UseSessions.setActiveSessionId (Some x))
        (Page.mkState w1 to sl
           (match saved with Some (c :: i) => Some (c :: i) | _ => None end)
           ad saved al sv tr trr il ca iv pi ea ic emi emc ems)
      = (Returned tt, st')
      ∧ listed_in_sync (Page.sessions_of st')
      ∧ (sessions w ≠ ∅ → sessions (Page.world st') = sessions w)
      ∧ Page.sessionList st' = sl
      ∧ Page.activeSessionId st' = Some x
      ∧ sessions (Page.world st') = sessions w1
      ∧ (∀ c i, x = c :: i → Page.localStorage st' = Some (c :: i))).
  { intros x Hx Hne. run_page. unfold UseSessions.setActiveSessionId. run. pcbn.
    eexists. split; [reflexivity|]. pcbn. repeat split; try done.
    intros c i ->. done. }
  destruct saved as [[|c i]|].
  1,3: destruct sl as [|s sl'];
    [eexists; split; [reflexivity|]; pcbn;
     split; [done|]; split; [done|]; split; [done|];
     split; [intros ? ? [=]|split; [done|intros ? ? [=]]]
    |destruct (Hturn (SessionSummary.id s)) as
       (st' & -> & Hs1 & Hs2 & Hs3 & Hs4 & Hs5 & Hs6); [left|done|];
     exists st'; split; [done|]; split; [done|]; split; [done|];
     rewrite Hs3, Hs4, Hs5; split;
     [intros _; split; [by eexists|]; split;
      [intros x; destruct st'; pcbn in Hs4; pcbn in Hs5; pcbn;
       rewrite Hs4, Hs5; intros [= <-]; apply Hstored; left
      |intros c' i' [= Hx]; by apply Hs6]
     |split; [intros ? ? [=]
             |split; [done
                     |intros s0 l0 [= <- <-] _; split; [done|apply Hstored; left]]]]].
  case_bool_decide as Hex.
  - destruct (Hturn (c :: i)) as (st' & -> & Hs1 & Hs2 & Hs3 & Hs4 & Hs5 & Hs6).
    { apply Exists_exists in Hex as (s & Hs & <-). by apply list_elem_of_fmap_2. }
    { intros ->. by apply Exists_nil in Hex. }
    exists st'. split; [done|]. split; [done|]. split; [done|].
    rewrite Hs3, Hs4, Hs5. split; [|split; [|split]].
    + intros _. split; [by eexists|]. split.
      * intros x. destruct st'. pcbn in Hs4. pcbn in Hs5. pcbn.
        rewrite Hs4, Hs5. intros [= <-]. apply Hstored.
        apply Exists_exists in Hex as (s & Hs & <-). by apply list_elem_of_fmap_2.
      * intros c' i' [= <- <-]. by apply Hs6.
    + by intros ? ? [= <- <-] _.
    + intros ->. by apply Exists_nil in Hex.
    + intros s l -> Hnone. exfalso.
      destruct (Hstored (c :: i)) as [x Hx].
      { apply Exists_exists in Hex as (s0 & Hs0 & <-). by apply list_elem_of_fmap_2. }
      by rewrite (Hnone c i eq_refl) in Hx.
  - destruct sl as [|s sl'].
    + eexists. split; [reflexivity|]. pcbn.
      split; [done|]. split; [done|]. split; [done|].
      split; [|split; [done|intros ? ? [=]]].
      intros ? ? [= <- <-] [stored Hst].
      specialize (Hall (c :: i) (ltac:(by eexists))). by apply elem_of_nil in Hall.
    + destruct (Hturn (SessionSummary.id s))
        as (st' & -> & Hs1 & Hs2 & Hs3 & Hs4 & Hs5 & Hs6); [left|done|].
      exists st'. split; [done|]. split; [done|]. split; [done|].
      rewrite Hs3, Hs4, Hs5. split; [|split; [|split; [done|]]].
      * intros _. split; [by eexists|]. split.
        -- intros x. destruct st'. pcbn in Hs4. pcbn in Hs5. pcbn.
           rewrite Hs4, Hs5. intros [= <-]. apply Hstored. left.
        -- intros c' i' [= Hx]. by apply Hs6.
      * intros ? ? [= <- <-]. intros Hst.
        destruct Hex. apply Exists_exists.
        apply Hall in Hst. apply list_elem_of_fmap in Hst as (s0 & ? & ?). eauto.
      * intros s0 l0 [= <- <-] _. split; [done|apply Hstored; left].
Qed.

Lemma init_turns_to_session_witness :
  keyed StoredSession.id (sessions Demo.w4)
  ∧ ∃ st',
      (Page.in_sessions UseSessions.mount ;;;
       Page.init Demo.env [Demo.bot; Demo.critic] None None)
        (Page.initial Demo.w4 (Some (js "deleted")))
      = (Returned tt, st')
      ∧ listed_in_sync (Page.sessions_of st')
      ∧ Page.activeSessionId st' = Some (js "uuid-00")
      ∧ Page.localStorage st' = Some (js "uuid-00").
Proof.
  split; [exact demo_page_keyed|].
  destruct (init_turns_to_session Demo.env [Demo.bot; Demo.critic] None None
              Demo.w4 (Some (js "deleted")) demo_page_keyed)
    as (st' & Hrun & Hsync & _).
  exists st'. split; [exact Hrun|]. split; [exact Hsync|].
  vm_compute in Hrun. injection Hrun as <-. split; reflexivity.
Defined.

(** ** Copying an agent *)

Lemma uint_text_inj (d1 d2 : Decimal.uint) :
  Page.uint_text d1 = Page.uint_text d2 → d1 = d2.
Proof.
  revert d2. induction d1; intros []; cbn; try done;
    intros [= H]; f_equal; by apply IHd1.
Qed.

Lemma number_text_inj (n m : nat) : Page.number_text n = Page.number_text m → n = m.
Proof.
  unfold Page.number_text. intros H%uint_text_inj.
  by apply DecimalNat.Unsigned.to_uint_inj.
Qed.

Lemma number_text_nonempty (n : nat) : Page.number_text n ≠ [].
Proof.
  unfold Page.number_text. intros H.
  assert (Nat.to_uint n = Decimal.Nil) as Hn by (by destruct (Nat.to_uint n)).
  pose proof (DecimalNat.Unsigned.of_to n) as Hof. rewrite Hn in Hof.
  cbn in Hof. subst n. discriminate Hn.
Qed.

(** The names tried are pairwise distinct. *)
Lemma copy_candidate_inj (base : jsstring) (j k : nat) :
  1 ≤ j → 1 ≤ k → copy_candidate base j = copy_candidate base k → j = k.
Proof.
  intros Hj Hk. unfold copy_candidate.
  destruct j as [|[|j]], k as [|[|k]]; try lia; try done.
  - intros H%app_inv_head. symmetry in H.
    rewrite <- (app_nil_r (js "-副本")) in H at 2.
    apply app_inv_head in H. by apply number_text_nonempty in H.
  - intros H%app_inv_head.
    rewrite <- (app_nil_r (js "-副本")) in H at 2.
    apply app_inv_head in H. by apply number_text_nonempty in H.
  - intros H%app_inv_head%app_inv_head. by apply number_text_inj.
Qed.

(** The loop, from the candidate of rank [counter]: it answers the first
    candidate from there on that no agent carries, if the fuel reaches it. *)
Lemma copyName_loop_spec (agents : list Agent.t) (base : jsstring)
    (fuel counter : nat) :
  1 ≤ counter →
  match Page.copyName_loop agents base fuel counter (copy_candidate base counter) with
  | Some name =>
      ∃ k, counter ≤ k < counter + fuel
           ∧ name = copy_candidate base k
           ∧ (name ∉ (Agent.name <$> agents))
           ∧ ∀ j, counter ≤ j < k → copy_candidate base j ∈ Agent.name <$> agents
  | None =>
      ∀ j, counter ≤ j < counter + fuel →
           copy_candidate base j ∈ Agent.name <$> agents
  end.
Proof.
  revert counter. induction fuel as [|fuel IH]; intros counter Hc;
    cbn [Page.copyName_loop].
  - intros j Hj. lia.
  - case_bool_decide as Hex.
    + assert (Hin : copy_candidate base counter ∈ Agent.name <$> agents).
      { apply Exists_exists in Hex as (a & Ha & <-). by apply list_elem_of_fmap_2. }
      specialize (IH (S counter) ltac:(lia)).
      assert (base ++ js "-副本" ++ Page.number_text (S counter)
              = copy_candidate base (S counter)) as ->.
      { unfold copy_candidate. destruct counter; [lia|done]. }
      destruct (Page.copyName_loop _ _ _ _ _) as [name|].
      * destruct IH as (k & Hk & -> & Hnew & Hold). exists k.
        split; [lia|]. split; [done|]. split; [done|].
        intros j Hj. destruct (decide (j = counter)) as [->|]; [done|].
        apply Hold. lia.
      * intros j Hj. destruct (decide (j = counter)) as [->|]; [done|].
        apply IH. lia.
    + exists counter. split; [lia|]. split; [done|]. split.
      * intros [a [Hname Ha]]%list_elem_of_fmap. apply Hex, Exists_exists. eauto.
      * intros j Hj. lia.
Qed.

(** With more fuel than there are agents the loop ends. *)
Lemma copyName_loop_ends (agents : list Agent.t) (base : jsstring) (fuel : nat) :
  length agents < fuel →
  is_Some (Page.copyName_loop agents base fuel 1 (copy_candidate base 1)).
Proof.
  intros Hfuel. pose proof (copyName_loop_spec agents base fuel 1 ltac:(lia)) as H.
  destruct (Page.copyName_loop _ _ _ _ _) as [name|]; [by eexists|].
  exfalso.
  assert (Hsub : (copy_candidate base <$> seq 1 fuel) ⊆+ (Agent.name <$> agents)).
  { apply NoDup_submseteq.
    - apply NoDup_fmap_2_strong; [|apply NoDup_seq].
      intros j k Hj%elem_of_seq Hk%elem_of_seq. apply copy_candidate_inj; lia.
    - intros x [j [-> Hj%elem_of_seq]]%list_elem_of_fmap. apply H. lia. }
  apply submseteq_length in Hsub. rewrite !length_fmap, length_seq in Hsub. lia.
Qed.

(** X19.  [handleCopyAgent] ends, given more fuel than there are agents, and
    opens the agent dialog on a new agent: the copied agent under the first
    of the names ["<name>-副本"], ["<name>-副本2"], ["<name>-副本3"], ... that no
    agent of the list carries.  Nothing is stored and the list is as it was;
    more fuel gives the same result. *)
Theorem handleCopyAgent_fresh_name (fuel : nat) (agent : Agent.t) (st : Page.State) :
  length (Page.agentList st) < fuel →
  ∃ k st',
    Page.handleCopyAgent fuel agent st = (Returned (Some tt), st')
    ∧ 1 ≤ k ≤ S (length (Page.agentList st))
    ∧ Page.editingAgent st'
      = Some (UseAgents.with_name agent (copy_candidate (Agent.name agent) k))
    ∧ Page.isCreatingAgent st' = true
    ∧ (copy_candidate (Agent.name agent) k ∉ (Agent.name <$> Page.agentList st))
    ∧ (∀ j, 1 ≤ j < k →
            copy_candidate (Agent.name agent) j ∈ Agent.name <$> Page.agentList st)
    ∧ Page.agentList st' = Page.agentList st
    ∧ Page.world st' = Page.world st
    ∧ (∀ fuel', length (Page.agentList st) < fuel' →
         Page.handleCopyAgent fuel' agent st = (Returned (Some tt), st')).
Proof.
  intros Hfuel.
  assert (Hrun : ∀ f, length (Page.agentList st) < f →
    ∃ k, 1 ≤ k ≤ S (length (Page.agentList st))
         ∧ Page.copyName_loop (Page.agentList st) (Agent.name agent) f 1
             (Agent.name agent ++ js "-副本")
           = Some (copy_candidate (Agent.name agent) k)
         ∧ (copy_candidate (Agent.name agent) k ∉ (Agent.name <$> Page.agentList st))
         ∧ ∀ j, 1 ≤ j < k →
                copy_candidate (Agent.name agent) j
                ∈ Agent.name <$> Page.agentList st).
  { intros f Hf.
    pose proof (copyName_loop_spec (Page.agentList st) (Agent.name agent) f 1
                  ltac:(lia)) as Hspec.
    destruct (copyName_loop_ends (Page.agentList st) (Agent.name agent) f Hf)
      as [name Hname].
    change (copy_candidate (Agent.name agent) 1)
      with (Agent.name agent ++ js "-副本") in Hspec, Hname.
    rewrite Hname in Hspec. destruct Hspec as (k & Hk & -> & Hnew & Hold).
    exists k. split; [|done]. split; [lia|].
    destruct (decide (k ≤ S (length (Page.agentList st)))) as [|Hbig]; [done|].
    exfalso.
    assert (Hsub : (copy_candidate (Agent.name agent)
                      <$> seq 1 (S (length (Page.agentList st))))
                   ⊆+ (Agent.name <$> Page.agentList st)).
    { apply NoDup_submseteq.
      - apply NoDup_fmap_2_strong; [|apply NoDup_seq].
        intros j1 j2 Hj1%elem_of_seq Hj2%elem_of_seq.
        apply copy_candidate_inj; lia.
      - intros x [j [-> Hj%elem_of_seq]]%list_elem_of_fmap. apply Hold. lia. }
    apply submseteq_length in Hsub. rewrite !length_fmap, length_seq in Hsub. lia. }
  destruct (Hrun fuel Hfuel) as (k & Hk & Hloop & Hnew & Hold).
  exists k. unfold Page.handleCopyAgent. rewrite bind_eq. unfold gets at 1.
  rewrite Hloop. run_page. eexists. split; [reflexivity|].
  destruct st. pcbn. do 7 (split; [done|]).
  intros fuel' Hfuel'. destruct (Hrun fuel' Hfuel') as (k' & Hk' & Hloop' & Hnew' & Hold').
  pcbn in Hloop'. pcbn in Hold. pcbn in Hold'. pcbn in Hnew. pcbn in Hnew'.
  rewrite Hloop'.
  assert (k' = k) as ->; [|done].
  destruct (Nat.lt_trichotomy k' k) as [Hlt|[->|Hlt]]; [|done|].
  - destruct Hnew'. apply Hold. lia.
  - destruct Hnew. apply Hold'. lia.
Qed.

Lemma handleCopyAgent_fresh_name_witness :
  length (Page.agentList DemoPage.page) < 3
  ∧ ∃ st',
      Page.handleCopyAgent 3 Demo.bot DemoPage.page = (Returned (Some tt), st')
      ∧ Agent.name <$> Page.editingAgent st' = Some (js "Bot-副本")
      ∧ Page.isCreatingAgent st' = true.
Proof.
  assert (H1 : length (Page.agentList DemoPage.page) < 3) by (cbn; lia).
  split; [assumption|].
  destruct (handleCopyAgent_fresh_name 3 Demo.bot DemoPage.page H1)
    as (k & st' & Hrun & _ & _ & Hcreating & _).
  exists st'. split; [exact Hrun|]. split; [|exact Hcreating].
  vm_compute in Hrun. injection Hrun as <-. vm_compute. reflexivity.
Defined.

(* ================================================================== *)
(** * Further properties of the requests *)
(* ================================================================== *)

(** ** Reading the event stream *)

Lemma split_lines_nonempty (s : jsstring) : Llm.split_lines s ≠ [].
Proof.
  induction s as [|c s IH]; cbn; [done|].
  destruct (c =? 10)%N; [done|]. by destruct (Llm.split_lines s).
Qed.

(** The lines of a text that goes on: the complete lines read so far, then
    the lines of what is left of the last one and the rest. *)
Lemma split_lines_app (a b : jsstring) :
  Llm.split_lines (a ++ b)
  = removelast (Llm.split_lines a)
    ++ Llm.split_lines (default [] (last (Llm.split_lines a)) ++ b).
Proof.
  induction a as [|c a IH]; [done|].
  cbn [app Llm.split_lines].
  pose proof (split_lines_nonempty a) as Hne.
  destruct (c =? 10)%N eqn:Hc.
  - rewrite IH. destruct (Llm.split_lines a) as [|l0 ls0]; [done|]. done.
  - rewrite IH. destruct (Llm.split_lines a) as [|l0 [|l1 ls0]]; [done| |].
    + cbn. by rewrite Hc.
    + cbn [removelast app last default]. done.
Qed.

(** The line still in the buffer holds no line feed. *)
Lemma split_lines_last (s : jsstring) :
  Llm.split_lines (default [] (last (Llm.split_lines s)))
  = [default [] (last (Llm.split_lines s))].
Proof.
  induction s as [|c s IH]; [done|]. cbn [Llm.split_lines].
  pose proof (split_lines_nonempty s) as Hne.
  destruct (c =? 10)%N eqn:Hc.
  - destruct (Llm.split_lines s) as [|l0 ls0]; [done|]. exact IH.
  - destruct (Llm.split_lines s) as [|l0 [|l1 ls0]]; [done| |exact IH].
    cbn in IH |- *. by rewrite Hc, IH.
Qed.

Lemma split_lines_one (s : jsstring) :
  Forall (λ c, c ≠ 10%N) s ↔ Llm.split_lines s = [s].
Proof.
  induction s as [|c s IH]; [done|]. cbn [Llm.split_lines].
  pose proof (split_lines_nonempty s) as Hne.
  rewrite Forall_cons, IH. destruct (N.eqb_spec c 10) as [->|Hc].
  - split; [by intros [? _]|]. by destruct (Llm.split_lines s).
  - destruct (Llm.split_lines s) as [|l0 [|l1 ls0]]; [done| |].
    + split; [by intros [_ [= ->]]|]. by intros [= ->].
    + split; [by intros [_ ?]|]. by intros [= _ ?].
Qed.

Lemma read_lines_app parse (l1 l2 : list jsstring) full handed :
  Llm.read_lines parse (l1 ++ l2) full handed
  = match Llm.read_lines parse l1 full handed with
    | (true, full', handed') => (true, full', handed')
    | (false, full', handed') => Llm.read_lines parse l2 full' handed'
    end.
Proof.
  revert full handed. induction l1 as [|x l1 IH]; intros full handed; [done|].
  cbn. destruct (Llm.read_line parse x); auto.
Qed.

(** The loop over the reads comes to the loop over the complete lines of the
    whole text. *)
Lemma read_stream_lines parse (chunks : list jsstring) (buffer full : jsstring)
    handed :
  Llm.split_lines buffer = [buffer] →
  Llm.read_stream parse chunks buffer full handed
  = let r := Llm.read_lines parse
               (removelast (Llm.split_lines (buffer ++ concat chunks))) full handed in
    (r.1.2, r.2).
Proof.
  revert buffer full handed.
  induction chunks as [|value rest IH]; intros buffer full handed Hbuf.
  - cbn. by rewrite app_nil_r, Hbuf.
  - cbn [Llm.read_stream concat].
    rewrite (app_assoc buffer value), (split_lines_app (buffer ++ value)),
      removelast_app by apply split_lines_nonempty.
    rewrite read_lines_app.
    destruct (Llm.read_lines parse (removelast _) full handed) as [[[] f] h];
      [done|].
    assert (Js.or_else (default [] (last (Llm.split_lines (buffer ++ value)))) []
            = default [] (last (Llm.split_lines (buffer ++ value)))) as ->
      by (by destruct (default _ _)).
    apply IH, split_lines_last.
Qed.

Lemma read_line_delta parse rawLine d :
  Llm.read_line parse rawLine = Llm.delta d → d ≠ [].
Proof.
  unfold Llm.read_line. destruct (Js.trim rawLine); [done|].
  destruct (Js.starts_with _ _); [|done].
  destruct (Js.trim _); [done|]. case_bool_decide; [done|].
  destruct (parse _) as [[|c x]|]; try done. by intros [= <-].
Qed.

Lemma read_lines_full parse (lines : list jsstring) full handed :
  let r := Llm.read_lines parse lines full handed in
  (full = concat handed → r.1.2 = concat r.2)
  ∧ (Forall (λ d, d ≠ []) handed → Forall (λ d, d ≠ []) r.2).
Proof.
  revert full handed. induction lines as [|x lines IH]; intros full handed; [done|].
  cbn. destruct (Llm.read_line parse x) eqn:Hx; [apply IH|done|].
  destruct (IH (full ++ text) (handed ++ [text])) as [H1 H2]. split.
  - intros ->. apply H1. rewrite List.concat_app. cbn. by rewrite app_nil_r.
  - intros Hall. apply H2, Forall_app. split; [done|].
    constructor; [|done]. by eapply read_line_delta.
Qed.

(** X20.  The reader of the event stream.  The text it returns is the
    concatenation of the deltas it has handed to [onDelta], none of them
    empty.  How the body is cut into reads does not matter: the result is
    that of the one loop over the complete lines of the whole text, which
    stops at the first [[DONE]]; the text after the last line feed is never
    read, so a last read that holds no line feed changes nothing. *)
Theorem read_stream_by_lines (parse_delta : jsstring → option jsstring)
    (chunks : list jsstring) :
  let out := Llm.read_stream parse_delta chunks [] [] [] in
  out.1 = concat out.2
  ∧ Forall (λ d, d ≠ []) out.2
  ∧ out = Llm.read_stream parse_delta [concat chunks] [] [] []
  ∧ out = (let r := Llm.read_lines parse_delta
                      (removelast (Llm.split_lines (concat chunks))) [] [] in
           (r.1.2, r.2))
  ∧ (∀ tail, Forall (λ c, c ≠ 10%N) tail →
       Llm.read_stream parse_delta (chunks ++ [tail]) [] [] [] = out).
Proof.
  intros out. subst out.
  rewrite !read_stream_lines by done. cbn [app concat]. rewrite app_nil_r.
  destruct (read_lines_full parse_delta
              (removelast (Llm.split_lines (concat chunks))) [] []) as [H1 H2].
  cbn in H1, H2 |- *. split; [by apply H1|]. split; [by apply H2|].
  split; [done|]. split; [done|].
  intros tail Htail. rewrite read_stream_lines by done. cbn [app].
  rewrite List.concat_app. cbn [concat]. rewrite app_nil_r.
  rewrite split_lines_app.
  assert (Llm.split_lines (default [] (last (Llm.split_lines (concat chunks)))
                           ++ tail)
          = [default [] (last (Llm.split_lines (concat chunks))) ++ tail]) as ->.
  { apply split_lines_one, Forall_app. split; [|done].
    apply split_lines_one, split_lines_last. }
  by rewrite removelast_app, app_nil_r.
Qed.

(** ** The base URL *)

Lemma last_rev {A} (l : list A) : last (rev l) = head l.
Proof.
  destruct l as [|x l]; [done|]. cbn [rev]. apply last_snoc.
Qed.

Lemma head_rev {A} (l : list A) : head (rev l) = last l.
Proof. by rewrite <- last_rev, rev_involutive. Qed.

Lemma strip_trailing_slashes_last (s : jsstring) :
  last (Llm.strip_trailing_slashes s) ≠ Some 47%N.
Proof.
  unfold Llm.strip_trailing_slashes. rewrite last_rev.
  induction (rev s) as [|c r IH]; [done|].
  cbn. destruct (N.eqb_spec c 47); [done|]. cbn. congruence.
Qed.

Lemma strip_trailing_slashes_id (s : jsstring) :
  last s ≠ Some 47%N → Llm.strip_trailing_slashes s = s.
Proof.
  unfold Llm.strip_trailing_slashes. intros Hlast.
  rewrite <- (rev_involutive s) in Hlast. rewrite last_rev in Hlast.
  destruct (rev s) as [|c r] eqn:Hr.
  - by rewrite <- (rev_involutive s), Hr.
  - cbn in Hlast |- *. destruct (N.eqb_spec c 47) as [->|_]; [done|].
    by rewrite <- Hr, rev_involutive.
Qed.

Lemma trim_id (s : jsstring) :
  (∀ c, head s = Some c → Js.is_space c = false) →
  (∀ c, last s = Some c → Js.is_space c = false) →
  Js.trim s = s.
Proof.
  intros Hhead Hlast. unfold Js.trim.
  assert (Hstart : ∀ l : jsstring,
            (∀ c, head l = Some c → Js.is_space c = false) → Js.trim_start l = l).
  { intros [|c l] H; [done|]. cbn. by rewrite (H c eq_refl). }
  rewrite (Hstart s Hhead), Hstart, rev_involutive; [done|].
  intros c Hc. rewrite head_rev in Hc. by apply Hlast.
Qed.

Lemma ends_with_hash (s : jsstring) :
  last s ≠ Some 35%N → Js.ends_with s (js "#") = false.
Proof.
  intros Hlast. destruct (Js.ends_with s (js "#")) eqn:He; [|done].
  apply ends_with_last in He; [|done]. by rewrite He in Hlast.
Qed.

(** X21.  The base URL of a request never ends with a slash, and is
    [https://api.openai.com/v1] when the agent has none or a blank one.  The
    proxy normalises again the base URL the page sends it; that changes
    nothing, so that the proxy calls the URL the page itself would call,
    whenever the page's result is not empty, does not end with [#] and has
    no white space at either end. *)
Theorem normalizeBaseUrl_agreement (input : option jsstring) :
  let baseUrl := Llm.normalizeBaseUrl input in
  last baseUrl ≠ Some 47%N
  ∧ (input = None ∨ (∃ s, input = Some s ∧ Js.trim s = []) →
       baseUrl = js "https://api.openai.com/v1")
  ∧ (baseUrl ≠ [] →
     (∀ c, head baseUrl = Some c → Js.is_space c = false) →
     (∀ c, last baseUrl = Some c → Js.is_space c = false ∧ c ≠ 35%N) →
       Route.normalizeBaseUrl (Some baseUrl) = baseUrl
       ∧ Llm.normalizeBaseUrl (Some baseUrl) = baseUrl
       ∧ Route.chatCompletionsUrl (Route.normalizeBaseUrl (Some baseUrl))
         = Llm.buildChatCompletionsUrl baseUrl).
Proof.
  intros baseUrl.
  assert (Hslash : last baseUrl ≠ Some 47%N)
    by apply strip_trailing_slashes_last.
  split; [done|]. split.
  - intros [->|(s & -> & Hs)]; subst baseUrl; unfold Llm.normalizeBaseUrl;
      cbn [Js.nullish]; [|rewrite Hs]; vm_compute; reflexivity.
  - intros Hne Hhead Hlast.
    assert (Htrim : Js.trim baseUrl = baseUrl).
    { apply trim_id; [done|]. intros c Hc. by apply Hlast. }
    assert (Hhash : Js.ends_with baseUrl (js "#") = false).
    { apply ends_with_hash. intros Hc. by destruct (Hlast _ Hc). }
    assert (Hroute : Route.normalizeBaseUrl (Some baseUrl) = baseUrl).
    { unfold Route.normalizeBaseUrl. cbn [Js.nullish]. rewrite Htrim.
      destruct baseUrl as [|c u] eqn:Hu; [done|]. rewrite <- Hu in *.
      rewrite Hhash. by apply strip_trailing_slashes_id. }
    split; [done|]. split; [|by rewrite Hroute].
    unfold Llm.normalizeBaseUrl at 1. cbn [Js.nullish]. rewrite Htrim.
    destruct baseUrl as [|c u] eqn:Hu; [done|]. rewrite <- Hu in *.
    rewrite Hhash. by apply strip_trailing_slashes_id.
Qed.

(* ================================================================== *)
(** * The order of the sidebar *)
(* ================================================================== *)

Lemma key_le_trans : Transitive ObjectStore.key_le.
Proof.
  intros a b c [->|H1] [->|H2]; unfold ObjectStore.key_le; auto.
  right. by etrans.
Qed.

Lemma key_le_total : Total ObjectStore.key_le.
Proof.
  intros a b. unfold ObjectStore.key_le.
  destruct (trichotomy lexico a b) as [?|[?|?]]; auto.
Qed.

Lemma key_le_antisymm a b :
  ObjectStore.key_le a b → ObjectStore.key_le b a → a = b.
Proof.
  intros [->|H1] [?|H2]; try done.
  exfalso. by apply (irreflexivity lexico a); etrans.
Qed.

Lemma entries_sorted {V} (m : gmap jsstring V) :
  StronglySorted ObjectStore.entry_le
    (merge_sort ObjectStore.entry_le (map_to_list m)).
Proof.
  apply StronglySorted_merge_sort.
  - intros a b c. apply key_le_trans.
  - intros a b. apply key_le_total.
Qed.

(** A sorted list of entries, none under the key, splits at the key. *)
Lemma sorted_split {V} (i : jsstring) (E : list (jsstring * V)) :
  StronglySorted ObjectStore.entry_le E → Forall (λ e, e.1 ≠ i) E →
  ∃ A B, E = A ++ B
         ∧ Forall (λ e, lexico e.1 i) A ∧ Forall (λ e, lexico i e.1) B.
Proof.
  induction 1 as [|e E HE IH Hall]; intros Hne.
  - exists [], []. by repeat constructor.
  - apply Forall_cons in Hne as [He Hne].
    destruct (trichotomy lexico e.1 i) as [Hlt|[Heq|Hgt]]; [|done|].
    + destruct (IH Hne) as (A & B & -> & HA & HB).
      exists (e :: A), B. split; [done|]. split; [by constructor|done].
    + exists [], (e :: E). split; [done|]. split; [constructor|].
      constructor; [done|].
      eapply Forall_impl; [exact Hall|]. intros b [Hb|Hb].
      * by rewrite <- Hb.
      * by etrans.
Qed.

(** [put] under a new key: the record comes to stand at its key's place
    among the records [getAll] lists, which keep their order. *)
Lemma getAll_insert_split {V} (m : gmap jsstring V) (i : jsstring) (v : V) :
  m !! i = None →
  ∃ L1 L2, ObjectStore.getAll m = L1 ++ L2
           ∧ ObjectStore.getAll (<[i := v]> m) = L1 ++ v :: L2.
Proof.
  intros Hi. unfold ObjectStore.getAll.
  set (E := merge_sort ObjectStore.entry_le (map_to_list m)).
  assert (HE : E ≡ₚ map_to_list m) by apply merge_sort_Permutation.
  destruct (sorted_split i E) as (A & B & HAB & HA & HB).
  { apply entries_sorted. }
  { apply Forall_forall. intros [k x] Hin Hk. cbn in Hk. subst k.
    rewrite HE in Hin. apply elem_of_map_to_list in Hin. congruence. }
  exists (A.*2), (B.*2). split; [by rewrite HAB, fmap_app|].
  assert (merge_sort ObjectStore.entry_le (map_to_list (<[i := v]> m))
          = A ++ (i, v) :: B) as ->; [|by rewrite fmap_app].
  assert (HF : A ++ (i, v) :: B ≡ₚ map_to_list (<[i := v]> m)).
  { rewrite map_to_list_insert by done. rewrite <- HE, HAB.
    symmetry. apply Permutation_middle. }
  apply (StronglySorted_unique_strong ObjectStore.entry_le).
  - intros [k1 x1] [k2 x2] H1 H2 H12 H21.
    rewrite (merge_sort_Permutation ObjectStore.entry_le) in H1. rewrite HF in H2.
    apply elem_of_map_to_list in H1, H2.
    assert (k1 = k2) as -> by (by apply key_le_antisymm).
    congruence.
  - apply entries_sorted.
  - pose proof (entries_sorted m) as Hs. fold E in Hs. rewrite HAB in Hs.
    apply StronglySorted_app in Hs as (Hcross & HsA & HsB).
    apply StronglySorted_app_2.
    + intros a b Ha [->|Hb]%elem_of_cons.
      * right. by apply (proj1 (Forall_forall _ _) HA).
      * by apply Hcross.
    + done.
    + constructor; [done|]. eapply Forall_impl; [exact HB|].
      intros b Hb. by right.
  - by rewrite (merge_sort_Permutation ObjectStore.entry_le), HF.
Qed.

(** The comparator of [dbListSessions] brings a session created later than
    all the others to the front and leaves the others in their order. *)
Lemma sort_new_first (new : StoredSession.t) (L1 L2 : list StoredSession.t) :
  Forall (λ y, (StoredSession.created_at y < StoredSession.created_at new)%Z)
    (L1 ++ L2) →
  Js.sort (λ a b, (StoredSession.created_at b - StoredSession.created_at a)%Z)
    (L1 ++ new :: L2)
  = new :: Js.sort (λ a b, (StoredSession.created_at b
                            - StoredSession.created_at a)%Z) (L1 ++ L2).
Proof.
  set (cmp := λ a b, (StoredSession.created_at b - StoredSession.created_at a)%Z).
  induction L1 as [|x L1 IH]; intros Hall.
  - cbn [app]. change (Js.sort cmp (new :: L2))
      with (Js.sort_insert cmp new (Js.sort cmp L2)).
    assert (Hs : Forall (λ y, (StoredSession.created_at y
                               < StoredSession.created_at new)%Z) (Js.sort cmp L2))
      by (by rewrite sort_Permutation).
    destruct (Js.sort cmp L2) as [|y S]; [done|]. cbn.
    apply Forall_cons in Hs as [Hy _]. unfold cmp.
    destruct (Z.leb_spec (StoredSession.created_at y
                          - StoredSession.created_at new) 0); [done|lia].
  - cbn [app] in Hall |- *. apply Forall_cons in Hall as [Hx Hall].
    change (Js.sort cmp (x :: L1 ++ new :: L2))
      with (Js.sort_insert cmp x (Js.sort cmp (L1 ++ new :: L2))).
    rewrite (IH Hall). cbn [Js.sort_insert]. unfold cmp at 1.
    destruct (Z.leb_spec (StoredSession.created_at new
                          - StoredSession.created_at x) 0); [lia|done].
Qed.

(** The listing after a session created now has been stored under a new id. *)
Lemma listing_after_insert (w : World) (new : StoredSession.t) t d
    (l : list SessionSummary.t) :
  sessions w !! StoredSession.id new = None →
  (∀ k s, sessions w !! k = Some s →
          (StoredSession.created_at s < StoredSession.created_at new)%Z) →
  LocalDb.dbListSessions w = (Returned l, w) →
  LocalDb.dbListSessions
    (mkWorld (agents w) (<[StoredSession.id new := new]> (sessions w)) t d)
  = (Returned (LocalDb._toSessionSummary new :: l),
     mkWorld (agents w) (<[StoredSession.id new := new]> (sessions w)) t d).
Proof.
  intros Hfresh Hlater. unfold LocalDb.dbListSessions. run. cbn [sessions].
  intros [= <-]. f_equal. f_equal.
  destruct (getAll_insert_split (sessions w) (StoredSession.id new) new Hfresh)
    as (L1 & L2 & H1 & H2).
  rewrite H2, H1, sort_new_first; [done|].
  rewrite <- H1. apply Forall_forall. intros s [k Hk]%elem_of_getAll. eauto.
Qed.

(** X22.  A new session is listed first.  When the sidebar shows the
    listing of the store and the clock now reads later than the creation of
    every stored session, then after [createSession] or [forkSession], which
    put the new session at the head of the list, the sidebar again shows
    exactly what [dbListSessions] answers: a reload would not reorder it.
    The id drawn for the new session must not be in use. *)
Theorem new_session_listed_first env (call : SessionsCall)
    (st : UseSessions.State) :
  draws_session_id call →
  sessions (UseSessions.world st)
    !! randomUUID env (draws (UseSessions.world st)) = None →
  (∀ k s, sessions (UseSessions.world st) !! k = Some s →
          (StoredSession.created_at s
           < Date_now env (ticks (UseSessions.world st)))%Z) →
  LocalDb.dbListSessions (UseSessions.world st)
  = (Returned (UseSessions.sessionList st), UseSessions.world st) →
  LocalDb.dbListSessions (UseSessions.world (run_call env call st))
  = (Returned (UseSessions.sessionList (run_call env call st)),
     UseSessions.world (run_call env call st)).
Proof.
  intros Hcall Hfresh Hlater Hlist.
  destruct st as [w l a d ls n]. hcbn in Hfresh. hcbn in Hlater. hcbn in Hlist.
  destruct call as [legacy| |s|id|mid name|sid|id]; try done; cbn [run_call].
  - unfold UseSessions.createSession, LocalDb.dbCreateSession. run_hook. hcbn.
    by apply (listing_after_insert w (StoredSession.mk _ _ _ _ _ _ _)).
  - unfold UseSessions.forkSession. run_hook. hcbn.
    destruct a as [[|c a]|]; hcbn; try done.
    unfold LocalDb.dbForkSessionFromMessage. run.
    destruct (sessions w !! (c :: a)) as [src|] eqn:Hsrc; hcbn; [|done].
    destruct (Js.findIndex _ _) as [idx|]; hcbn; [|done].
    rewrite mapM_fresh_ids. hcbn.
    by apply (listing_after_insert w (StoredSession.mk _ _ _ _ _ _ _)).
Qed.

Lemma new_session_listed_first_witness :
  draws_session_id CallCreateSession
  ∧ sessions Demo.w4 !! randomUUID Demo.env (draws Demo.w4) = None
  ∧ UseSessions.sessionList
      (run_call Demo.env CallCreateSession
         (UseSessions.mkState Demo.w4 [LocalDb._toSessionSummary Demo.topic]
            None None None []))
    = [SessionSummary.mk (js "uuid-01") (js "新讨论组") [] 1700000001000%Z 0 None;
       LocalDb._toSessionSummary Demo.topic]
  ∧ (LocalDb.dbListSessions
       (UseSessions.world
          (run_call Demo.env CallCreateSession
             (UseSessions.mkState Demo.w4 [LocalDb._toSessionSummary Demo.topic]
                None None None [])))).1
    = Returned
        [SessionSummary.mk (js "uuid-01") (js "新讨论组") [] 1700000001000%Z 0 None;
         LocalDb._toSessionSummary Demo.topic].
Proof.
  assert (H1 : draws_session_id CallCreateSession) by exact I.
  assert (H2 : sessions Demo.w4 !! randomUUID Demo.env (draws Demo.w4) = None)
    by (vm_compute; reflexivity).
  do 2 (split; [assumption|]).
  assert (H3 : ∀ k s, sessions Demo.w4 !! k = Some s →
                      (StoredSession.created_at s
                       < Date_now Demo.env (ticks Demo.w4))%Z).
  { intros k s Hk.
    assert (Hin : s ∈ ObjectStore.getAll (sessions Demo.w4))
      by (apply elem_of_getAll; eauto).
    vm_compute in Hin. apply list_elem_of_singleton in Hin. subst s.
    vm_compute. reflexivity. }
  assert (H4 : LocalDb.dbListSessions Demo.w4
               = (Returned [LocalDb._toSessionSummary Demo.topic], Demo.w4))
    by (vm_compute; reflexivity).
  pose proof (new_session_listed_first Demo.env CallCreateSession
                (UseSessions.mkState Demo.w4 [LocalDb._toSessionSummary Demo.topic]
                   None None None []) H1 H2 H3 H4) as Hfirst.
  split; [vm_compute; reflexivity|].
  rewrite Hfirst. vm_compute. reflexivity.
Defined.

(* ================================================================== *)
(** * The menu of mentions *)
(* ================================================================== *)

Lemma elem_of_parseMentionedAgents (agents : list Agent.t) (text n : jsstring) :
  n ∈ Chat.parseMentionedAgents text agents
  ↔ mentioned_in text n ∧ n ∈ Agent.name <$> agents.
Proof.
  rewrite parseMentionedAgents_eq, elem_of_first_occurrences, list_elem_of_filter.
  unfold mention_tokens. split.
  - intros [Hag (raw & -> & Hraw)%list_elem_of_fmap].
    apply elem_of_match_mentions in Hraw as (name & -> & Hin). done.
  - intros [Hin Hag]. split; [done|].
    apply list_elem_of_fmap. exists (64%N :: n). split; [done|].
    apply elem_of_match_mentions. eauto.
Qed.

(** X23.  Choosing an agent in the menu of mentions replaces the [@] and
    what was typed after it, up to the cursor, by ["@"], the name of the
    agent and a space.  When the name is made of characters of the mention
    pattern, the text so made mentions the agent: [parseMentionedAgents]
    returns the name and [hasMention] holds, so submitting it calls the
    agent.  An agent whose name is empty or holds any other character is
    mentioned by no text at all. *)
Theorem selected_mention_is_parsed (agents : list Agent.t) (agent : Agent.t)
    (cursorPos start : nat) (st : MentionInput.State) :
  agent ∈ agents →
  MentionInput.mentionStartPos st = Some start →
  let st' := MentionInput.selectAgent agent cursorPos st in
  MentionInput.value st'
  = take start (MentionInput.value st) ++ js "@" ++ Agent.name agent ++ js " "
    ++ drop cursorPos (MentionInput.value st)
  ∧ MentionInput.showMentions st' = false
  ∧ MentionInput.mentionStartPos st' = None
  ∧ (Agent.name agent ≠ [] →
     Forall (λ c, Chat.is_mention_char c = true) (Agent.name agent) →
       Agent.name agent ∈ Chat.parseMentionedAgents (MentionInput.value st') agents
       ∧ Page.hasMention agents (MentionInput.value st') = true)
  ∧ (Agent.name agent = []
     ∨ ¬ Forall (λ c, Chat.is_mention_char c = true) (Agent.name agent) →
       ∀ text, Agent.name agent ∉ Chat.parseMentionedAgents text agents).
Proof.
  intros Hagent Hstart st'. subst st'. unfold MentionInput.selectAgent.
  rewrite Hstart. cbn [MentionInput.value MentionInput.showMentions
                       MentionInput.mentionStartPos].
  do 3 (split; [done|]). split.
  - intros Hne Hall.
    assert (Hin : Agent.name agent
                  ∈ Chat.parseMentionedAgents
                      (take start (MentionInput.value st) ++ js "@"
                       ++ Agent.name agent ++ js " "
                       ++ drop cursorPos (MentionInput.value st)) agents).
    { apply elem_of_parseMentionedAgents. split; [|by apply list_elem_of_fmap_2].
      exists (take start (MentionInput.value st)),
             (js " " ++ drop cursorPos (MentionInput.value st)).
      split; [done|]. split; [done|]. split; [done|]. reflexivity. }
    split; [done|].
    apply hasMention_spec.
    apply elem_of_parseMentionedAgents in Hin as [(pre & post & Heq & _) Hnames].
    exists (Agent.name agent). split; [|done].
    unfold mention_tokens. apply list_elem_of_fmap.
    exists (64%N :: Agent.name agent). split; [done|].
    apply elem_of_match_mentions. exists (Agent.name agent). split; [done|].
    exists (take start (MentionInput.value st)),
           (js " " ++ drop cursorPos (MentionInput.value st)).
    split; [done|]. split; [done|]. split; [done|]. reflexivity.
  - intros Hbad text [(pre & post & _ & Hne & Hall & _) _]%elem_of_parseMentionedAgents.
    by destruct Hbad.
Qed.

Lemma selected_mention_is_parsed_witness :
  Demo.critic ∈ [Demo.bot; Demo.critic]
  ∧ MentionInput.mentionStartPos
      (MentionInput.handleChange (js "ask @杠") 6
         (MentionInput.mkState [] false [] None))
    = Some 4
  ∧ MentionInput.value
      (MentionInput.selectAgent Demo.critic 6
         (MentionInput.handleChange (js "ask @杠") 6
            (MentionInput.mkState [] false [] None)))
    = js "ask @杠精路人 "
  ∧ Page.hasMention [Demo.bot; Demo.critic]
      (MentionInput.value
         (MentionInput.selectAgent Demo.critic 6
            (MentionInput.handleChange (js "ask @杠") 6
               (MentionInput.mkState [] false [] None))))
    = true.
Proof.
  assert (H1 : Demo.critic ∈ [Demo.bot; Demo.critic]) by (right; left).
  assert (H2 : MentionInput.mentionStartPos
                 (MentionInput.handleChange (js "ask @杠") 6
                    (MentionInput.mkState [] false [] None))
               = Some 4) by (vm_compute; reflexivity).
  do 2 (split; [assumption|]).
  destruct (selected_mention_is_parsed [Demo.bot; Demo.critic] Demo.critic 6 4
              _ H1 H2) as (Hvalue & _ & _ & Hparsed & _).
  split; [rewrite Hvalue; vm_compute; reflexivity|].
  apply Hparsed.
  - discriminate.
  - apply (bool_decide_eq_true_1 _). vm_compute. reflexivity.
Defined.

(* ================================================================== *)
(** * The agents of one message *)
(* ================================================================== *)

(** The loop only adds to the calls on record. *)
Lemma agent_loop_calls_grow env net (known : list Agent.t) globalPrompt
    (sid : jsstring) (mentioned : list jsstring)
    (workingHistory : list TranscriptItem.t) (st : Chat.State) :
  ∃ more,
    Chat.calls (Chat.agent_loop env net known globalPrompt sid mentioned
                  workingHistory st).2
    = Chat.calls st ++ more.
Proof.
  revert workingHistory st.
  induction mentioned as [|agentName rest IH]; intros workingHistory st.
  - exists []. cbn. by rewrite app_nil_r.
  - destruct (List.find (λ a, bool_decide (Agent.name a = agentName)) known)
      as [agent|] eqn:Hfind.
    + rewrite (agent_loop_cons env net known globalPrompt sid agentName agent rest
                 workingHistory st Hfind).
      destruct (Chat.result _) as [full|e].
      * match goal with |- context [Chat.agent_loop _ _ _ _ _ rest ?wh ?s] =>
          destruct (IH wh s) as [more ->] end.
        cbn [Chat.calls]. rewrite <- app_assoc. by eexists.
      * case_bool_decide.
        -- cbn [snd Chat.calls]. by eexists.
        -- match goal with |- context [Chat.agent_loop _ _ _ _ _ rest ?wh ?s] =>
             destruct (IH wh s) as [more ->] end.
           cbn [Chat.calls]. rewrite <- app_assoc. by eexists.
    + cbn [Chat.agent_loop]. rewrite Hfind. apply IH.
Qed.

(** The turn of a known agent starts with its call, on the history as the
    loop holds it. *)
Lemma agent_loop_first_call env net (known : list Agent.t) globalPrompt
    (sid agentName : jsstring) (agent : Agent.t) (rest : list jsstring)
    (workingHistory : list TranscriptItem.t) (st : Chat.State) :
  List.find (λ a, bool_decide (Agent.name a = agentName)) known = Some agent →
  ∃ later,
    Chat.calls (Chat.agent_loop env net known globalPrompt sid (agentName :: rest)
                  workingHistory st).2
    = Chat.calls st
      ++ (agent, Llm.buildOpenAiMessages agent globalPrompt workingHistory) :: later.
Proof.
  intros Hfind.
  rewrite (agent_loop_cons env net known globalPrompt sid agentName agent rest
             workingHistory st Hfind).
  destruct (Chat.result _) as [full|e].
  - match goal with |- context [Chat.agent_loop _ _ _ _ _ rest ?wh ?s] =>
      destruct (agent_loop_calls_grow env net known globalPrompt sid rest wh s)
        as [more ->] end.
    cbn [Chat.calls]. rewrite <- app_assoc. by eexists.
  - case_bool_decide.
    + cbn [snd Chat.calls]. by eexists.
    + match goal with |- context [Chat.agent_loop _ _ _ _ _ rest ?wh ?s] =>
        destruct (agent_loop_calls_grow env net known globalPrompt sid rest wh s)
          as [more ->] end.
      cbn [Chat.calls]. rewrite <- app_assoc. by eexists.
Qed.

(** What an agent is sent of the reply of another agent. *)
Lemma buildOpenAiMessages_reply (target : Agent.t) globalPrompt
    (history : list TranscriptItem.t) (id speaker text : jsstring) :
  speaker ≠ Agent.name target →
  Llm.buildOpenAiMessages target globalPrompt
    (history ++ [TranscriptItem.Agent id speaker text None None])
  = Llm.buildOpenAiMessages target globalPrompt history
    ++ [Llm.mk Llm.user (Llm.plain (js "[" ++ speaker ++ js "]: " ++ text))].
Proof.
  intros Hne. unfold Llm.buildOpenAiMessages. rewrite foldl_app. cbn [foldl].
  cbn [TranscriptItem.kind]. f_equal. f_equal.
  unfold Llm.entry. cbn [TranscriptItem.images TranscriptItem.content].
  assert (Llm.isTargetAgent target
            (TranscriptItem.Agent id speaker text None None) = false) as ->.
  { destruct (Llm.isTargetAgent _ _) eqn:Ht; [|done].
    apply isTargetAgent_spec in Ht as [_ Hs]. by cbn in Hs. }
  cbn [Llm.speakerForItem]. by rewrite <- !app_assoc.
Qed.

(** X24.  The agents mentioned in one message hear each other.  When two
    known agents [A] and [B] follow each other in the loop of [sendMessage]
    and the call of [A] is not cancelled, the next call is that of [B], and
    it is sent what [B] would have been sent before, followed by one more
    message of role [user]: ["[A]: "] and the reply of [A], or, when the call
    of [A] failed, the marker ["[调用失败] " ++ message] in its place. *)
Theorem next_agent_sees_reply env net (known : list Agent.t) globalPrompt
    (sid A B : jsstring) (agentA agentB : Agent.t) (rest : list jsstring)
    (workingHistory : list TranscriptItem.t) (st : Chat.State) :
  List.find (λ a, bool_decide (Agent.name a = A)) known = Some agentA →
  List.find (λ a, bool_decide (Agent.name a = B)) known = Some agentB →
  A ≠ B →
  let messagesA := Llm.buildOpenAiMessages agentA globalPrompt workingHistory in
  let replyA := net (length (Chat.calls st)) agentA messagesA in
  let heard :=
    match Chat.result replyA with
    | Returned full => full
    | Threw e => js "[调用失败] " ++ Js.err_text e
    end in
  (∀ e, Chat.result replyA = Threw e → ¬ is_abort e) →
  ∃ later,
    Chat.calls (Chat.agent_loop env net known globalPrompt sid (A :: B :: rest)
                  workingHistory st).2
    = Chat.calls st
      ++ (agentA, messagesA)
         :: (agentB,
             Llm.buildOpenAiMessages agentB globalPrompt workingHistory
             ++ [Llm.mk Llm.user (Llm.plain (js "[" ++ A ++ js "]: " ++ heard))])
         :: later.
Proof.
  intros HA HB Hne messagesA replyA heard Hlive.
  assert (HnameB : A ≠ Agent.name agentB).
  { apply find_some in HB as [_ HB%bool_decide_eq_true]. congruence. }
  rewrite (agent_loop_cons env net known globalPrompt sid A agentA (B :: rest)
             workingHistory st HA).
  fold messagesA. fold replyA. subst heard.
  destruct (Chat.result replyA) as [full|e] eqn:Hres.
  - match goal with |- context [Chat.agent_loop _ _ _ _ _ (B :: rest) ?wh ?s] =>
      destruct (agent_loop_first_call env net known globalPrompt sid B agentB rest
                  wh s HB) as [later ->] end.
    cbn [Chat.calls]. rewrite buildOpenAiMessages_reply by done.
    rewrite <- app_assoc. by eexists.
  - rewrite bool_decide_eq_false_2 by (by apply Hlive).
    match goal with |- context [Chat.agent_loop _ _ _ _ _ (B :: rest) ?wh ?s] =>
      destruct (agent_loop_first_call env net known globalPrompt sid B agentB rest
                  wh s HB) as [later ->] end.
    cbn [Chat.calls]. rewrite buildOpenAiMessages_reply by done.
    rewrite <- app_assoc. by eexists.
Qed.

Lemma next_agent_sees_reply_witness :
  Demo.critic.(Agent.name) ≠ Demo.bot.(Agent.name)
  ∧ ∃ later,
      Chat.calls
        (Chat.agent_loop Demo.env Demo.flaky [Demo.bot; Demo.critic] None
           (js "uuid-00") [js "Bot"; js "杠精路人"] [] Demo.chat).2
      = (Demo.bot, Llm.buildOpenAiMessages Demo.bot None [])
        :: (Demo.critic,
            Llm.buildOpenAiMessages Demo.critic None []
            ++ [Llm.mk Llm.user
                  (Llm.plain (js "[Bot]: [调用失败] LLM 请求失败: HTTP 500"))])
        :: later.
Proof.
  split; [discriminate|].
  assert (H1 : List.find (λ a, bool_decide (Agent.name a = js "Bot"))
                 [Demo.bot; Demo.critic] = Some Demo.bot)
    by (vm_compute; reflexivity).
  assert (H2 : List.find (λ a, bool_decide (Agent.name a = js "杠精路人"))
                 [Demo.bot; Demo.critic] = Some Demo.critic)
    by (vm_compute; reflexivity).
  assert (H3 : js "Bot" ≠ js "杠精路人") by discriminate.
  destruct (next_agent_sees_reply Demo.env Demo.flaky [Demo.bot; Demo.critic] None
              (js "uuid-00") (js "Bot") (js "杠精路人") Demo.bot Demo.critic []
              [] Demo.chat H1 H2 H3) as [later Hcalls].
  { intros e He Hab. vm_compute in He. injection He as <-.
    vm_compute in Hab. discriminate Hab. }
  exists later. rewrite Hcalls. vm_compute. reflexivity.
Defined.

(** The loop leaves the agents of the store alone. *)
Lemma agent_loop_agents env net (known : list Agent.t) globalPrompt
    (sid : jsstring) (mentioned : list jsstring)
    (workingHistory : list TranscriptItem.t) (st : Chat.State) :
  agents (Chat.world (Chat.agent_loop env net known globalPrompt sid mentioned
                        workingHistory st).2)
  = agents (Chat.world st).
Proof.
  assert (Hupsert : ∀ item w,
            agents (LocalDb.dbUpsertMessage env sid item w).2 = agents w).
  { intros item w. unfold LocalDb.dbUpsertMessage. run.
    destruct (sessions w !! sid); [|done].
    destruct (Js.findIndex _ _); done. }
  revert workingHistory st.
  induction mentioned as [|agentName rest IH]; intros workingHistory st; [done|].
  destruct (List.find (λ a, bool_decide (Agent.name a = agentName)) known)
    as [agent|] eqn:Hfind.
  - rewrite (agent_loop_cons env net known globalPrompt sid agentName agent rest
               workingHistory st Hfind).
    destruct (Chat.result _) as [full|e].
    + rewrite IH. cbn [Chat.world]. by rewrite Hupsert.
    + case_bool_decide; [done|].
      rewrite IH. cbn [Chat.world]. by rewrite Hupsert.
  - cbn [Chat.agent_loop]. rewrite Hfind. apply IH.
Qed.

(** The loop reports nothing itself. *)
Lemma agent_loop_frame env net (known : list Agent.t) globalPrompt
    (sid : jsstring) (mentioned : list jsstring)
    (workingHistory : list TranscriptItem.t) (st : Chat.State) :
  Chat.reported (Chat.agent_loop env net known globalPrompt sid mentioned
                   workingHistory st).2
  = Chat.reported st.
Proof.
  revert workingHistory st.
  induction mentioned as [|agentName rest IH]; intros workingHistory st; [done|].
  destruct (List.find (λ a, bool_decide (Agent.name a = agentName)) known)
    as [agent|] eqn:Hfind.
  - rewrite (agent_loop_cons env net known globalPrompt sid agentName agent rest
               workingHistory st Hfind).
    destruct (Chat.result _) as [full|e].
    + by rewrite IH.
    + case_bool_decide; [done|]. by rewrite IH.
  - cbn [Chat.agent_loop]. rewrite Hfind. apply IH.
Qed.

(** What [sendMessage] comes to once the user item is posted: the loop on the
    history read from the ref, then the handling of what it threw. *)
Lemma sendMessage_eq env net (sid : jsstring) (known : list Agent.t) globalPrompt
    (message : jsstring) (images : list jsstring) (st : Chat.State) :
  sid ≠ [] →
  let userItem :=
    TranscriptItem.User (randomUUID env (draws (Chat.world st)))
      (Chat.user_content message images) (Some images) in
  let st1 := (Chat.post_user_message env sid message images st).2 in
  Chat.sendMessage env net (Some sid) known globalPrompt message images st
  = match Chat.parseMentionedAgents message known with
    | [] => (Returned tt, Chat.setIsLoading false st1)
    | mentioned =>
        let workingHistory :=
          filter (λ i, TranscriptItem.kind i ≠ KSystem) (Chat.transcript st)
          ++ [userItem; userItem] in
        match Chat.agent_loop env net known globalPrompt sid mentioned
                workingHistory st1 with
        | (Returned _, st2) => (Returned tt, Chat.setIsLoading false st2)
        | (Threw e, st2) =>
            let '(r, st3) := Chat.report_failure env e st2 in
            (r, Chat.setIsLoading false st3)
        end
    end.
Proof.
  intros Hsid userItem st1. destruct sid as [|c i]; [done|].
  unfold Chat.sendMessage.
  rewrite (bind_Returned _ _ _ _ _ (post_user_message_eq env _ message images st)).
  subst st1. rewrite post_user_message_eq. cbn [snd]. fold userItem.
  unfold finally, try_catch, Chat.invoke_mentioned.
  destruct (Chat.parseMentionedAgents message known) as [|m ms]; [done|].
  rewrite bind_eq. unfold gets at 1. cbn [Chat.transcriptRef].
  rewrite <- app_assoc, filter_app. cbn [app].
  rewrite (filter_cons_True _ userItem) by done.
  rewrite (filter_cons_True _ userItem) by done. rewrite filter_nil.
  by destruct (Chat.agent_loop _ _ _ _ _ _ _ _) as [[[]|e] st2].
Qed.


(** X27.  The first agent of a submission is sent the user's message twice.
    [sendMessage] appends the user item to the transcript and awaits the
    store; by then the effect has copied the transcript, user item included,
    into the ref, and line 339 appends the item to what the ref holds.  So
    the request of the first mentioned agent ends with the entry of the user
    item, twice over, after the entries of the transcript as it was. *)
Theorem first_call_repeats_user_message env net (known : list Agent.t)
    globalPrompt (sid message : jsstring) (images : list jsstring)
    (st : Chat.State) (agentName : jsstring) (rest : list jsstring) :
  sid ≠ [] →
  Chat.parseMentionedAgents message known = agentName :: rest →
  let userItem :=
    TranscriptItem.User (randomUUID env (draws (Chat.world st)))
      (Chat.user_content message images) (Some images) in
  ∃ agent st' later,
    List.find (λ a, bool_decide (Agent.name a = agentName)) known = Some agent
    ∧ Chat.sendMessage env net (Some sid) known globalPrompt message images st
      = (Returned tt, st')
    ∧ Chat.calls st'
      = Chat.calls st
        ++ (agent,
            Llm.buildOpenAiMessages agent globalPrompt
              (filter (λ i, TranscriptItem.kind i ≠ KSystem) (Chat.transcript st))
            ++ [Llm.entry agent userItem; Llm.entry agent userItem]) :: later.
Proof.
  intros Hsid Hm userItem.
  assert (Hknown : agentName ∈ Agent.name <$> known).
  { assert (agentName ∈ Chat.parseMentionedAgents message known) as Hin
      by (rewrite Hm; left).
    by apply elem_of_parseMentionedAgents in Hin as [_ ?]. }
  assert (Hfind : ∃ agent,
            List.find (λ a, bool_decide (Agent.name a = agentName)) known
            = Some agent).
  { apply list_elem_of_fmap in Hknown as (a & -> & Ha).
    destruct (List.find _ known) as [agent|] eqn:Hf; [eauto|].
    apply list_elem_of_In in Ha. apply (find_none _ _ Hf) in Ha.
    by rewrite bool_decide_eq_true_2 in Ha. }
  destruct Hfind as [agent Hfind]. exists agent.
  rewrite (sendMessage_eq env net sid known globalPrompt message images st Hsid).
  rewrite Hm. cbv zeta. fold userItem.
  assert (Hreq :
    Llm.buildOpenAiMessages agent globalPrompt
      (filter (λ i, TranscriptItem.kind i ≠ KSystem) (Chat.transcript st)
       ++ [userItem; userItem])
    = Llm.buildOpenAiMessages agent globalPrompt
        (filter (λ i, TranscriptItem.kind i ≠ KSystem) (Chat.transcript st))
      ++ [Llm.entry agent userItem; Llm.entry agent userItem]).
  { unfold Llm.buildOpenAiMessages. rewrite !buildOpenAiMessages_push.
    rewrite filter_app, fmap_app, app_assoc. by f_equal. }
  match goal with |- context [Chat.agent_loop env net known globalPrompt sid
                                (agentName :: rest) ?wh ?s] =>
    destruct (agent_loop_first_call env net known globalPrompt sid agentName agent
                rest wh s Hfind) as [later Hcalls];
    destruct (Chat.agent_loop env net known globalPrompt sid (agentName :: rest) wh s)
      as [[[]|e] st2]
  end; cbn [snd] in Hcalls; rewrite Hreq, post_user_message_eq in Hcalls;
    cbn [snd Chat.calls] in Hcalls.
  - eexists _, later. split; [done|]. split; [reflexivity|].
    by destruct st2.
  - unfold Chat.report_failure. case_bool_decide.
    + unfold ret. eexists _, later. split; [done|]. split; [reflexivity|].
      by destruct st2.
    + unfold Chat.newId, Chat.lift, Chat.setTranscript, Chat.onError. run.
      eexists _, later. split; [done|]. split; [reflexivity|].
      by destruct st2.
Qed.

Lemma first_call_repeats_user_message_witness :
  js "uuid-00" ≠ []
  ∧ Chat.parseMentionedAgents (js "@Bot hi") [Demo.bot; Demo.critic] = [js "Bot"]
  ∧ ∃ st',
      Chat.sendMessage Demo.env Demo.net (Some (js "uuid-00"))
        [Demo.bot; Demo.critic] None (js "@Bot hi") [] Demo.chat
      = (Returned tt, st')
      ∧ (drop 4 ∘ snd) <$> Chat.calls st'
        = [[Llm.mk Llm.user (Llm.plain (js "[用户]: @Bot hi"));
            Llm.mk Llm.user (Llm.plain (js "[用户]: @Bot hi"))]].
Proof.
  assert (H1 : js "uuid-00" ≠ []) by discriminate.
  assert (H2 : Chat.parseMentionedAgents (js "@Bot hi") [Demo.bot; Demo.critic]
               = [js "Bot"]) by (vm_compute; reflexivity).
  do 2 (split; [assumption|]).
  destruct (first_call_repeats_user_message Demo.env Demo.net
              [Demo.bot; Demo.critic] None (js "uuid-00") (js "@Bot hi") []
              Demo.chat (js "Bot") [] H1 H2)
    as (agent & st' & later & _ & Hrun & _).
  exists st'. split; [exact Hrun|].
  vm_compute in Hrun. injection Hrun as <-. vm_compute. reflexivity.
Defined.

(* ================================================================== *)
(** * The ids of the messages *)
(* ================================================================== *)

Lemma ids_distinct_put (w : World) (s : StoredSession.t) t d :
  ids_distinct w → NoDup (message_ids s) →
  ids_distinct (mkWorld (agents w) (<[StoredSession.id s := s]> (sessions w)) t d).
Proof. intros Hw Hs. by apply map_Forall_insert_2. Qed.

(** X26.  The ids of the messages of a session stay pairwise distinct.
    Every operation of the store on sessions keeps them so, provided the id
    under which [dbAppendMessage] stores its item is not yet an id of the
    session and the ids [dbForkSessionFromMessage] draws for the copies are
    pairwise distinct.  [dbUpsertMessage] needs nothing: it replaces the
    message that carries the id or appends under an id no message carries. *)
Theorem message_ids_stay_distinct env (op : StoreOp) (w : World) :
  ids_distinct w →
  (∀ sid item s, op = AppendMessage sid item → sessions w !! sid = Some s →
                 stored_id env w item ∉ message_ids s) →
  (∀ sid mid nm j k, op = ForkSessionFromMessage sid mid nm →
                     draws w < j < k → randomUUID env j ≠ randomUUID env k) →
  ids_distinct (run_op env op w).
Proof.
  intros Hw Happend Hfork.
  destruct op as [n g|sid mid nm|sid item|sid item|sid mid c|sid mid|sid n g|sid];
    cbn [run_op].
  - unfold LocalDb.dbCreateSession. run. cbn.
    apply (ids_distinct_put w (StoredSession.mk _ _ _ _ _ _ _)); [done|].
    constructor.
  - unfold LocalDb.dbForkSessionFromMessage. run.
    destruct (sessions w !! sid) as [s|] eqn:Hs; [|done].
    destruct (Js.findIndex _ _) as [idx|]; [|done].
    rewrite mapM_fresh_ids. cbn.
    apply (ids_distinct_put w (StoredSession.mk _ _ _ _ _ _ _)); [done|].
    unfold message_ids. cbn [StoredSession.messages].
    apply NoDup_alt. intros j1 j2 x.
    rewrite !list_lookup_fmap, !list_lookup_imap.
    destruct (take (idx + 1) (StoredSession.messages s) !! j1) as [m1|]; [|done].
    destruct (take (idx + 1) (StoredSession.messages s) !! j2) as [m2|]; [|done].
    cbn. intros [= <-] [= Heq].
    assert (Hid : ∀ m x, StoredMessage.id (StoredMessage.with_id m x) = x)
      by (by intros []).
    rewrite !Hid in Heq.
    destruct (Nat.lt_trichotomy j1 j2) as [Hlt|[->|Hlt]]; [|done|].
    + exfalso. apply (Hfork sid mid nm (S (draws w) + j1) (S (draws w) + j2)
                        eq_refl ltac:(lia)). done.
    + exfalso. apply (Hfork sid mid nm (S (draws w) + j2) (S (draws w) + j1)
                        eq_refl ltac:(lia)). done.
  - unfold LocalDb.dbAppendMessage. run.
    destruct (sessions w !! sid) as [s|] eqn:Hs; [|done].
    specialize (Happend sid item s eq_refl Hs). unfold stored_id in Happend.
    assert (Hid : ∀ i t, StoredMessage.id
                           (LocalDb._toStoredMessage (TranscriptItem.with_id item i) t)
                         = i) by (intros; by destruct item).
    destruct (TranscriptItem.id item) as [|c i] eqn:Hitem; run; cbn;
      apply (ids_distinct_put w (LocalDb.touch _ _ _)); try done;
      unfold message_ids, LocalDb.touch; cbn [StoredSession.messages];
      rewrite fmap_app; cbn; rewrite Hid;
      (apply NoDup_app; split; [by apply (Hw sid s)|];
       split; [|apply NoDup_singleton]);
      intros x Hx [->|[]%elem_of_nil]%elem_of_cons; by apply Happend.
  - unfold LocalDb.dbUpsertMessage. run.
    destruct (sessions w !! sid) as [s|] eqn:Hs; [|done].
    assert (Hid : ∀ t, StoredMessage.id (LocalDb._toStoredMessage item t)
                       = TranscriptItem.id item) by (intros; by destruct item).
    destruct (Js.findIndex _ _) as [idx|] eqn:Hfind; run; cbn;
      apply (ids_distinct_put w (LocalDb.touch _ _ _)); try done;
      unfold message_ids, LocalDb.touch; cbn [StoredSession.messages].
    + apply findIndex_inv in Hfind as (m & Hm & Hmid & _).
      rewrite list_fmap_insert, Hid, <- Hmid.
      rewrite list_insert_id; [by apply (Hw sid s)|].
      by rewrite list_lookup_fmap, Hm.
    + apply findIndex_None_inv, not_in_message_ids in Hfind.
      rewrite fmap_app. cbn. rewrite Hid.
      apply NoDup_app. split; [by apply (Hw sid s)|].
      split; [|apply NoDup_singleton].
      intros x Hx [->|[]%elem_of_nil]%elem_of_cons. by apply Hfind.
  - unfold LocalDb.dbUpdateMessageContent. run.
    destruct (sessions w !! sid) as [s|] eqn:Hs; [|done].
    destruct (list_find _ _) as [[idx msg]|] eqn:Hfind; [|done]. cbn.
    apply (ids_distinct_put w (LocalDb.touch _ _ _)); [done|].
    unfold message_ids, LocalDb.touch. cbn [StoredSession.messages].
    apply list_find_Some in Hfind as (Hm & _ & _).
    rewrite list_fmap_insert.
    assert (StoredMessage.id (StoredMessage.with_content msg c)
            = StoredMessage.id msg) as -> by (by destruct msg).
    rewrite list_insert_id; [by apply (Hw sid s)|].
    by rewrite list_lookup_fmap, Hm.
  - unfold LocalDb.dbDeleteMessage. run.
    destruct (sessions w !! sid) as [s|] eqn:Hs; [|done].
    case_bool_decide; [done|]. cbn.
    apply (ids_distinct_put w (LocalDb.touch _ _ _)); [done|].
    unfold message_ids, LocalDb.touch. cbn [StoredSession.messages].
    apply (sublist_NoDup _ (message_ids s)); [by apply (Hw sid s)|].
    apply fmap_sublist, sublist_filter.
  - unfold LocalDb.dbUpdateSession. run.
    destruct (sessions w !! sid) as [s|] eqn:Hs; [|done]. cbn.
    apply (ids_distinct_put w (StoredSession.mk _ _ _ _ _ _ _)); [done|].
    by apply (Hw sid s).
  - unfold LocalDb.dbDeleteSession. run. cbn. by apply map_Forall_delete.
Qed.

Lemma message_ids_stay_distinct_witness :
  ids_distinct Demo.w3
  ∧ stored_id Demo.env Demo.w3 Demo.thanks = js "m-thanks"
  ∧ ids_distinct (run_op Demo.env (AppendMessage (js "uuid-00") Demo.thanks) Demo.w3).
Proof.
  assert (H1 : ids_distinct Demo.w1).
  { apply (message_ids_stay_distinct Demo.env (CreateSession (js "topic") (js "be brief"))
             Demo.empty); [apply map_Forall_empty|discriminate..]. }
  assert (H2 : ids_distinct Demo.w2).
  { apply (message_ids_stay_distinct Demo.env (AppendMessage (js "uuid-00") Demo.hello)
             Demo.w1 H1); [|discriminate].
    intros sid item s [= <- <-] Hs. vm_compute in Hs. injection Hs as <-.
    apply (bool_decide_unpack _). vm_compute. exact I. }
  assert (H3 : ids_distinct Demo.w3).
  { apply (message_ids_stay_distinct Demo.env (AppendMessage (js "uuid-00") Demo.reply)
             Demo.w2 H2); [|discriminate].
    intros sid item s [= <- <-] Hs. vm_compute in Hs. injection Hs as <-.
    apply (bool_decide_unpack _). vm_compute. exact I. }
  split; [exact H3|]. split; [vm_compute; reflexivity|].
  apply (message_ids_stay_distinct Demo.env (AppendMessage (js "uuid-00") Demo.thanks)
           Demo.w3 H3); [|discriminate].
  intros sid item s [= <- <-] Hs. vm_compute in Hs. injection Hs as <-.
  apply (bool_decide_unpack _). vm_compute. exact I.
Defined.
